(* ===== verification/_CoqProject ===== *)
-Q . S2P
Prelude.v
Text.v
BTree.v
Core.v
Builtins.v
WasmHost.v
Sdk.v
Boundary.v
Examples.v
RefEngine.v
HostSafety.v
SdkRuntime.v
MergeFn.v
Ticker.v
TokenBucket.v
Paths.v
Metrics.v
Registries.v
Swap.v
UdfLoader.v
Watcher.v
Exporter.v
Serve.v
Logging.v
GuestLog.v
Clib.v
Lua.v
Entries.v
Dispatch.v
Config.v
Reload.v
Gateway.v
RefGateway.v
Threads.v
Routes.v
RefRoutes.v
