(* ===== verification/Prelude.v ===== *)
(** * mcgateway: a verification development of the gateway's data plane

    mcgateway is a memcached proxy that fans a read out to several pools and
    merges the answers.  The proxy is memcached; its routing is Lua ([src/lua]);
    the Rust workspace ([src/rust]) holds the merge engine the Lua code calls.
    This library models that workspace crate by crate and the Lua modules around
    it, and proves what their callers and clients rely on.

    ** The program and the files that model it

    - [mcgateway-core] defines a read entry, a merge result, the [Merge] trait
      and a registry of named merges, with three built-in strategies.
      [Core] has the types and the registry, [Builtins] the strategies loop for
      loop; [BTree] is [std]'s [BTreeMap] as a sorted association list (with its
      abstraction to a finite map), [Text] UTF-8 validation, lossy decoding and
      the order of strings.
    - [mcgateway-wasm-host] runs a merge compiled to WebAssembly: it marshals
      the entries into guest memory, calls the guest under an epoch deadline and
      decodes a packed answer.  [WasmHost] models the whole crate over the class
      [Wasmtime] of the engine operations it calls; [Ticker] the epoch ticker
      thread and its shared handle.
    - [mcgateway-sdk] and [mcgateway-sdk-macros] are the guest side of the same
      ABI: [Sdk] models the runtime and the attribute parser over the class
      [GuestHeap] of a linear memory with an allocator, [MergeFn] the whole
      [merge_fn] macro up to the module it expands to, [GuestLog] the logging
      macros through the host's import.  [Examples] models the three example
      merges.
    - [mcgateway-clib] is the Lua C module.  [TokenBucket] is the log limiter,
      [Metrics] the metrics and the process state ([World]), [Exporter] one
      connection of the [/metrics] endpoint and [Serve] its thread and accept
      loop, [Logging] the stderr logger, [Paths] the part of [std::path] the crate
      uses, [Registries] the composite lookup, [UdfLoader] the directory scan,
      [Watcher] the debounce loop, [Clib] initialisation and every function
      exported to Lua.
    - [src/lua] is the gateway the proxy loads.  [Lua] is the part of the language
      it uses, [Entries] builds merge entries from responses ([entries.lua]),
      [Config] validates a configuration ([config.lua]), [Reload] keeps one in
      service across reloads and builds pools and keyspaces from it
      ([mcgateway.lua], [pools.lua], [keyspaces.lua], the hooks of [proxy.lua]),
      [Routes] has the handlers and routers ([routes.lua]); the reply selection
      is in [Dispatch].

    The remaining files state theorems across components: [Boundary] (host and
    guest together), [HostSafety] (any guest), [SdkRuntime], [Swap] (lookups
    against table swaps), [Dispatch] (what a read records and replies), [Gateway]
    (the module as a transition system), [Threads] (many Lua states at once).
    [RefEngine], [RefGateway] and [RefRoutes] instantiate the interfaces with small
    concrete engines and show that the hypotheses of the theorems can be met.

    ** How the code is represented

    Definitions keep the names of the source, with a prefix where Rust uses a
    path.  Machine integers are [Z] with the wrap-around, checked and saturating
    operations written out below; byte slices, [str] and [String] are lists of
    bytes; [Result] is the monad of the [?] operator below, and error strings are
    constructors, before formatting.  [f64] is the IEEE binary64 of the standard
    library's [SpecFloat].  A Lua value is the type [Val]; an error raised by Lua
    code is an [Err], and [#] may be any border of its table.  A validated
    configuration is its typed reading.  Everything is executable.

    State is passed explicitly: the guest heap and the store, the metrics, the
    log and the signals the process sends itself in [World], the timeouts of a
    socket and the blocking calls made on it in [Conn], the module table of
    [mcgateway.lua].  A clock is the sequence of its readings.  A trait object is the record of its methods.  Concurrency is
    modelled where the code has it: the limiter as the interleaving of its atomic
    operations with arbitrarily stale relaxed loads ([TokenBucket]), the ticker
    and its handle as a step relation ([Ticker]), the watcher against an arbitrary
    channel ([Watcher]), lookups interleaved with table swaps ([Swap]), the calls
    of many Lua states operation by operation ([Threads]).  In [Gateway] a call of
    a Lua state and a batch of the watcher are single steps, which [Threads] and
    [Swap] justify.

    Third-party code is a class or record of operations with its documented
    behaviour as laws: [Wasmtime] and [WasmtimeLaws], [GuestHeap] and
    [GuestHeapLaws] (the global allocator, with [GuestFreeLaws] for strings that
    grow), [RunsModule] (instantiating an
    expanded module), [PromClient] and [PromClientLaws], [LogCrate] and
    [LogCrateLaws], [Mlua] and [MluaBuild], [Notify], [Net]; of memcached's proxy
    [McpPools], [McpRequests] and [McpRouting]; the file system is [Fs], prost's
    codec an argument.

    ** What is proved

    - Boundary: for a guest built with the SDK, a merge call returns exactly what
      the user's function returns on the entries the host was given; a module the
      macro expands to loads with the flags its attribute declares; a guest's log
      line reaches the logger, cut at the last character boundary within 4096
      bytes.  The user's function is assumed to leave the guest heap as large as
      it found it ([PureUser]): its own allocations are not charged to the call.
    - Any guest: results stay in range and bounded, pointer arithmetic never
      wraps, logging stays within its budget, loading requires the handshake,
      errors are classified by their payload, and the ticker lives exactly as
      long as its host.
    - Merges: the built-ins and the example merges compute the selections they
      document.
    - Loader, registries, watcher: a scan binds exactly the loadable,
      non-colliding modules whatever the directory order; all lookups answer
      from one map in which built-ins shadow modules, and a call overlapping a
      swap from one whole table current during it; the debounce loop acts on
      each batch of events once, within its age bound; a batch about the UDF
      directory publishes the rescanned table before the one [SIGHUP] is sent; a
      failed rescan changes nothing.
    - Observability: a merge failure is counted in the one series of its module
      and kind and its log lines are rate-limited under any interleaving; no update of a concurrent
      dispatch is lost; labels come from closed sets and are text; the endpoint
      answers any fragmentation of a request with a well-framed response, and its
      thread is free again after a bounded time whatever its clients do, because
      every blocking call is made with the time left set as the timeout of its
      socket; standard error shows exactly the records the level named by the
      environment lets through.
    - Gateway: from initialisation on, in every reachable state and for any
      modules on disk, [merge] returns a valid index, bounded bytes or nil, and
      the lookups the config validator uses agree.
    - Lua layer: the validator accepts exactly the well-formed configurations; the
      one in service is always the last accepted; a reload hands the workers one
      pool per configured pool and resolved keyspaces, or raises for a bad address
      or what the proxy's constructors raised; a read of a configured key replies
      with what its merge chose among the responses (for the default merge the
      first hit in pool order), refuses multi-key requests, and raises when its
      merge is gone; a write to all pools succeeds exactly when every pool does
      and never hides a concrete error; reads that reply and writes are counted
      once under what the client sees, but for the one case the code documents;
      other keys reach no backend.

    Where the code differs from its own comments or plans the lemmas that show it
    are [portless_reload_raises], [silent_pool_hides_negative] and
    [first_negative_returned] of [RefRoutes], [encode_synthesized_ignores_oom] and
    [doc_example_breaks_ties_last] of [SdkRuntime].

    ** Bounds and fuel

    No operation needs fuel: loops recurse on the entries, on the listing, on the
    arrivals or on the inputs.  The one fuelled function is the reference HTTP
    client of [Exporter], whose fuel is the length of its input and which the
    round-trip theorem shows to suffice.  The round trip of [Boundary] assumes
    that the guest heap has room for the call ([call_need], the sum of its
    allocations), since an exhausted guest fails; that of [GuestLog] the room of
    the text's successive buffers ([format_room]).  Theorems about reads assume what
    the native side needs of its inputs: pool names in UTF-8, [t] flags that fit 64
    bits, lists without holes.

    ** What is not modelled

    The Go operator and the deployment files (another program); the text encoding
    of metrics, which is [prometheus_client]'s; the text of Rust and Lua error
    messages; what wasmtime does when the epoch passes a deadline; configuration
    tables with cycles, sharing or metatables; memory
    limits other than the guest's.  Lines a guest logs while it runs are accounted
    for in [HostSafety] and [GuestLog] and do not enter [World].

    Next: handlers of several workers interleaved with reloads, and the rendering
    of log records to the lines of [Logging]. *)

From Stdlib Require Export ZArith Lia.
From Stdlib Require Import String.
From stdpp Require Export base list gmap option numbers sorting.
From stdpp Require Import strings.
Export list_basics.list list_relations.list.

Open Scope Z_scope.

(** ** Automation *)

(** [mcgw] is the resolution database of the development: the components add
    the side-condition lemmas their clients need most often. *)
Create HintDb mcgw.
(** [mcgw_len] rewrites lengths of the byte-string constructors. *)
Create Rewrite HintDb mcgw_len.

(** ** Results

    Rust's [Result<T, E>]; the error comes first so that [Result E] is the
    monad whose bind is the [?] operator. *)
Inductive Result (E A : Type) : Type :=
| Ok (a : A)
| Err (e : E).
Arguments Ok {E A} a.
Arguments Err {E A} e.

#[export] Instance result_ret E : MRet (Result E) := fun A a => Ok a.
#[export] Instance result_bind E : MBind (Result E) := fun A B f m =>
  match m with Ok a => f a | Err e => Err e end.

(** [Result::map_err]. *)
Definition map_err {E F A} (f : E -> F) (m : Result E A) : Result F A :=
  match m with Ok a => Ok a | Err e => Err (f e) end.

(** [Option::ok_or_else]. *)
Definition ok_or {E A} (o : option A) (e : E) : Result E A :=
  match o with Some a => Ok a | None => Err e end.

(** [Result::ok]. *)
Definition ok {E A} (m : Result E A) : option A :=
  match m with Ok a => Some a | Err _ => None end.

Lemma bind_Ok {E A B} (m : Result E A) (f : A -> Result E B) b :
  (m ≫= f) = Ok b <-> exists a, m = Ok a /\ f a = Ok b.
Proof. destruct m; cbn; naive_solver. Qed.

Lemma bind_Err {E A B} (m : Result E A) (f : A -> Result E B) e :
  (m ≫= f) = Err e <-> m = Err e \/ exists a, m = Ok a /\ f a = Err e.
Proof. destruct m; cbn; naive_solver. Qed.

Lemma ok_or_Ok {E A} (o : option A) (e : E) a : ok_or o e = Ok a <-> o = Some a.
Proof. destruct o; cbn; naive_solver. Qed.

Lemma map_err_Ok {E F A} (f : E -> F) (m : Result E A) a :
  map_err f m = Ok a <-> m = Ok a.
Proof. destruct m; cbn; naive_solver. Qed.

(** [inv_ok] takes apart every successful [?] chain in the context. *)
Ltac inv_ok :=
  repeat match goal with
  | H : mbind _ _ = Ok _ |- _ =>
      let a := fresh "a" in let H1 := fresh "Hm" in
      apply bind_Ok in H as (a & H1 & H)
  | H : ok_or _ _ = Ok _ |- _ => apply ok_or_Ok in H
  | H : map_err _ _ = Ok _ |- _ => apply map_err_Ok in H
  | H : mret _ = Ok _ |- _ => unfold mret, result_ret in H
  | H : Ok _ = Ok _ |- _ => injection H as H
  | H : Err _ = Ok _ |- _ => discriminate H
  | p : (_ * _)%type |- _ => destruct p
  end; subst.

(** [split_if] cases on the scrutinee of the first [if]/[match] of a
    hypothesis or of the goal. *)
Ltac split_if :=
  match goal with
  | H : context [if ?b then _ else _] |- _ => destruct b eqn:?
  | |- context [if ?b then _ else _] => destruct b eqn:?
  end.

(** ** Bytes and text

    [&[u8]], [Vec<u8>], [&str] and [String] are all byte lists; a [str] is one
    that [utf8_valid] accepts. *)
Abbreviation byte := Byte.byte.
Abbreviation bytes := (list Byte.byte).

(** Byte literals: [str "hit"] is the text of [b"hit"] and of ["hit"]. *)
Definition str (s : String.string) : bytes := String.list_byte_of_string s.
Arguments str s%_string.

#[export] Instance byte_eq_dec : EqDecision byte := Byte.byte_eq_dec.
#[export] Program Instance byte_countable : Countable byte :=
  inj_countable Byte.to_N Byte.of_N _.
Next Obligation. apply Byte.of_to_N. Qed.

(** The length of a slice as the [usize] the code computes with. *)
Definition zlen {A} (l : list A) : Z := Z.of_nat (length l).

Lemma zlen_nonneg {A} (l : list A) : 0 <= zlen l.
Proof. unfold zlen; lia. Qed.
Lemma zlen_nil {A} : zlen (@nil A) = 0.
Proof. reflexivity. Qed.
Lemma zlen_cons {A} (x : A) l : zlen (x :: l) = zlen l + 1.
Proof. unfold zlen; cbn; lia. Qed.
Lemma zlen_app {A} (l k : list A) : zlen (l ++ k) = zlen l + zlen k.
Proof. unfold zlen; rewrite length_app; lia. Qed.
Lemma zlen_to_nat {A} (l : list A) : Z.to_nat (zlen l) = length l.
Proof. unfold zlen; lia. Qed.
Lemma zlen_fmap {A B} (f : A -> B) l : zlen (f <$> l) = zlen l.
Proof. unfold zlen; by rewrite length_fmap. Qed.
#[export] Hint Rewrite @zlen_nil @zlen_cons @zlen_app @zlen_to_nat @zlen_fmap : mcgw_len.
#[export] Hint Resolve zlen_nonneg : mcgw.

(** ** Machine integers *)

Definition U32_MAX : Z := 2 ^ 32 - 1.
Definition U64_MAX : Z := 2 ^ 64 - 1.
Definition I64_MAX : Z := 2 ^ 63 - 1.
Definition I64_MIN : Z := - 2 ^ 63.

Definition is_u32 (z : Z) : Prop := 0 <= z <= U32_MAX.
Definition is_u64 (z : Z) : Prop := 0 <= z <= U64_MAX.
Definition is_i64 (z : Z) : Prop := I64_MIN <= z <= I64_MAX.

(** [x as u32], [x as u8] on an unsigned value. *)
Definition as_u32 (z : Z) : Z := z mod 2 ^ 32.
Definition as_u8 (z : Z) : Z := z mod 2 ^ 8.
(** The two's complement reading of 64 bits. *)
Definition as_i64 (z : Z) : Z := (z + 2 ^ 63) mod 2 ^ 64 - 2 ^ 63.

(** [u32::try_from], [i64::try_from] on a non-negative value. *)
Definition try_u32 (z : Z) : option Z := if z <=? U32_MAX then Some z else None.
Definition try_u64 (z : Z) : option Z := if z <=? U64_MAX then Some z else None.
Definition try_i64 (z : Z) : option Z := if z <=? I64_MAX then Some z else None.

(** [checked_mul], [saturating_add], [checked_sub], [div_ceil]. *)
Definition u32_checked_mul (a b : Z) : option Z := try_u32 (a * b).
Definition u64_saturating_add (a b : Z) : Z := Z.min (a + b) U64_MAX.
Definition u64_checked_sub (a b : Z) : option Z := if b <=? a then Some (a - b) else None.
Definition i64_saturating_sub (a b : Z) : Z := Z.max I64_MIN (Z.min I64_MAX (a - b)).
Definition div_ceil (a b : Z) : Z := if a mod b =? 0 then a / b else a / b + 1.

Lemma as_u32_range z : is_u32 (as_u32 z).
Proof. unfold is_u32, as_u32, U32_MAX. pose proof (Z.mod_pos_bound z (2 ^ 32) eq_refl). lia. Qed.
Lemma as_u32_id z : is_u32 z -> as_u32 z = z.
Proof. unfold is_u32, as_u32, U32_MAX. intros. apply Z.mod_small. lia. Qed.
Lemma as_i64_id z : is_i64 z -> as_i64 z = z.
Proof.
  unfold is_i64, as_i64, I64_MIN, I64_MAX. intros.
  rewrite Z.mod_small; lia.
Qed.
Lemma try_u32_Some z n : 0 <= z -> try_u32 z = Some n <-> n = z /\ is_u32 z.
Proof. unfold try_u32, is_u32. intros. destruct (Z.leb_spec z U32_MAX); naive_solver lia. Qed.
Lemma try_u32_ok z : z <= U32_MAX -> try_u32 z = Some z.
Proof. unfold try_u32. intros. destruct (Z.leb_spec z U32_MAX); [done|lia]. Qed.
#[export] Hint Resolve as_u32_range : mcgw.

(** Packing a pair of [u32]s into a [u64], the shape of every value that
    crosses the guest boundary by return. *)
Lemma shiftr_pack_hi hi lo : 0 <= lo < 2 ^ 32 -> Z.shiftr (Z.lor (Z.shiftl hi 32) lo) 32 = hi.
Proof.
  intros Hlo. rewrite Z.shiftr_lor, Z.shiftr_shiftl_l by lia.
  rewrite (Z.shiftr_div_pow2 lo) by lia. rewrite Z.div_small by lia.
  replace (32 - 32) with 0 by lia. by rewrite Z.shiftl_0_r, Z.lor_0_r.
Qed.

Lemma land_pack_lo hi lo n :
  0 <= n <= 32 -> 0 <= lo < 2 ^ n -> Z.land (Z.lor (Z.shiftl hi 32) lo) (Z.ones n) = lo.
Proof.
  intros Hn Hlo. rewrite Z.land_lor_distr_l, !Z.land_ones by lia.
  rewrite (Z.mod_small lo) by lia.
  rewrite Z.shiftl_mul_pow2 by lia.
  replace (hi * 2 ^ 32) with (hi * 2 ^ (32 - n) * 2 ^ n)
    by (rewrite <- Z.mul_assoc, <- Z.pow_add_r by lia; do 2 f_equal; lia).
  by rewrite Z.mod_mul, Z.lor_0_l by lia.
Qed.

Lemma pack_u64 hi lo : is_u32 hi -> 0 <= lo < 2 ^ 32 -> is_u64 (Z.lor (Z.shiftl hi 32) lo).
Proof.
  unfold is_u32, is_u64, U32_MAX, U64_MAX. intros Hhi Hlo.
  assert (Z.land (Z.shiftl hi 32) lo = 0) as Hdisj.
  { rewrite <- (Z.mod_small lo (2 ^ 32)), <- Z.land_ones, (Z.land_comm lo), Z.land_assoc by lia.
    rewrite Z.land_ones, Z.shiftl_mul_pow2, Z.mod_mul by lia. apply Z.land_0_l. }
  rewrite <- Z.lxor_lor, <- Z.add_nocarry_lxor by done. rewrite Z.shiftl_mul_pow2 by lia. lia.
Qed.

(** ** Little-endian codec

    [uN::to_le_bytes] / [uN::from_le_bytes] for a width of [n] bytes. *)
Definition byte_Z (b : byte) : Z := Z.of_N (Byte.to_N b).
Definition byte_of_Z (z : Z) : byte :=
  default Byte.x00 (Byte.of_N (Z.to_N (z mod 256))).

Fixpoint to_le_bytes (n : nat) (z : Z) : bytes :=
  match n with
  | O => []
  | S n => byte_of_Z z :: to_le_bytes n (z / 256)
  end.

Fixpoint from_le_bytes (bs : bytes) : Z :=
  match bs with
  | [] => 0
  | b :: bs => byte_Z b + 256 * from_le_bytes bs
  end.

Lemma byte_Z_range b : 0 <= byte_Z b < 256.
Proof. unfold byte_Z. pose proof (Byte.to_N_bounded b). lia. Qed.

Lemma byte_Z_of_Z z : byte_Z (byte_of_Z z) = z mod 256.
Proof.
  unfold byte_Z, byte_of_Z. pose proof (Z.mod_pos_bound z 256 eq_refl).
  destruct (Byte.of_N _) as [b|] eqn:E; cbn.
  - apply Byte.to_of_N in E. rewrite E. lia.
  - apply Byte.of_N_None_iff in E. lia.
Qed.

Lemma byte_of_Z_Z b : byte_of_Z (byte_Z b) = b.
Proof.
  unfold byte_of_Z. pose proof (byte_Z_range b).
  rewrite Z.mod_small by lia. unfold byte_Z. by rewrite N2Z.id, Byte.of_to_N.
Qed.

Lemma length_to_le_bytes n z : length (to_le_bytes n z) = n.
Proof. revert z; induction n; cbn; intros; by f_equal. Qed.

Lemma from_to_le_bytes n z : from_le_bytes (to_le_bytes n z) = z mod 256 ^ Z.of_nat n.
Proof.
  revert z; induction n as [|n IH]; intros z; cbn [to_le_bytes from_le_bytes].
  - by rewrite Z.mod_1_r.
  - rewrite IH, byte_Z_of_Z, Nat2Z.inj_succ, Z.pow_succ_r by lia.
    by rewrite Z.rem_mul_r by lia.
Qed.

Lemma from_le_bytes_range bs : 0 <= from_le_bytes bs < 256 ^ zlen bs.
Proof.
  induction bs as [|b bs IH]; [by cbn|]. pose proof (zlen_nonneg bs).
  rewrite zlen_cons, Z.pow_add_r by lia.
  cbn [from_le_bytes]. pose proof (byte_Z_range b).
  replace (256 ^ zlen bs * 256 ^ 1) with (256 * 256 ^ zlen bs) by lia. lia.
Qed.

Lemma from_to_le_u32 z : is_u32 z -> from_le_bytes (to_le_bytes 4 z) = z.
Proof. unfold is_u32, U32_MAX. intros. rewrite from_to_le_bytes. apply Z.mod_small. lia. Qed.

Lemma from_to_le_i64 z : is_i64 z -> as_i64 (from_le_bytes (to_le_bytes 8 z)) = z.
Proof.
  unfold is_i64, I64_MIN, I64_MAX, as_i64. intros. rewrite from_to_le_bytes.
  change (256 ^ Z.of_nat 8) with (2 ^ 64).
  rewrite Zplus_mod_idemp_l, Z.mod_small; lia.
Qed.
#[export] Hint Rewrite length_to_le_bytes : mcgw_len.

(** ** Slices of a byte buffer

    [slice l off n] is [&l[off..off+n]] and [splice l off bs] the buffer after
    [l[off..off+bs.len()].copy_from_slice(bs)]; both are only meaningful in
    range, which their users test first. *)
Definition slice {A} (l : list A) (off n : Z) : list A :=
  take (Z.to_nat n) (drop (Z.to_nat off) l).
Definition splice {A} (l : list A) (off : Z) (bs : list A) : list A :=
  take (Z.to_nat off) l ++ bs ++ drop (Z.to_nat off + length bs) l.
Definition in_range {A} (l : list A) (off n : Z) : Prop :=
  0 <= off /\ 0 <= n /\ off + n <= zlen l.

Section Slices.
Context {A : Type}.
Implicit Types l bs : list A.

Lemma zlen_slice l off n : in_range l off n -> zlen (slice l off n) = n.
Proof. unfold in_range, slice, zlen. rewrite length_take, length_drop. lia. Qed.

Lemma zlen_splice l off bs : in_range l off (zlen bs) -> zlen (splice l off bs) = zlen l.
Proof.
  unfold in_range, splice, zlen.
  rewrite !length_app, length_take, length_drop. lia.
Qed.

(** Element view of the two operations: everything below follows from it. *)
Lemma lookup_slice l off n i :
  0 <= off -> 0 <= n ->
  slice l off n !! i = if (Z.of_nat i <? n) then l !! (Z.to_nat off + i)%nat else None.
Proof.
  intros. unfold slice. destruct (Z.ltb_spec (Z.of_nat i) n).
  - rewrite lookup_take_lt by lia. by rewrite lookup_drop.
  - apply lookup_take_ge. lia.
Qed.

Lemma lookup_splice l off bs i :
  in_range l off (zlen bs) ->
  splice l off bs !! i =
    if (off <=? Z.of_nat i) && (Z.of_nat i <? off + zlen bs)
    then bs !! (i - Z.to_nat off)%nat else l !! i.
Proof.
  unfold in_range, splice, zlen. intros [? [? ?]].
  rewrite lookup_app, length_take, Nat.min_l by lia.
  destruct (Z.leb_spec off (Z.of_nat i)); cbn.
  - rewrite lookup_take_ge by lia. rewrite lookup_app.
    destruct (Z.ltb_spec (Z.of_nat i) (off + Z.of_nat (length bs))).
    + destruct (lookup_lt_is_Some_2 bs (i - Z.to_nat off)%nat) as [x ->]; [lia|done].
    + rewrite lookup_ge_None_2 by lia. rewrite lookup_drop. f_equal. lia.
  - destruct (lookup_lt_is_Some_2 (take (Z.to_nat off) l) i) as [x Hx].
    { rewrite length_take. lia. }
    rewrite Hx. rewrite lookup_take_lt in Hx by lia. done.
Qed.

Lemma slice_splice_same l off bs :
  in_range l off (zlen bs) -> slice (splice l off bs) off (zlen bs) = bs.
Proof.
  intros Hr. apply list_eq. intros i. pose proof Hr as [? [? ?]].
  rewrite lookup_slice, lookup_splice by (try assumption; lia).
  destruct (Z.ltb_spec (Z.of_nat i) (zlen bs)).
  - destruct (Z.leb_spec off (Z.of_nat (Z.to_nat off + i))); [|lia].
    destruct (Z.ltb_spec (Z.of_nat (Z.to_nat off + i)) (off + zlen bs)); [|lia].
    cbn. f_equal. lia.
  - symmetry. apply lookup_ge_None_2. unfold zlen in *. lia.
Qed.

Lemma slice_splice_disjoint l off bs off' n :
  in_range l off (zlen bs) -> 0 <= off' -> 0 <= n ->
  off' + n <= off \/ off + zlen bs <= off' ->
  slice (splice l off bs) off' n = slice l off' n.
Proof.
  intros Hr ? ? Hd. apply list_eq. intros i.
  rewrite !lookup_slice, lookup_splice by (try assumption; lia).
  destruct (Z.ltb_spec (Z.of_nat i) n); [|done].
  destruct (Z.leb_spec off (Z.of_nat (Z.to_nat off' + i))); [|done].
  destruct (Z.ltb_spec (Z.of_nat (Z.to_nat off' + i)) (off + zlen bs)); [lia|done].
Qed.

Lemma slice_slice l off n off' n' :
  0 <= off -> 0 <= off' -> 0 <= n' -> off' + n' <= n ->
  slice (slice l off n) off' n' = slice l (off + off') n'.
Proof.
  intros. apply list_eq. intros i. rewrite !lookup_slice by lia.
  destruct (Z.ltb_spec (Z.of_nat i) n'); [|done].
  destruct (Z.ltb_spec (Z.of_nat (Z.to_nat off' + i)) n); [|lia].
  f_equal. lia.
Qed.

Lemma slice_app_at l k m :
  slice (l ++ k ++ m) (zlen l) (zlen k) = k.
Proof.
  unfold slice. rewrite !zlen_to_nat, drop_app_length, take_app_length. done.
Qed.

Lemma slice_split l off n m :
  0 <= off -> 0 <= n -> 0 <= m -> slice l off (n + m) = slice l off n ++ slice l (off + n) m.
Proof.
  intros. unfold slice. rewrite (Z2Nat.inj_add off n), Z2Nat.inj_add by lia.
  rewrite <- drop_drop, take_take_drop. done.
Qed.

Lemma slice_nil l off : slice l off 0 = [].
Proof. reflexivity. Qed.

Lemma slice_full l : slice l 0 (zlen l) = l.
Proof. unfold slice. rewrite zlen_to_nat. cbn. by rewrite firstn_all. Qed.
End Slices.
