(* ===== verification/Text.v ===== *)
(** * Text: the parts of Rust's string library the gateway calls

    [std::str::from_utf8], [String::from_utf8_lossy] and the byte-wise ordering
    of [str] and [String], which is the iteration order of every [BTreeMap] of
    the program.  Text is a byte list; [utf8_valid] is the well-formedness test
    of the Unicode standard (no overlong form, no surrogate, at most U+10FFFF). *)

From Stdlib Require Import String.
From S2P Require Import Prelude.

(** ** UTF-8 validation *)

Definition in_bytes (lo hi : Z) (b : byte) : bool := (lo <=? byte_Z b) && (byte_Z b <=? hi).
Definition is_ascii (b : byte) : bool := byte_Z b <=? 127.
Definition is_cont (b : byte) : bool := in_bytes 128 191 b.
Definition is_lead2 (b : byte) : bool := in_bytes 194 223 b.
(** The admissible first two bytes of a three- and of a four-byte sequence. *)
Definition is_pair3 (b0 b1 : byte) : bool :=
  ((byte_Z b0 =? 224) && in_bytes 160 191 b1) ||
  (in_bytes 225 236 b0 && is_cont b1) ||
  ((byte_Z b0 =? 237) && in_bytes 128 159 b1) ||
  (in_bytes 238 239 b0 && is_cont b1).
Definition is_pair4 (b0 b1 : byte) : bool :=
  ((byte_Z b0 =? 240) && in_bytes 144 191 b1) ||
  (in_bytes 241 243 b0 && is_cont b1) ||
  ((byte_Z b0 =? 244) && in_bytes 128 143 b1).

Fixpoint utf8_valid (bs : bytes) : bool :=
  match bs with
  | [] => true
  | b0 :: r0 =>
      if is_ascii b0 then utf8_valid r0 else
      match r0 with
      | [] => false
      | b1 :: r1 =>
          if is_lead2 b0 then is_cont b1 && utf8_valid r1 else
          match r1 with
          | [] => false
          | b2 :: r2 =>
              if is_pair3 b0 b1 then is_cont b2 && utf8_valid r2 else
              match r2 with
              | [] => false
              | b3 :: r3 => is_pair4 b0 b1 && is_cont b2 && is_cont b3 && utf8_valid r3
              end
          end
      end
  end.

(** [std::str::from_utf8]: the bytes themselves, or no [str] at all. *)
Definition from_utf8 (bs : bytes) : option bytes :=
  if utf8_valid bs then Some bs else None.

Lemma from_utf8_valid bs : utf8_valid bs = true -> from_utf8 bs = Some bs.
Proof. unfold from_utf8. by intros ->. Qed.

(** U+FFFD, the replacement character. *)
Definition replacement : bytes := [Byte.xef; Byte.xbf; Byte.xbd].

(** [String::from_utf8_lossy]: every maximal ill-formed prefix of a sequence
    becomes one replacement character. *)
Fixpoint from_utf8_lossy (bs : bytes) : bytes :=
  match bs with
  | [] => []
  | b0 :: r0 =>
      if is_ascii b0 then b0 :: from_utf8_lossy r0 else
      match r0 with
      | [] => replacement
      | b1 :: r1 =>
          if is_lead2 b0 then
            if is_cont b1 then b0 :: b1 :: from_utf8_lossy r1
            else replacement ++ from_utf8_lossy r0
          else if is_pair3 b0 b1 then
            match r1 with
            | [] => replacement
            | b2 :: r2 =>
                if is_cont b2 then b0 :: b1 :: b2 :: from_utf8_lossy r2
                else replacement ++ from_utf8_lossy r1
            end
          else if is_pair4 b0 b1 then
            match r1 with
            | [] => replacement
            | b2 :: r2 =>
                if is_cont b2 then
                  match r2 with
                  | [] => replacement
                  | b3 :: r3 =>
                      if is_cont b3 then b0 :: b1 :: b2 :: b3 :: from_utf8_lossy r3
                      else replacement ++ from_utf8_lossy r2
                  end
                else replacement ++ from_utf8_lossy r1
            end
          else replacement ++ from_utf8_lossy r0
      end
  end.

(** Induction on the length, for functions that consume one to four bytes. *)
Lemma bytes_len_ind (P : bytes -> Prop) :
  (forall bs, (forall bs', (length bs' < length bs)%nat -> P bs') -> P bs) -> forall bs, P bs.
Proof. intros H bs. induction (well_founded_ltof bytes (@length byte) bs) as [x _ IH]. exact (H x IH). Qed.

(** The lead-byte classes exclude one another. *)
Lemma lead2_not_pair b0 b1 : is_lead2 b0 = true -> is_pair3 b0 b1 = false /\ is_pair4 b0 b1 = false.
Proof. unfold is_lead2, is_pair3, is_pair4, in_bytes. lia. Qed.
Lemma pair3_not_pair4 b0 b1 : is_pair3 b0 b1 = true -> is_pair4 b0 b1 = false.
Proof. unfold is_pair3, is_pair4, in_bytes. lia. Qed.
Lemma ascii_not_lead b0 b1 :
  is_ascii b0 = true -> is_lead2 b0 = false /\ is_pair3 b0 b1 = false /\ is_pair4 b0 b1 = false.
Proof. unfold is_ascii, is_lead2, is_pair3, is_pair4, in_bytes. lia. Qed.

Lemma from_utf8_lossy_id bs : utf8_valid bs = true -> from_utf8_lossy bs = bs.
Proof.
  induction bs as [bs IH] using bytes_len_ind. destruct bs as [|b0 r0]; [done|].
  cbn [utf8_valid from_utf8_lossy]. destruct (is_ascii b0) eqn:?.
  { intros. f_equal. apply IH; [cbn; lia|done]. }
  destruct r0 as [|b1 r1]; [done|]. destruct (is_lead2 b0) eqn:?.
  { intros [-> ?]%andb_prop. do 2 f_equal. apply IH; [cbn; lia|done]. }
  destruct r1 as [|b2 r2]; [done|]. destruct (is_pair3 b0 b1) eqn:?.
  { intros [-> ?]%andb_prop. do 3 f_equal. apply IH; [cbn; lia|done]. }
  destruct r2 as [|b3 r3]; [done|].
  intros [[[-> ->]%andb_prop ->]%andb_prop ?]%andb_prop.
  do 4 f_equal. apply IH; [cbn; lia|done].
Qed.

Lemma utf8_valid_replacement bs : utf8_valid (replacement ++ bs) = utf8_valid bs.
Proof. reflexivity. Qed.

Lemma utf8_valid_lossy bs : utf8_valid (from_utf8_lossy bs) = true.
Proof.
  induction bs as [bs IH] using bytes_len_ind. destruct bs as [|b0 r0]; [done|].
  cbn [from_utf8_lossy].
  repeat first
    [ progress cbn [utf8_valid]
    | rewrite utf8_valid_replacement
    | rewrite IH by (cbn; lia)
    | match goal with
      | H : is_ascii ?b = _ |- context [is_ascii ?b] => rewrite H
      | H : is_lead2 ?b = _ |- context [is_lead2 ?b] => rewrite H
      | H : is_pair3 ?b ?c = _ |- context [is_pair3 ?b ?c] => rewrite H
      | H : is_pair4 ?b ?c = _ |- context [is_pair4 ?b ?c] => rewrite H
      | H : is_cont ?b = _ |- context [is_cont ?b] => rewrite H
      end
    | case_match
    | reflexivity ].
Qed.

(** Replacement at most triples a byte string. *)
Lemma length_from_utf8_lossy bs : (length (from_utf8_lossy bs) <= 3 * length bs)%nat.
Proof.
  induction bs as [bs IH] using bytes_len_ind. destruct bs as [|b0 r0]; [done|].
  cbn [from_utf8_lossy].
  repeat first
    [ case_match
    | match goal with
      | |- context [length (from_utf8_lossy ?r)] =>
          lazymatch goal with
          | _ : (length (from_utf8_lossy r) <= _)%nat |- _ => fail
          | _ => assert (length (from_utf8_lossy r) <= 3 * length r)%nat by (apply IH; cbn; lia)
          end
      end
    | progress cbn [length app replacement] in *
    | lia ].
Qed.

(** ** The ordering of [str]

    [Ord for str] compares bytes; [str_ltb] is its strict part. *)
Fixpoint str_ltb (a b : bytes) : bool :=
  match a, b with
  | _, [] => false
  | [], _ :: _ => true
  | x :: a, y :: b =>
      (byte_Z x <? byte_Z y) || ((byte_Z x =? byte_Z y) && str_ltb a b)
  end.

Lemma byte_Z_inj x y : byte_Z x = byte_Z y -> x = y.
Proof. intros H. rewrite <- (byte_of_Z_Z x), <- (byte_of_Z_Z y). by f_equal. Qed.

Lemma str_ltb_irrefl a : str_ltb a a = false.
Proof. induction a as [|x a IH]; cbn; [done|]. rewrite IH. lia. Qed.

Lemma str_ltb_trans a b c : str_ltb a b = true -> str_ltb b c = true -> str_ltb a c = true.
Proof.
  revert b c; induction a as [|x a IH]; intros [|y b] [|z c]; cbn; try done.
  intros H1 H2. specialize (IH b c).
  destruct (str_ltb a b), (str_ltb b c), (str_ltb a c); lia || (cbn in *; naive_solver lia).
Qed.

Lemma str_ltb_total a b : str_ltb a b = false -> str_ltb b a = false -> a = b.
Proof.
  revert b; induction a as [|x a IH]; intros [|y b]; cbn; try done.
  intros H1 H2. assert (byte_Z x = byte_Z y) as E by lia.
  rewrite (byte_Z_inj x y E), (IH b); [done| |]; rewrite E, Z.ltb_irrefl, Z.eqb_refl in *; cbn in *; congruence.
Qed.

Lemma str_ltb_asym a b : str_ltb a b = true -> str_ltb b a = false.
Proof.
  intros H. destruct (str_ltb b a) eqn:E; [|done].
  pose proof (str_ltb_trans _ _ _ H E). by rewrite str_ltb_irrefl in *.
Qed.
#[export] Hint Resolve str_ltb_irrefl str_ltb_trans str_ltb_asym : mcgw.
