(* ===== verification/BTree.v ===== *)
(** * BTree: [std::collections::BTreeMap] keyed by text

    The program keeps its name tables in [BTreeMap<&str, _>] and
    [BTreeMap<String, _>] and relies on two things only: insertion replaces, and
    iteration is in key order.  A map is its sorted list of bindings.  [bt_wf]
    is the representation invariant; [bt_abs] relates a well-formed map to the
    finite map of its bindings. *)

From S2P Require Import Prelude Text.

Section BTreeMap.
Context {V : Type}.

Abbreviation BTreeMap := (list (bytes * V)).
Implicit Types m : BTreeMap.

Definition bt_new : BTreeMap := [].

Fixpoint bt_insert (k : bytes) (v : V) m : BTreeMap :=
  match m with
  | [] => [(k, v)]
  | (k', v') :: m' =>
      if str_ltb k k' then (k, v) :: m
      else if str_ltb k' k then (k', v') :: bt_insert k v m'
      else (k, v) :: m'
  end.

Fixpoint bt_get (k : bytes) m : option V :=
  match m with
  | [] => None
  | (k', v') :: m' =>
      if str_ltb k k' then None
      else if str_ltb k' k then bt_get k m'
      else Some v'
  end.

Definition bt_contains (k : bytes) m : bool :=
  match bt_get k m with Some _ => true | None => false end.

Definition bt_keys m : list bytes := fst <$> m.

(** Keys strictly increasing. *)
Fixpoint bt_wf m : Prop :=
  match m with
  | [] => True
  | (k, _) :: m' => Forall (fun kv => str_ltb k kv.1 = true) m' /\ bt_wf m'
  end.

Lemma bt_wf_new : bt_wf bt_new.
Proof. done. Qed.

Lemma bt_insert_Forall (P : bytes * V -> Prop) k v m :
  P (k, v) -> Forall P m -> Forall P (bt_insert k v m).
Proof.
  intros Hk. induction 1 as [|[k' v'] m Hkv Hm IH]; cbn; [by constructor|].
  destruct (str_ltb k k'); [by repeat constructor|].
  destruct (str_ltb k' k); by constructor.
Qed.

Lemma bt_wf_insert k v m : bt_wf m -> bt_wf (bt_insert k v m).
Proof.
  induction m as [|[k' v'] m IH]; cbn; [by repeat constructor|]. intros [Hlt Hwf].
  destruct (str_ltb k k') eqn:E1; cbn.
  - split; [|done]. constructor; [done|].
    eapply Forall_impl; [exact Hlt|]. cbn. eauto with mcgw.
  - destruct (str_ltb k' k) eqn:E2; cbn.
    + split; [|auto]. by apply bt_insert_Forall.
    + rewrite (str_ltb_total _ _ E1 E2). done.
Qed.

(** A key below every key of the map is not bound. *)
Lemma bt_get_below k m : Forall (fun kv => str_ltb k kv.1 = true) m -> bt_get k m = None.
Proof. induction 1 as [|[k' v'] m Hk _ IH]; cbn in *; [done|]. by rewrite Hk. Qed.

Lemma bt_get_insert k v m k' :
  bt_wf m -> bt_get k' (bt_insert k v m) = if decide (k' = k) then Some v else bt_get k' m.
Proof.
  induction m as [|[k0 v0] m IH]; cbn.
  - intros _. case_decide as E; [subst; by rewrite str_ltb_irrefl|].
    repeat split_if; try done. exfalso; eauto using str_ltb_total.
  - intros [Hlt Hwf]. specialize (IH Hwf).
    destruct (str_ltb k k0) eqn:E1; cbn.
    { case_decide as E; [subst; by rewrite str_ltb_irrefl|].
      destruct (str_ltb k' k) eqn:E3.
      - rewrite (str_ltb_trans _ _ _ E3 E1). done.
      - destruct (str_ltb k k') eqn:E4; [done|].
        exfalso; eauto using str_ltb_total. }
    destruct (str_ltb k0 k) eqn:E2; cbn.
    { rewrite IH. case_decide as E; [subst; by rewrite E1, E2|done]. }
    assert (k = k0) as -> by eauto using str_ltb_total.
    case_decide as E; [subst; by rewrite str_ltb_irrefl|].
    repeat split_if; try done. exfalso; eauto using str_ltb_total.
Qed.

Lemma bt_get_elem k v m : bt_wf m -> bt_get k m = Some v <-> (k, v) ∈ m.
Proof.
  induction m as [|[k0 v0] m IH]; cbn [bt_get bt_wf].
  { intros _. split; [done|]. intros H. by apply not_elem_of_nil in H. }
  intros [Hlt Hwf]. rewrite elem_of_cons, <- (IH Hwf).
  destruct (str_ltb k k0) eqn:E1.
  - split; [done|]. intros [[= -> ->]|H%(IH Hwf)]; [by rewrite str_ltb_irrefl in E1|].
    rewrite Forall_forall in Hlt. specialize (Hlt _ H). cbn in Hlt.
    rewrite (str_ltb_asym _ _ E1) in Hlt. done.
  - destruct (str_ltb k0 k) eqn:E2.
    + split; [auto|]. intros [[= -> ->]|H]; [by rewrite str_ltb_irrefl in E2|done].
    + assert (k = k0) as -> by eauto using str_ltb_total.
      split; [intros [= ->]; auto|]. intros [[= ->]|H]; [done|].
      by rewrite (bt_get_below _ _ Hlt) in H.
Qed.

Lemma bt_contains_keys k m : bt_wf m -> bt_contains k m = true <-> k ∈ bt_keys m.
Proof.
  intros Hwf. unfold bt_contains, bt_keys. rewrite list_elem_of_fmap.
  split.
  - destruct (bt_get k m) as [v|] eqn:E; [|done]. intros _.
    exists (k, v). split; [done|]. by apply bt_get_elem.
  - intros ([k' v] & -> & H). cbn. apply bt_get_elem in H; [|done]. by rewrite H.
Qed.

(** The keys come out strictly sorted, hence without duplicates. *)
Definition str_lt (a b : bytes) : Prop := str_ltb a b = true.

Lemma bt_keys_sorted m : bt_wf m -> StronglySorted str_lt (bt_keys m).
Proof.
  induction m as [|[k v] m IH]; cbn; [constructor|]. intros [Hlt Hwf].
  constructor; [auto|]. by apply Forall_fmap.
Qed.

Lemma bt_keys_NoDup m : bt_wf m -> NoDup (bt_keys m).
Proof.
  intros H%bt_keys_sorted. induction H as [|k ks _ IH Hk]; constructor; [|done].
  intros Hin. rewrite Forall_forall in Hk. specialize (Hk _ Hin).
  unfold str_lt in Hk. by rewrite str_ltb_irrefl in Hk.
Qed.

Lemma bt_keys_insert k v m k' :
  bt_wf m -> k' ∈ bt_keys (bt_insert k v m) <-> k' = k \/ k' ∈ bt_keys m.
Proof.
  intros Hwf. rewrite <- !bt_contains_keys by auto using bt_wf_insert.
  unfold bt_contains. rewrite bt_get_insert by done.
  case_decide; naive_solver.
Qed.

Lemma bt_contains_insert k v m k' :
  bt_wf m -> bt_contains k' (bt_insert k v m) = bool_decide (k' = k) || bt_contains k' m.
Proof.
  intros Hwf. unfold bt_contains. rewrite bt_get_insert by done.
  case_decide; [rewrite bool_decide_true by done|rewrite bool_decide_false by done]; done.
Qed.

(** Inserting every binding of one map into another ([for (k, v) in m' { m.insert(k, v) }]). *)
Definition bt_extend (m kvs : BTreeMap) : BTreeMap :=
  foldl (fun m kv => bt_insert kv.1 kv.2 m) m kvs.

Lemma bt_wf_extend kvs m : bt_wf m -> bt_wf (bt_extend m kvs).
Proof.
  revert m; induction kvs as [|[k v] kvs IH]; intros m Hm; [done|].
  apply IH. by apply bt_wf_insert.
Qed.

Lemma bt_get_extend kvs m k :
  bt_wf m -> bt_wf kvs ->
  bt_get k (bt_extend m kvs) = match bt_get k kvs with Some v => Some v | None => bt_get k m end.
Proof.
  revert m; induction kvs as [|[k0 v0] kvs IH]; intros m Hm Hk; [done|]. destruct Hk as [Hlt Hk].
  change (bt_extend m ((k0, v0) :: kvs)) with (bt_extend (bt_insert k0 v0 m) kvs).
  rewrite IH, bt_get_insert by auto using bt_wf_insert. cbn [bt_get].
  destruct (str_ltb k k0) eqn:E1.
  - rewrite (bt_get_below k kvs), decide_False; [done|intros ->; by rewrite str_ltb_irrefl in E1|].
    eapply Forall_impl; [exact Hlt|]. cbn. eauto with mcgw.
  - destruct (str_ltb k0 k) eqn:E2.
    + destruct (bt_get k kvs); [done|]. rewrite decide_False; [done|].
      intros ->. by rewrite str_ltb_irrefl in E2.
    + assert (k = k0) as -> by eauto using str_ltb_total.
      by rewrite (bt_get_below _ _ Hlt), decide_True.
Qed.

Lemma bt_keys_extend kvs m k :
  bt_wf m -> k ∈ bt_keys (bt_extend m kvs) <-> k ∈ bt_keys kvs \/ k ∈ bt_keys m.
Proof.
  revert m; induction kvs as [|[k0 v0] kvs IH]; intros m Hm.
  - cbn. set_solver.
  - change (bt_extend m ((k0, v0) :: kvs)) with (bt_extend (bt_insert k0 v0 m) kvs).
    rewrite IH, bt_keys_insert by auto using bt_wf_insert. cbn. set_solver.
Qed.

(** A well-formed map is determined by its bindings. *)
Lemma bt_ext m1 m2 : bt_wf m1 -> bt_wf m2 -> (forall k, bt_get k m1 = bt_get k m2) -> m1 = m2.
Proof.
  intros H1 H2 Hg.
  assert (forall k v, (k, v) ∈ m1 <-> (k, v) ∈ m2) as He.
  { intros k v. rewrite <- !bt_get_elem by done. by rewrite Hg. }
  clear Hg. revert m2 H2 He. induction m1 as [|[k1 v1] m1 IH]; intros [|[k2 v2] m2] H2 He; [done| | |].
  - exfalso. eapply not_elem_of_nil, He, elem_of_cons. by left.
  - exfalso. eapply not_elem_of_nil, He, elem_of_cons. by left.
  - destruct H1 as [L1 H1], H2 as [L2 H2]. rewrite Forall_forall in L1, L2.
    assert ((k1, v1) ∈ (k2, v2) :: m2) as Ha by (apply He; constructor).
    assert ((k2, v2) ∈ (k1, v1) :: m1) as Hb by (apply He; constructor).
    assert ((k1, v1) = (k2, v2)) as [= -> ->].
    { apply elem_of_cons in Ha as [?|Ha]; [done|]. apply elem_of_cons in Hb as [?|Hb]; [done|].
      specialize (L1 _ Hb). specialize (L2 _ Ha). cbn in L1, L2.
      by rewrite (str_ltb_asym _ _ L1) in L2. }
    f_equal. apply (IH H1 m2 H2). intros k v. specialize (He k v).
    rewrite !elem_of_cons in He.
    assert (forall m : BTreeMap, (forall x, x ∈ m -> str_ltb k2 x.1 = true) -> (k, v) ∈ m -> (k, v) <> (k2, v2)) as Hne.
    { intros m Hm Hin [= -> ->]. specialize (Hm _ Hin). cbn in Hm. by rewrite str_ltb_irrefl in Hm. }
    specialize (Hne m1 L1) as N1. specialize (Hne m2 L2) as N2. tauto.
Qed.

(** Abstraction to a finite map, and its commuting square. *)
Definition bt_abs m : gmap bytes V := list_to_map m.

Lemma lookup_bt_abs m k : bt_wf m -> bt_abs m !! k = bt_get k m.
Proof.
  intros Hwf. unfold bt_abs. destruct (bt_get k m) as [v|] eqn:E.
  - apply bt_get_elem in E; [|done].
    apply elem_of_list_to_map_1; [by apply bt_keys_NoDup|done].
  - apply not_elem_of_list_to_map_1. intros H.
    apply bt_contains_keys in H; [|done]. unfold bt_contains in H. by rewrite E in H.
Qed.

Lemma bt_abs_insert k v m : bt_wf m -> bt_abs (bt_insert k v m) = <[k:=v]> (bt_abs m).
Proof.
  intros Hwf. apply map_eq. intros k'.
  rewrite lookup_bt_abs, bt_get_insert, lookup_insert by auto using bt_wf_insert.
  rewrite lookup_bt_abs by done. repeat case_decide; congruence.
Qed.
End BTreeMap.

Abbreviation BTreeMap V := (list (bytes * V)).
#[export] Hint Resolve bt_wf_new bt_wf_insert bt_wf_extend bt_keys_NoDup bt_keys_sorted : mcgw.
