(* ===== verification/Core.v ===== *)
(** * Core: the merge contract ([mcgateway-core/src/lib.rs])

    [Status], [Entry], [MergeResult], the [Merge] trait and the [Registry] of
    named merges.  A trait object is the record of its methods; [apply] threads
    the process state [W] (metrics, logs, clock) because an implementation
    reached through the registry may observe itself, while the built-ins leave
    it alone. *)

From S2P Require Import Prelude Text BTree.

Inductive Status := Hit | Miss | Error.

#[export] Instance Status_eq_dec : EqDecision Status.
Proof. solve_decision. Defined.

Record Entry := mkEntry {
  key : bytes;
  pool : bytes;
  status : Status;
  t : option Z;
  value : option bytes;
  line : option bytes;
}.

(** What the Rust types guarantee of an [Entry]: [pool] is a [str], [t] an
    [i64], and the byte slices fit a host address space. *)
Record entry_wf (e : Entry) : Prop := {
  pool_utf8 : utf8_valid (pool e) = true;
  t_i64 : forall v, t e = Some v -> is_i64 v;
}.

Inductive MergeResult :=
| Winner (i : Z)
| Synthesized (bs : bytes)
| MissResult.

Definition is_hit (e : Entry) : bool := bool_decide (status e = Hit).

(** ** The [Merge] trait *)
Record Merge (W : Type) := mkMerge {
  apply : list Entry -> W -> MergeResult * W;
  required_flags : bytes;
}.
Arguments mkMerge {W}.
Arguments apply {W}.
Arguments required_flags {W}.

(** The default method body of [Merge::required_flags]. *)
Definition default_required_flags : bytes := [].

(** ** [Registry] *)
Record Registry (W : Type) := mkRegistry { by_name : BTreeMap (Merge W) }.
Arguments mkRegistry {W}.
Arguments by_name {W}.

Module Registry.
Section WithW.
Context {W : Type}.

Definition new : Registry W := mkRegistry bt_new.

Definition insert (name : bytes) (m : Merge W) (r : Registry W) : Registry W :=
  mkRegistry (bt_insert name m (by_name r)).

Definition get (name : bytes) (r : Registry W) : option (Merge W) :=
  bt_get name (by_name r).

Definition has (name : bytes) (r : Registry W) : bool :=
  bt_contains name (by_name r).

Definition names (r : Registry W) : list bytes := bt_keys (by_name r).

Definition wf (r : Registry W) : Prop := bt_wf (by_name r).

Lemma wf_new : wf new.
Proof. done. Qed.

Lemma wf_insert name m r : wf r -> wf (insert name m r).
Proof. apply bt_wf_insert. Qed.

Lemma get_insert name m r name' :
  wf r -> get name' (insert name m r) = if decide (name' = name) then Some m else get name' r.
Proof. apply bt_get_insert. Qed.

Lemma has_get name r : has name r = true <-> exists m, get name r = Some m.
Proof. unfold has, get, bt_contains. destruct (bt_get _ _); naive_solver. Qed.

Lemma has_names name r : wf r -> has name r = true <-> name ∈ names r.
Proof. apply bt_contains_keys. Qed.
End WithW.
End Registry.
#[export] Hint Resolve Registry.wf_new Registry.wf_insert : mcgw.
