(* ===== verification/Builtins.v ===== *)
(** * Builtins: the native merges ([mcgateway-core/src/builtins.rs])

    The three loops as they are written, the table [register] builds, and what
    they compute: first-hit is the least hit index, last-write-wins the stable
    argmax of the [t] flag with an absent flag below every present one. *)

From Stdlib Require Import String.
From S2P Require Import Prelude Text BTree Core.

(** ** [FirstHit] and [PoolPreferred] *)
Module FirstHit.
(** The body of the [for] loop, [i] being the enumeration counter. *)
Fixpoint loop (i : Z) (entries : list Entry) : MergeResult :=
  match entries with
  | [] => MissResult
  | e :: rest => if bool_decide (status e = Hit) then Winner i else loop (i + 1) rest
  end.
Definition apply (entries : list Entry) : MergeResult := loop 0 entries.
End FirstHit.

Module PoolPreferred.
Definition apply (entries : list Entry) : MergeResult := FirstHit.apply entries.
End PoolPreferred.

(** ** [LastWriteWins] *)
Module LastWriteWins.
Definition Best : Type := option (Z * option Z).

(** One iteration on entry [e] at index [i]. *)
Definition step (i : Z) (e : Entry) (best : Best) : Best :=
  if bool_decide (status e <> Hit) then best
  else match best with
       | None => Some (i, t e)
       | Some (_, best_t) =>
           match t e with
           | Some this_t =>
               match best_t with
               | None => Some (i, Some this_t)
               | Some b => if this_t >? b then Some (i, Some this_t) else best
               end
           | None => best
           end
       end.

Fixpoint loop (i : Z) (best : Best) (entries : list Entry) : Best :=
  match entries with
  | [] => best
  | e :: rest => loop (i + 1) (step i e best) rest
  end.

Definition apply (entries : list Entry) : MergeResult :=
  match loop 0 None entries with
  | Some (i, _) => Winner i
  | None => MissResult
  end.

Definition required_flags : bytes := str "t".
End LastWriteWins.

(** ** [register] *)
Section Register.
Context {W : Type}.

(** A pure strategy as a trait object. *)
Definition pure_merge (f : list Entry -> MergeResult) (flags : bytes) : Merge W :=
  mkMerge (fun es w => (f es, w)) flags.

Definition first_hit : Merge W := pure_merge FirstHit.apply default_required_flags.
Definition pool_preferred : Merge W := pure_merge PoolPreferred.apply default_required_flags.
Definition last_write_wins : Merge W :=
  pure_merge LastWriteWins.apply LastWriteWins.required_flags.

Definition register (reg : Registry W) : Registry W :=
  Registry.insert (str "last-write-wins") last_write_wins
    (Registry.insert (str "pool-preferred") pool_preferred
      (Registry.insert (str "first-hit") first_hit reg)).
End Register.

(** ** What first-hit computes *)

Definition no_hit (es : list Entry) : Prop := Forall (fun e => status e <> Hit) es.

(** [winner_at es i P]: [i] is a valid index of [es] and its entry satisfies [P]. *)
Definition winner_at (es : list Entry) (i : Z) (P : Entry -> Prop) : Prop :=
  0 <= i /\ exists e, es !! Z.to_nat i = Some e /\ P e.

Lemma first_hit_loop_spec k es :
  match FirstHit.loop k es with
  | Winner i => k <= i /\ exists e, es !! Z.to_nat (i - k) = Some e /\ status e = Hit
                 /\ no_hit (take (Z.to_nat (i - k)) es)
  | MissResult => no_hit es
  | Synthesized _ => False
  end.
Proof.
  revert k; induction es as [|e es IH]; intros k; cbn [FirstHit.loop]; [by constructor|].
  case_bool_decide as E.
  - split; [lia|]. rewrite Z.sub_diag. exists e. repeat split; [done|constructor].
  - specialize (IH (k + 1)). destruct (FirstHit.loop (k + 1) es) as [i| |]; [|done|by constructor].
    destruct IH as (? & e' & He' & Hh & Hn). split; [lia|].
    exists e'. replace (Z.to_nat (i - k)) with (S (Z.to_nat (i - (k + 1)))) by lia.
    cbn. repeat split; [done|done|by constructor].
Qed.

(** First-hit returns the index of the earliest hit entry, and a miss
    exactly when no entry is a hit; it never synthesizes. *)
Theorem first_hit_least es :
  match FirstHit.apply es with
  | Winner i => winner_at es i (fun e => status e = Hit) /\ no_hit (take (Z.to_nat i) es)
  | MissResult => no_hit es
  | Synthesized _ => False
  end.
Proof.
  pose proof (first_hit_loop_spec 0 es) as H. unfold FirstHit.apply, winner_at.
  destruct (FirstHit.loop 0 es) as [i| |]; [|done|done].
  destruct H as (? & e & H). rewrite Z.sub_0_r in H. naive_solver.
Qed.

(** ** What last-write-wins computes *)

(** The order the merge ranks TTLs by: an absent [t] is below every present one. *)
Definition ttl_lt (a b : option Z) : Prop :=
  match a, b with
  | None, Some _ => True
  | Some x, Some y => x < y
  | _, None => False
  end.

(** [is_lww es i]: entry [i] is a hit, no hit ranks above it, and every earlier
    hit ranks strictly below it.  This is the declarative specification: it has
    at most one solution. *)
Definition is_lww (es : list Entry) (i : Z) : Prop :=
  winner_at es i (fun e => status e = Hit /\
    forall j e', es !! j = Some e' -> status e' = Hit ->
      ~ ttl_lt (t e) (t e') /\ (Z.of_nat j < i -> ttl_lt (t e') (t e))).

Lemma ttl_lt_trans a b c : ttl_lt a b -> ttl_lt b c -> ttl_lt a c.
Proof. destruct a, b, c; cbn; try done; lia. Qed.
Lemma ttl_lt_irrefl a : ~ ttl_lt a a.
Proof. destruct a; cbn; lia. Qed.
Lemma ttl_lt_total a b : ttl_lt a b \/ a = b \/ ttl_lt b a.
Proof.
  destruct a as [x|], b as [y|]; cbn; auto.
  destruct (Z.lt_trichotomy x y) as [?|[->|?]]; auto.
Qed.
Lemma ttl_lt_not_lt a b c : ttl_lt a b -> ~ ttl_lt a c -> ttl_lt c b.
Proof. destruct a, b, c; cbn; try done; lia. Qed.

Lemma is_lww_unique es i j : is_lww es i -> is_lww es j -> i = j.
Proof.
  intros (Hi & ei & Hei & Hhi & Hbi) (Hj & ej & Hej & Hhj & Hbj).
  destruct (Hbi _ _ Hej Hhj) as [H1 H2], (Hbj _ _ Hei Hhi) as [H3 H4].
  destruct (Z.lt_trichotomy i j) as [?|[?|?]]; [|done|].
  - exfalso. apply H1, H4. lia.
  - exfalso. apply H3, H2. lia.
Qed.

(** The loop invariant, over the prefix already read. *)
Definition best_ok (pre : list Entry) (best : LastWriteWins.Best) : Prop :=
  match best with
  | None => no_hit pre
  | Some (i, bt) => is_lww pre i /\ winner_at pre i (fun e => t e = bt)
  end.

Lemma winner_at_snoc es e i P : winner_at es i P -> winner_at (es ++ [e]) i P.
Proof. intros (? & e' & He & HP). split; [done|]. exists e'. by rewrite (lookup_app_l_Some _ _ _ _ He). Qed.

Lemma winner_at_last es e P : P e -> winner_at (es ++ [e]) (zlen es) P.
Proof.
  intros HP. split; [auto with mcgw|]. exists e. rewrite zlen_to_nat.
  split; [by apply list_lookup_middle|done].
Qed.

Lemma lookup_snoc_inv {A} (l : list A) x j y :
  (l ++ [x]) !! j = Some y -> l !! j = Some y \/ (j = length l /\ y = x).
Proof. intros [H|[? [H ?]%list_lookup_singleton_Some]]%lookup_app_Some; [auto|right; split; [lia|done]]. Qed.

(** A hit that does not beat the current best leaves it the winner. *)
Lemma is_lww_keep pre i e :
  is_lww pre i ->
  (status e = Hit -> winner_at pre i (fun eb => ~ ttl_lt (t eb) (t e))) ->
  is_lww (pre ++ [e]) i.
Proof.
  intros (Hi & eb & Heb & Hh & Hb) Hle. split; [done|]. exists eb.
  split; [by apply lookup_app_l_Some|]. split; [done|].
  intros j e' [Hj|[-> ->]]%lookup_snoc_inv He'; [by apply Hb|].
  destruct (Hle He') as (_ & eb' & Heb' & Hn). simplify_eq. split; [done|].
  apply lookup_lt_Some in Heb. lia.
Qed.

(** A hit above the current best, or the first hit, takes over. *)
Lemma is_lww_replace pre e :
  status e = Hit ->
  (forall j e', pre !! j = Some e' -> status e' = Hit -> ttl_lt (t e') (t e)) ->
  is_lww (pre ++ [e]) (zlen pre).
Proof.
  intros Hh Hall. apply winner_at_last. split; [done|].
  intros j e' [Hj|[-> ->]]%lookup_snoc_inv He'.
  - specialize (Hall _ _ Hj He'). split; [|done]. intros Hlt.
    eapply ttl_lt_irrefl, ttl_lt_trans; eauto.
  - split; [apply ttl_lt_irrefl|]. unfold zlen. lia.
Qed.

Lemma lww_step_ok pre e best :
  best_ok pre best -> best_ok (pre ++ [e]) (LastWriteWins.step (zlen pre) e best).
Proof.
  unfold LastWriteWins.step. case_bool_decide as Eh.
  - destruct best as [[i bt]|]; cbn.
    + intros [Hl Hw]. split; [|by apply winner_at_snoc]. apply is_lww_keep; naive_solver.
    + intros. apply Forall_app. split; [done|]. by constructor.
  - assert (status e = Hit) as Hhit by (destruct (status e); naive_solver). clear Eh.
    destruct best as [[i bt]|]; cbn.
    + intros [Hl Hw]. pose proof Hl as (Hi & eb & Heb & Hh & Hb).
      destruct Hw as (_ & eb' & Heb' & Hbt). rewrite Heb in Heb'. injection Heb' as <-.
      assert (ttl_lt bt (t e) \/ ~ ttl_lt bt (t e)) as [Hlt|Hge]
        by (destruct (ttl_lt_total bt (t e)) as [?|[->|?]]; [auto|right; apply ttl_lt_irrefl|
              right; intros ?; eapply ttl_lt_irrefl, ttl_lt_trans; eauto]).
      * assert (best_ok (pre ++ [e]) (Some (zlen pre, t e))) as Hnew.
        { split; [|by apply winner_at_last]. apply is_lww_replace; [done|].
          intros j e' Hj Hhj. destruct (Hb _ _ Hj Hhj) as [Hn _].
          eapply ttl_lt_not_lt; [|exact Hn]. by rewrite Hbt. }
        destruct (t e) as [te|], bt as [b|]; cbn in Hlt; try done.
        rewrite (proj2 (Z.gtb_lt te b)) by lia. done.
      * assert (best_ok (pre ++ [e]) (Some (i, bt))) as Hkeep.
        { split; [apply is_lww_keep; [done|]|apply winner_at_snoc]; (split; [done|]); exists eb; split; naive_solver. }
        destruct (t e) as [te|], bt as [b|]; cbn in Hge; try done; [].
        destruct (te >? b) eqn:E; [apply Z.gtb_lt in E; lia|done].
    + intros Hno. split; [|by apply winner_at_last]. apply is_lww_replace; [done|].
      intros j e' Hj Hhj. unfold no_hit in Hno. rewrite Forall_forall in Hno. exfalso.
      eapply Hno; [|done]. by eapply list_elem_of_lookup_2.
Qed.

Lemma lww_loop_ok pre best es :
  best_ok pre best -> best_ok (pre ++ es) (LastWriteWins.loop (zlen pre) best es).
Proof.
  revert pre best; induction es as [|e es IH]; intros pre best Hok; cbn.
  - by rewrite app_nil_r.
  - apply (lww_step_ok pre e) in Hok. apply IH in Hok. revert Hok.
    rewrite zlen_app, zlen_cons, <- app_assoc. done.
Qed.

Lemma lww_apply_ok es :
  match LastWriteWins.apply es with
  | Winner i => is_lww es i
  | MissResult => no_hit es
  | Synthesized _ => False
  end.
Proof.
  assert (best_ok [] None) as H0 by constructor.
  apply (lww_loop_ok [] None es) in H0. unfold LastWriteWins.apply.
  change (best_ok es (LastWriteWins.loop 0 None es)) in H0.
  destruct (LastWriteWins.loop 0 None es) as [[i bt]|]; [exact (proj1 H0)|exact H0].
Qed.

(** C7: last-write-wins returns the stable argmax of the [t] flag over the hits
    (entries without [t] never displace one that has it, ties keep the earlier
    index), and a miss exactly when no entry is a hit. *)
Theorem lww_argmax es :
  match LastWriteWins.apply es with
  | Winner i => is_lww es i
  | MissResult => no_hit es
  | Synthesized _ => False
  end.
Proof. exact (lww_apply_ok es). Qed.

(** Under the operator invariant the code documents - every pool writes
    with the same initial TTL, so a hit written at time [w j] and read at [now]
    carries [t = ttl - (now - w j)] - the winner of last-write-wins is a hit
    with the greatest write time, and the earliest-listed one among those. *)
Theorem lww_is_last_write es (w : nat -> Z) ttl now i
  (Hhom : forall j e, es !! j = Some e -> status e = Hit -> t e = Some (ttl - (now - w j)))
  (Hwin : LastWriteWins.apply es = Winner i) :
  winner_at es i (fun e => status e = Hit) /\
  forall j e, es !! j = Some e -> status e = Hit ->
    w j <= w (Z.to_nat i) /\ (Z.of_nat j < i -> w j < w (Z.to_nat i)).
Proof.
  pose proof (lww_apply_ok es) as H. rewrite Hwin in H.
  destruct H as (Hi & e & He & Hh & Hb). split; [split; [done|by exists e]|].
  intros j e' Hj Hhj. destruct (Hb _ _ Hj Hhj) as [H1 H2].
  rewrite (Hhom _ _ He Hh), (Hhom _ _ Hj Hhj) in *. cbn in *. lia.
Qed.

Definition hit_entry (p : String.string) (ot : option Z) : Entry :=
  mkEntry (str "k") (str p) Hit ot None None.

Lemma lww_is_last_write_witness :
  LastWriteWins.apply [hit_entry "a" (Some 50); hit_entry "b" (Some 90)] = Winner 1 /\
  winner_at [hit_entry "a" (Some 50); hit_entry "b" (Some 90)] 1 (fun e => status e = Hit).
Proof.
  split; [vm_compute; reflexivity|].
  refine (proj1 (lww_is_last_write [hit_entry "a" (Some 50); hit_entry "b" (Some 90)]
    (fun j => if decide (j = 0)%nat then 10 else 50) 100 60 1 _ eq_refl)).
  intros [|[|j]] e H; cbn in H; injection H as <- || discriminate; reflexivity.
Defined.

(** ** The table [register] builds *)

Section RegisterProps.
Context {W : Type}.

Definition builtin_names : list bytes :=
  [str "first-hit"; str "last-write-wins"; str "pool-preferred"].

Lemma wf_register (r : Registry W) : Registry.wf r -> Registry.wf (register r).
Proof. intros. unfold register. auto with mcgw. Qed.

Lemma get_register (r : Registry W) name :
  Registry.wf r ->
  Registry.get name (register r) =
    if decide (name = str "last-write-wins") then Some last_write_wins
    else if decide (name = str "pool-preferred") then Some pool_preferred
    else if decide (name = str "first-hit") then Some first_hit
    else Registry.get name r.
Proof. intros. unfold register. rewrite !Registry.get_insert by auto with mcgw. done. Qed.

(** A fresh registry filled by [register] answers to exactly the three
    built-in names, listed in lexicographic order, each bound to its own
    strategy with its own required flags. *)
Theorem register_table :
  let r := register (@Registry.new W) in
  Registry.names r = builtin_names /\
  (forall name, Registry.has name r = true <-> name ∈ builtin_names) /\
  Registry.get (str "first-hit") r = Some first_hit /\
  Registry.get (str "pool-preferred") r = Some pool_preferred /\
  Registry.get (str "last-write-wins") r = Some last_write_wins /\
  (required_flags <$> Registry.get (str "last-write-wins") r) = Some (str "t").
Proof.
  cbn zeta. split; [reflexivity|]. split; [|by repeat split].
  intros name. apply Registry.has_names. apply wf_register, Registry.wf_new.
Qed.
End RegisterProps.
#[export] Hint Resolve wf_register : mcgw.
