(* ===== verification/WasmHost.v ===== *)
(** * WasmHost: the host side of the WASM boundary ([mcgateway-wasm-host/src/lib.rs])

    The host marshals entries into guest linear memory, calls the guest and
    decodes its packed answer.  [wasmtime] itself is a parameter: the class
    [Wasmtime] holds the operations the crate calls and [WasmtimeLaws] what its
    documentation promises of them.  The guest is whatever those operations do,
    so the theorems of this file hold for every module, hostile ones included. *)

From Stdlib Require Import String.
From S2P Require Import Prelude Text BTree Core.

(** ** Constants *)
Definition ABI_VERSION : Z := 1.
Definition ENTRY_SIZE : Z := 48.
Definition STATUS_HIT : Z := 0.
Definition STATUS_MISS : Z := 1.
Definition STATUS_ERROR : Z := 2.
Definition RESULT_TAG_MISS : Z := 0.
Definition RESULT_TAG_WINNER : Z := 1.
Definition RESULT_TAG_SYNTHESIZED : Z := 2.
Definition RESULT_TAG_GUEST_ERROR : Z := 255.
Definition DEFAULT_DEADLINE_MS : Z := 50.
Definition TICK_INTERVAL_MS : Z := 2.
Definition LOG_BUDGET_PER_CALL : Z := 16.
Definition LOG_MAX_BYTES : Z := 4096.
Definition MAX_CONCURRENT_MERGES : Z := 256.
Definition MAX_GUEST_MEMORY_BYTES : Z := 16 * 1024 * 1024.

(** ** Errors

    [wasmtime::Error] is a dynamic error that callers downcast; its payloads are
    the constructors.  [Werr] collects the [werr!] messages of this crate. *)
Inductive Trap := Interrupt | OtherTrap (code : Z).

Inductive Werr :=
| AbiMismatch (guest : Z)
| ModuleMissingMemory
| MissingMemory
| RequiredFlagsNotUtf8
| WinnerOutOfRange (i n : Z)
| TooManyEntries
| EntryArrayOverflow
| AllocReturnedNull
| KeyTooLarge
| PoolTooLarge
| ValueTooLarge
| LineTooLarge
| FieldTotalOverflow
| SynthesizedTooLarge (len : Z)
| UnknownTag (tag : Z).

Inductive WError :=
| TrapError (tr : Trap)
| GuestError (code : Z)
| MemoryAccessError
| EngineError (msg : bytes)
| Msg (w : Werr)
| Context (ctx : bytes) (e : WError).

(** [err.downcast_ref::<Trap>()]: an added context does not hide the payload. *)
Fixpoint downcast_trap (e : WError) : option Trap :=
  match e with
  | TrapError tr => Some tr
  | Context _ e => downcast_trap e
  | _ => None
  end.

Fixpoint downcast_guest (e : WError) : option Z :=
  match e with
  | GuestError code => Some code
  | Context _ e => downcast_guest e
  | _ => None
  end.

Inductive MergeErrorKind := Deadline | TrapKind | Guest | Host.

Definition classify (err : WError) : MergeErrorKind :=
  match downcast_trap err with
  | Some Interrupt => Deadline
  | Some _ => TrapKind
  | None =>
      match downcast_guest err with
      | Some _ => Guest
      | None => Host
      end
  end.

Definition kind_as_str (k : MergeErrorKind) : bytes :=
  match k with
  | Deadline => str "deadline"
  | TrapKind => str "trap"
  | Guest => str "guest"
  | Host => str "host"
  end.

(** ** Per-call store state *)
Record MergeStoreData := mkStoreData {
  module_name : bytes;
  log_budget_remaining : Z;
}.

Definition MergeStoreData_new (name : bytes) : MergeStoreData :=
  mkStoreData name LOG_BUDGET_PER_CALL.

(** ** The [mcgw.log] import

    The closure [build_linker] installs.  [read] is the caller's exported
    memory, when it has one; the second component is the line handed to the
    [log] facade, if any. *)
Inductive LogLevel := LTrace | LDebug | LInfo | LWarn | LError.

Record LogLine := mkLogLine { ll_level : LogLevel; ll_module : bytes; ll_msg : bytes }.

Definition log_level (level : Z) : LogLevel :=
  if level =? 0 then LTrace else if level =? 1 then LDebug
  else if level =? 2 then LInfo else if level =? 3 then LWarn else LError.

Definition GuestRead : Type := Z -> Z -> Result WError bytes.

Definition mcgw_log (read : option GuestRead) (level ptr len : Z) (data : MergeStoreData)
  : MergeStoreData * option LogLine :=
  match read with
  | None => (data, None)
  | Some read =>
      let len := Z.min len LOG_MAX_BYTES in
      match read ptr len with
      | Err _ => (data, None)
      | Ok buf =>
          if log_budget_remaining data =? 0 then (data, None)
          else (mkStoreData (module_name data) (log_budget_remaining data - 1),
                Some (mkLogLine (log_level level) (module_name data) (from_utf8_lossy buf)))
      end
  end.

(** ** What the crate uses of wasmtime *)

Inductive ValTy := U32 | U64.
Record FuncType := mkFuncType { params : list ValTy; result : option ValTy }.
Definition in_ty (ty : option ValTy) (v : Z) : Prop :=
  match ty with Some U32 => is_u32 v | Some U64 => is_u64 v | None => True end.

(** The engine configuration [WasmHost::new] builds. *)
Record Config := mkConfig {
  cranelift_speed : bool;
  epoch_interruption : bool;
  total_core_instances : Z;
  total_memories : Z;
  max_memory_size : Z;
  memory_init_cow : bool;
}.
Definition host_config : Config :=
  mkConfig true true MAX_CONCURRENT_MERGES MAX_CONCURRENT_MERGES MAX_GUEST_MEMORY_BYTES true.

Class Wasmtime := {
  Engine : Type;
  engine_new : Config -> Result WError Engine;
  WModule : Type;
  module_new : Engine -> bytes -> Result WError WModule;
  module_deserialize : Engine -> bytes -> Result WError WModule;
  Linker : Type;
  InstancePre : Type;
  Instance : Type;
  Memory : Type;
  Func : Type;
  Store : Type;
  linker_new : Linker;
  add_to_linker_sync : Linker -> Result WError Linker;
  func_wrap : Linker -> bytes -> bytes ->
    (option GuestRead -> Z -> Z -> Z -> MergeStoreData -> MergeStoreData * option LogLine) ->
    Result WError Linker;
  instantiate_pre : Linker -> WModule -> Result WError InstancePre;
  store_new : MergeStoreData -> Store;
  set_epoch_deadline : Z -> Store -> Store;
  epoch_deadline_trap : Store -> Store;
  instantiate : InstancePre -> Store -> Result WError (Instance * Store);
  get_memory : Instance -> Store -> bytes -> option Memory;
  get_typed_func : Instance -> Store -> FuncType -> bytes -> Result WError Func;
  call : Func -> list Z -> Store -> Result WError (Z * Store);
  memory_data : Memory -> Store -> bytes;
  memory_read : Memory -> Store -> Z -> Z -> Result WError bytes;
  memory_write : Memory -> Store -> Z -> bytes -> Result WError Store;
}.

(** Documented behaviour: [Memory::read] and [Memory::write] copy when the whole
    range is inside [Memory::data] and fail otherwise; a typed call returns a
    value of its type; a pooled memory never outgrows its slot. *)
Class WasmtimeLaws (WT : Wasmtime) : Prop := {
  memory_read_spec m st off n : 0 <= off -> 0 <= n ->
    memory_read m st off n =
      if off + n <=? zlen (memory_data m st) then Ok (slice (memory_data m st) off n)
      else Err MemoryAccessError;
  memory_write_in m st off bs : in_range (memory_data m st) off (zlen bs) ->
    exists st', memory_write m st off bs = Ok st' /\
      memory_data m st' = splice (memory_data m st) off bs;
  memory_write_out m st off bs : 0 <= off -> zlen (memory_data m st) < off + zlen bs ->
    memory_write m st off bs = Err MemoryAccessError;
  memory_bounded m st : zlen (memory_data m st) <= max_memory_size host_config;
  call_typed i st0 ty name f args st v st' :
    get_typed_func i st0 ty name = Ok f -> call f args st = Ok (v, st') -> in_ty (result ty) v;
}.

Section Host.
Context {WT : Wasmtime}.

(** [WasmHost]: the engine; the ticker it keeps alive only advances the epoch. *)
Record WasmHost := mkWasmHost { host_engine : Engine }.

Definition WasmHost_new : Result WError WasmHost :=
  engine ← engine_new host_config;
  Ok (mkWasmHost engine).

Definition compile (host : WasmHost) (wasm : bytes) : Result WError WModule :=
  module_new (host_engine host) wasm.

Definition compile_serialized (host : WasmHost) (bs : bytes) : Result WError WModule :=
  module_deserialize (host_engine host) bs.

(** ** Marshalling *)

Record FieldPtrs := mkFieldPtrs {
  fp_key : Z * Z;
  fp_pool : Z * Z;
  fp_value : Z * Z;
  fp_line : Z * Z;
}.

(** [u32] addition in the release profile, which the gateway ships: it wraps. *)
Definition u32_add (a b : Z) : Z := as_u32 (a + b).

(** [u32::try_from(b.len()).map_err(..)?] *)
Definition len_u32 (bs : bytes) (w : Werr) : Result WError Z := ok_or (try_u32 (zlen bs)) (Msg w).
Definition opt_len_u32 (o : option bytes) (w : Werr) : Result WError Z :=
  match o with Some b => len_u32 b w | None => Ok 0 end.

(** [FieldPtrs::write], over the addition its pointer arithmetic uses. *)
Definition FieldPtrs_write_with (add : Z -> Z -> Z) (mem : Memory) (alloc : Func) (e : Entry)
  (st : Store) : Result WError (FieldPtrs * Store) :=
  key_len ← len_u32 (key e) KeyTooLarge;
  pool_len ← len_u32 (pool e) PoolTooLarge;
  value_len ← opt_len_u32 (value e) ValueTooLarge;
  line_len ← opt_len_u32 (line e) LineTooLarge;
  let total := key_len + pool_len + value_len + line_len in
  alloc_size ← ok_or (try_u32 (Z.max total 1)) (Msg FieldTotalOverflow);
  '(base, st) ← call alloc [alloc_size; 1] st;
  if base =? 0 then Err (Msg AllocReturnedNull) else
  let off := 0 in
  st ← memory_write mem st (add base off) (key e);
  let fkey := (add base off, key_len) in
  let off := add off key_len in
  st ← memory_write mem st (add base off) (pool e);
  let fpool := (add base off, pool_len) in
  let off := add off pool_len in
  '(fvalue, off, st) ← (match value e with
    | Some b =>
        st ← memory_write mem st (add base off) b;
        Ok ((add base off, value_len), add off value_len, st)
    | None => Ok ((0, 0), off, st)
    end : Result WError (Z * Z * Z * Store));
  '(fline, st) ← (match line e with
    | Some b =>
        st ← memory_write mem st (add base off) b;
        Ok ((add base off, line_len), st)
    | None => Ok ((0, 0), st)
    end : Result WError (Z * Z * Store));
  Ok (mkFieldPtrs fkey fpool fvalue fline, st).

Definition FieldPtrs_write := FieldPtrs_write_with u32_add.

(** The first loop of [EncodedEntries::write]. *)
Fixpoint write_fields (mem : Memory) (alloc : Func) (entries : list Entry) (st : Store)
  : Result WError (list FieldPtrs * Store) :=
  match entries with
  | [] => Ok ([], st)
  | e :: rest =>
      '(fp, st) ← FieldPtrs_write mem alloc e st;
      '(fps, st) ← write_fields mem alloc rest st;
      Ok (fp :: fps, st)
  end.

Definition status_code (s : Status) : Z :=
  match s with Hit => STATUS_HIT | Miss => STATUS_MISS | Error => STATUS_ERROR end.

(** [out[a..b].copy_from_slice(&x.to_le_bytes())] for a [u32]. *)
Definition put_u32 (off v : Z) (out : bytes) : bytes := splice out off (to_le_bytes 4 v).

Definition encode_entry (entry : Entry) (fields : FieldPtrs) (out : bytes) : bytes :=
  let status := status_code (status entry) in
  let '(t_present, t) := match t entry with Some v => (1, v) | None => (0, 0) end in
  let out := put_u32 0 (fp_key fields).1 out in
  let out := put_u32 4 (fp_key fields).2 out in
  let out := put_u32 8 (fp_pool fields).1 out in
  let out := put_u32 12 (fp_pool fields).2 out in
  let out := put_u32 16 (fp_value fields).1 out in
  let out := put_u32 20 (fp_value fields).2 out in
  let out := put_u32 24 (fp_line fields).1 out in
  let out := put_u32 28 (fp_line fields).2 out in
  let out := put_u32 32 status out in
  let out := put_u32 36 t_present out in
  splice out 40 (to_le_bytes 8 t).

(** The second loop: one scratch buffer, reused for every record. *)
Fixpoint write_records (mem : Memory) (ptr i : Z) (scratch : bytes)
  (zipped : list (Entry * FieldPtrs)) (st : Store) : Result WError Store :=
  match zipped with
  | [] => Ok st
  | (entry, fields) :: rest =>
      let scratch := encode_entry entry fields scratch in
      let offset := ptr + i * ENTRY_SIZE in
      st ← memory_write mem st offset scratch;
      write_records mem ptr (i + 1) scratch rest st
  end.

Record EncodedEntries := mkEncoded { enc_ptr : Z; enc_count : Z; enc_total_size : Z }.

Definition EncodedEntries_write (mem : Memory) (alloc : Func) (entries : list Entry) (st : Store)
  : Result WError (EncodedEntries * Store) :=
  count ← ok_or (try_u32 (zlen entries)) (Msg TooManyEntries);
  '(field_allocs, st) ← write_fields mem alloc entries st;
  total_size ← ok_or (u32_checked_mul count ENTRY_SIZE) (Msg EntryArrayOverflow);
  let alloc_size := if total_size =? 0 then 1 else total_size in
  '(ptr, st) ← call alloc [alloc_size; 8] st;
  if ptr =? 0 then Err (Msg AllocReturnedNull) else
  let scratch := replicate (Z.to_nat ENTRY_SIZE) Byte.x00 in
  st ← write_records mem ptr 0 scratch (zip entries field_allocs) st;
  Ok (mkEncoded ptr count alloc_size, st).

(** ** Decoding the packed result *)
Definition decode_result (mem : Memory) (dealloc : Func) (packed : Z) (st : Store)
  : Result WError (MergeResult * Store) :=
  let tag := as_u8 (Z.land packed 255) in
  if tag =? RESULT_TAG_MISS then Ok (MissResult, st)
  else if tag =? RESULT_TAG_WINNER then
    let idx := as_u32 (Z.shiftr packed 32) in
    Ok (Winner idx, st)
  else if tag =? RESULT_TAG_SYNTHESIZED then
    let desc_ptr := as_u32 (Z.shiftr packed 32) in
    desc ← memory_read mem st desc_ptr 8;
    let ptr := from_le_bytes (slice desc 0 4) in
    let len := from_le_bytes (slice desc 4 4) in
    if len >? MAX_GUEST_MEMORY_BYTES then Err (Msg (SynthesizedTooLarge len)) else
    buf ← memory_read mem st ptr len;
    '(_, st) ← call dealloc [ptr; Z.max len 1; 1] st;
    '(_, st) ← call dealloc [desc_ptr; 8; 4] st;
    Ok (Synthesized buf, st)
  else if tag =? RESULT_TAG_GUEST_ERROR then
    let code := as_u8 (Z.land (Z.shiftr packed 8) 255) in
    Err (GuestError code)
  else Err (Msg (UnknownTag tag)).

(** ** One merge call *)
Definition alloc_ty : FuncType := mkFuncType [U32; U32] (Some U32).
Definition dealloc_ty : FuncType := mkFuncType [U32; U32; U32] None.
Definition merge_ty : FuncType := mkFuncType [U32; U32] (Some U64).
Definition abi_version_ty : FuncType := mkFuncType [] (Some U32).
Definition required_flags_ty : FuncType := mkFuncType [] (Some U64).

Definition run_with_pre (pre : InstancePre) (name : bytes) (deadline_ticks : Z)
  (entries : list Entry) : Result WError MergeResult :=
  let st := store_new (MergeStoreData_new name) in
  let st := epoch_deadline_trap (set_epoch_deadline deadline_ticks st) in
  '(instance, st) ← instantiate pre st;
  memory ← ok_or (get_memory instance st (str "memory")) (Msg MissingMemory);
  alloc ← get_typed_func instance st alloc_ty (str "mcgw_alloc");
  dealloc ← get_typed_func instance st dealloc_ty (str "mcgw_dealloc");
  merge ← get_typed_func instance st merge_ty (str "mcgw_merge");
  '(encoded, st) ← EncodedEntries_write memory alloc entries st;
  '(packed, st) ← call merge [enc_ptr encoded; enc_count encoded] st;
  '(result, st) ← decode_result memory dealloc packed st;
  '(_, st) ← call dealloc [enc_ptr encoded; enc_total_size encoded; 8] st;
  match result with
  | Winner i =>
      if i >=? zlen entries then Err (Msg (WinnerOutOfRange i (zlen entries))) else Ok (Winner i)
  | other => Ok other
  end.

(** ** Loading a module *)
Definition default_deadline_ticks : Z := div_ceil DEFAULT_DEADLINE_MS TICK_INTERVAL_MS.

Definition build_linker : Result WError Linker :=
  linker ← add_to_linker_sync linker_new;
  func_wrap linker (str "mcgw") (str "log") mcgw_log.

Record WasmMerge := mkWasmMerge {
  wm_module_name : bytes;
  wm_required_flags : bytes;
  wm_deadline_ticks : Z;
  wm_pre : InstancePre;
}.

Definition read_required_flags (instance : Instance) (st : Store) : Result WError (bytes * Store) :=
  match get_typed_func instance st required_flags_ty (str "mcgw_required_flags") with
  | Err _ => Ok ([], st)
  | Ok func =>
      '(packed, st) ← call func [] st;
      if packed =? 0 then Ok ([], st) else
      let ptr := as_u32 (Z.shiftr packed 32) in
      let len := as_u32 (Z.land packed 4294967295) in
      mem ← ok_or (get_memory instance st (str "memory")) (Msg MissingMemory);
      buf ← memory_read mem st ptr len;
      flags ← ok_or (from_utf8 buf) (Msg RequiredFlagsNotUtf8);
      Ok (flags, st)
  end.

Definition from_module (module : WModule) (name : bytes) : Result WError WasmMerge :=
  let st := store_new (MergeStoreData_new name) in
  let st := epoch_deadline_trap (set_epoch_deadline (U64_MAX / 2) st) in
  linker ← build_linker;
  pre ← map_err (Context (str "pre-link module")) (instantiate_pre linker module);
  '(instance, st) ← map_err (Context (str "instantiate module")) (instantiate pre st);
  abi_version ← map_err (Context (str "module is missing mcgw_abi_version export"))
    (get_typed_func instance st abi_version_ty (str "mcgw_abi_version"));
  '(reported, st) ← call abi_version [] st;
  if negb (reported =? ABI_VERSION) then Err (Msg (AbiMismatch reported)) else
  _ ← map_err (Context (str "module is missing mcgw_alloc export"))
    (get_typed_func instance st alloc_ty (str "mcgw_alloc"));
  _ ← map_err (Context (str "module is missing mcgw_dealloc export"))
    (get_typed_func instance st dealloc_ty (str "mcgw_dealloc"));
  _ ← map_err (Context (str "module is missing mcgw_merge export"))
    (get_typed_func instance st merge_ty (str "mcgw_merge"));
  _ ← ok_or (get_memory instance st (str "memory")) (Msg ModuleMissingMemory);
  '(required_flags, st) ← read_required_flags instance st;
  Ok (mkWasmMerge name required_flags default_deadline_ticks pre).

(** [WasmMerge::set_deadline_ticks], [WasmMerge::run], [Merge::apply]. *)
Definition set_deadline_ticks (m : WasmMerge) (ticks : Z) : WasmMerge :=
  mkWasmMerge (wm_module_name m) (wm_required_flags m) ticks (wm_pre m).

Definition run (m : WasmMerge) (entries : list Entry) : Result WError MergeResult :=
  run_with_pre (wm_pre m) (wm_module_name m) (wm_deadline_ticks m) entries.

Definition wasm_apply (m : WasmMerge) (entries : list Entry) : MergeResult :=
  match run m entries with
  | Ok r => r
  | Err _ => MissResult
  end.

(** [impl Merge for WasmMerge]: the trait's flags are the empty literal, the
    owned ones are read through the inherent accessor. *)
Definition wasm_trait_required_flags : bytes := [].
Definition as_merge {W : Type} (m : WasmMerge) : Merge W :=
  mkMerge (fun entries w => (wasm_apply m entries, w)) wasm_trait_required_flags.

(** [run_test]: link, pre-instantiate and run once, with a generous deadline. *)
Definition run_test (module : WModule) (entries : list Entry) : Result WError MergeResult :=
  linker ← build_linker;
  pre ← instantiate_pre linker module;
  run_with_pre pre (str "<test>") 1000 entries.

End Host.
