(* ===== verification/Sdk.v ===== *)
(** * Sdk: the guest side of the WASM boundary ([mcgateway-sdk/src/lib.rs])

    The types guests are written against, the [__rt] helpers the [#[merge_fn]]
    macro calls, and the exports that macro generates
    ([mcgateway-sdk-macros/src/lib.rs]).  The code runs on wasm32: [usize] is 32
    bits, a raw pointer is an address of linear memory, and an access outside
    it, a failed [expect] or a panic ends the call with a trap ([None]).

    The guest allocator (Rust's [GlobalAlloc]) is a parameter: [GuestHeap] holds
    its operations, [GuestHeapLaws] the contract of [GlobalAlloc]. *)

From Stdlib Require Import String.
From S2P Require Import Prelude Text BTree Core WasmHost.

Module Sdk.

Definition ABI_VERSION : Z := 1.
Definition ENTRY_SIZE : Z := 48.

Inductive Status := Hit | Miss | Error.

#[global] Instance Status_eq_dec : EqDecision Status.
Proof. solve_decision. Defined.

Record Entry := mkEntry {
  key : bytes;
  pool : bytes;
  status : Status;
  t : option Z;
  value : option bytes;
  line : option bytes;
}.

Inductive MergeResult :=
| Winner (i : Z)
| Synthesized (bs : bytes)
| MissResult.

(** ** The allocator interface *)

(** [core::alloc::Layout]. *)
Record Layout := mkLayout { size : Z; align : Z }.

(** [Layout::from_size_align]: a non-zero power of two, and a size that does not
    overflow [isize::MAX] (of wasm32) when rounded up. *)
Definition ISIZE_MAX : Z := 2 ^ 31 - 1.
Definition is_power_of_two (a : Z) : bool := (0 <? a) && (Z.land a (a - 1) =? 0).
Definition from_size_align (sz al : Z) : option Layout :=
  if is_power_of_two al && (sz <=? ISIZE_MAX - (al - 1)) then Some (mkLayout sz al) else None.

(** Guest linear memory with the global allocator over it.  [g_alloc] returns
    the null address 0 when it cannot serve the request. *)
Class GuestHeap := {
  Heap : Type;
  g_mem : Heap -> bytes;
  g_store : Heap -> Z -> bytes -> Heap;
  g_alloc : Heap -> Layout -> Z * Heap;
  g_dealloc : Heap -> Z -> Layout -> Heap;
  g_live : Heap -> gmap Z Layout;
}.

(** [keeps P g g']: every block of [P] live in [g] is live in [g'] with the same
    layout and contents; [ext] keeps them all, [ext_but x] all but [x]. *)
Definition keeps {GH : GuestHeap} (P : Z -> Prop) (g g' : Heap) : Prop :=
  forall q k, P q -> g_live g !! q = Some k ->
    g_live g' !! q = Some k /\ slice (g_mem g') q (size k) = slice (g_mem g) q (size k).
Definition ext {GH : GuestHeap} : Heap -> Heap -> Prop := keeps (fun _ => True).
Definition ext_but {GH : GuestHeap} (x : Z) : Heap -> Heap -> Prop := keeps (fun q => q <> x).

(** The [GlobalAlloc] contract: blocks are inside memory (which the host caps), away from the null
    address and pairwise disjoint; allocating and freeing leave the other
    blocks alone; so does a store inside one block.  [g_room] is how many bytes
    the allocator can still hand out for sure: a request within it succeeds. *)
Class GuestHeapLaws (GH : GuestHeap) := {
  g_ok : Heap -> Prop;
  g_room : Heap -> Z;
  mem_size_ok g : g_ok g -> zlen (g_mem g) <= MAX_GUEST_MEMORY_BYTES;
  live_in_mem g p l : g_ok g -> g_live g !! p = Some l -> 0 < p /\ p + size l <= zlen (g_mem g);
  live_disjoint g p l q k : g_ok g -> g_live g !! p = Some l -> g_live g !! q = Some k -> p <> q ->
    p + size l <= q \/ q + size k <= p;
  store_mem g a bs : in_range (g_mem g) a (zlen bs) -> g_mem (g_store g a bs) = splice (g_mem g) a bs;
  store_ok g a bs p l : g_ok g -> g_live g !! p = Some l -> p <= a -> a + zlen bs <= p + size l ->
    g_ok (g_store g a bs) /\ g_live (g_store g a bs) = g_live g /\ g_room (g_store g a bs) = g_room g;
  alloc_spec g l p g' : g_ok g -> 1 <= size l -> 1 <= align l -> g_alloc g l = (p, g') -> p <> 0 ->
    g_ok g' /\ g_live g !! p = None /\ g_live g' = <[p:=l]> (g_live g) /\ ext g g';
  alloc_room g l : g_ok g -> 1 <= size l -> 1 <= align l -> size l + align l <= g_room g ->
    (g_alloc g l).1 <> 0 /\ g_room g - (size l + align l) <= g_room (g_alloc g l).2;
  room_bounded g : g_ok g -> g_room g <= ISIZE_MAX;
  dealloc_spec g p l : g_ok g -> g_live g !! p = Some l ->
    g_ok (g_dealloc g p l) /\ g_live (g_dealloc g p l) = delete p (g_live g) /\
    ext_but p g (g_dealloc g p l);
}.

Section Runtime.
Context {GH : GuestHeap}.

(** [__rt::layout]. *)
Definition layout (sz al : Z) : option Layout :=
  let al := Z.max al 1 in
  from_size_align (Z.max sz 1) al.

Definition alloc_raw (sz al : Z) (g : Heap) : option (Z * Heap) :=
  l ← layout sz al;
  Some (g_alloc g l).

Definition dealloc_raw (ptr sz al : Z) (g : Heap) : option Heap :=
  if ptr =? 0 then Some g else
  l ← layout sz al;
  Some (g_dealloc g ptr l).

(** A guest load of [n] bytes. *)
Definition load (mem : bytes) (p n : Z) : option bytes :=
  if (0 <=? p) && (0 <=? n) && (p + n <=? zlen mem) then Some (slice mem p n) else None.

Definition read_u32 (mem : bytes) (p off : Z) : option Z :=
  from_le_bytes <$> load mem (p + off) 4.
Definition read_i64 (mem : bytes) (p off : Z) : option Z :=
  (fun bs => as_i64 (from_le_bytes bs)) <$> load mem (p + off) 8.

(** [if ptr == 0 { None } else { Some(slice::from_raw_parts(..)) }] *)
Definition opt_slice (mem : bytes) (ptr len : Z) : option (option bytes) :=
  if ptr =? 0 then Some None else Some <$> load mem ptr len.

(** The body of the [for] loop of [decode_entries], on the record at [rec]. *)
Definition decode_entry (mem : bytes) (rec : Z) : option Entry :=
  key_ptr ← read_u32 mem rec 0;
  key_len ← read_u32 mem rec 4;
  pool_ptr ← read_u32 mem rec 8;
  pool_len ← read_u32 mem rec 12;
  value_ptr ← read_u32 mem rec 16;
  value_len ← read_u32 mem rec 20;
  line_ptr ← read_u32 mem rec 24;
  line_len ← read_u32 mem rec 28;
  status_raw ← read_u32 mem rec 32;
  let status := if status_raw =? 0 then Hit else if status_raw =? 1 then Miss else Error in
  t_present_raw ← read_u32 mem rec 36;
  let t_present := negb (t_present_raw =? 0) in
  t_raw ← read_i64 mem rec 40;
  key ← load mem key_ptr key_len;
  pool_bytes ← load mem pool_ptr pool_len;
  let pool := default [] (from_utf8 pool_bytes) in
  value ← opt_slice mem value_ptr value_len;
  line ← opt_slice mem line_ptr line_len;
  Some (mkEntry key pool status (if t_present then Some t_raw else None) value line).

Fixpoint decode_loop (mem : bytes) (base i : Z) (n : nat) : option (list Entry) :=
  match n with
  | O => Some []
  | S n =>
      e ← decode_entry mem (base + i * ENTRY_SIZE);
      es ← decode_loop mem base (i + 1) n;
      Some (e :: es)
  end.

Definition decode_entries (mem : bytes) (ptr count : Z) : option (list Entry) :=
  if count =? 0 then Some [] else decode_loop mem ptr 0 (Z.to_nat count).

(** A guest store; outside linear memory it traps. *)
Definition store (g : Heap) (p : Z) (bs : bytes) : option Heap :=
  if (0 <=? p) && (p + zlen bs <=? zlen (g_mem g)) then Some (g_store g p bs) else None.

Definition encode_synthesized (bs : bytes) (g : Heap) : option (Z * Heap) :=
  let len := zlen bs in
  payload_layout ← layout (as_u32 len) 1;
  let '(payload, g) := g_alloc g payload_layout in
  g ← (match bs with [] => Some g | _ => store g payload bs end : option Heap);
  desc_layout ← layout 8 4;
  let '(desc, g) := g_alloc g desc_layout in
  g ← store g desc (to_le_bytes 4 payload);
  g ← store g (desc + 4) (to_le_bytes 4 (as_u32 len));
  Some (Z.lor (Z.shiftl desc 32) 2, g).

Definition encode_result (r : MergeResult) (g : Heap) : option (Z * Heap) :=
  match r with
  | MissResult => Some (0, g)
  | Winner i => Some (Z.lor (Z.shiftl i 32) 1, g)
  | Synthesized bs => encode_synthesized bs g
  end.

(** [pack_static_str] on a literal at address [ptr] of the data segment. *)
Definition pack_static_str (ptr : Z) (s : bytes) : Z := Z.lor (Z.shiftl ptr 32) (zlen s).

(** ** The exports [#[merge_fn]] generates around the user function

    The user function and the [Vec] of entries it is given use the heap too;
    [user] returns the heap it leaves behind. *)
Definition UserFn : Type := list Entry -> Heap -> option (MergeResult * Heap).

Definition mcgw_abi_version : Z := ABI_VERSION.
Definition mcgw_alloc (sz al : Z) (g : Heap) : option (Z * Heap) := alloc_raw sz al g.
Definition mcgw_dealloc (ptr sz al : Z) (g : Heap) : option Heap := dealloc_raw ptr sz al g.
Definition mcgw_merge (user : UserFn) (entries_ptr entries_len : Z) (g : Heap) : option (Z * Heap) :=
  entries ← decode_entries (g_mem g) entries_ptr entries_len;
  '(result, g) ← user entries g;
  encode_result result g.
Definition mcgw_required_flags (flags_ptr : Z) (flags : bytes) : Z := pack_static_str flags_ptr flags.

End Runtime.

(** ** [parse_attrs]: the attribute list of [#[merge_fn(..)]]

    Each meta item is its path and, when it is [path = "literal"], the literal;
    [None] stands for any other value, which [syn] rejects. *)
Inductive AttrError := UnsupportedAttribute (path : bytes) | ExpectedStringLiteral.

Fixpoint parse_meta (acc : option bytes) (items : list (bytes * option bytes))
  : Result AttrError (option bytes) :=
  match items with
  | [] => Ok acc
  | (path, lit) :: rest =>
      if bool_decide (path = str "required_flags") then
        match lit with
        | Some v => parse_meta (Some v) rest
        | None => Err ExpectedStringLiteral
        end
      else Err (UnsupportedAttribute path)
  end.

Definition parse_attrs (items : list (bytes * option bytes)) : Result AttrError (option bytes) :=
  match items with [] => Ok None | _ => parse_meta None items end.

End Sdk.
