(* ===== verification/Boundary.v ===== *)
(** * Boundary: host and guest agree on the wire format

    The host of [WasmHost] runs a guest built with the SDK of [Sdk].  The class
    [RunsSdk] says what it means for the engine to run such a guest: its memory
    is the guest heap's memory and its exports are the ones [#[merge_fn]]
    generates.  The main result is the round trip of a whole merge call: entries
    encoded by the host are decoded unchanged by the guest, and the guest's
    answer comes back unchanged. *)

From Stdlib Require Import String.
From S2P Require Import Prelude Text BTree Core WasmHost Sdk.

(** ** The record layout *)

Definition record (e : Entry) (f : FieldPtrs) : bytes :=
  to_le_bytes 4 (fp_key f).1 ++ to_le_bytes 4 (fp_key f).2 ++
  to_le_bytes 4 (fp_pool f).1 ++ to_le_bytes 4 (fp_pool f).2 ++
  to_le_bytes 4 (fp_value f).1 ++ to_le_bytes 4 (fp_value f).2 ++
  to_le_bytes 4 (fp_line f).1 ++ to_le_bytes 4 (fp_line f).2 ++
  to_le_bytes 4 (status_code (status e)) ++
  to_le_bytes 4 (match t e with Some _ => 1 | None => 0 end) ++
  to_le_bytes 8 (default 0 (t e)).

Lemma zlen_record e f : zlen (record e f) = ENTRY_SIZE.
Proof. unfold record, zlen. rewrite !length_app, !length_to_le_bytes. reflexivity. Qed.

Lemma length_48 {A} (l : list A) (P : list A -> Prop) :
  length l = 48%nat ->
  (forall x0 x1 x2 x3 x4 x5 x6 x7 x8 x9 x10 x11 x12 x13 x14 x15 x16 x17 x18 x19 x20 x21 x22 x23
     x24 x25 x26 x27 x28 x29 x30 x31 x32 x33 x34 x35 x36 x37 x38 x39 x40 x41 x42 x43 x44 x45 x46 x47,
   P [x0; x1; x2; x3; x4; x5; x6; x7; x8; x9; x10; x11; x12; x13; x14; x15; x16; x17; x18; x19; x20;
      x21; x22; x23; x24; x25; x26; x27; x28; x29; x30; x31; x32; x33; x34; x35; x36; x37; x38; x39;
      x40; x41; x42; x43; x44; x45; x46; x47]) -> P l.
Proof.
  intros Hlen H. do 48 (destruct l as [|? l]; [discriminate Hlen|]).
  destruct l; [apply H|discriminate Hlen].
Qed.

Lemma encode_entry_record e f out : zlen out = ENTRY_SIZE -> encode_entry e f out = record e f.
Proof.
  intros Hlen. unfold zlen in Hlen. assert (length out = 48%nat) as H by (unfold ENTRY_SIZE in Hlen; lia).
  revert H. clear Hlen. intros H. pattern out. apply length_48; [exact H|].
  intros. unfold encode_entry, record, put_u32. destruct (t e); reflexivity.
Qed.

(** [encode_entry] overwrites all 48 bytes of the scratch buffer the loop
    reuses: the record depends only on the entry and its pointers, never on the
    record the buffer held before, and fills the buffer exactly. *)
Theorem encode_entry_overwrites e f e' f' out (Hlen : zlen out = ENTRY_SIZE) :
  encode_entry e f (encode_entry e' f' out) = record e f /\ zlen (encode_entry e f out) = ENTRY_SIZE.
Proof.
  rewrite !(encode_entry_record _ _ out) by done.
  rewrite encode_entry_record; [split; [done|]|]; apply zlen_record.
Qed.

Lemma encode_entry_overwrites_witness :
  let e := mkEntry [] [] Hit (Some (-1)) None None in
  let f := mkFieldPtrs (8, 0) (8, 0) (0, 0) (0, 0) in
  encode_entry e f (encode_entry e f (replicate 48 Byte.xff)) = record e f /\
  zlen (encode_entry e f (replicate 48 Byte.xff)) = ENTRY_SIZE.
Proof. cbv zeta. apply encode_entry_overwrites. reflexivity. Defined.

(** ** Frame reasoning on the guest heap *)

Section Heap.
Context {GH : Sdk.GuestHeap} {GL : Sdk.GuestHeapLaws GH}.
Import Sdk.
Implicit Types g : Heap.

Lemma ext_refl g : ext g g.
Proof. by intros q k _ H. Qed.

Lemma ext_trans g1 g2 g3 : ext g1 g2 -> ext g2 g3 -> ext g1 g3.
Proof.
  intros H12 H23 q k _ H. destruct (H12 q k I H) as [H2 E2].
  destruct (H23 q k I H2) as [H3 E3]. split; [done|congruence].
Qed.

Lemma ext_but_trans p g1 g2 g3 : ext_but p g1 g2 -> ext_but p g2 g3 -> ext_but p g1 g3.
Proof.
  intros H12 H23 q k Hq H. destruct (H12 q k Hq H) as [H2 E2].
  destruct (H23 q k Hq H2) as [H3 E3]. split; [done|congruence].
Qed.

(** Work inside a block that was not live before is invisible from before. *)
Lemma ext_fresh p g1 g2 g3 : g_live g1 !! p = None -> ext g1 g2 -> ext_but p g2 g3 -> ext g1 g3.
Proof.
  intros Hp H12 H23 q k _ H. destruct (H12 q k I H) as [H2 E2].
  destruct (H23 q k) as [H3 E3]; [intros ->; congruence|done|]. split; [done|congruence].
Qed.

(** [held g a bs]: the bytes [bs] sit at address [a] inside some live block. *)
Definition held g (a : Z) (bs : bytes) : Prop :=
  exists p l, g_live g !! p = Some l /\ p <= a /\ a + zlen bs <= p + size l /\
    slice (g_mem g) a (zlen bs) = bs.

Lemma held_keeps P g g' a bs p l :
  g_ok g -> keeps P g g' -> P p -> g_live g !! p = Some l -> p <= a -> a + zlen bs <= p + size l ->
  slice (g_mem g) a (zlen bs) = bs -> held g' a bs.
Proof.
  intros Hok Hk HP Hl Ha Hb Hs. destruct (Hk p l HP Hl) as [Hl' E]. exists p, l.
  repeat split; try done. destruct (live_in_mem g p l Hok Hl). pose proof (zlen_nonneg bs).
  replace a with (p + (a - p)) at 1 by lia.
  rewrite <- (slice_slice _ p (size l) (a - p) (zlen bs)), E, slice_slice by lia.
  by replace (p + (a - p)) with a by lia.
Qed.

Lemma held_ext g g' a bs : g_ok g -> ext g g' -> held g a bs -> held g' a bs.
Proof. intros Hok Hext (p & l & ? & ? & ? & ?). by eapply held_keeps. Qed.

Lemma held_ext_but q g g' a bs :
  g_ok g -> ext_but q g g' -> held g a bs -> (forall l, g_live g !! q = Some l ->
    a + zlen bs <= q \/ q + size l <= a) -> zlen bs > 0 -> held g' a bs.
Proof.
  intros Hok Hext (p & l & Hl & Ha & Hb & Hs) Hd Hn. eapply held_keeps; try done.
  intros ->. destruct (Hd _ Hl); lia.
Qed.

Lemma held_range g a bs : g_ok g -> held g a bs -> 0 < a /\ a + zlen bs <= zlen (g_mem g).
Proof. intros Hok (p & l & Hl & Ha & Hb & _). pose proof (live_in_mem g p l Hok Hl). lia. Qed.

Lemma held_load g a bs : g_ok g -> held g a bs -> load (g_mem g) a (zlen bs) = Some bs.
Proof.
  intros Hok Hh. pose proof (held_range _ _ _ Hok Hh). destruct Hh as (p & l & _ & _ & _ & Hs).
  unfold load. pose proof (zlen_nonneg bs).
  rewrite (proj2 (Z.leb_le 0 a)), (proj2 (Z.leb_le 0 (zlen bs))), (proj2 (Z.leb_le _ (zlen (g_mem g)))) by lia.
  cbn. by rewrite Hs.
Qed.

(** [blk g p l off hs]: block [p] is live; its first [off] bytes have been
    filled with the pieces [hs], at the addresses they are paired with. *)
Definition piece_ok g (p off : Z) (x : Z * bytes) : Prop :=
  p <= x.1 /\ x.1 + zlen x.2 <= p + off /\ slice (g_mem g) x.1 (zlen x.2) = x.2.
Definition blk g (p : Z) (l : Layout) (off : Z) (hs : list (Z * bytes)) : Prop :=
  g_ok g /\ g_live g !! p = Some l /\ 0 <= off <= size l /\ Forall (piece_ok g p off) hs.

Lemma blk_held g p l off hs a bs : blk g p l off hs -> (a, bs) ∈ hs -> held g a bs.
Proof.
  intros (_ & Hl & Hoff & Hhs) Hin. rewrite Forall_forall in Hhs.
  destruct (Hhs _ Hin) as (? & ? & ?). cbn in *. exists p, l. repeat split; [done|done|lia|done].
Qed.

(** Appending one piece to a block, at the heap level. *)
Lemma blk_append g p l off hs bs :
  blk g p l off hs -> off + zlen bs <= size l ->
  let g' := g_store g (p + off) bs in
  blk g' p l (off + zlen bs) ((p + off, bs) :: hs) /\ ext_but p g g' /\ g_room g' = g_room g.
Proof.
  intros (Hok & Hl & Hoff & Hhs) Hfit g'. pose proof (live_in_mem g p l Hok Hl) as [Hp Hm].
  pose proof (zlen_nonneg bs).
  assert (in_range (g_mem g) (p + off) (zlen bs)) as Hr by (unfold in_range; lia).
  destruct (store_ok g (p + off) bs p l Hok Hl) as (Hok' & Hl' & Hroom); [lia|lia|].
  pose proof (store_mem g (p + off) bs Hr) as Hmem.
  split; [|split; [|done]].
  - split; [done|]. split; [by unfold g'; rewrite Hl'|]. split; [lia|]. constructor.
    + split; [cbn; lia|]. split; [cbn; lia|]. cbn. unfold g'. by rewrite Hmem, slice_splice_same.
    + eapply Forall_impl; [exact Hhs|]. intros [a bs'] (? & ? & Hs). cbn in *.
      pose proof (zlen_nonneg bs'). split; [cbn; lia|]. split; [cbn; lia|]. cbn. unfold g'.
      rewrite Hmem, slice_splice_disjoint by (done || lia). done.
  - intros q k Hq Hk. unfold g'. rewrite Hl', Hmem. split; [done|].
    destruct (live_in_mem g q k Hok Hk). destruct (live_disjoint g p l q k Hok Hl Hk); [done| |];
      (destruct (decide (0 <= size k)); [rewrite slice_splice_disjoint by (done || lia); done|]);
      unfold slice; by replace (Z.to_nat (size k)) with 0%nat by lia.
Qed.

(** A successful allocation opens an empty block. *)
Lemma alloc_blk g l :
  g_ok g -> 1 <= size l -> 1 <= align l -> size l + align l <= g_room g ->
  exists p g', g_alloc g l = (p, g') /\ 0 < p /\ g_live g !! p = None /\ ext g g' /\
    blk g' p l 0 [] /\ g_room g - (size l + align l) <= g_room g'.
Proof.
  intros Hok Hs Ha Hr. destruct (alloc_room g l Hok Hs Ha Hr) as [Hn Hroom].
  destruct (g_alloc g l) as [p g'] eqn:E. cbn in *.
  destruct (alloc_spec g l p g' Hok Hs Ha E Hn) as (Hok' & Hp & Hl & Hext).
  assert (g_live g' !! p = Some l) as Hlp by (rewrite Hl; apply lookup_insert_eq).
  exists p, g'. destruct (live_in_mem g' p l Hok' Hlp).
  split; [done|]. split; [done|]. split; [done|]. split; [done|].
  split; [|lia]. split; [done|]. split; [done|]. split; [lia|constructor].
Qed.

Lemma layout_max sz al :
  is_power_of_two al = true -> Z.max sz 1 + al <= ISIZE_MAX ->
  layout sz al = Some (mkLayout (Z.max sz 1) al).
Proof.
  intros Hp ?. assert (0 < al) by (unfold is_power_of_two in Hp; lia).
  unfold layout, from_size_align. rewrite (Z.max_l al) by lia. rewrite Hp.
  by rewrite (proj2 (Z.leb_le _ _)) by lia.
Qed.

Lemma layout_ok sz al :
  1 <= sz -> is_power_of_two al = true -> sz + al <= ISIZE_MAX -> layout sz al = Some (mkLayout sz al).
Proof.
  intros ? Hp ?. rewrite layout_max by (done || lia). by rewrite Z.max_l by lia.
Qed.

(** A guest store at the cursor of a block. *)
Lemma store_blk g p l off hs bs :
  blk g p l off hs -> off + zlen bs <= size l ->
  exists g', store g (p + off) bs = Some g' /\
    blk g' p l (off + zlen bs) ((p + off, bs) :: hs) /\ ext_but p g g' /\ g_room g' = g_room g.
Proof.
  intros Hb Hfit. pose proof Hb as (Hok & Hl & Hoff & _). pose proof (live_in_mem g p l Hok Hl).
  exists (g_store g (p + off) bs). split; [|by apply blk_append].
  unfold store. by rewrite !(proj2 (Z.leb_le _ _)) by lia.
Qed.

(** Freeing a block with the layout it was allocated with. *)
Lemma mcgw_dealloc_ok g p sz al :
  g_ok g -> g_live g !! p = Some (mkLayout (Z.max sz 1) al) -> is_power_of_two al = true ->
  Z.max sz 1 + al <= ISIZE_MAX ->
  exists g', mcgw_dealloc p sz al g = Some g' /\ g_ok g' /\ ext_but p g g' /\
    g_live g' = delete p (g_live g).
Proof.
  intros Hok Hl Hal Hsz. pose proof (live_in_mem g p _ Hok Hl) as [Hp _].
  destruct (dealloc_spec g p _ Hok Hl) as (Hok' & Hl' & Hx).
  exists (g_dealloc g p (mkLayout (Z.max sz 1) al)). split; [|done].
  unfold mcgw_dealloc, dealloc_raw. rewrite (proj2 (Z.eqb_neq p 0)) by lia.
  by rewrite layout_max by done.
Qed.

(** ** What the guest leaves for the host: the descriptor and its payload *)
Definition answer_held g (desc payload : Z) (bs : bytes) : Prop :=
  held g payload bs /\ held g desc (to_le_bytes 4 payload ++ to_le_bytes 4 (zlen bs)) /\
  g_live g !! payload = Some (mkLayout (Z.max (zlen bs) 1) 1) /\
  g_live g !! desc = Some (mkLayout 8 4) /\ payload <> desc.

Lemma blk_join g p l off hs a b x y :
  blk g p l off ((b, y) :: (a, x) :: hs) -> b = a + zlen x -> held g a (x ++ y).
Proof.
  intros (Hok & Hl & Hoff & Hhs) ->. apply Forall_cons in Hhs as [(? & ? & Hy) Hhs].
  apply Forall_cons in Hhs as [(? & ? & Hx) _]. cbn in *. pose proof (zlen_nonneg x).
  pose proof (zlen_nonneg y). exists p, l. rewrite zlen_app. split_and!; [done|done|lia|].
  pose proof (live_in_mem g p l Hok Hl). by rewrite slice_split, Hx, Hy by lia.
Qed.
Lemma payload_blk g bs :
  g_ok g -> Z.max (zlen bs) 1 + 1 <= g_room g ->
  exists p g1 g2, g_alloc g (mkLayout (Z.max (zlen bs) 1) 1) = (p, g1) /\
    (match bs with [] => Some g1 | _ => store g1 p bs end : option Heap) = Some g2 /\
    g_live g !! p = None /\ ext g g2 /\ g_ok g2 /\ held g2 p bs /\
    g_live g2 !! p = Some (mkLayout (Z.max (zlen bs) 1) 1) /\
    g_room g - (Z.max (zlen bs) 1 + 1) <= g_room g2.
Proof.
  intros Hok Hr. pose proof (zlen_nonneg bs).
  destruct (alloc_blk g (mkLayout (Z.max (zlen bs) 1) 1) Hok) as (p & g1 & Ha & Hp & Hfresh & Hx & Hb & Hroom);
    [cbn; lia|cbn; lia|done|]. exists p, g1. destruct bs as [|b bs'].
  - exists g1. pose proof Hb as (? & ? & ? & _). split_and!; try done.
    eexists p, _. split_and!; [done|lia|cbn; lia|done].
  - destruct (store_blk g1 p _ 0 [] (b :: bs') Hb) as (g2 & Hs & Hb2 & Hx2 & Hr2); [cbn [size]; lia|].
    rewrite Z.add_0_r in *. exists g2. pose proof Hb2 as (? & ? & ? & _).
    split_and!; [done|done|done|by eapply ext_fresh|done| |done|cbn [size align] in *; lia].
    eapply blk_held; [exact Hb2|]. by left.
Qed.

Lemma desc_blk g payload bs :
  g_ok g -> held g payload bs -> is_u32 payload -> is_u32 (zlen bs) ->
  g_live g !! payload = Some (mkLayout (Z.max (zlen bs) 1) 1) -> 8 + 4 <= g_room g ->
  exists d g1 g2 g3, g_alloc g (mkLayout 8 4) = (d, g1) /\ store g1 d (to_le_bytes 4 payload) = Some g2 /\
    store g2 (d + 4) (to_le_bytes 4 (zlen bs)) = Some g3 /\ g_live g !! d = None /\
    g_ok g3 /\ ext g g3 /\
    answer_held g3 d payload bs.
Proof.
  intros Hok Hh Hp Hlen Hl Hr.
  destruct (alloc_blk g (mkLayout 8 4) Hok) as (d & g1 & Ha & Hd & Hfresh & Hx & Hb & _);
    [cbn; lia|cbn; lia|done|].
  destruct (store_blk g1 d _ 0 [] (to_le_bytes 4 payload) Hb) as (g2 & Hs2 & Hb2 & Hx2 & _); [done|].
  destruct (store_blk g2 d _ 4 _ (to_le_bytes 4 (zlen bs)) Hb2) as (g3 & Hs3 & Hb3 & Hx3 & _); [done|].
  rewrite Z.add_0_r in Hs2. rewrite (Z.add_0_r d) in Hb3. exists d, g1, g2, g3.
  assert (ext g g3) as Hx03 by (eapply ext_fresh; [done|exact Hx|by eapply ext_but_trans]).
  pose proof Hb3 as (? & ? & ? & _). split_and!; try done.
  unfold answer_held. split_and!.
  - by apply (held_ext g).
  - eapply blk_join; [exact Hb3|]. unfold zlen. rewrite length_to_le_bytes. lia.
  - by apply (Hx03 _ _ I).
  - done.
  - congruence.
Qed.

(** [encode_synthesized] with room: the host finds a descriptor for the bytes. *)
Lemma encode_synthesized_ok g bs :
  g_ok g -> (Z.max (zlen bs) 1 + 1) + (8 + 4) <= g_room g ->
  exists d payload g', encode_synthesized bs g = Some (Z.lor (Z.shiftl d 32) 2, g') /\
    g_live g !! payload = None /\ g_live g !! d = None /\
    g_ok g' /\ ext g g' /\ answer_held g' d payload bs.
Proof.
  intros Hok Hr. pose proof (room_bounded g Hok). pose proof (zlen_nonneg bs). unfold ISIZE_MAX in *.
  assert (is_u32 (zlen bs)) as Hlen by (unfold is_u32, U32_MAX; lia).
  destruct (payload_blk g bs Hok) as (p & g1 & g2 & Ha & Hs & Hfp & Hx & Hok2 & Hh & Hl & Hr2); [lia|].
  assert (is_u32 p) as Hp.
  { pose proof (live_in_mem _ _ _ Hok2 Hl). pose proof (mem_size_ok _ Hok2). cbn in *.
    unfold is_u32, U32_MAX, MAX_GUEST_MEMORY_BYTES in *. lia. }
  destruct (desc_blk g2 p bs Hok2 Hh Hp Hlen Hl) as (d & g3 & g4 & g5 & Ha3 & Hs4 & Hs5 & Hfd & Hok5 & Hx5 & Hans);
    [lia|].
  exists d, p, g5. split_and!; [|done| |done|by eapply ext_trans|done]; cycle 1.
  { destruct (g_live g !! d) as [k|] eqn:E; [|done]. destruct (Hx d k I E). congruence. }
  unfold encode_synthesized. rewrite (as_u32_id _ Hlen).
  rewrite (layout_max (zlen bs) 1), (layout_max 8 4) by (done || (unfold ISIZE_MAX; lia)).
  change (Z.max 8 1) with 8. cbn [mbind option_bind]. rewrite Ha, Hs. cbn [mbind option_bind].
  rewrite Ha3, Hs4. cbn [mbind option_bind]. by rewrite Hs5.
Qed.
End Heap.

(** ** An engine running an SDK guest *)

(** [guest_of] is the guest heap inside a store.  The host sees its memory, a
    host write is a store into it, and a call of a generated export that
    completes within the deadline and the memory cap has the effect of the SDK
    function. *)
Class RunsSdk (WT : Wasmtime) (GH : Sdk.GuestHeap) (user : Sdk.UserFn) := {
  guest_of : Store -> Sdk.Heap;
  sdk_data m st : memory_data m st = Sdk.g_mem (guest_of st);
  sdk_write m st off bs st' :
    memory_write m st off bs = Ok st' -> guest_of st' = Sdk.g_store (guest_of st) off bs;
  sdk_alloc i st0 f sz al st p g :
    get_typed_func i st0 alloc_ty (str "mcgw_alloc") = Ok f ->
    Sdk.mcgw_alloc sz al (guest_of st) = Some (p, g) ->
    is_u32 p -> zlen (Sdk.g_mem g) <= MAX_GUEST_MEMORY_BYTES ->
    exists st', call f [sz; al] st = Ok (p, st') /\ guest_of st' = g;
  sdk_dealloc i st0 f ptr sz al st g :
    get_typed_func i st0 dealloc_ty (str "mcgw_dealloc") = Ok f ->
    Sdk.mcgw_dealloc ptr sz al (guest_of st) = Some g ->
    zlen (Sdk.g_mem g) <= MAX_GUEST_MEMORY_BYTES ->
    exists v st', call f [ptr; sz; al] st = Ok (v, st') /\ guest_of st' = g;
  sdk_merge i st0 f ptr n st packed g :
    get_typed_func i st0 merge_ty (str "mcgw_merge") = Ok f ->
    Sdk.mcgw_merge user ptr n (guest_of st) = Some (packed, g) ->
    is_u64 packed -> zlen (Sdk.g_mem g) <= MAX_GUEST_MEMORY_BYTES ->
    exists st', call f [ptr; n] st = Ok (packed, st') /\ guest_of st' = g;
}.

(** A merge function proper: a function of the entries whose temporaries are
    gone when it returns. *)
Class PureUser (GH : Sdk.GuestHeap) (GL : Sdk.GuestHeapLaws GH) (user : Sdk.UserFn)
  (f : list Sdk.Entry -> Sdk.MergeResult) : Prop := {
  user_result es g : Sdk.g_ok g -> exists g', user es g = Some (f es, g') /\
    Sdk.g_ok g' /\ Sdk.ext g g' /\ Sdk.g_room g <= Sdk.g_room g';
  user_usize es i : f es = Sdk.Winner i -> is_u32 i;
}.

(** ** The two views of an entry and of a result *)
Definition to_sdk_status (s : Status) : Sdk.Status :=
  match s with Hit => Sdk.Hit | Miss => Sdk.Miss | Error => Sdk.Error end.
Definition to_sdk (e : Entry) : Sdk.Entry :=
  Sdk.mkEntry (key e) (pool e) (to_sdk_status (status e)) (t e) (value e) (line e).
Definition of_sdk (r : Sdk.MergeResult) : MergeResult :=
  match r with
  | Sdk.Winner i => Winner i
  | Sdk.Synthesized bs => Synthesized bs
  | Sdk.MissResult => MissResult
  end.

(** What [run_with_pre] makes of a decoded result. *)
Definition checked (n : Z) (r : MergeResult) : Result WError MergeResult :=
  match r with
  | Winner i => if i >=? n then Err (Msg (WinnerOutOfRange i n)) else Ok (Winner i)
  | other => Ok other
  end.

(** Bytes of guest heap a call asks for: per entry, for the array, for the answer. *)
Definition olen (o : option bytes) : Z := match o with Some b => zlen b | None => 0 end.
Definition fields_total (e : Entry) : Z := zlen (key e) + zlen (pool e) + olen (value e) + olen (line e).
Definition entry_need (e : Entry) : Z := Z.max (fields_total e) 1 + 1.
Definition fields_need (es : list Entry) : Z := foldr Z.add 0 (entry_need <$> es).
Definition array_size (es : list Entry) : Z := if zlen es * ENTRY_SIZE =? 0 then 1 else zlen es * ENTRY_SIZE.
Definition result_need (r : Sdk.MergeResult) : Z :=
  match r with Sdk.Synthesized bs => (Z.max (zlen bs) 1 + 1) + (8 + 4) | _ => 0 end.
Definition call_need (es : list Entry) (r : Sdk.MergeResult) : Z :=
  fields_need es + (array_size es + 8) + result_need r.

Lemma olen_nonneg o : 0 <= olen o.
Proof. destruct o; cbn; auto with mcgw; lia. Qed.
Lemma fields_total_nonneg e : 0 <= fields_total e.
Proof. unfold fields_total. pose proof (zlen_nonneg (key e)). pose proof (zlen_nonneg (pool e)).
  pose proof (olen_nonneg (value e)). pose proof (olen_nonneg (line e)). lia. Qed.
Lemma fields_need_nonneg es : 0 <= fields_need es.
Proof.
  induction es as [|e es IH]; [done|].
  change (fields_need (e :: es)) with (entry_need e + fields_need es). unfold entry_need. lia.
Qed.
Lemma array_size_pos es : 1 <= array_size es.
Proof. unfold array_size, ENTRY_SIZE. pose proof (zlen_nonneg es). split_if; lia. Qed.

Section Roundtrip.
Context {WT : Wasmtime} {WL : WasmtimeLaws WT}.
Context {GH : Sdk.GuestHeap} {GL : Sdk.GuestHeapLaws GH}.
Context {user : Sdk.UserFn} {RS : RunsSdk WT GH user}.
Import Sdk(g_live, g_ok, g_room, g_mem, g_store, ext, ext_but, Heap, size, align, mkLayout).

Lemma guest_mem_bounded (m : Memory) st : zlen (g_mem (guest_of st)) <= MAX_GUEST_MEMORY_BYTES.
Proof. rewrite <- (sdk_data m). apply memory_bounded. Qed.

(** Pointer sums inside guest memory do not wrap. *)
Lemma u32_add_in_mem (m : Memory) st a b :
  0 <= a + b <= zlen (g_mem (guest_of st)) -> u32_add a b = a + b.
Proof.
  intros H. pose proof (guest_mem_bounded m st). apply as_u32_id.
  unfold is_u32, U32_MAX, MAX_GUEST_MEMORY_BYTES in *. lia.
Qed.

(** Host-level append to a block. *)
Lemma write_blk m st p l off hs bs :
  blk (guest_of st) p l off hs -> off + zlen bs <= size l ->
  exists st', memory_write m st (p + off) bs = Ok st' /\
    blk (guest_of st') p l (off + zlen bs) ((p + off, bs) :: hs) /\
    ext_but p (guest_of st) (guest_of st') /\ g_room (guest_of st') = g_room (guest_of st).
Proof.
  intros Hb Hfit. pose proof Hb as (Hok & Hl & Hoff & _).
  pose proof (Sdk.live_in_mem _ p l Hok Hl). pose proof (zlen_nonneg bs).
  destruct (memory_write_in m st (p + off) bs) as (st' & Hw & _).
  { rewrite sdk_data. unfold in_range. lia. }
  exists st'. split; [done|]. rewrite (sdk_write _ _ _ _ _ Hw). by apply blk_append.
Qed.

(** The same with the address computed by the code's [u32] addition. *)
Lemma write_blk_u32 m st p l off hs bs :
  blk (guest_of st) p l off hs -> off + zlen bs <= size l ->
  u32_add p off = p + off /\ u32_add off (zlen bs) = off + zlen bs /\
  exists st', memory_write m st (p + off) bs = Ok st' /\
    blk (guest_of st') p l (off + zlen bs) ((p + off, bs) :: hs) /\
    ext_but p (guest_of st) (guest_of st') /\ g_room (guest_of st') = g_room (guest_of st).
Proof.
  intros Hb Hfit. pose proof Hb as (Hok & Hl & Hoff & _).
  pose proof (Sdk.live_in_mem _ p l Hok Hl). pose proof (zlen_nonneg bs).
  split; [apply (u32_add_in_mem m st); lia|]. split; [apply (u32_add_in_mem m st); lia|].
  by apply write_blk.
Qed.

(** A host call of [mcgw_alloc] with room opens a block. *)
Lemma call_alloc_blk i st0 f sz al st :
  get_typed_func i st0 alloc_ty (str "mcgw_alloc") = Ok f ->
  g_ok (guest_of st) -> 1 <= sz -> Sdk.is_power_of_two al = true -> sz + al <= g_room (guest_of st) ->
  exists p st', call f [sz; al] st = Ok (p, st') /\ 0 < p /\ g_live (guest_of st) !! p = None /\
    ext (guest_of st) (guest_of st') /\ blk (guest_of st') p (mkLayout sz al) 0 [] /\
    g_room (guest_of st) - (sz + al) <= g_room (guest_of st').
Proof.
  intros Hf Hok Hsz Hal Hr. pose proof (Sdk.room_bounded _ Hok).
  assert (1 <= al) by (unfold Sdk.is_power_of_two in Hal; lia).
  destruct (alloc_blk (guest_of st) (mkLayout sz al)) as (p & g' & Ha & Hp); try done.
  destruct Hp as (Hp0 & Hfresh & Hx & Hb & Hroom). pose proof Hb as (Hok' & Hl & _).
  pose proof (Sdk.live_in_mem _ _ _ Hok' Hl). pose proof (Sdk.mem_size_ok _ Hok').
  cbn [size] in *. unfold MAX_GUEST_MEMORY_BYTES in *.
  destruct (sdk_alloc i st0 f sz al st p g' Hf) as (st' & Hc & <-); [| |done|].
  { unfold Sdk.mcgw_alloc, Sdk.alloc_raw. rewrite layout_ok by (done || lia). cbn. by rewrite Ha. }
  { unfold is_u32, U32_MAX. lia. }
  exists p, st'. done.
Qed.
(** What the guest will find through the four pointers of an entry. *)
Definition opt_field_held (g : Heap) (o : option bytes) (f : Z * Z) : Prop :=
  match o with
  | None => f = (0, 0)
  | Some b => held g f.1 b /\ f.2 = zlen b
  end.
Definition fields_held (g : Heap) (e : Entry) (fp : FieldPtrs) : Prop :=
  opt_field_held g (Some (key e)) (fp_key fp) /\ opt_field_held g (Some (pool e)) (fp_pool fp) /\
  opt_field_held g (value e) (fp_value fp) /\ opt_field_held g (line e) (fp_line fp).

Lemma opt_field_held_ext g g' o f :
  g_ok g -> ext g g' -> opt_field_held g o f -> opt_field_held g' o f.
Proof. destruct o; cbn; [|done]. intros ? ? [? ?]. split; [by eapply held_ext|done]. Qed.

Lemma fields_held_ext g g' e fp : g_ok g -> ext g g' -> fields_held g e fp -> fields_held g' e fp.
Proof. intros ? ? (? & ? & ? & ?). unfold fields_held. split_and!; by eapply opt_field_held_ext. Qed.

Lemma len_u32_ok bs w : zlen bs <= U32_MAX -> len_u32 bs w = Ok (zlen bs).
Proof. intros. unfold len_u32. by rewrite try_u32_ok. Qed.
Lemma opt_len_u32_ok o w : olen o <= U32_MAX -> opt_len_u32 o w = Ok (olen o).
Proof. destruct o; cbn; [apply len_u32_ok|done]. Qed.

(** One optional field: written at the cursor when present, skipped otherwise. *)
Lemma write_opt_field m st p l off hs (o : option bytes) :
  blk (guest_of st) p l off hs -> off + olen o <= size l ->
  exists f st' hs',
    (match o with
     | Some b => st1 ← memory_write m st (u32_add p off) b;
                 Ok ((u32_add p off, olen o), u32_add off (olen o), st1)
     | None => Ok ((0, 0), off, st)
     end : Result WError (Z * Z * Z * Store)) = Ok (f, off + olen o, st') /\
    blk (guest_of st') p l (off + olen o) (hs' ++ hs) /\
    (o = None /\ f = (0, 0) \/ exists b, o = Some b /\ f = (p + off, zlen b) /\ (p + off, b) ∈ hs') /\
    ext_but p (guest_of st) (guest_of st') /\ g_room (guest_of st') = g_room (guest_of st).
Proof.
  intros Hb Hfit. destruct o as [b|]; cbn [olen] in *.
  - destruct (write_blk_u32 m st p l off hs b Hb Hfit) as (-> & -> & st' & Hw & Hb' & Hx & Hr).
    exists (p + off, zlen b), st', [(p + off, b)]. rewrite Hw. cbn.
    split; [done|]. split; [done|]. split; [|done]. right. exists b. repeat split. by constructor.
  - exists (0, 0), st, []. rewrite Z.add_0_r in *. split; [done|].
    split; [done|]. split; [by left|]. split; [|done]. by intros q k _ H.
Qed.

(** [FieldPtrs::write] with room: it succeeds, every field is where its pointer
    says, and nothing allocated before has changed. *)
Lemma FieldPtrs_write_ok i st0 fa m e st :
  get_typed_func i st0 alloc_ty (str "mcgw_alloc") = Ok fa ->
  g_ok (guest_of st) -> entry_need e <= g_room (guest_of st) ->
  exists fp st', FieldPtrs_write m fa e st = Ok (fp, st') /\ g_ok (guest_of st') /\
    ext (guest_of st) (guest_of st') /\ fields_held (guest_of st') e fp /\
    g_room (guest_of st) - entry_need e <= g_room (guest_of st').
Proof.
  intros Hfa Hok Hneed. pose proof (Sdk.room_bounded _ Hok) as Hrb.
  unfold entry_need, fields_total, Sdk.ISIZE_MAX in *.
  pose proof (zlen_nonneg (key e)). pose proof (zlen_nonneg (pool e)).
  pose proof (olen_nonneg (value e)). pose proof (olen_nonneg (line e)).
  unfold FieldPtrs_write, FieldPtrs_write_with.
  rewrite !len_u32_ok, !opt_len_u32_ok by (unfold U32_MAX; lia). cbn [mbind result_bind].
  set (total := zlen (key e) + zlen (pool e) + olen (value e) + olen (line e)) in *.
  rewrite try_u32_ok by (unfold U32_MAX; lia). cbn [ok_or mbind result_bind].
  destruct (call_alloc_blk i st0 fa (Z.max total 1) 1 st Hfa Hok) as
    (p & st1 & -> & Hp & Hfresh & Hx1 & Hb1 & Hr1); [lia|done|lia|]. cbn [mbind result_bind].
  rewrite (proj2 (Z.eqb_neq p 0)) by lia.
  destruct (write_blk_u32 m st1 p _ 0 [] (key e) Hb1) as (-> & -> & st2 & -> & Hb2 & Hx2 & Hr2);
    [cbn; lia|]. cbn [mbind result_bind].
  destruct (write_blk_u32 m st2 p _ _ _ (pool e) Hb2) as (-> & -> & st3 & -> & Hb3 & Hx3 & Hr3);
    [cbn; lia|]. cbn [mbind result_bind].
  destruct (write_opt_field m st3 p _ _ _ (value e) Hb3) as (fv & st4 & hs4 & -> & Hb4 & Hv & Hx4 & Hr4);
    [cbn; lia|]. cbn [mbind result_bind].
  destruct (write_opt_field m st4 p _ _ _ (line e) Hb4) as (fl & st5 & hs5 & Hw5 & Hb5 & Hl & Hx5 & Hr5);
    [cbn; lia|].
  assert ((match line e with
    | Some b => st ← memory_write m st4 (u32_add p (0 + zlen (key e) + zlen (pool e) + olen (value e))) b;
        Ok ((u32_add p (0 + zlen (key e) + zlen (pool e) + olen (value e)), olen (line e)), st)
    | None => Ok ((0, 0), st4) end : Result WError (Z * Z * Store)) = Ok (fl, st5)) as ->.
  { destruct (line e) as [b|]; [|cbn in Hw5; congruence].
    destruct (memory_write m st4 _ b); cbn in *; [congruence|discriminate]. }
  cbn [mbind result_bind]. eexists _, st5. split; [done|]. split; [apply Hb5|].
  split; [|split; [|lia]].
  { eapply ext_fresh; [done|exact Hx1|]. repeat (eapply ext_but_trans; [eassumption|]). done. }
  assert (forall o f, (o = None /\ f = (0, 0) \/ exists b, o = Some b /\ f.2 = zlen b /\
    (f.1, b) ∈ hs5 ++ hs4 ++ [(p + (0 + zlen (key e)), pool e); (p + 0, key e)]) ->
    opt_field_held (guest_of st5) o f) as Hh.
  { intros o f [[-> ->]|(b & -> & ? & ?)]; [done|]. split; [by eapply blk_held|done]. }
  split_and!; apply Hh; cbn.
  - right. exists (key e). split_and!; [done|done|set_solver].
  - right. exists (pool e). split_and!; [done|done|set_solver].
  - destruct Hv as [[-> ->]|(b & -> & -> & Hin)]; [by left|right]. exists b. split_and!; [done|done|set_solver].
  - destruct Hl as [[-> ->]|(b & -> & -> & Hin)]; [by left|right]. exists b. split_and!; [done|done|set_solver].
Qed.
Lemma write_fields_ok i st0 fa m es st :
  get_typed_func i st0 alloc_ty (str "mcgw_alloc") = Ok fa ->
  g_ok (guest_of st) -> fields_need es <= g_room (guest_of st) ->
  exists fps st', write_fields m fa es st = Ok (fps, st') /\ g_ok (guest_of st') /\
    ext (guest_of st) (guest_of st') /\ Forall2 (fields_held (guest_of st')) es fps /\
    g_room (guest_of st) - fields_need es <= g_room (guest_of st').
Proof.
  intros Hfa. revert st. induction es as [|e es IH]; intros st Hok Hneed.
  - exists [], st. split_and!; [done|done|apply ext_refl|constructor|cbn; lia].
  - change (fields_need (e :: es)) with (entry_need e + fields_need es) in *.
    pose proof (fields_need_nonneg es).
    destruct (FieldPtrs_write_ok i st0 fa m e st Hfa Hok) as (fp & st1 & Hw & Hok1 & Hx1 & Hh1 & Hr1); [lia|].
    destruct (IH st1 Hok1) as (fps & st2 & Hw2 & Hok2 & Hx2 & Hh2 & Hr2); [lia|].
    exists (fp :: fps), st2. cbn [write_fields]. rewrite Hw. cbn [mbind result_bind]. rewrite Hw2.
    split_and!; [done|done|by eapply ext_trans| |lia].
    constructor; [by apply (fields_held_ext (guest_of st1))|done].
Qed.

(** The records land one after the other in the array block. *)
Lemma write_records_ok m p l zs : forall k scratch st hs,
  blk (guest_of st) p l (k * ENTRY_SIZE) hs -> 0 <= k -> zlen scratch = ENTRY_SIZE ->
  (k + zlen zs) * ENTRY_SIZE <= size l ->
  exists st' hs', write_records m p k scratch zs st = Ok st' /\
    blk (guest_of st') p l ((k + zlen zs) * ENTRY_SIZE) hs' /\
    (forall x, x ∈ hs -> x ∈ hs') /\
    (forall j e f, zs !! j = Some (e, f) -> (p + (k + Z.of_nat j) * ENTRY_SIZE, record e f) ∈ hs') /\
    ext_but p (guest_of st) (guest_of st') /\ g_room (guest_of st') = g_room (guest_of st).
Proof.
  induction zs as [|[e f] zs IH]; intros k scratch st hs Hb Hk Hs Hfit.
  - exists st, hs. rewrite zlen_nil, Z.add_0_r. split_and!; done.
  - rewrite zlen_cons in *. unfold ENTRY_SIZE in Hfit. pose proof (zlen_nonneg zs). cbn [write_records].
    rewrite encode_entry_record by done. pose proof (zlen_record e f) as Hrec.
    destruct (write_blk m st p l (k * ENTRY_SIZE) hs (record e f) Hb) as (st1 & -> & Hb1 & Hx1 & Hr1);
      [rewrite Hrec; unfold ENTRY_SIZE; lia|]. cbn [mbind result_bind].
    rewrite Hrec in Hb1. replace (k * ENTRY_SIZE + ENTRY_SIZE) with ((k + 1) * ENTRY_SIZE) in Hb1 by lia.
    destruct (IH (k + 1) (record e f) st1 _ Hb1) as (st2 & hs2 & Hw & Hb2 & Hin & Hrecs & Hx2 & Hr2);
      [lia|done|unfold ENTRY_SIZE; lia|].
    exists st2, hs2. replace (k + (zlen zs + 1)) with (k + 1 + zlen zs) by lia.
    split_and!; [done|done|set_solver| |by eapply ext_but_trans|congruence].
    intros [|j] e' f' Hj; cbn in Hj.
    + injection Hj as <- <-. apply Hin. rewrite Z.add_0_r. by left.
    + replace (k + Z.of_nat (S j)) with (k + 1 + Z.of_nat j) by lia. by apply Hrecs.
Qed.

(** Everything the guest needs to decode: the fields and the record array. *)
Definition array_held (g : Heap) (ptr : Z) (es : list Entry) (fps : list FieldPtrs) : Prop :=
  Forall2 (fields_held g) es fps /\
  forall j e f, zip es fps !! j = Some (e, f) -> held g (ptr + Z.of_nat j * ENTRY_SIZE) (record e f).

Lemma Forall2_fields_ext g g' es fps :
  g_ok g -> ext g g' -> Forall2 (fields_held g) es fps -> Forall2 (fields_held g') es fps.
Proof. intros Hok Hx H. eapply Forall2_impl; [exact H|]. intros. by eapply fields_held_ext. Qed.

Lemma EncodedEntries_write_ok i st0 fa m es st :
  get_typed_func i st0 alloc_ty (str "mcgw_alloc") = Ok fa ->
  g_ok (guest_of st) -> fields_need es + (array_size es + 8) <= g_room (guest_of st) ->
  exists ptr fps st', EncodedEntries_write m fa es st = Ok (mkEncoded ptr (zlen es) (array_size es), st') /\
    g_ok (guest_of st') /\ 0 < ptr /\ array_held (guest_of st') ptr es fps /\
    g_live (guest_of st') !! ptr = Some (mkLayout (array_size es) 8) /\
    g_room (guest_of st) - (fields_need es + (array_size es + 8)) <= g_room (guest_of st').
Proof.
  intros Hfa Hok Hneed. pose proof (Sdk.room_bounded _ Hok) as Hrb. unfold Sdk.ISIZE_MAX in Hrb.
  pose proof (fields_need_nonneg es). pose proof (array_size_pos es). pose proof (zlen_nonneg es).
  assert (zlen es * ENTRY_SIZE <= array_size es) by (unfold array_size; split_if; lia).
  unfold EncodedEntries_write. rewrite try_u32_ok by (unfold U32_MAX, ENTRY_SIZE in *; lia).
  cbn [ok_or mbind result_bind].
  destruct (write_fields_ok i st0 fa m es st Hfa Hok) as (fps & st1 & -> & Hok1 & Hx1 & Hh1 & Hr1); [lia|].
  cbn [mbind result_bind]. unfold u32_checked_mul. rewrite try_u32_ok by (unfold U32_MAX; lia).
  cbn [ok_or mbind result_bind]. fold (array_size es).
  destruct (call_alloc_blk i st0 fa (array_size es) 8 st1 Hfa Hok1) as
    (ptr & st2 & -> & Hp & Hfresh & Hx2 & Hb2 & Hr2); [lia|done|lia|]. cbn [mbind result_bind].
  rewrite (proj2 (Z.eqb_neq ptr 0)) by lia.
  assert (zlen (zip es fps) = zlen es) as Hzip.
  { apply Forall2_length in Hh1. unfold zlen. rewrite length_zip. lia. }
  destruct (write_records_ok m ptr _ (zip es fps) 0 (replicate (Z.to_nat ENTRY_SIZE) Byte.x00) st2 [] Hb2)
    as (st3 & hs & -> & Hb3 & _ & Hrecs & Hx3 & Hr3); [lia|done|rewrite Hzip; cbn [size]; lia|].
  cbn [mbind result_bind]. exists ptr, fps, st3.
  assert (ext (guest_of st1) (guest_of st3)) as Hx13 by (by eapply ext_fresh).
  split_and!; [done|apply Hb3|done| |apply Hb3|lia].
  split; [by eapply Forall2_fields_ext|].
  intros j e f Hj. eapply blk_held; [exact Hb3|]. by apply (Hrecs j).
Qed.
(** ** What the guest decodes *)

Lemma held_sub g a bs off n :
  g_ok g -> held g a bs -> 0 <= off -> 0 <= n -> off + n <= zlen bs ->
  Sdk.load (g_mem g) (a + off) n = Some (slice bs off n).
Proof.
  intros Hok Hh ? ? ?. pose proof (held_range _ _ _ Hok Hh).
  destruct Hh as (p & l & _ & _ & _ & Hs). unfold Sdk.load.
  rewrite !(proj2 (Z.leb_le _ _)) by lia. cbn.
  rewrite <- (slice_slice (g_mem g) a (zlen bs) off n), Hs by lia. done.
Qed.

Lemma read_u32_record g a e f off v :
  g_ok g -> held g a (record e f) -> 0 <= off -> off + 4 <= ENTRY_SIZE ->
  slice (record e f) off 4 = to_le_bytes 4 v -> is_u32 v ->
  Sdk.read_u32 (g_mem g) a off = Some v.
Proof.
  intros Hok Hh ? ? Hs Hv. unfold Sdk.read_u32.
  rewrite (held_sub _ _ _ off 4 Hok Hh) by (rewrite ?zlen_record; lia). rewrite Hs.
  cbn [fmap option_fmap option_map]. by rewrite from_to_le_u32.
Qed.

Lemma read_i64_record g a e f :
  g_ok g -> held g a (record e f) -> is_i64 (default 0 (t e)) ->
  Sdk.read_i64 (g_mem g) a 40 = Some (default 0 (t e)).
Proof.
  intros Hok Hh Hv. unfold Sdk.read_i64.
  rewrite (held_sub _ _ _ 40 8 Hok Hh) by (rewrite ?zlen_record; unfold ENTRY_SIZE; lia).
  change (slice (record e f) 40 8) with (to_le_bytes 8 (default 0 (t e))).
  cbn [fmap option_fmap option_map]. by rewrite from_to_le_i64.
Qed.

(** The pointer pair of a field: in [u32] range, and naming the field's bytes. *)
Lemma opt_field_u32 (m : Memory) st o f :
  g_ok (guest_of st) -> opt_field_held (guest_of st) o f -> is_u32 f.1 /\ is_u32 f.2.
Proof.
  intros Hok Hh. pose proof (guest_mem_bounded m st). unfold MAX_GUEST_MEMORY_BYTES in *.
  destruct o as [b|]; cbn in Hh.
  - destruct Hh as [Hh Hl]. pose proof (held_range _ _ _ Hok Hh). pose proof (zlen_nonneg b).
    unfold is_u32, U32_MAX. lia.
  - subst f. by cbn.
Qed.

Lemma opt_slice_held g o f :
  g_ok g -> opt_field_held g o f -> Sdk.opt_slice (g_mem g) f.1 f.2 = Some o.
Proof.
  intros Hok Hh. destruct o as [b|]; cbn in Hh; [|by subst].
  destruct Hh as [Hh Hl]. pose proof (held_range _ _ _ Hok Hh). unfold Sdk.opt_slice.
  rewrite (proj2 (Z.eqb_neq _ _)), Hl, held_load by (done || lia). done.
Qed.

Lemma status_roundtrip s :
  (if status_code s =? 0 then Sdk.Hit else if status_code s =? 1 then Sdk.Miss else Sdk.Error)
  = to_sdk_status s.
Proof. by destruct s. Qed.

(** One record, decoded by the guest, is the entry the host encoded. *)
Lemma decode_entry_held (m : Memory) st a e f :
  g_ok (guest_of st) -> entry_wf e -> fields_held (guest_of st) e f ->
  held (guest_of st) a (record e f) ->
  Sdk.decode_entry (g_mem (guest_of st)) a = Some (to_sdk e).
Proof.
  intros Hok Hwf (Hkey & Hpool & Hvalue & Hline) Hrec.
  destruct (opt_field_u32 m st _ _ Hok Hkey), (opt_field_u32 m st _ _ Hok Hpool),
    (opt_field_u32 m st _ _ Hok Hvalue), (opt_field_u32 m st _ _ Hok Hline).
  assert (is_u32 (status_code (status e))) by (by destruct (status e)).
  assert (is_u32 (match t e with Some _ => 1 | None => 0 end)) by (by destruct (t e)).
  assert (is_i64 (default 0 (t e))).
  { destruct (t e) eqn:Et; cbn; [by apply (t_i64 e Hwf)|done]. }
  unfold Sdk.decode_entry.
  erewrite !(read_u32_record _ a e f) by (done || reflexivity || (unfold ENTRY_SIZE; lia)).
  rewrite (read_i64_record _ a e f) by done.
  destruct Hkey as [Hkey ->], Hpool as [Hpool ->]. cbn [mbind option_bind].
  rewrite !held_load by done. cbn [mbind option_bind].
  rewrite (opt_slice_held _ _ _ Hok Hvalue), (opt_slice_held _ _ _ Hok Hline).
  cbn [mbind option_bind]. rewrite status_roundtrip, (from_utf8_valid _ (pool_utf8 e Hwf)).
  unfold to_sdk. by destruct (t e).
Qed.

Lemma decode_loop_held (m : Memory) st ptr es fps : forall k,
  g_ok (guest_of st) -> Forall entry_wf es -> Forall2 (fields_held (guest_of st)) es fps ->
  (forall j e f, zip es fps !! j = Some (e, f) ->
     held (guest_of st) (ptr + (k + Z.of_nat j) * ENTRY_SIZE) (record e f)) ->
  Sdk.decode_loop (g_mem (guest_of st)) ptr k (length es) = Some (to_sdk <$> es).
Proof.
  revert fps. induction es as [|e es IH]; intros fps k Hok Hwf Hf Hr; [done|].
  inversion Hf as [|? f ? fps' Hfe Hfes]; subst. inversion Hwf; subst. cbn [length Sdk.decode_loop].
  rewrite (decode_entry_held m st _ e f); [|done|done|done|].
  - cbn [mbind option_bind]. rewrite (IH fps' (k + 1)); [done|done|done|done|].
    intros j e' f' Hj. specialize (Hr (S j) e' f' Hj).
    by replace (k + 1 + Z.of_nat j) with (k + Z.of_nat (S j)) by lia.
  - specialize (Hr 0%nat e f eq_refl). by rewrite Z.add_0_r in Hr.
Qed.

Lemma decode_entries_held (m : Memory) st ptr es fps :
  g_ok (guest_of st) -> Forall entry_wf es -> array_held (guest_of st) ptr es fps ->
  Sdk.decode_entries (g_mem (guest_of st)) ptr (zlen es) = Some (to_sdk <$> es).
Proof.
  intros Hok Hwf [Hf Hr]. unfold Sdk.decode_entries. destruct (Z.eqb_spec (zlen es) 0) as [E|E].
  - by destruct es; [|rewrite zlen_cons in E; pose proof (zlen_nonneg es); lia].
  - rewrite zlen_to_nat. by eapply (decode_loop_held m).
Qed.
(** ** What the host decodes *)

Lemma packed_tag hi tag : 0 <= tag < 256 -> as_u8 (Z.land (Z.lor (Z.shiftl hi 32) tag) 255) = tag.
Proof.
  intros. change 255 with (Z.ones 8). rewrite land_pack_lo by lia. unfold as_u8. apply Z.mod_small. lia.
Qed.

Lemma packed_hi hi tag : is_u32 hi -> 0 <= tag < 256 -> as_u32 (Z.shiftr (Z.lor (Z.shiftl hi 32) tag) 32) = hi.
Proof. intros. rewrite shiftr_pack_hi by lia. by apply as_u32_id. Qed.

Lemma packed_u64 hi tag : is_u32 hi -> 0 <= tag < 256 -> is_u64 (Z.lor (Z.shiftl hi 32) tag).
Proof. intros Hhi Htag. apply pack_u64; [done|lia]. Qed.

Lemma memory_read_held m st a bs :
  g_ok (guest_of st) -> held (guest_of st) a bs -> memory_read m st a (zlen bs) = Ok bs.
Proof.
  intros Hok Hh. pose proof (held_range _ _ _ Hok Hh). pose proof (zlen_nonneg bs).
  destruct Hh as (p & l & _ & _ & _ & Hs). rewrite memory_read_spec, sdk_data by lia.
  rewrite (proj2 (Z.leb_le _ _)) by lia. by rewrite Hs.
Qed.

(** A host call of [mcgw_dealloc] on a live block. *)
Lemma call_dealloc_ok i st0 fd st p sz al :
  get_typed_func i st0 dealloc_ty (str "mcgw_dealloc") = Ok fd -> g_ok (guest_of st) ->
  g_live (guest_of st) !! p = Some (mkLayout (Z.max sz 1) al) -> Sdk.is_power_of_two al = true ->
  Z.max sz 1 + al <= Sdk.ISIZE_MAX ->
  exists v st', call fd [p; sz; al] st = Ok (v, st') /\ g_ok (guest_of st') /\
    ext_but p (guest_of st) (guest_of st').
Proof.
  intros Hfd Hok Hl Hal Hsz.
  destruct (mcgw_dealloc_ok _ p sz al Hok Hl Hal Hsz) as (g' & Hd & Hok' & Hx & _).
  destruct (sdk_dealloc i st0 fd p sz al st g' Hfd Hd) as (v & st' & Hc & <-); [by apply Sdk.mem_size_ok|].
  eauto.
Qed.

Lemma decode_synth_ok i st0 fd m st d payload bs :
  get_typed_func i st0 dealloc_ty (str "mcgw_dealloc") = Ok fd -> g_ok (guest_of st) ->
  answer_held (guest_of st) d payload bs ->
  exists st', decode_result m fd (Z.lor (Z.shiftl d 32) 2) st = Ok (Synthesized bs, st') /\
    g_ok (guest_of st') /\
    Sdk.keeps (fun q => q <> payload /\ q <> d) (guest_of st) (guest_of st').
Proof.
  intros Hfd Hok (Hpay & Hdesc & Hlp & Hld & Hne). pose proof (guest_mem_bounded m st).
  pose proof (Sdk.live_in_mem _ _ _ Hok Hlp). pose proof (Sdk.live_in_mem _ _ _ Hok Hld).
  pose proof (zlen_nonneg bs). unfold MAX_GUEST_MEMORY_BYTES in *. cbn [size align] in *.
  assert (is_u32 payload /\ is_u32 d /\ is_u32 (zlen bs)) as (? & ? & ?) by (unfold is_u32, U32_MAX; lia).
  pose proof (memory_read_held m st d _ Hok Hdesc) as Hrd.
  change (zlen (to_le_bytes 4 payload ++ to_le_bytes 4 (zlen bs))) with 8 in Hrd.
  unfold decode_result. rewrite packed_tag, packed_hi by (done || lia).
  change (2 =? RESULT_TAG_MISS) with false. change (2 =? RESULT_TAG_WINNER) with false.
  change (2 =? RESULT_TAG_SYNTHESIZED) with true. cbv iota beta zeta. rewrite Hrd.
  cbn [mbind result_bind].
  change (slice (to_le_bytes 4 payload ++ to_le_bytes 4 (zlen bs)) 0 4) with (to_le_bytes 4 payload).
  change (slice (to_le_bytes 4 payload ++ to_le_bytes 4 (zlen bs)) 4 4) with (to_le_bytes 4 (zlen bs)).
  rewrite !from_to_le_u32 by done. unfold MAX_GUEST_MEMORY_BYTES.
  destruct (zlen bs >? 16 * 1024 * 1024) eqn:E; [apply Z.gtb_lt in E; lia|].
  rewrite (memory_read_held m st payload bs Hok Hpay). cbn [mbind result_bind].
  destruct (call_dealloc_ok i st0 fd st payload (Z.max (zlen bs) 1) 1 Hfd Hok) as (v1 & st1 & -> & Hok1 & Hx1);
    [by rewrite Z.max_l by lia|done|unfold Sdk.ISIZE_MAX; lia|]. cbn [mbind result_bind].
  destruct (Hx1 d _ (not_eq_sym Hne) Hld) as [Hld1 _].
  destruct (call_dealloc_ok i st0 fd st1 d 8 4 Hfd Hok1) as (v2 & st2 & -> & Hok2 & Hx2); [done|done|done|].
  cbn [mbind result_bind]. exists st2. split_and!; [done|done|].
  intros q k [Hq1 Hq2] Hk. destruct (Hx1 q k Hq1 Hk) as [Hk1 E1].
  destruct (Hx2 q k Hq2 Hk1) as [Hk2 E2]. split; [done|congruence].
Qed.

(** Both directions of a result: the guest encodes, the host decodes. *)
Lemma result_roundtrip i st0 fd m r g (Hu : forall w, r = Sdk.Winner w -> is_u32 w) :
  get_typed_func i st0 dealloc_ty (str "mcgw_dealloc") = Ok fd -> g_ok g -> result_need r <= g_room g ->
  exists packed g', Sdk.encode_result r g = Some (packed, g') /\ is_u64 packed /\ g_ok g' /\
    forall st, guest_of st = g' -> exists st', decode_result m fd packed st = Ok (of_sdk r, st') /\
       g_ok (guest_of st') /\
       forall q k, g_live g !! q = Some k -> g_live (guest_of st') !! q = Some k.
Proof.
  intros Hfd Hok Hr. destruct r as [w|bs|]; cbn [Sdk.encode_result of_sdk].
  - eexists _, g. split_and!; [done|apply packed_u64; [auto|lia]|done|].
    intros st Hg. exists st. unfold decode_result.
    rewrite packed_tag, packed_hi by (auto; lia). rewrite Hg. done.
  - destruct (encode_synthesized_ok g bs Hok Hr) as (d & payload & g' & He & Hfp & Hfdesc & Hok' & Hx & Hans).
    eexists _, g'. split_and!; [done| |done|].
    { apply packed_u64; [|lia]. destruct Hans as (_ & _ & _ & Hld & _).
      pose proof (Sdk.live_in_mem _ _ _ Hok' Hld). pose proof (Sdk.mem_size_ok _ Hok').
      cbn [size] in *. unfold is_u32, U32_MAX, MAX_GUEST_MEMORY_BYTES in *. lia. }
    intros st <-.
    destruct (decode_synth_ok i st0 fd m st d payload bs Hfd Hok' Hans) as (st' & Hd & Hok2 & Hk).
    exists st'. split_and!; [done|done|]. intros q k Hq. destruct (Hx q k I Hq) as [Hq' _].
    apply Hk; [split; congruence|done].
  - eexists _, g. split_and!; [done|done|done|]. intros st Hg. exists st. rewrite Hg. done.
Qed.

(** ** The whole call *)

(** [sdk_loaded pre r]: instantiating [pre] gives an SDK guest with its exports
    and [r] bytes of heap to hand out. *)
Definition sdk_loaded (pre : InstancePre) (r : Z) : Prop := forall st,
  exists inst st1 m fa fd fm, instantiate pre st = Ok (inst, st1) /\
    get_memory inst st1 (str "memory") = Some m /\
    get_typed_func inst st1 alloc_ty (str "mcgw_alloc") = Ok fa /\
    get_typed_func inst st1 dealloc_ty (str "mcgw_dealloc") = Ok fd /\
    get_typed_func inst st1 merge_ty (str "mcgw_merge") = Ok fm /\
    g_ok (guest_of st1) /\ r <= g_room (guest_of st1).

Lemma mcgw_merge_ok {f} {PU : PureUser GH GL user f} i st0 fd m st (es : list Entry) ptr fps r :
  get_typed_func i st0 dealloc_ty (str "mcgw_dealloc") = Ok fd ->
  g_ok (guest_of st) -> Forall entry_wf es -> array_held (guest_of st) ptr es fps ->
  f (to_sdk <$> es) = r -> result_need r <= g_room (guest_of st) ->
  exists packed g', Sdk.mcgw_merge user ptr (zlen es) (guest_of st) = Some (packed, g') /\
    is_u64 packed /\ g_ok g' /\
    forall st1, guest_of st1 = g' -> exists st2, decode_result m fd packed st1 = Ok (of_sdk r, st2) /\
      g_ok (guest_of st2) /\
      forall q k, g_live (guest_of st) !! q = Some k -> g_live (guest_of st2) !! q = Some k.
Proof.
  intros Hfd Hok Hwf Harr Hr Hneed. unfold Sdk.mcgw_merge.
  rewrite (decode_entries_held m st ptr es fps Hok Hwf Harr). cbn [mbind option_bind].
  destruct (user_result (to_sdk <$> es) (guest_of st) Hok) as (g1 & -> & Hok1 & Hx1 & Hr1).
  cbn [mbind option_bind]. rewrite Hr.
  assert (forall w, r = Sdk.Winner w -> is_u32 w) as Hu by (subst r; apply user_usize).
  destruct (result_roundtrip i st0 fd m r g1 Hu Hfd Hok1) as (packed & g2 & -> & ? & ? & Hdec); [lia|].
  exists packed, g2. split_and!; [done|done|done|]. intros st1 Hg. destruct (Hdec st1 Hg) as (st2 & Hd & Hok2 & Hl).
  exists st2. split_and!; [done|done|]. intros q k Hq. destruct (Hx1 q k I Hq) as [Hq1 _]. by apply Hl.
Qed.

(** C1: the boundary is transparent.  For a module built with the SDK around the
    merge function [f], with enough guest heap for the call, [run_with_pre]
    returns exactly what [f] returns on the very entries the host was given (an
    out-of-range winner being refused): marshalling, guest decoding, result
    encoding, host decoding and every allocation in between lose nothing. *)
Theorem run_sdk_guest {f} {PU : PureUser GH GL user f} pre name ticks es r
  (Hload : sdk_loaded pre r) (Hwf : Forall entry_wf es)
  (Hroom : call_need es (f (to_sdk <$> es)) <= r) :
  run_with_pre pre name ticks es = checked (zlen es) (of_sdk (f (to_sdk <$> es))).
Proof.
  unfold run_with_pre. destruct (Hload (epoch_deadline_trap (set_epoch_deadline ticks
    (store_new (MergeStoreData_new name))))) as
    (inst & st1 & m & fa & fd & fm & -> & Hm & Hfa & Hfd & Hfm & Hok1 & Hr1).
  cbn [mbind result_bind]. rewrite Hm, Hfa, Hfd, Hfm. cbn [ok_or mbind result_bind].
  unfold call_need in Hroom.
  assert (0 <= result_need (f (to_sdk <$> es))) by (destruct (f _); cbn; lia).
  destruct (EncodedEntries_write_ok inst st1 fa m es st1 Hfa Hok1) as
    (ptr & fps & st2 & -> & Hok2 & Hptr & Harr & Hlive & Hr2); [lia|].
  cbn [mbind result_bind enc_ptr enc_count enc_total_size].
  destruct (mcgw_merge_ok inst st1 fd m st2 es ptr fps _ Hfd Hok2 Hwf Harr eq_refl) as (packed & g3 & Hmerge & Hu & Hok3 & Hdec);
    [lia|].
  destruct (sdk_merge inst st1 fm ptr (zlen es) st2 packed g3 Hfm Hmerge Hu) as (st3 & -> & Hg3);
    [by apply Sdk.mem_size_ok|].
  cbn [mbind result_bind]. destruct (Hdec st3 Hg3) as (st4 & -> & Hok4 & Hl4). cbn [mbind result_bind].
  pose proof (array_size_pos es). pose proof (Sdk.room_bounded _ Hok1). pose proof (fields_need_nonneg es).
  destruct (call_dealloc_ok inst st1 fd st4 ptr (array_size es) 8 Hfd Hok4) as (v & st5 & -> & _).
  { rewrite Z.max_l by lia. by apply Hl4. }
  { done. }
  { lia. }
  done.
Qed.
End Roundtrip.
