(* ===== verification/Examples.v ===== *)
(** * Examples: the merge UDFs shipped with the SDK ([rust/examples/*/src/lib.rs])

    [concat_values], [last_n_wins] and [merge_profile], as written against the
    SDK types.  Protobuf coding is [prost]'s and a parameter of the last one. *)

From Stdlib Require Import String.
From S2P Require Import Prelude Text BTree Core Builtins WasmHost Sdk Boundary.

(** ** [merge-concat-values] *)
Module ConcatValues.
(** Loop state: [out], [wrote_any]. *)
Fixpoint loop (out : bytes) (wrote_any : bool) (entries : list Sdk.Entry) : bytes * bool :=
  match entries with
  | [] => (out, wrote_any)
  | e :: rest =>
      if bool_decide (Sdk.status e <> Sdk.Hit) then loop out wrote_any rest else
      match Sdk.value e with
      | None => loop out wrote_any rest
      | Some v =>
          let out := if wrote_any then out ++ str "|" else out in
          loop (out ++ v) true rest
      end
  end.

Definition concat_values (entries : list Sdk.Entry) : Sdk.MergeResult :=
  let '(out, wrote_any) := loop [] false entries in
  if wrote_any then Sdk.Synthesized out else Sdk.MissResult.
End ConcatValues.

(** ** [merge-last-n-wins] *)
Module LastNWins.
Fixpoint loop (i : Z) (best : option (Z * Z)) (entries : list Sdk.Entry) : option (Z * Z) :=
  match entries with
  | [] => best
  | e :: rest =>
      let best' :=
        if bool_decide (Sdk.status e <> Sdk.Hit) then best else
        match Sdk.t e with
        | None => best
        | Some t =>
            match best with
            | None => Some (i, t)
            | Some (_, bt) => if t >? bt then Some (i, t) else best
            end
        end in
      loop (i + 1) best' rest
  end.

Definition last_n_wins (entries : list Sdk.Entry) : Sdk.MergeResult :=
  match loop 0 None entries with
  | None => Sdk.MissResult
  | Some (i, _) => Sdk.Winner i
  end.
End LastNWins.

(** ** [merge-profile-proto] *)
Record Profile := mkProfile {
  user_id : bytes;
  updated_at : Z;
  attrs : BTreeMap bytes;
  badges : list bytes;
}.
Definition Profile_default : Profile := mkProfile [] 0 bt_new [].

Module MergeProfile.
Section WithProst.
(** [Profile::decode] and [Message::encode_to_vec]. *)
Context (decode : bytes -> option Profile) (encode_to_vec : Profile -> bytes).

(** The decoding loop, with the pools whose bytes were reported as corrupt. *)
Fixpoint decode_hits (entries : list Sdk.Entry) : list Profile * list bytes :=
  match entries with
  | [] => ([], [])
  | e :: rest =>
      let '(ps, warned) := decode_hits rest in
      if bool_decide (Sdk.status e <> Sdk.Hit) then (ps, warned) else
      match Sdk.value e with
      | None => (ps, warned)
      | Some bs =>
          match decode bs with
          | Some p => (p :: ps, warned)
          | None => (ps, Sdk.pool e :: warned)
          end
      end
  end.

(** [sort_by_key(|p| p.updated_at)]: Rust's sort is stable. *)
Fixpoint insert_by_key (p : Profile) (ps : list Profile) : list Profile :=
  match ps with
  | [] => [p]
  | q :: qs => if updated_at p <=? updated_at q then p :: ps else q :: insert_by_key p qs
  end.
Definition sort_by_key (ps : list Profile) : list Profile := foldr insert_by_key [] ps.

(** One iteration of the merging loop; a [BTreeSet] is a map to [unit]. *)
Definition merge_step (acc : Profile * BTreeMap unit) (p : Profile) : Profile * BTreeMap unit :=
  let '(out, set) := acc in
  let out_attrs := bt_extend (attrs out) (attrs p) in
  let set := bt_extend set ((fun b => (b, tt)) <$> badges p) in
  (mkProfile (user_id p) (updated_at p) out_attrs (badges out), set).

Definition merge_all (decoded : list Profile) : Profile :=
  let '(out, set) := foldl merge_step (Profile_default, bt_new) decoded in
  mkProfile (user_id out) (updated_at out) (attrs out) (bt_keys set).

Definition merge_profile (entries : list Sdk.Entry) : Sdk.MergeResult * list bytes :=
  let '(decoded, warned) := decode_hits entries in
  match decoded with
  | [] => (Sdk.MissResult, warned)
  | _ => (Sdk.Synthesized (encode_to_vec (merge_all (sort_by_key decoded))), warned)
  end.
End WithProst.
End MergeProfile.

(** ** [concat_values] joins the hit values *)

(** The values of the hits that carry one, in read order. *)
Definition hit_values (es : list Sdk.Entry) : list bytes :=
  omap (fun e => if bool_decide (Sdk.status e = Sdk.Hit) then Sdk.value e else None) es.

(** [join vs]: the values with one bar between consecutive ones. *)
Fixpoint join (vs : list bytes) : bytes :=
  match vs with
  | [] => []
  | [v] => v
  | v :: vs => v ++ str "|" ++ join vs
  end.

Lemma join_cons_app out v vs : join ((out ++ str "|" ++ v) :: vs) = out ++ str "|" ++ join (v :: vs).
Proof. destruct vs as [|w ws]; [done|]. cbn [join]. by rewrite <- !app_assoc. Qed.

Lemma concat_loop_true out es :
  ConcatValues.loop out true es = (join (out :: hit_values es), true).
Proof.
  revert out. induction es as [|e es IH]; intros out; [done|].
  cbn [ConcatValues.loop]. unfold hit_values. cbn [omap list_omap].
  destruct (decide (Sdk.status e = Sdk.Hit)) as [E|E].
  - rewrite bool_decide_false, bool_decide_true by naive_solver.
    destruct (Sdk.value e) as [v|]; [|apply IH]. rewrite IH, <- app_assoc, join_cons_app. done.
  - rewrite bool_decide_true, bool_decide_false by done. apply IH.
Qed.

(** [concat_values] answers with exactly the hit values that are present, in
    read order, one separator between consecutive ones; it misses when no hit
    carries a value. *)
Theorem concat_values_join es :
  ConcatValues.concat_values es =
    match hit_values es with
    | [] => Sdk.MissResult
    | vs => Sdk.Synthesized (join vs)
    end.
Proof.
  unfold ConcatValues.concat_values. induction es as [|e es IH]; [done|].
  cbn [ConcatValues.loop]. unfold hit_values. cbn [omap list_omap].
  destruct (decide (Sdk.status e = Sdk.Hit)) as [E|E].
  - rewrite bool_decide_false, bool_decide_true by naive_solver.
    destruct (Sdk.value e) as [v|]; [|apply IH]. cbn zeta. by rewrite concat_loop_true.
  - rewrite bool_decide_true, bool_decide_false by done. apply IH.
Qed.

(** ** [last_n_wins] against the built-in *)

(** The two loops walk in step: the guest keeps only anchors that have a [t]. *)
Definition anchored (best : LastWriteWins.Best) : option (Z * Z) :=
  match best with Some (i, Some bt) => Some (i, bt) | _ => None end.

Lemma last_n_loop_anchored es : forall i best,
  LastNWins.loop i (anchored best) (to_sdk <$> es) = anchored (LastWriteWins.loop i best es).
Proof.
  induction es as [|e es IH]; intros i best; [done|].
  cbn [fmap list_fmap LastNWins.loop LastWriteWins.loop]. rewrite <- IH. f_equal.
  unfold LastWriteWins.step. destruct e as [k p s te v l]. cbn.
  destruct s; cbn; [|done|done]. destruct te as [te|], best as [[j [bt|]]|]; cbn; try done.
  by destruct (te >? bt).
Qed.

Definition timed_hit (e : Entry) : bool :=
  is_hit e && match t e with Some _ => true | None => false end.

Lemma anchored_None_iff es : forall i best,
  anchored (LastWriteWins.loop i best es) = None <->
  anchored best = None /\ existsb timed_hit es = false.
Proof.
  induction es as [|e es IH]; intros i best; [cbn; naive_solver|].
  cbn [LastWriteWins.loop existsb]. rewrite IH, orb_false_iff.
  unfold LastWriteWins.step, timed_hit, is_hit. destruct (status e); cbn;
    destruct (t e) as [te|], best as [[j [bt|]]|]; cbn; try naive_solver.
  destruct (te >? bt); cbn; naive_solver.
Qed.

(** On the entries of any read, the example UDF [last_n_wins] and the
    built-in last-write-wins pick the same winner as soon as one hit carries a
    [t] flag; when none does, the UDF misses (where the built-in falls back to
    the first hit). *)
Theorem last_n_wins_vs_lww es :
  of_sdk (LastNWins.last_n_wins (to_sdk <$> es)) =
    if existsb timed_hit es then LastWriteWins.apply es else MissResult.
Proof.
  unfold LastNWins.last_n_wins, LastWriteWins.apply.
  pose proof (last_n_loop_anchored es 0 None) as E. pose proof (anchored_None_iff es 0 None) as H.
  cbn [anchored] in E, H. rewrite E. clear E.
  destruct (existsb timed_hit es).
  - destruct (LastWriteWins.loop 0 None es) as [[i [bt|]]|]; cbn in *; [done| |];
      exfalso; naive_solver.
  - by rewrite (proj2 H).
Qed.

(** ** [merge_profile] *)

Section Profiles.
Import MergeProfile.
Implicit Types ps : list Profile.

(** [newest ps p]: [p] has the greatest [updated_at] of [ps] and, among equals,
    comes from the rightmost pool. *)
Definition newest ps (p : Profile) : Prop :=
  exists pre post, ps = pre ++ p :: post /\
    Forall (fun q => updated_at q <= updated_at p) pre /\
    Forall (fun q => updated_at q < updated_at p) post.

Lemma elem_of_insert_by_key x p ps : x ∈ insert_by_key p ps <-> x = p \/ x ∈ ps.
Proof.
  induction ps as [|q ps IH]; cbn; [set_solver|].
  destruct (updated_at p <=? updated_at q); [set_solver|]. rewrite !elem_of_cons, IH. naive_solver.
Qed.

Lemma elem_of_sort x ps : x ∈ sort_by_key ps <-> x ∈ ps.
Proof.
  induction ps as [|q ps IH]; cbn; [done|]. rewrite elem_of_insert_by_key, IH, elem_of_cons. done.
Qed.

Definition key_le (a b : Profile) : Prop := updated_at a <= updated_at b.

Lemma sorted_insert p ps : StronglySorted key_le ps -> StronglySorted key_le (insert_by_key p ps).
Proof.
  induction 1 as [|q ps Hs IH Hq]; cbn; [by repeat constructor|].
  destruct (Z.leb_spec (updated_at p) (updated_at q)).
  - constructor; [by constructor|]. constructor; [done|].
    eapply Forall_impl; [exact Hq|]. unfold key_le. lia.
  - constructor; [done|]. apply Forall_forall. intros x [->|Hx]%elem_of_insert_by_key; [unfold key_le; lia|].
    rewrite Forall_forall in Hq. auto.
Qed.

Lemma sorted_sort ps : StronglySorted key_le (sort_by_key ps).
Proof. induction ps; cbn; [constructor|by apply sorted_insert]. Qed.

Lemma insert_least p ps : Forall (key_le p) ps -> insert_by_key p ps = p :: ps.
Proof.
  destruct 1 as [|q ps Hq]; [done|]. cbn. by rewrite (proj2 (Z.leb_le _ _)) by exact Hq.
Qed.

(** Stability: selecting and sorting commute. *)
Lemma filter_insert (P : Profile -> bool) p ps :
  StronglySorted key_le ps ->
  List.filter P (insert_by_key p ps) =
    if P p then insert_by_key p (List.filter P ps) else List.filter P ps.
Proof.
  induction 1 as [|q ps Hs IH Hq]; cbn; [by destruct (P p)|].
  destruct (Z.leb_spec (updated_at p) (updated_at q)) as [Hle|Hgt]; cbn.
  - destruct (P p), (P q) eqn:?; cbn; try done; [by rewrite (proj2 (Z.leb_le _ _))|].
    rewrite insert_least; [done|]. apply Forall_forall. intros x Hx.
    apply list_elem_of_In, List.filter_In in Hx as [Hx%list_elem_of_In _].
    rewrite Forall_forall in Hq. specialize (Hq x Hx). unfold key_le in *. lia.
  - rewrite IH. destruct (P p), (P q) eqn:?; cbn; try done.
    rewrite (proj2 (Z.leb_gt _ _)) by lia. done.
Qed.

Lemma filter_sort (P : Profile -> bool) ps :
  List.filter P (sort_by_key ps) = sort_by_key (List.filter P ps).
Proof.
  induction ps as [|q ps IH]; [done|].
  change (sort_by_key (q :: ps)) with (insert_by_key q (sort_by_key ps)). cbn [List.filter].
  rewrite filter_insert by apply sorted_sort.
  rewrite IH. by destruct (P q).
Qed.

Lemma last_insert x p ps :
  last ps = Some p -> Forall (fun q => updated_at q <= updated_at p) ps ->
  last (insert_by_key x ps) = Some (if updated_at x <=? updated_at p then p else x).
Proof.
  induction ps as [|q ps IH]; [done|]. intros Hl Hall. apply Forall_cons in Hall as [Hq Hall].
  cbn [insert_by_key]. destruct (Z.leb_spec (updated_at x) (updated_at q)) as [Hle|Hgt].
  - rewrite last_cons, Hl. by rewrite (proj2 (Z.leb_le _ _)) by lia.
  - destruct ps as [|q' ps].
    + injection Hl as <-. cbn. by rewrite (proj2 (Z.leb_gt _ _)) by lia.
    + rewrite last_cons_cons in Hl. rewrite last_cons, (IH Hl Hall). done.
Qed.

(** The last element after the stable sort is the newest profile. *)
Lemma last_sort ps : ps <> [] -> exists p, last (sort_by_key ps) = Some p /\ newest ps p.
Proof.
  induction ps as [|x ps IH]; [done|]. intros _. destruct ps as [|y ps].
  { exists x. split; [done|]. exists [], []. done. }
  destruct IH as (p & Hl & pre & post & E & Hpre & Hpost); [done|].
  exists (if updated_at x <=? updated_at p then p else x). change (sort_by_key (x :: y :: ps))
    with (insert_by_key x (sort_by_key (y :: ps))).
  assert (Forall (fun q => updated_at q <= updated_at p) (y :: ps)) as Hall.
  { rewrite E. apply Forall_app. split; [done|]. constructor; [done|].
    eapply Forall_impl; [exact Hpost|]. cbn. lia. }
  split.
  - apply last_insert; [done|]. apply Forall_forall. intros q Hq%(proj1 (elem_of_sort _ _)).
    rewrite Forall_forall in Hall. by apply Hall.
  - destruct (Z.leb_spec (updated_at x) (updated_at p)).
    + exists (x :: pre), post. rewrite E. split; [done|]. split; [by constructor|done].
    + exists [], (y :: ps). split; [done|]. split; [done|].
      eapply Forall_impl; [exact Hall|]. cbn. lia.
Qed.

Definition has_attr (k : bytes) (p : Profile) : bool := bt_contains k (attrs p).

(** The value the last profile carrying [k] gives it. *)
Definition last_attr (k : bytes) ps : option bytes :=
  p ← last (List.filter (has_attr k) ps); bt_get k (attrs p).

Lemma last_attr_cons k p ps :
  last_attr k (p :: ps) = match last_attr k ps with Some v => Some v | None => bt_get k (attrs p) end.
Proof.
  unfold last_attr. cbn [List.filter].
  assert (forall q, last (List.filter (has_attr k) ps) = Some q -> exists v, bt_get k (attrs q) = Some v) as Hq.
  { intros q Hq. apply last_Some_elem_of, list_elem_of_In, List.filter_In in Hq as [_ Hq].
    unfold has_attr, bt_contains in Hq. destruct (bt_get k (attrs q)); naive_solver. }
  destruct (has_attr k p) eqn:Hp; [rewrite last_cons|];
    destruct (last (List.filter (has_attr k) ps)) as [q|]; cbn; try done.
  - destruct (Hq q eq_refl) as [v ->]. done.
  - destruct (Hq q eq_refl) as [v ->]. done.
  - unfold has_attr, bt_contains in Hp. by destruct (bt_get k (attrs p)).
Qed.

Lemma merge_step_wf acc p :
  bt_wf (attrs acc.1) -> bt_wf acc.2 ->
  bt_wf (attrs (merge_step acc p).1) /\ bt_wf (merge_step acc p).2.
Proof. destruct acc as [out set]. cbn. auto with mcgw. Qed.

(** The merging loop, started on any accumulator. *)
Lemma merge_loop_spec ps : forall acc,
  bt_wf (attrs acc.1) -> bt_wf acc.2 -> Forall (fun p => bt_wf (attrs p)) ps ->
  let acc' := foldl merge_step acc ps in
  bt_wf acc'.2 /\
  (forall p, last ps = Some p -> user_id acc'.1 = user_id p /\ updated_at acc'.1 = updated_at p) /\
  (forall k, bt_get k (attrs acc'.1) =
     match last_attr k ps with Some v => Some v | None => bt_get k (attrs acc.1) end) /\
  (forall b, b ∈ bt_keys acc'.2 <-> b ∈ bt_keys acc.2 \/ exists p, p ∈ ps /\ b ∈ badges p).
Proof.
  induction ps as [|p ps IH]; intros acc Hw1 Hw2 Hps.
  - cbn. split_and!; [done|done|done|]. set_solver.
  - apply Forall_cons in Hps as [Hp Hps]. destruct (merge_step_wf acc p Hw1 Hw2) as [Hw1' Hw2'].
    destruct (IH (merge_step acc p) Hw1' Hw2' Hps) as (IHw & IHu & IHa & IHb).
    cbn [foldl]. split; [done|]. destruct acc as [out set]. cbn in Hw1, Hw2. split; [|split].
    + intros q Hq. destruct ps as [|p' ps]; [injection Hq as <-; done|].
      rewrite last_cons_cons in Hq. by apply IHu.
    + intros k. rewrite IHa. cbn [merge_step fst attrs]. rewrite bt_get_extend by done.
      rewrite last_attr_cons. by destruct (last_attr k ps).
    + intros b. rewrite IHb. cbn [merge_step snd]. rewrite bt_keys_extend by done.
      unfold bt_keys at 1. rewrite <- list_fmap_compose, list_elem_of_fmap. cbn. set_solver.
Qed.

(** What the merged profile is, in terms of the decoded profiles in pool order. *)
Definition profile_merged ps (out : Profile) : Prop :=
  (exists p, newest ps p /\ user_id out = user_id p /\ updated_at out = updated_at p) /\
  (forall k v, bt_get k (attrs out) = Some v <->
     exists p, newest (List.filter (has_attr k) ps) p /\ bt_get k (attrs p) = Some v) /\
  StronglySorted str_lt (badges out) /\
  (forall b, b ∈ badges out <-> exists p, p ∈ ps /\ b ∈ badges p).

Lemma newest_unique ps p q : newest ps p -> newest ps q -> p = q.
Proof.
  intros (pre & post & -> & Hp1 & Hp2) (pre' & post' & E & Hq1 & Hq2).
  destruct (app_eq_inv _ _ _ _ E) as [(k & -> & E')|(k & -> & E')]; destruct k as [|x k];
    cbn in E'; injection E' as -> E'; try done; exfalso.
  - subst. apply Forall_app in Hq2 as [_ Hq2]. apply Forall_app in Hp1 as [_ Hp1].
    inversion Hp1; inversion Hq2; subst; lia.
  - subst. apply Forall_app in Hp2 as [_ Hp2]. apply Forall_app in Hq1 as [_ Hq1].
    inversion Hq1; inversion Hp2; subst; lia.
Qed.

Lemma merge_all_spec ps :
  ps <> [] -> Forall (fun p => bt_wf (attrs p)) ps -> profile_merged ps (merge_all (sort_by_key ps)).
Proof.
  intros Hne Hwf. unfold merge_all.
  destruct (merge_loop_spec (sort_by_key ps) (Profile_default, bt_new)) as (Hw & Hu & Ha & Hb); [done|done| |].
  { apply Forall_forall. intros q Hq%(proj1 (elem_of_sort _ _)). by eapply Forall_forall in Hwf. }
  destruct (foldl merge_step _ _) as [out set]. cbn in *. split_and!.
  - destruct (last_sort ps Hne) as (p & Hl & Hn). exists p. by destruct (Hu p Hl).
  - intros k v. cbn. rewrite Ha. unfold last_attr. rewrite filter_sort.
    destruct (decide (List.filter (has_attr k) ps = [])) as [E|E].
    + rewrite E. cbn. split; [done|]. intros (p & (pre & post & E2 & _) & _). by destruct pre.
    + destruct (last_sort _ E) as (p & -> & Hn). cbn. split.
      * intros H. exists p. split; [done|]. by destruct (bt_get k (attrs p)).
      * intros (q & Hq & Hv). rewrite (newest_unique _ _ _ Hn Hq). by rewrite Hv.
  - by apply bt_keys_sorted.
  - intros b. cbn. rewrite Hb. setoid_rewrite elem_of_sort. set_solver.
Qed.
End Profiles.

(** C38: [merge_profile] misses exactly when no hit decodes.  Otherwise it encodes
    a profile whose [user_id] and [updated_at] come from the newest decoded
    profile (rightmost pool on ties), whose every attribute comes from the
    newest profile that has it, and whose badges are the sorted, duplicate-free
    union of all badges. *)
Theorem merge_profile_spec decode enc es
  (Hwf : forall bs p, decode bs = Some p -> bt_wf (attrs p)) :
  let ps := (MergeProfile.decode_hits decode es).1 in
  match (MergeProfile.merge_profile decode enc es).1 with
  | Sdk.MissResult => ps = []
  | Sdk.Synthesized bs => exists out, bs = enc out /\ profile_merged ps out
  | Sdk.Winner _ => False
  end.
Proof.
  cbn zeta. assert (Forall (fun p => bt_wf (attrs p)) (MergeProfile.decode_hits decode es).1) as Hps.
  { induction es as [|e es IH]; cbn; [constructor|]. destruct (MergeProfile.decode_hits decode es) as [ps w].
    case_bool_decide; [done|]. destruct (Sdk.value e) as [bs|]; [|done].
    destruct (decode bs) eqn:E; [|done]. constructor; [by eapply Hwf|done]. }
  unfold MergeProfile.merge_profile. destruct (MergeProfile.decode_hits decode es) as [ps w]. cbn in *.
  destruct ps as [|p ps]; [done|]. eexists. split; [done|]. by apply merge_all_spec.
Qed.

(** A stand-in protobuf coder that accepts the one-byte messages below. *)
Definition toy_decode (bs : bytes) : option Profile :=
  match bs with
  | [b] => Some (mkProfile [b] (byte_Z b) [(str "k", [b])] [[b]])
  | _ => None
  end.

Lemma merge_profile_spec_witness :
  (forall bs p, toy_decode bs = Some p -> bt_wf (attrs p)) /\
  match (MergeProfile.merge_profile toy_decode user_id
           [Sdk.mkEntry [] (str "a") Sdk.Hit None (Some (str "9")) None;
            Sdk.mkEntry [] (str "b") Sdk.Hit None (Some (str "4")) None]).1 with
  | Sdk.Synthesized bs => bs = str "9" /\ exists out, bs = user_id out
  | _ => False
  end.
Proof.
  assert (forall bs p, toy_decode bs = Some p -> bt_wf (attrs p)) as Hwf.
  { intros [|b [|]] p H; try discriminate. injection H as <-. repeat constructor. }
  split; [exact Hwf|].
  pose proof (merge_profile_spec toy_decode user_id
    [Sdk.mkEntry [] (str "a") Sdk.Hit None (Some (str "9")) None;
     Sdk.mkEntry [] (str "b") Sdk.Hit None (Some (str "4")) None] Hwf) as H.
  cbn zeta in H. split; [vm_compute; reflexivity|].
  destruct H as (out & H & _). exists out. exact H.
Defined.
