(* ===== verification/RefEngine.v ===== *)
(** * RefEngine: concrete instances of the engine and heap interfaces

    A bump allocator over a fixed memory satisfies [GuestHeapLaws], and a small
    engine that interprets a guest given by its exports satisfies
    [WasmtimeLaws]; loaded with an SDK guest it satisfies [RunsSdk].  They show
    that the hypotheses of the boundary theorems can hold together, and run the
    end-to-end examples. *)

From Stdlib Require Import String.
From S2P Require Import Prelude Text BTree Core Builtins WasmHost Sdk Boundary Examples.

(** ** A bump allocator *)
Record Bump := mkBump { b_mem : bytes; b_brk : N; b_live : gmap Z Sdk.Layout }.

Definition align_up (a al : Z) : Z := a + (- a) mod al.

Definition bump_alloc (g : Bump) (l : Sdk.Layout) : Z * Bump :=
  let p := align_up (Z.of_N (b_brk g)) (Sdk.align l) in
  if p + Sdk.size l <=? zlen (b_mem g)
  then (p, mkBump (b_mem g) (Z.to_N (p + Sdk.size l)) (<[p:=l]> (b_live g)))
  else (0, g).

#[export] Instance bump_heap : Sdk.GuestHeap := {
  Heap := Bump;
  g_mem := b_mem;
  g_store g a bs := mkBump (splice (b_mem g) a bs) (b_brk g) (b_live g);
  g_alloc := bump_alloc;
  g_dealloc g p _ := mkBump (b_mem g) (b_brk g) (delete p (b_live g));
  g_live := b_live;
}.

Record bump_ok (g : Bump) : Prop := {
  bo_brk : 1 <= Z.of_N (b_brk g) <= zlen (b_mem g);
  bo_cap : zlen (b_mem g) <= MAX_GUEST_MEMORY_BYTES;
  bo_in : forall p l, b_live g !! p = Some l -> 0 < p /\ 1 <= Sdk.size l /\ p + Sdk.size l <= Z.of_N (b_brk g);
  bo_disjoint : forall p l q k, b_live g !! p = Some l -> b_live g !! q = Some k -> p <> q ->
    p + Sdk.size l <= q \/ q + Sdk.size k <= p;
}.

Lemma align_up_bounds a al : 0 <= a -> 1 <= al -> a <= align_up a al <= a + al - 1.
Proof. intros. unfold align_up. pose proof (Z.mod_pos_bound (- a) al). lia. Qed.

Lemma bump_store_ok g a bs p l :
  bump_ok g -> b_live g !! p = Some l -> p <= a -> a + zlen bs <= p + Sdk.size l ->
  bump_ok (Sdk.g_store g a bs).
Proof.
  intros Hok Hl Ha Hb. destruct Hok as [Hbrk Hcap Hin Hd]. pose proof (Hin p l Hl).
  pose proof (zlen_nonneg bs).
  assert (zlen (splice (b_mem g) a bs) = zlen (b_mem g)) as E by (apply zlen_splice; unfold in_range; lia).
  constructor; cbn; rewrite ?E; done.
Qed.

Lemma bump_alloc_spec g l p g' :
  bump_ok g -> 1 <= Sdk.size l -> 1 <= Sdk.align l -> bump_alloc g l = (p, g') -> p <> 0 ->
  bump_ok g' /\ b_live g !! p = None /\ b_live g' = <[p:=l]> (b_live g) /\ @Sdk.ext bump_heap g g'.
Proof.
  intros [Hbrk Hcap Hin Hd] Hs Ha E Hp. unfold bump_alloc in E.
  pose proof (align_up_bounds (Z.of_N (b_brk g)) (Sdk.align l)) as Hup.
  destruct (Z.leb_spec (align_up (Z.of_N (b_brk g)) (Sdk.align l) + Sdk.size l) (zlen (b_mem g))) as [Hle|];
    injection E as <- <-; [|done].
  set (p := align_up _ _) in *. clearbody p.
  assert (b_live g !! p = None) as Hfresh.
  { destruct (b_live g !! p) as [k|] eqn:E; [|done]. pose proof (Hin p k E). lia. }
  split_and!; [|done|done|].
  - constructor; cbn; [lia|done| |].
    + intros q k. rewrite lookup_insert. case_decide as Eq; [intros [= <-]; subst; lia|].
      intros Hq. pose proof (Hin q k Hq). lia.
    + intros q k q' k'. rewrite !lookup_insert. intros Hq Hq' Hne.
      destruct (decide (p = q)) as [<-|], (decide (p = q')) as [<-|]; [done| | |by eapply Hd].
      * injection Hq as <-. pose proof (Hin q' k' Hq'). lia.
      * injection Hq' as <-. pose proof (Hin q k Hq). lia.
  - intros q k _ Hq. cbn in *. split; [|done]. rewrite lookup_insert_ne; [done|congruence].
Qed.

#[export] Instance bump_laws : Sdk.GuestHeapLaws bump_heap.
Proof.
  refine {| Sdk.g_ok := bump_ok : @Sdk.Heap bump_heap -> Prop;
            Sdk.g_room := fun g : @Sdk.Heap bump_heap => zlen (b_mem g) - Z.of_N (b_brk g) |}.
  - by intros g [].
  - intros g p l [Hbrk Hcap Hin Hd] Hl. pose proof (Hin p l Hl). cbn in *. lia.
  - intros g p l q k [] ? ? ?. eauto.
  - done.
  - intros g a bs p l Hok Hl Ha Hb. split; [by eapply bump_store_ok|]. split; [done|]. cbn.
    destruct Hok as [Hbrk Hcap Hin Hd]. pose proof (Hin p l Hl). pose proof (zlen_nonneg bs).
    rewrite zlen_splice by (unfold in_range; lia). done.
  - exact bump_alloc_spec.
  - intros g l [Hbrk Hcap Hin Hd] Hs Ha Hr. cbn in *. unfold bump_alloc.
    pose proof (align_up_bounds (Z.of_N (b_brk g)) (Sdk.align l)).
    rewrite (proj2 (Z.leb_le _ _)) by lia. cbn. lia.
  - intros g [Hbrk Hcap Hin Hd]. unfold MAX_GUEST_MEMORY_BYTES, Sdk.ISIZE_MAX in *. lia.
  - intros g p l [Hbrk Hcap Hin Hd] Hl. split; [|split; [done|]].
    + constructor; cbn; [done|done| |].
      * intros q k [_ Hq]%lookup_delete_Some. auto.
      * intros q k q' k' [_ Hq]%lookup_delete_Some [_ Hq']%lookup_delete_Some. by apply Hd.
    + intros q k Hne Hq. cbn in *. split; [|done]. by rewrite lookup_delete_ne.
Defined.

(** ** A small engine *)

#[export] Instance ValTy_eq_dec : EqDecision ValTy.
Proof. solve_decision. Defined.
#[export] Instance FuncType_eq_dec : EqDecision FuncType.
Proof. solve_decision. Defined.

(** A guest: whether it exports its memory, its functions ([None] is a trap),
    and the heap it is instantiated with. *)
Definition GuestFn : Type := list Z -> Bump -> option (Z * Bump).
Record RefModule := mkRefModule {
  rm_memory : bool;
  rm_exports : list (bytes * (FuncType * GuestFn));
  rm_init : Bump;
}.

Record RStore := mkRStore {
  rs_heap : Bump;
  rs_data : MergeStoreData;
  rs_cap : zlen (b_mem rs_heap) <= MAX_GUEST_MEMORY_BYTES;
}.

Definition with_heap (st : RStore) (h : Bump) : option RStore :=
  match decide (zlen (b_mem h) <= MAX_GUEST_MEMORY_BYTES) with
  | left H => Some (mkRStore h (rs_data st) H)
  | right _ => None
  end.

Lemma with_heap_Some st h :
  zlen (b_mem h) <= MAX_GUEST_MEMORY_BYTES -> exists st', with_heap st h = Some st' /\ rs_heap st' = h.
Proof. intros H. unfold with_heap. case_decide; [eauto|done]. Qed.

Lemma with_heap_inv st h st' : with_heap st h = Some st' -> rs_heap st' = h.
Proof. unfold with_heap. case_decide; [|done]. by intros [= <-]. Qed.

Definition in_tyb (ty : option ValTy) (v : Z) : bool :=
  match ty with
  | Some U32 => (0 <=? v) && (v <=? U32_MAX)
  | Some U64 => (0 <=? v) && (v <=? U64_MAX)
  | None => true
  end.
Lemma in_tyb_spec ty v : in_tyb ty v = true <-> in_ty ty v.
Proof. destruct ty as [[]|]; cbn; [| |done]; unfold is_u32, is_u64, U32_MAX, U64_MAX; lia. Qed.

Fixpoint find_export {A} (name : bytes) (es : list (bytes * A)) : option A :=
  match es with
  | [] => None
  | (n, f) :: es => if bool_decide (n = name) then Some f else find_export name es
  end.

Definition empty_bump : Bump := mkBump [] 0 ∅.
Lemma empty_bump_cap : zlen (b_mem empty_bump) <= MAX_GUEST_MEMORY_BYTES.
Proof. done. Qed.

Definition ref_engine (M : RefModule) : Wasmtime := {|
  Engine := unit;
  engine_new _ := Ok tt;
  module_new _ bs := if bool_decide (bs = []) then Err (EngineError (str "empty module")) else Ok tt;
  module_deserialize _ _ := Err (EngineError (str "no precompiled modules"));
  WModule := unit; Linker := unit; InstancePre := unit; Instance := unit; Memory := unit;
  Func := FuncType * GuestFn;
  Store := RStore;
  linker_new := tt;
  add_to_linker_sync _ := Ok tt;
  func_wrap _ _ _ _ := Ok tt;
  instantiate_pre _ _ := Ok tt;
  store_new data := mkRStore empty_bump data empty_bump_cap;
  set_epoch_deadline _ st := st;
  epoch_deadline_trap st := st;
  instantiate _ st :=
    match with_heap st (rm_init M) with
    | Some st' => Ok (tt, st')
    | None => Err (EngineError (str "memory limit"))
    end;
  get_memory _ _ name := if rm_memory M && bool_decide (name = str "memory") then Some tt else None;
  get_typed_func _ _ ty name :=
    match find_export name (rm_exports M) with
    | Some (ty', fn) => if bool_decide (ty' = ty) then Ok (ty, fn) else Err (EngineError (str "type mismatch"))
    | None => Err (EngineError (str "no such export"))
    end;
  call f args st :=
    match f.2 args (rs_heap st) with
    | None => Err (TrapError (OtherTrap 0))
    | Some (v, h) =>
        if in_tyb (result f.1) v then
          match with_heap st h with
          | Some st' => Ok (v, st')
          | None => Err (TrapError (OtherTrap 1))
          end
        else Err (EngineError (str "bad result"))
    end;
  memory_data _ st := b_mem (rs_heap st);
  memory_read _ st off n :=
    if off + n <=? zlen (b_mem (rs_heap st)) then Ok (slice (b_mem (rs_heap st)) off n)
    else Err MemoryAccessError;
  memory_write _ st off bs :=
    if off + zlen bs <=? zlen (b_mem (rs_heap st)) then
      match with_heap st (Sdk.g_store (rs_heap st) off bs) with
      | Some st' => Ok st'
      | None => Err MemoryAccessError
      end
    else Err MemoryAccessError;
|}.

#[export] Instance ref_engine_laws M : WasmtimeLaws (ref_engine M).
Proof.
  constructor; cbn.
  - done.
  - intros _ st off bs [? [? Hr]]. rewrite (proj2 (Z.leb_le _ _)) by lia.
    destruct (with_heap_Some st (mkBump (splice (b_mem (rs_heap st)) off bs)
      (b_brk (rs_heap st)) (b_live (rs_heap st)))) as (st' & -> & E).
    { cbn. rewrite zlen_splice by (unfold in_range; lia). apply rs_cap. }
    exists st'. by rewrite E.
  - intros _ st off bs ? ?. by rewrite (proj2 (Z.leb_gt _ _)) by lia.
  - intros _ st. apply rs_cap.
  - intros _ _ ty name f args st v st' Hf Hc.
    destruct (find_export _ _) as [[ty' fn]|]; [|done]. case_bool_decide; [|done]. injection Hf as <-.
    cbn in *. destruct (fn args (rs_heap st)) as [[v' h]|]; [|done].
    destruct (in_tyb (result ty) v') eqn:E; [|done].
    destruct (with_heap st h); [|done]. injection Hc as <- <-. by apply in_tyb_spec.
Qed.

(** ** An SDK guest on it *)

Definition sdk_exports (user : Sdk.UserFn) : list (bytes * (FuncType * GuestFn)) :=
  [ (str "mcgw_abi_version", (abi_version_ty, fun _ g => Some (Sdk.mcgw_abi_version, g)));
    (str "mcgw_alloc", (alloc_ty, fun args g =>
       match args with [sz; al] => Sdk.mcgw_alloc sz al g | _ => None end));
    (str "mcgw_dealloc", (dealloc_ty, fun args g =>
       match args with [p; sz; al] => g' ← Sdk.mcgw_dealloc p sz al g; Some (0, g') | _ => None end));
    (str "mcgw_merge", (merge_ty, fun args g =>
       match args with [p; n] => Sdk.mcgw_merge user p n g | _ => None end)) ].

Definition start_heap (n : nat) : Bump := mkBump (replicate n Byte.x00) 1 ∅.
Definition sdk_module (user : Sdk.UserFn) (n : nat) : RefModule :=
  mkRefModule true (sdk_exports user) (start_heap n).

Lemma ref_call_ok M ty (fn : GuestFn) args (st : RStore) v h :
  fn args (rs_heap st) = Some (v, h) -> in_tyb (result ty) v = true ->
  zlen (b_mem h) <= MAX_GUEST_MEMORY_BYTES ->
  exists st', @call (ref_engine M) (ty, fn) args st = Ok (v, st') /\ rs_heap st' = h.
Proof.
  intros Hf Ht Hc. cbn. rewrite Hf, Ht. destruct (with_heap_Some st h Hc) as (st' & -> & E). eauto.
Qed.

#[export] Instance ref_runs_sdk user n : RunsSdk (ref_engine (sdk_module user n)) bump_heap user.
Proof.
  refine {| guest_of := rs_heap : @Store (ref_engine (sdk_module user n)) -> @Sdk.Heap bump_heap |}.
  - done.
  - intros m st off bs st' Hw. cbn in Hw. case_match; [|done]. case_match eqn:E; [|done].
    injection Hw as <-. by apply with_heap_inv in E.
  - intros i st0 f sz al st p g Hf Ha Hp Hc. injection Hf as <-.
    apply ref_call_ok; [done|by apply in_tyb_spec|done].
  - intros i st0 f ptr sz al st g Hf Hd Hc. injection Hf as <-.
    exists 0. apply ref_call_ok; [|done|done]. cbn. by rewrite Hd.
  - intros i st0 f ptr k st packed g Hf Hm Hu Hc. injection Hf as <-.
    apply ref_call_ok; [done|by apply in_tyb_spec|done].
Defined.

(** A user function without heap traffic of its own. *)
Definition simple_user (f : list Sdk.Entry -> Sdk.MergeResult) : @Sdk.UserFn bump_heap :=
  fun es g => Some (f es, g).

Lemma simple_user_pure f :
  (forall es i, f es = Sdk.Winner i -> is_u32 i) -> PureUser bump_heap bump_laws (simple_user f) f.
Proof.
  intros Hf. constructor; [|done]. intros es g Hok. exists g.
  split_and!; [done|done|apply ext_refl|lia].
Qed.

Lemma start_heap_ok n : (2 <= n)%nat -> Z.of_nat n <= MAX_GUEST_MEMORY_BYTES -> bump_ok (start_heap n).
Proof.
  intros. constructor; cbn; unfold zlen; rewrite ?length_replicate; [lia|done| |]; intros *; rewrite lookup_empty; done.
Qed.

Lemma sdk_module_loaded user n :
  (2 <= n)%nat -> Z.of_nat n <= MAX_GUEST_MEMORY_BYTES ->
  @sdk_loaded (ref_engine (sdk_module user n)) bump_heap bump_laws user (ref_runs_sdk user n) tt (Z.of_nat n - 1).
Proof.
  intros Hn Hc st. destruct (with_heap_Some st (start_heap n)) as (st1 & Hw & E).
  { cbn. unfold zlen. by rewrite length_replicate. }
  eexists tt, st1, tt, _, _, _. split; [cbn; by rewrite Hw|].
  split; [done|]. split; [done|]. split; [done|]. split; [done|]. cbn. rewrite E.
  split; [by apply start_heap_ok|]. cbn. unfold zlen. rewrite length_replicate. lia.
Qed.

(** ** Witnesses of the boundary theorems *)

Definition demo_entries : list Entry :=
  [ mkEntry (str "k") (str "a") Hit (Some (-7)) (Some (str "left")) None;
    mkEntry (str "k") (str "b") Error None None None;
    mkEntry (str "k") (str "c") Hit None (Some (str "right")) (Some (str "VA 5")) ].

Lemma demo_entries_wf : Forall entry_wf demo_entries.
Proof.
  unfold demo_entries. repeat (apply Forall_cons; split); [..|constructor];
    (constructor; [vm_compute; reflexivity|]); intros v Hv; try discriminate;
    injection Hv as <-; vm_compute; split; discriminate.
Qed.

Lemma concat_values_usize es i : ConcatValues.concat_values es = Sdk.Winner i -> is_u32 i.
Proof. unfold ConcatValues.concat_values. by destruct (ConcatValues.loop [] false es) as [? []]. Qed.

(** The entries above reach [concat_values] through linear memory, and its
    answer comes back: the call computes to the joined values. *)
Lemma run_sdk_guest_witness :
  call_need demo_entries (ConcatValues.concat_values (to_sdk <$> demo_entries)) <= 511 /\
  @run_with_pre (ref_engine (sdk_module (simple_user ConcatValues.concat_values) 512)) tt (str "concat") 25
    demo_entries = Ok (Synthesized (str "left|right")).
Proof.
  split; [vm_compute; discriminate|].
  refine (@run_sdk_guest (ref_engine (sdk_module (simple_user ConcatValues.concat_values) 512)) _
    bump_heap bump_laws (simple_user ConcatValues.concat_values) (ref_runs_sdk _ 512)
    ConcatValues.concat_values (simple_user_pure _ concat_values_usize) tt (str "concat") 25
    demo_entries 511 _ demo_entries_wf _).
  - apply (sdk_module_loaded _ 512); [lia|vm_compute; discriminate].
  - vm_compute. discriminate.
Defined.
