(* ===== verification/HostSafety.v ===== *)
(** * HostSafety: what the host guarantees whatever the guest does

    Theorems about [WasmHost] that quantify over every engine obeying
    [WasmtimeLaws], hence over every guest: results handed to the gateway are
    in range and bounded, pointer arithmetic on guest-supplied addresses never
    wraps, logging stays within its budget, a module is only loaded after the
    ABI handshake. *)

From Stdlib Require Import String.
From S2P Require Import Prelude Text BTree Core Builtins WasmHost Sdk Boundary Examples RefEngine.

Section Host.
Context {WT : Wasmtime} {WL : WasmtimeLaws WT}.

(** ** Results *)

(** A successful read of [n] bytes yields [n] bytes. *)
Lemma memory_read_len m st off n bs :
  0 <= off -> 0 <= n -> memory_read m st off n = Ok bs -> zlen bs = n.
Proof.
  intros ? ?. rewrite memory_read_spec by done. split_if; [|done]. intros [= <-].
  apply zlen_slice. unfold in_range. lia.
Qed.

Lemma decode_result_shape m fd packed st r st' :
  decode_result m fd packed st = Ok (r, st') ->
  match r with
  | Winner i => is_u32 i
  | Synthesized bs => zlen bs <= MAX_GUEST_MEMORY_BYTES
  | MissResult => True
  end.
Proof.
  unfold decode_result. intros H.
  destruct (_ =? RESULT_TAG_MISS); [by inv_ok|].
  destruct (_ =? RESULT_TAG_WINNER); [inv_ok; auto with mcgw|].
  destruct (_ =? RESULT_TAG_SYNTHESIZED); [|by destruct (_ =? RESULT_TAG_GUEST_ERROR)].
  inv_ok. destruct (_ >? _) eqn:Hlen; [done|]. rewrite Z.gtb_ltb, Z.ltb_ge in Hlen. inv_ok.
  pose proof (from_le_bytes_range (slice a 4 4)). pose proof (from_le_bytes_range (slice a 0 4)).
  match goal with Hr : memory_read _ _ (from_le_bytes _) _ = Ok _ |- _ =>
    apply memory_read_len in Hr; [|lia|lia]; lia end.
Qed.

(** What the gateway may rely on for [n] entries. *)
Definition valid_result (n : Z) (r : MergeResult) : Prop :=
  match r with
  | Winner i => 0 <= i < n
  | Synthesized bs => zlen bs <= MAX_GUEST_MEMORY_BYTES
  | MissResult => True
  end.

Lemma run_with_pre_valid pre name ticks es r :
  run_with_pre pre name ticks es = Ok r -> valid_result (zlen es) r.
Proof.
  unfold run_with_pre. intros H. inv_ok.
  match goal with Hd : decode_result _ _ _ _ = Ok _ |- _ => apply decode_result_shape in Hd end.
  destruct m as [w|bs|]; [|by inv_ok..]. destruct (w >=? zlen es) eqn:E; [done|]. inv_ok.
  unfold is_u32 in *. cbn. rewrite Z.geb_leb, Z.leb_gt in E. lia.
Qed.

(** C2: whatever the guest does, a merge call handed to the gateway either
    misses, names an entry that exists, or carries at most
    [MAX_GUEST_MEMORY_BYTES] synthesized bytes: a trap, a deadline, a
    malformed answer or an out-of-range winner all surface as a miss. *)
Theorem wasm_apply_valid (wm : WasmMerge) es : valid_result (zlen es) (wasm_apply wm es).
Proof.
  unfold wasm_apply, run. destruct (run_with_pre _ _ _ es) eqn:E; [|done]. by eapply run_with_pre_valid.
Qed.

(** ** Pointer arithmetic *)

(** After a write of [bs] at [a] succeeded, [a + bs.len()] is inside memory. *)
Lemma memory_write_bound m st a bs st' :
  0 <= a -> memory_write m st a bs = Ok st' -> a + zlen bs <= MAX_GUEST_MEMORY_BYTES.
Proof.
  intros Ha Hw. destruct (Z.le_gt_cases (a + zlen bs) (zlen (memory_data m st))) as [Hle|Hgt].
  - pose proof (memory_bounded m st). unfold host_config in *. cbn in *. lia.
  - rewrite memory_write_out in Hw by done. done.
Qed.

Lemma u32_add_small a b : 0 <= a + b <= MAX_GUEST_MEMORY_BYTES -> u32_add a b = a + b.
Proof. intros H. apply as_u32_id. unfold is_u32, U32_MAX, MAX_GUEST_MEMORY_BYTES in *. lia. Qed.

Lemma len_u32_inv bs w n : len_u32 bs w = Ok n -> n = zlen bs.
Proof. unfold len_u32. intros H. inv_ok. apply try_u32_Some in H; [naive_solver|auto with mcgw]. Qed.

Lemma opt_len_u32_inv o w n : opt_len_u32 o w = Ok n -> n = olen o.
Proof. destruct o; cbn; [apply len_u32_inv|]. by intros [= <-]. Qed.

(** Two [?]-chains agree when their first steps do and the rest agrees on success. *)
Lemma bind_ext {E A B} (x : Result E A) (f g : A -> Result E B) :
  (forall a, x = Ok a -> f a = g a) -> (x ≫= f) = (x ≫= g).
Proof. destruct x; cbn; auto. Qed.

(** C33: the [u32] additions of [FieldPtrs::write] on a guest-supplied base
    address never wrap: computing the same marshalling with unbounded integers
    gives the same writes, the same pointers and the same errors, for every
    entry and every value the guest's [mcgw_alloc] returns. *)
Theorem field_pointers_never_wrap i st0 fa m e st
  (Hfa : get_typed_func i st0 alloc_ty (str "mcgw_alloc") = Ok fa) :
  FieldPtrs_write m fa e st = FieldPtrs_write_with Z.add m fa e st.
Proof.
  unfold FieldPtrs_write, FieldPtrs_write_with.
  apply bind_ext. intros key_len ->%len_u32_inv. apply bind_ext. intros pool_len ->%len_u32_inv.
  apply bind_ext. intros value_len ->%opt_len_u32_inv. apply bind_ext. intros line_len ->%opt_len_u32_inv.
  apply bind_ext. intros alloc_size _. apply bind_ext. intros [base st1] Hcall.
  apply (call_typed i st0 alloc_ty _ _ _ _ _ _ Hfa) in Hcall as Hb. change (is_u32 base) in Hb.
  pose proof (zlen_nonneg (key e)). pose proof (zlen_nonneg (pool e)). pose proof (olen_nonneg (value e)).
  pose proof (proj1 Hb). destruct (base =? 0); [done|]. cbn zeta.
  replace (u32_add base 0) with (base + 0) by (symmetry; rewrite Z.add_0_r at 1; unfold u32_add;
    rewrite Z.add_0_r; by apply as_u32_id).
  apply bind_ext. intros st2 Hw2. apply memory_write_bound in Hw2; [|lia].
  rewrite (u32_add_small 0), (u32_add_small base) by lia.
  apply bind_ext. intros st3 Hw3. apply memory_write_bound in Hw3; [|lia].
  rewrite (u32_add_small (0 + zlen (key e))), (u32_add_small base) by lia.
  destruct (value e) as [b|] eqn:Ev; cbn [olen] in *.
  - destruct (memory_write m st3 _ b) as [st4|] eqn:Hw4; [|done]. cbn [mbind result_bind].
    apply memory_write_bound in Hw4; [|lia].
    rewrite (u32_add_small (0 + zlen (key e) + zlen (pool e))), (u32_add_small base) by lia. done.
  - cbn [mbind result_bind]. rewrite (u32_add_small base) by lia. done.
Qed.
End Host.

(** ** Witnesses: a hostile guest

    It exports a memory of 64 bytes, an allocator that always answers with the
    last address of memory, and a merge that claims entry 7 won. *)
Definition hostile_exports : list (bytes * (FuncType * GuestFn)) :=
  [ (str "mcgw_alloc", (alloc_ty, fun _ g => Some (63, g)));
    (str "mcgw_dealloc", (dealloc_ty, fun _ g => Some (0, g)));
    (str "mcgw_merge", (merge_ty, fun _ g => Some (Z.lor (Z.shiftl 7 32) 1, g))) ].
Definition hostile : RefModule := mkRefModule true hostile_exports (start_heap 64).
Definition hostile_merge : @WasmMerge (ref_engine hostile) := mkWasmMerge (WT := ref_engine hostile) (str "evil") [] 25 tt.

Lemma wasm_apply_valid_witness :
  valid_result 0 (wasm_apply hostile_merge []) /\ wasm_apply hostile_merge [] = MissResult.
Proof.
  split; [apply (@wasm_apply_valid (ref_engine hostile) _ hostile_merge [])|vm_compute; reflexivity].
Defined.

Lemma field_pointers_never_wrap_witness :
  @FieldPtrs_write (ref_engine hostile) tt (alloc_ty, fun _ g => Some (63, g)) (hit_entry "a" None)
    (mkRStore empty_bump (MergeStoreData_new []) empty_bump_cap)
  = @FieldPtrs_write_with (ref_engine hostile) Z.add tt (alloc_ty, fun _ g => Some (63, g)) (hit_entry "a" None)
    (mkRStore empty_bump (MergeStoreData_new []) empty_bump_cap).
Proof.
  apply (@field_pointers_never_wrap (ref_engine hostile) _ tt
    (mkRStore empty_bump (MergeStoreData_new []) empty_bump_cap)). vm_compute. reflexivity.
Defined.

(** ** Logging stays within its budget *)

(** One guest invocation of [mcgw.log]: its memory, and its three arguments. *)
Record LogCall := mkLogCall { lc_read : option GuestRead; lc_level : Z; lc_ptr : Z; lc_len : Z }.

(** The calls a guest makes during one merge, in order, with the lines emitted. *)
Fixpoint run_logs (data : MergeStoreData) (calls : list LogCall) : MergeStoreData * list LogLine :=
  match calls with
  | [] => (data, [])
  | c :: rest =>
      let '(data, out) := mcgw_log (lc_read c) (lc_level c) (lc_ptr c) (lc_len c) data in
      let '(data, lines) := run_logs data rest in
      (data, match out with Some l => l :: lines | None => lines end)
  end.

(** A call whose (capped) range the guest memory can serve. *)
Definition readable (c : LogCall) : bool :=
  match lc_read c with
  | Some read => match read (lc_ptr c) (Z.min (lc_len c) LOG_MAX_BYTES) with Ok _ => true | Err _ => false end
  | None => false
  end.

(** What [Memory::read] promises about the buffer it fills. *)
Definition read_exact (c : LogCall) : Prop :=
  0 <= lc_len c /\
  forall read p n bs, lc_read c = Some read -> 0 <= n -> read p n = Ok bs -> zlen bs = n.

Lemma run_logs_spec calls : forall data,
  0 <= log_budget_remaining data ->
  let '(data', lines) := run_logs data calls in
  let used := Z.min (log_budget_remaining data) (zlen (List.filter readable calls)) in
  zlen lines = used /\ log_budget_remaining data' = log_budget_remaining data - used /\
  module_name data' = module_name data.
Proof.
  induction calls as [|c calls IH]; intros data Hd; cbn [run_logs List.filter].
  { rewrite (@zlen_nil LogLine), (@zlen_nil LogCall). cbv zeta. split_and!; [lia|lia|done]. }
  pose proof (zlen_nonneg (List.filter readable calls)).
  destruct (readable c) eqn:Hr; unfold readable in Hr; unfold mcgw_log.
  - destruct (lc_read c) as [read|]; [|done]. destruct (read _ _) as [buf|] eqn:E; [|done].
    rewrite (zlen_cons (A := LogCall)).
    destruct (Z.eqb_spec (log_budget_remaining data) 0) as [E0|E0].
    + specialize (IH data Hd). destruct (run_logs data calls). cbv zeta in *.
      destruct IH as (? & ? & ?). split_and!; [lia|lia|done].
    + specialize (IH (mkStoreData (module_name data) (log_budget_remaining data - 1))). cbn in IH.
      destruct (run_logs _ calls). rewrite (zlen_cons (A := LogLine)). cbv zeta in *.
      destruct IH as (? & ? & ?); [lia|]. split_and!; [lia|lia|done].
  - specialize (IH data Hd). destruct (lc_read c) as [read|]; [|by destruct (run_logs data calls)].
    destruct (read _ _) as [buf|] eqn:E; [done|]. by destruct (run_logs data calls).
Qed.

Lemma mcgw_log_line c data data' l :
  read_exact c -> mcgw_log (lc_read c) (lc_level c) (lc_ptr c) (lc_len c) data = (data', Some l) ->
  ll_module l = module_name data /\ zlen (ll_msg l) <= 3 * LOG_MAX_BYTES /\ utf8_valid (ll_msg l) = true.
Proof.
  intros [Hl Hr]. unfold mcgw_log. destruct (lc_read c) as [read|]; [|done].
  destruct (read _ _) as [buf|] eqn:E; [|done]. destruct (_ =? 0); [done|]. intros [= <- <-]. cbn.
  apply Hr in E; [|done|unfold LOG_MAX_BYTES; lia].
  pose proof (length_from_utf8_lossy buf). unfold zlen in *.
  split_and!; [done|lia|apply utf8_valid_lossy].
Qed.

Definition line_ok (name : bytes) (l : LogLine) : Prop :=
  ll_module l = name /\ zlen (ll_msg l) <= 3 * LOG_MAX_BYTES /\ utf8_valid (ll_msg l) = true.

Lemma mcgw_log_name read level ptr len data data' out :
  mcgw_log read level ptr len data = (data', out) -> module_name data' = module_name data.
Proof. unfold mcgw_log. repeat case_match; intros; by simplify_eq. Qed.

Lemma run_logs_lines calls : Forall read_exact calls -> forall data,
  Forall (line_ok (module_name data)) (run_logs data calls).2.
Proof.
  induction 1 as [|c calls Hc _ IH]; intros data; cbn [run_logs]; [constructor|].
  pose proof (mcgw_log_line c data) as Hline.
  destruct (mcgw_log _ _ _ _ data) as [data' out] eqn:E.
  specialize (IH data'). rewrite (mcgw_log_name _ _ _ _ _ _ _ E) in IH.
  destruct (run_logs data' calls) as [data'' lines]. cbn in *.
  destruct out as [l|]; [|done]. constructor; [|done]. by eapply Hline.
Qed.

(** C30: during one merge call at most [LOG_BUDGET_PER_CALL] lines reach the
    logger, one per call whose range is readable until the budget is spent,
    however many times and with whatever arguments the guest calls [mcgw.log];
    every emitted message is well-formed text of bounded size under the module's name. *)
Theorem log_budget_respected name calls (Hcalls : Forall read_exact calls) :
  let '(_, lines) := run_logs (MergeStoreData_new name) calls in
  zlen lines = Z.min LOG_BUDGET_PER_CALL (zlen (List.filter readable calls)) /\
  Forall (line_ok name) lines.
Proof.
  pose proof (run_logs_spec calls (MergeStoreData_new name) ltac:(done)) as Hs.
  pose proof (run_logs_lines calls Hcalls (MergeStoreData_new name)) as Hl.
  destruct (run_logs _ calls). by destruct Hs.
Qed.

Lemma log_budget_respected_witness :
  let read := fun p n : Z => if p + n <=? 5000 then Ok (replicate (Z.to_nat n) Byte.x61) else Err MemoryAccessError in
  let calls := mkLogCall (Some read) 9 4999 4 :: replicate 20 (mkLogCall (Some read) 2 0 2) in
  Forall read_exact calls /\ zlen (run_logs (MergeStoreData_new (str "m")) calls).2 = 16 /\
  let '(_, lines) := run_logs (MergeStoreData_new (str "m")) calls in
  zlen lines = Z.min LOG_BUDGET_PER_CALL (zlen (List.filter readable calls)) /\ Forall (line_ok (str "m")) lines.
Proof.
  intros read calls.
  assert (Forall read_exact calls) as Hc.
  { assert (forall lv p n, 0 <= n -> read_exact (mkLogCall (Some read) lv p n)) as Hx.
    { intros lv p n Hn. split; [done|]. cbn. intros r q k bs [= <-] Hk. unfold read.
      destruct (_ <=? _); [|done]. intros [= <-]. unfold zlen. rewrite length_replicate. lia. }
    constructor; [apply Hx; lia|]. apply Forall_replicate. apply Hx. lia. }
  split; [exact Hc|]. split; [vm_compute; reflexivity|]. exact (log_budget_respected (str "m") calls Hc).
Defined.

(** ** Errors and their classification *)

Section Errors.
Context {WT : Wasmtime}.

(** The answer of the guest is decided by its tag byte - miss, winner index
    in the high word, synthesized bytes refused when the descriptor is
    unreadable or claims more than a guest memory holds, guest error with its
    code, or a host-side protocol error for any tag the ABI does not define -
    and a guest-reported error is classified as the guest's, an oversized
    payload and an undefined tag as the host's. *)
Theorem decode_result_tags mem dealloc packed st (Hu : is_u64 packed) :
  let tag := packed mod 256 in
  (tag = 0 -> decode_result mem dealloc packed st = Ok (MissResult, st)) /\
  (tag = 1 -> decode_result mem dealloc packed st = Ok (Winner (packed / 2 ^ 32), st)) /\
  (tag = 2 ->
     match memory_read mem st (packed / 2 ^ 32) 8 with
     | Err e => decode_result mem dealloc packed st = Err e
     | Ok desc =>
         let len := from_le_bytes (slice desc 4 4) in
         MAX_GUEST_MEMORY_BYTES < len ->
         decode_result mem dealloc packed st = Err (Msg (SynthesizedTooLarge len)) /\
         classify (Msg (SynthesizedTooLarge len)) = Host
     end) /\
  (tag = 255 -> exists code, code = packed / 256 mod 256 /\
     decode_result mem dealloc packed st = Err (GuestError code) /\ classify (GuestError code) = Guest) /\
  (tag <> 0 -> tag <> 1 -> tag <> 2 -> tag <> 255 ->
     decode_result mem dealloc packed st = Err (Msg (UnknownTag tag)) /\
     classify (Msg (UnknownTag tag)) = Host).
Proof.
  cbn zeta. unfold is_u64, U64_MAX in Hu. unfold decode_result.
  assert (as_u8 (Z.land packed 255) = packed mod 256) as ->.
  { change 255 with (Z.ones 8). unfold as_u8. rewrite Z.land_ones by lia.
    change (2 ^ 8) with 256. apply Z.mod_mod. lia. }
  assert (as_u32 (Z.shiftr packed 32) = packed / 2 ^ 32) as Hhi.
  { rewrite Z.shiftr_div_pow2 by lia. apply as_u32_id. unfold is_u32, U32_MAX.
    pose proof (Z.div_lt_upper_bound packed (2 ^ 32) (2 ^ 32)). pose proof (Z.div_pos packed (2 ^ 32)). lia. }
  unfold RESULT_TAG_MISS, RESULT_TAG_WINNER, RESULT_TAG_SYNTHESIZED, RESULT_TAG_GUEST_ERROR.
  split_and!.
  - by intros ->.
  - intros ->. cbn. by rewrite Hhi.
  - intros ->. cbn -[slice]. rewrite Hhi. destruct (memory_read mem st (packed / 2 ^ 32) 8) as [desc|e]; [|done].
    cbn -[slice]. intros Hlen. split; [|done].
    by rewrite Z.gtb_ltb, (proj2 (Z.ltb_lt _ _) Hlen).
  - intros ->. eexists. split; [done|]. cbn. split; [|done]. do 2 f_equal. unfold as_u8.
    change 255 with (Z.ones 8). rewrite Z.land_ones, Z.shiftr_div_pow2 by lia. apply Z.mod_mod. lia.
  - intros. by rewrite !(proj2 (Z.eqb_neq _ _)) by done.
Qed.

(** ** The load-time handshake *)

(** C34: [from_module] only ever returns a merge whose module reported the host's
    ABI version and exported [mcgw_alloc], [mcgw_dealloc], [mcgw_merge] with
    the ABI's signatures and a memory; the merge carries the requested name and
    the default deadline of 25 epoch ticks. *)
Theorem from_module_handshake (module : WModule) name wm (H : from_module module name = Ok wm) :
  wm_module_name wm = name /\ wm_deadline_ticks wm = 25 /\
  exists linker inst st0 st1 fv v st2,
    build_linker = Ok linker /\ instantiate_pre linker module = Ok (wm_pre wm) /\
    instantiate (wm_pre wm) st0 = Ok (inst, st1) /\
    get_typed_func inst st1 abi_version_ty (str "mcgw_abi_version") = Ok fv /\
    call fv [] st1 = Ok (v, st2) /\ v = ABI_VERSION /\
    (exists fa, get_typed_func inst st2 alloc_ty (str "mcgw_alloc") = Ok fa) /\
    (exists fd, get_typed_func inst st2 dealloc_ty (str "mcgw_dealloc") = Ok fd) /\
    (exists fm, get_typed_func inst st2 merge_ty (str "mcgw_merge") = Ok fm) /\
    (exists m, get_memory inst st2 (str "memory") = Some m).
Proof.
  unfold from_module in H. inv_ok. destruct (_ =? ABI_VERSION) eqn:E; [|done]. cbn [negb] in H.
  apply Z.eqb_eq in E. inv_ok. cbn. split; [done|]. split; [done|].
  eexists _, _, _, _, _, _, _. split_and!; eauto.
Qed.
End Errors.

Lemma decode_result_tags_witness :
  is_u64 (Z.lor (Z.shiftl 3 32) 1) /\
  @decode_result (ref_engine hostile) tt (dealloc_ty, fun _ g => Some (0, g)) (Z.lor (Z.shiftl 3 32) 1)
    (mkRStore empty_bump (MergeStoreData_new []) empty_bump_cap)
  = Ok (Winner 3, mkRStore empty_bump (MergeStoreData_new []) empty_bump_cap).
Proof.
  assert (is_u64 (Z.lor (Z.shiftl 3 32) 1)) as Hu by (vm_compute; split; discriminate).
  split; [exact Hu|].
  exact (proj1 (proj2 (@decode_result_tags (ref_engine hostile) tt (dealloc_ty, fun _ g => Some (0, g)) _
    (mkRStore empty_bump (MergeStoreData_new []) empty_bump_cap) Hu)) eq_refl).
Defined.

Definition concat_engine : Wasmtime := ref_engine (sdk_module (simple_user ConcatValues.concat_values) 64).

Lemma from_module_handshake_witness :
  let wm := @mkWasmMerge concat_engine (str "c") [] 25 tt in
  @from_module concat_engine tt (str "c") = Ok wm /\ wm_module_name wm = str "c".
Proof.
  intros wm. assert (@from_module concat_engine tt (str "c") = Ok wm) as E by reflexivity.
  split; [exact E|]. exact (proj1 (@from_module_handshake concat_engine tt (str "c") wm E)).
Defined.
