(* ===== verification/SdkRuntime.v ===== *)
(** * SdkRuntime: more of the guest runtime against the host

    The required-flags string crosses the boundary unchanged; what the runtime
    does when the guest heap is exhausted; and the tie-breaking of the example
    in the SDK's documentation. *)

From Stdlib Require Import String.
From S2P Require Import Prelude Text BTree Core Builtins WasmHost Sdk Boundary Examples RefEngine HostSafety.

Section Flags.
Context {WT : Wasmtime} {WL : WasmtimeLaws WT}.

Lemma pack_static_str_parts ptr flags :
  is_u32 ptr -> zlen flags <= U32_MAX ->
  as_u32 (Z.shiftr (Sdk.pack_static_str ptr flags) 32) = ptr /\
  as_u32 (Z.land (Sdk.pack_static_str ptr flags) 4294967295) = zlen flags.
Proof.
  intros Hp Hl. pose proof (zlen_nonneg flags). unfold Sdk.pack_static_str, U32_MAX in *. split.
  - rewrite shiftr_pack_hi by lia. by apply as_u32_id.
  - change 4294967295 with (Z.ones 32). rewrite land_pack_lo by lia.
    apply as_u32_id. unfold is_u32, U32_MAX. lia.
Qed.

(** The flags a guest declares with [#[merge_fn(required_flags = ..)]] are
    the flags the host reads when it loads the module, wherever the literal sits
    in the guest's data segment, the empty string included. *)
Theorem required_flags_roundtrip i st func mem ptr flags st' :
  get_typed_func i st required_flags_ty (str "mcgw_required_flags") = Ok func ->
  call func [] st = Ok (Sdk.mcgw_required_flags ptr flags, st') ->
  get_memory i st' (str "memory") = Some mem ->
  is_u32 ptr -> utf8_valid flags = true ->
  ptr + zlen flags <= zlen (memory_data mem st') -> slice (memory_data mem st') ptr (zlen flags) = flags ->
  read_required_flags i st = Ok (flags, st').
Proof.
  intros Hf Hc Hm Hp Hu Hr Hs. unfold read_required_flags, Sdk.mcgw_required_flags in *. rewrite Hf, Hc. cbn [mbind result_bind].
  pose proof (memory_bounded mem st'). change (max_memory_size host_config) with 16777216 in *.
  pose proof (zlen_nonneg flags). pose proof Hp as Hp'. unfold is_u32 in Hp'.
  destruct (pack_static_str_parts ptr flags Hp) as [E1 E2]; [unfold U32_MAX; lia|].
  destruct (Z.eqb_spec (Sdk.pack_static_str ptr flags) 0) as [E|E].
  - rewrite E in E2. change (as_u32 (Z.land 0 4294967295)) with 0 in E2.
    destruct flags as [|b flags]; [done|]. rewrite zlen_cons in E2. pose proof (zlen_nonneg flags). lia.
  - rewrite E1, E2, Hm. cbn [ok_or mbind result_bind]. rewrite memory_read_spec by lia.
    rewrite (proj2 (Z.leb_le _ _)) by lia. cbn [mbind result_bind]. rewrite Hs, from_utf8_valid by done. done.
Qed.
End Flags.

(** A module whose data segment holds the literal at address 3. *)
Definition flags_module : RefModule :=
  mkRefModule true
    [(str "mcgw_required_flags", (required_flags_ty, fun _ g => Some (Sdk.mcgw_required_flags 3 (str "tc"), g)))]
    (mkBump (str "...tc...") 8 ∅).
Definition flags_store : RStore := mkRStore (mkBump (str "...tc...") 8 ∅) (MergeStoreData_new []) ltac:(vm_compute; discriminate).

Lemma required_flags_roundtrip_witness :
  exists st', @read_required_flags (ref_engine flags_module) tt flags_store = Ok (str "tc", st').
Proof.
  eexists. eapply (@required_flags_roundtrip (ref_engine flags_module) _ tt flags_store _ tt 3 (str "tc"));
    [reflexivity|reflexivity|reflexivity|done|reflexivity|by vm_compute|reflexivity].
Defined.

(** ** An exhausted heap *)

Section Exhausted.
Context {GH : Sdk.GuestHeap} {GL : Sdk.GuestHeapLaws GH}.

(** When the allocator returns null, encoding a synthesized result does not
    stop: it writes the payload and then the descriptor over address 0 and still
    reports a synthesized result, with the descriptor at address 0. *)
Theorem encode_synthesized_ignores_oom bs g l1 l2 :
  bs <> [] -> Sdk.layout (as_u32 (zlen bs)) 1 = Some l1 -> Sdk.layout 8 4 = Some l2 ->
  Sdk.g_alloc g l1 = (0, g) -> Sdk.g_alloc (Sdk.g_store g 0 bs) l2 = (0, Sdk.g_store g 0 bs) ->
  Z.max 8 (zlen bs) <= zlen (Sdk.g_mem g) ->
  Sdk.encode_result (Sdk.Synthesized bs) g =
    Some (2, Sdk.g_store (Sdk.g_store (Sdk.g_store g 0 bs) 0 (to_le_bytes 4 0)) 4 (to_le_bytes 4 (as_u32 (zlen bs)))).
Proof.
  intros Hb H1 H2 A1 A2 Hm. cbn [Sdk.encode_result]. unfold Sdk.encode_synthesized.
  rewrite H1. cbn [mbind option_bind]. rewrite A1.
  pose proof (zlen_nonneg bs).
  assert (forall g a x, 0 <= a -> a + zlen x <= zlen (Sdk.g_mem g) ->
    Sdk.store g a x = Some (Sdk.g_store g a x) /\ zlen (Sdk.g_mem (Sdk.g_store g a x)) = zlen (Sdk.g_mem g)) as Hst.
  { clear -GL. intros g a x Ha Hx. pose proof (zlen_nonneg x). unfold Sdk.store.
    rewrite (proj2 (Z.leb_le 0 a)), (proj2 (Z.leb_le _ _)) by lia. split; [done|].
    rewrite Sdk.store_mem by (unfold in_range; lia). apply zlen_splice. unfold in_range. lia. }
  assert (zlen (to_le_bytes 4 0) = 4 /\ zlen (to_le_bytes 4 (as_u32 (zlen bs))) = 4) as [L1 L2].
  { unfold zlen. by rewrite !length_to_le_bytes. }
  destruct (Hst g 0 bs) as [S1 M1]; [lia|lia|].
  destruct (Hst (Sdk.g_store g 0 bs) 0 (to_le_bytes 4 0)) as [S2 M2]; [lia|lia|].
  destruct (Hst (Sdk.g_store (Sdk.g_store g 0 bs) 0 (to_le_bytes 4 0)) 4 (to_le_bytes 4 (as_u32 (zlen bs)))) as [S3 _]; [lia|lia|].
  destruct bs as [|b bs]; [done|]. rewrite S1. cbn [mbind option_bind]. rewrite H2. cbn [mbind option_bind].
  rewrite A2, S2. cbn [mbind option_bind]. rewrite Z.add_0_l, S3. done.
Qed.
End Exhausted.

Definition full_heap : Bump := mkBump (str "abcdefgh") 8 ∅.

Lemma encode_synthesized_ignores_oom_witness :
  exists g', Sdk.encode_result (GH := bump_heap) (Sdk.Synthesized (str "xyz")) full_heap = Some (2, g').
Proof.
  eexists. eapply (encode_synthesized_ignores_oom (GH := bump_heap) (str "xyz") full_heap);
    [discriminate|reflexivity|reflexivity|reflexivity|reflexivity|by vm_compute].
Defined.

(** ** The documentation's example

    The SDK's crate documentation shows a [last_n_wins] built on [max_by_key],
    which keeps the last of equal keys; the example crate of that name keeps the
    first. *)
Definition max_by_key (l : list (Z * Z)) : option (Z * Z) :=
  foldl (fun best x => match best with
                       | None => Some x
                       | Some b => if b.2 <=? x.2 then Some x else best
                       end) None l.

Definition doc_last_n_wins (entries : list Sdk.Entry) : Sdk.MergeResult :=
  let timed := omap (fun ie : Z * Sdk.Entry =>
    if bool_decide (Sdk.status ie.2 = Sdk.Hit) then (fun t => (ie.1, t)) <$> Sdk.t ie.2 else None)
    (imap (fun i e => (Z.of_nat i, e)) entries) in
  match max_by_key timed with Some (i, _) => Sdk.Winner i | None => Sdk.MissResult end.

Lemma doc_example_breaks_ties_last :
  let tie := to_sdk <$> [hit_entry "a" (Some 5); hit_entry "b" (Some 5)] in
  doc_last_n_wins tie = Sdk.Winner 1 /\ LastNWins.last_n_wins tie = Sdk.Winner 0.
Proof. by vm_compute. Qed.
