(* ===== verification/MergeFn.v ===== *)
(** * MergeFn: the [#[merge_fn]] macro, from attribute to loaded module

    The whole macro of [mcgateway-sdk-macros/src/lib.rs]: the attribute is
    parsed, the item must be a function, and the expansion is the list of
    exports around it.  What the compiler and the engine do with the expansion
    is the class [RunsModule]; a module so built passes the host's handshake
    with the flags its attribute declares. *)

From Stdlib Require Import String.
From S2P Require Import Prelude Text BTree Core Builtins WasmHost Sdk Boundary Examples RefEngine HostSafety SdkRuntime.

Section Macro.
Context {GH : Sdk.GuestHeap}.

(** An exported [extern "C"] function: its type and its effect on the guest
    heap, [None] being a trap. *)
Definition ExportFn : Type := list Z -> Sdk.Heap -> option (Z * Sdk.Heap).
Definition Exports : Type := list (bytes * (FuncType * ExportFn)).

Inductive MacroError := AttrRejected (e : Sdk.AttrError) | NotAFunction (e : bytes).

(** [flags_export]; [FLAGS] is a literal of the data segment at [flags_ptr]. *)
Definition flags_export (flags_ptr : Z) (required_flags : option bytes) : Exports :=
  match required_flags with
  | Some flags =>
      [(str "mcgw_required_flags", (required_flags_ty, fun _ g => Some (Sdk.mcgw_required_flags flags_ptr flags, g)))]
  | None => []
  end.

(** The [quote!] of the expansion. *)
Definition expanded (flags_ptr : Z) (required_flags : option bytes) (user_fn : Sdk.UserFn) : Exports :=
  [ (str "mcgw_abi_version", (abi_version_ty, fun _ g => Some (Sdk.mcgw_abi_version, g)));
    (str "mcgw_alloc", (alloc_ty, fun args g =>
       match args with [size; align] => Sdk.mcgw_alloc size align g | _ => None end));
    (str "mcgw_dealloc", (dealloc_ty, fun args g =>
       match args with
       | [ptr; size; align] => g' ← Sdk.mcgw_dealloc ptr size align g; Some (0, g')
       | _ => None
       end));
    (str "mcgw_merge", (merge_ty, fun args g =>
       match args with [entries_ptr; entries_len] => Sdk.mcgw_merge user_fn entries_ptr entries_len g | _ => None end))
  ] ++ flags_export flags_ptr required_flags.

(** [merge_fn(attr, item)]; [item] is what parsing it as a function gives. *)
Definition merge_fn (attr : list (bytes * option bytes)) (item : Result bytes Sdk.UserFn) (flags_ptr : Z)
  : Result MacroError Exports :=
  required_flags ← map_err AttrRejected (Sdk.parse_attrs attr);
  user_fn ← map_err NotAFunction item;
  Ok (expanded flags_ptr required_flags user_fn).
End Macro.

(** ** What an attribute declares *)

Lemma parse_meta_spec items : forall acc r,
  Sdk.parse_meta acc items = Ok r ->
  Forall (fun it => it.1 = str "required_flags" /\ is_Some it.2) items /\
  r = match last (omap snd items) with Some v => Some v | None => acc end.
Proof.
  induction items as [|[path [lit|]] items IH]; intros acc r; cbn [Sdk.parse_meta]; [by intros [= <-]| |];
    case_bool_decide as E; try done.
  intros [Hall ->]%IH. split; [constructor; [cbn; eauto|done]|].
  change (omap snd ((path, Some lit) :: items)) with (lit :: omap snd items).
  rewrite last_cons. by destruct (last (omap snd items)).
Qed.

(** The flags of an attribute list: the last [required_flags] given. *)
Definition declared (attr : list (bytes * option bytes)) : option bytes := last (omap snd attr).

Lemma parse_attrs_declared attr r :
  Sdk.parse_attrs attr = Ok r ->
  Forall (fun it => it.1 = str "required_flags" /\ is_Some it.2) attr /\ r = declared attr.
Proof.
  unfold Sdk.parse_attrs, declared. destruct attr as [|it attr]; [by intros [= <-]|].
  intros [Hall ->]%parse_meta_spec. split; [done|]. by destruct (last _).
Qed.

Lemma parse_attrs_rejects attr :
  (exists e, Sdk.parse_attrs attr = Err e) <->
  ~ Forall (fun it => it.1 = str "required_flags" /\ is_Some it.2) attr.
Proof.
  assert (forall acc, (exists e, Sdk.parse_meta acc attr = Err e) <->
    ~ Forall (fun it => it.1 = str "required_flags" /\ is_Some it.2) attr) as H.
  { induction attr as [|[path lit] attr IH]; intros acc; cbn [Sdk.parse_meta].
    - split; [by intros []|]. intros []. constructor.
    - rewrite Forall_cons. case_bool_decide as E; cbn; [|naive_solver].
      destruct lit as [lit|]; [rewrite IH|]; naive_solver. }
  unfold Sdk.parse_attrs. destruct attr as [|it attr]; [|apply H]. split; [by intros []|]. intros []. constructor.
Qed.

(** ** Loading the result *)

(** An engine instantiating a module with these exports: each is found by name
    and exact type, calling one has its effect, the memory is exported, and the
    data segment holds the flags literal. *)
Class RunsModule (WT : Wasmtime) (GH : Sdk.GuestHeap) (exports : Exports (GH := GH)) (pre : InstancePre) := {
  heap_of : Store -> Sdk.Heap;
  mod_instance : Instance;
  mod_memory : Memory;
  mod_func : FuncType -> ExportFn (GH := GH) -> Func;
  mod_instantiates st : exists st1, instantiate pre st = Ok (mod_instance, st1);
  mod_get_memory st : get_memory mod_instance st (str "memory") = Some mod_memory;
  mod_data st : memory_data mod_memory st = Sdk.g_mem (heap_of st);
  mod_export st ty name fn :
    find_export name exports = Some (ty, fn) -> get_typed_func mod_instance st ty name = Ok (mod_func ty fn);
  mod_no_export st ty name :
    find_export name exports = None -> exists e, get_typed_func mod_instance st ty name = Err e;
  mod_call st ty fn args v g :
    fn args (heap_of st) = Some (v, g) -> in_ty (result ty) v -> zlen (Sdk.g_mem g) <= MAX_GUEST_MEMORY_BYTES ->
    exists st', call (mod_func ty fn) args st = Ok (v, st') /\ heap_of st' = g;
}.

(** The literal [flags] sits at [ptr] of a freshly instantiated module. *)
Definition literal_at {WT GH} (exports : Exports (GH := GH)) (pre : InstancePre) {RM : RunsModule WT GH exports pre}
  (ptr : Z) (flags : bytes) : Prop :=
  is_u32 ptr /\ utf8_valid flags = true /\
  forall st st1, instantiate pre st = Ok (mod_instance, st1) ->
    ptr + zlen flags <= zlen (Sdk.g_mem (heap_of st1)) /\ slice (Sdk.g_mem (heap_of st1)) ptr (zlen flags) = flags.

Section Load.
Context {WT : Wasmtime} {WL : WasmtimeLaws WT} {GH : Sdk.GuestHeap}.

(** The exports the handshake looks for, with the types it expects. *)
Lemma expanded_exports flags_ptr flags (user_fn : Sdk.UserFn (GH := GH)) :
  let es := expanded flags_ptr flags user_fn in
  (exists fn, find_export (str "mcgw_abi_version") es = Some (abi_version_ty, fn) /\
    forall g, fn [] g = Some (ABI_VERSION, g)) /\
  (exists fn, find_export (str "mcgw_alloc") es = Some (alloc_ty, fn)) /\
  (exists fn, find_export (str "mcgw_dealloc") es = Some (dealloc_ty, fn)) /\
  (exists fn, find_export (str "mcgw_merge") es = Some (merge_ty, fn)) /\
  match flags with
  | None => find_export (str "mcgw_required_flags") es = None
  | Some flags => exists fn, find_export (str "mcgw_required_flags") es = Some (required_flags_ty, fn) /\
      forall g, fn [] g = Some (Sdk.mcgw_required_flags flags_ptr flags, g)
  end.
Proof. cbv zeta. split_and!; [eauto..|]. destruct flags; cbn; eauto. Qed.

(** C6: a crate that compiles loads: [#[merge_fn(..)]] accepts exactly the
    attributes whose items are all [required_flags] strings, any other item being
    a compile error, and the module built from its expansion passes the host's
    handshake under any name, with the default deadline and exactly the flags the
    attribute declares last, none when it declares none. *)
Theorem merge_fn_loads attr user_fn flags_ptr :
  ((exists exports, merge_fn attr (Ok user_fn) flags_ptr = Ok exports) <->
   Forall (fun it => it.1 = str "required_flags" /\ is_Some it.2) attr) /\
  forall exports linker module pre (RM : RunsModule WT GH exports pre) name,
    merge_fn attr (Ok user_fn) flags_ptr = Ok exports ->
    build_linker = Ok linker -> instantiate_pre linker module = Ok pre ->
    (forall st, zlen (Sdk.g_mem (heap_of st)) <= MAX_GUEST_MEMORY_BYTES) ->
    literal_at exports pre flags_ptr (default [] (declared attr)) ->
    from_module module name =
      Ok (mkWasmMerge name (default [] (declared attr)) default_deadline_ticks pre).
Proof.
  split.
  { pose proof (parse_attrs_rejects attr) as Hrej. unfold merge_fn.
    destruct (Sdk.parse_attrs attr) as [flags|e] eqn:Ep; cbn.
    - apply parse_attrs_declared in Ep as [Hall _]. split; [done|eauto].
    - split; [by intros []|]. intros Hall. destruct (proj1 Hrej (ex_intro _ e eq_refl) Hall). }
  unfold merge_fn. intros exports linker module pre RM name.
  destruct (Sdk.parse_attrs attr) as [flags|e] eqn:Ep; [|done]. intros [= <-].
  apply parse_attrs_declared in Ep as [_ ->]. intros Hlink Hpre Hcap (Hp & Hu & Hlit). unfold from_module. rewrite Hlink. cbn [mbind result_bind].
  rewrite Hpre. cbn [map_err mbind result_bind].
  set (st0 := epoch_deadline_trap _). destruct (mod_instantiates st0) as [st1 Hi]. rewrite Hi. cbn [map_err mbind result_bind].
  destruct (expanded_exports flags_ptr (declared attr) user_fn) as ((fv & Ev & Hv) & (fa & Ea) & (fd & Ed) & (fm & Em) & Hfl).
  rewrite (mod_export _ _ _ _ Ev). cbn [map_err mbind result_bind].
  destruct (mod_call st1 abi_version_ty fv [] ABI_VERSION (heap_of st1) (Hv _)) as (st2 & -> & Hh2); [done|done|].
  cbn [mbind result_bind]. rewrite Z.eqb_refl. cbn [negb].
  rewrite (mod_export _ _ _ _ Ea), (mod_export _ _ _ _ Ed), (mod_export _ _ _ _ Em), mod_get_memory.
  cbn [map_err ok_or mbind result_bind].
  assert (exists st3, read_required_flags mod_instance st2 = Ok (default [] (declared attr), st3)) as [st3 ->]; [|done].
  destruct (Hlit st0 st1 Hi) as [Hr Hs]. destruct (declared attr) as [flags|].
  - destruct Hfl as (ff & Ef & Hf). cbn [from_option id] in Hu, Hr, Hs |- *.
    assert (is_u64 (Sdk.mcgw_required_flags flags_ptr flags)) as Hu64.
    { apply pack_u64; [done|]. specialize (Hcap st1). pose proof (zlen_nonneg flags). unfold is_u32, MAX_GUEST_MEMORY_BYTES in *. lia. }
    destruct (mod_call st2 required_flags_ty ff [] _ (heap_of st2) (Hf _) Hu64 (Hcap _)) as (st3 & Hc & Hh3).
    exists st3. rewrite Hh2 in Hh3. eapply required_flags_roundtrip; [by apply mod_export|exact Hc|apply mod_get_memory|done|done| |];
      by rewrite mod_data, Hh3.
  - exists st2. unfold read_required_flags. by destruct (mod_no_export st2 required_flags_ty _ Hfl) as [e ->].
Qed.
End Load.

(** ** The reference engine runs such modules *)

#[export] Instance ref_runs_module (es : Exports (GH := bump_heap)) init
  (Hcap : zlen (b_mem init) <= MAX_GUEST_MEMORY_BYTES) :
  RunsModule (ref_engine (mkRefModule true es init)) bump_heap es tt.
Proof.
  refine {| heap_of := rs_heap : @Store (ref_engine (mkRefModule true es init)) -> @Sdk.Heap bump_heap;
            mod_instance := tt : @Instance (ref_engine (mkRefModule true es init));
            mod_memory := tt : @Memory (ref_engine (mkRefModule true es init));
            mod_func := (fun ty fn => (ty, fn)) : FuncType -> ExportFn -> @Func (ref_engine (mkRefModule true es init)) |}.
  - intros st. destruct (with_heap_Some st init Hcap) as (st' & Hw & _). exists st'. cbn. by rewrite Hw.
  - done.
  - done.
  - intros st ty name fn Hf. cbn. change (@find_export (FuncType * GuestFn) name es = Some (ty, fn)) in Hf.
    rewrite Hf. by rewrite bool_decide_true.
  - intros st ty name Hf. cbn. change (@find_export (FuncType * GuestFn) name es = None) in Hf. rewrite Hf. eauto.
  - intros st ty fn args v g Hf Hty Hg. apply ref_call_ok; [done|by apply in_tyb_spec|done].
Defined.

(** A crate declaring [required_flags = "t"], with the literal at address 3. *)
Definition t_attr : list (bytes * option bytes) := [(str "required_flags", Some (str "t"))].
Definition t_heap : Bump := mkBump (str "...t....") 8 ∅.
Definition t_exports : Exports (GH := bump_heap) := expanded 3 (Some (str "t")) (simple_user (fun _ => Sdk.MissResult)).
Definition t_module : RefModule := mkRefModule true t_exports t_heap.

Lemma t_heap_cap : zlen (b_mem t_heap) <= MAX_GUEST_MEMORY_BYTES.
Proof. vm_compute. discriminate. Qed.

Lemma merge_fn_loads_witness :
  @from_module (ref_engine t_module) tt (str "newest") =
    Ok (mkWasmMerge (WT := ref_engine t_module) (str "newest") (str "t") 25 tt).
Proof.
  refine (proj2 (merge_fn_loads (WT := ref_engine t_module) (GH := bump_heap) t_attr (simple_user (fun _ => Sdk.MissResult)) 3)
    t_exports tt tt tt (ref_runs_module t_exports t_heap t_heap_cap) (str "newest") eq_refl eq_refl eq_refl _ _).
  - intros st. apply rs_cap.
  - split; [vm_compute; split; discriminate|]. split; [reflexivity|]. intros st st1 Hi. cbn in Hi.
    destruct (with_heap st t_heap) as [st'|] eqn:E; [|done]. injection Hi as <-. apply with_heap_inv in E.
    cbn. rewrite E. vm_compute. split; [discriminate|reflexivity].
Defined.
