(* ===== verification/Ticker.v ===== *)
(** * Ticker: the epoch ticker and its handle ([mcgateway-wasm-host/src/lib.rs])

    The ticker thread and the handle that stops it, as a step relation over the
    shared stop flag: [WasmHost] clones share one handle, dropped with the last
    of them.  What the engine does when the epoch passes a store's deadline is
    wasmtime's and no part of this file. *)

From S2P Require Import Prelude Text BTree Core WasmHost.

(** Where the thread is: before the [while] test, asleep, or returned. *)
Inductive TickPc := AtTest | Asleep | Returned.

(** Where the drop of the handle is: not begun, flag stored and joining, over. *)
Inductive DropPc := Held | Joining | Dropped.

#[export] Instance DropPc_eq_dec : EqDecision DropPc.
Proof. solve_decision. Defined.

Record TickState := mkTick {
  tk_clones : nat;
  tk_stop : bool;
  tk_thread : TickPc;
  tk_drop : DropPc;
  tk_epoch : Z;
}.

(** [spawn_ticker], held by the first [WasmHost]. *)
Definition spawn_ticker : TickState := mkTick 1 false AtTest Held 0.

Inductive tick_step : TickState -> TickState -> Prop :=
(** the thread *)
| tick_test c d e : tick_step (mkTick c false AtTest d e) (mkTick c false Asleep d e)
| tick_exit c d e : tick_step (mkTick c true AtTest d e) (mkTick c true Returned d e)
| tick_wake c s d e : tick_step (mkTick c s Asleep d e) (mkTick c s AtTest d (e + 1))
(** the clones *)
| host_clone c s t d e : (1 <= c)%nat -> tick_step (mkTick c s t d e) (mkTick (S c) s t d e)
| host_drop c s t d e : (2 <= c)%nat -> tick_step (mkTick c s t d e) (mkTick (c - 1) s t d e)
(** [TickerHandle::drop], run by the last clone: store the flag, then join *)
| drop_store s t e : tick_step (mkTick 1 s t Held e) (mkTick 0 true t Joining e)
| drop_join e : tick_step (mkTick 0 true Returned Joining e) (mkTick 0 true Returned Dropped e).

Definition tick_reachable : TickState -> Prop := rtc tick_step spawn_ticker.

(** The flag is set exactly from the drop on, and the thread returns only then. *)
Record tick_inv (s : TickState) : Prop := {
  ti_clones : (1 <= tk_clones s)%nat <-> tk_drop s = Held;
  ti_stop : tk_stop s = bool_decide (tk_drop s <> Held);
  ti_returned : tk_thread s = Returned -> tk_stop s = true;
  ti_dropped : tk_drop s = Dropped -> tk_thread s = Returned;
}.

Lemma tick_step_inv s s' : tick_inv s -> tick_step s s' -> tick_inv s'.
Proof.
  intros [Hc Hs Hr Hd] H. destruct H; cbn in *; constructor; cbn; try done; naive_solver lia.
Qed.

Lemma tick_reachable_inv s : tick_reachable s -> tick_inv s.
Proof.
  intros H. assert (tick_inv spawn_ticker) as H0.
  { constructor; cbn; done. }
  unfold tick_reachable in H. induction H as [|s s1 s2 Hs _ IH]; [done|]. eauto using tick_step_inv.
Qed.

(** How far a thread told to stop is from having returned. *)
Definition to_return (s : TickState) : Z :=
  match tk_thread s with Asleep => 1 | AtTest => 0 | Returned => 0 end.

Lemma stopped_epoch s s' : tick_inv s -> tk_stop s = true -> rtc tick_step s s' ->
  tk_epoch s' + to_return s' <= tk_epoch s + to_return s /\ tk_epoch s <= tk_epoch s'.
Proof.
  intros Hi Hs H. induction H as [s|s s1 s2 Hst _ IH]; [lia|].
  assert (tk_stop s1 = true) as Hs1 by (by destruct Hst).
  specialize (IH (tick_step_inv _ _ Hi Hst) Hs1).
  assert (tk_epoch s1 + to_return s1 <= tk_epoch s + to_return s /\ tk_epoch s <= tk_epoch s1); [|lia].
  destruct Hst; cbn in *; try done; unfold to_return; cbn; try lia.
Qed.

(** C37: the ticker lives exactly as long as its clones: while one [WasmHost] is
    left the thread runs, so every deadline stays armed; once the last is
    dropped the epoch advances at most once more, the join completes in at most
    two steps of the thread, and after it the epoch never moves again. *)
Theorem ticker_lifetime s :
  tick_reachable s ->
  ((1 <= tk_clones s)%nat -> tk_thread s <> Returned) /\
  (tk_clones s = 0%nat ->
    (forall s', rtc tick_step s s' -> tk_epoch s' <= tk_epoch s + 1) /\
    (exists s', rtc tick_step s s' /\ tk_drop s' = Dropped) /\
    (tk_drop s = Dropped -> forall s', rtc tick_step s s' -> tk_epoch s' = tk_epoch s)).
Proof.
  intros Hr. pose proof (tick_reachable_inv s Hr) as Hi. pose proof Hi as [Hc Hs Hret Hd]. split.
  - intros Hl Ht. apply Hc in Hl. rewrite (Hret Ht), Hl in Hs. done.
  - intros Hl. assert (tk_drop s <> Held) as Hn by (intros E; apply Hc in E; lia).
    rewrite bool_decide_true in Hs by done. split_and!.
    + intros s' H. pose proof (stopped_epoch s s' Hi Hs H). unfold to_return in *.
      destruct (tk_thread s), (tk_thread s'); lia.
    + destruct s as [c st t d e]. cbn in *. subst c st. destruct d; [done| |].
      * destruct t; eexists; split;
          [eapply rtc_l; [apply tick_exit|eapply rtc_l; [apply drop_join|apply rtc_refl]]|done
          |eapply rtc_l; [apply tick_wake|eapply rtc_l; [apply tick_exit|eapply rtc_l; [apply drop_join|apply rtc_refl]]]|done
          |eapply rtc_l; [apply drop_join|apply rtc_refl]|done].
      * exists (mkTick 0 true t Dropped e). split; [apply rtc_refl|done].
    + intros Hdr s' H. pose proof (stopped_epoch s s' Hi Hs H).
      assert (to_return s = 0) as E by (unfold to_return; by rewrite (Hd Hdr)).
      assert (0 <= to_return s') by (unfold to_return; destruct (tk_thread s'); lia). lia.
Qed.

Lemma ticker_lifetime_witness :
  let s := mkTick 0 true Asleep Joining 0 in
  tick_reachable s /\ exists s', rtc tick_step s s' /\ tk_drop s' = Dropped.
Proof.
  cbv zeta. assert (tick_reachable (mkTick 0 true Asleep Joining 0)) as Hr.
  { eapply rtc_l; [apply tick_test|]. eapply rtc_l; [apply drop_store|]. apply rtc_refl. }
  split; [exact Hr|]. apply (ticker_lifetime (mkTick 0 true Asleep Joining 0) Hr). reflexivity.
Defined.
