(* ===== verification/TokenBucket.v ===== *)
(** * TokenBucket: the rate limiter of per-request logging ([metrics.rs])

    [try_acquire_at] as the sequential function it computes when undisturbed,
    and as the sequence of atomic operations it really is.  The concurrent model
    interleaves any number of callers; a relaxed load may return any value at
    all, which covers every stale read the memory model allows, while the
    read-modify-write operations act on the current value. *)

From S2P Require Import Prelude.

Record TokenBucket := mkBucket {
  capacity : Z;
  nanos_per_token : Z;
  refilled_to : Z;
  tokens : Z;
}.

(** [TokenBucket::new]; the interval is in nanoseconds, a [u128]. *)
Definition TokenBucket_new (cap interval : Z) : TokenBucket :=
  let nanos := default U64_MAX (try_u64 (Z.max interval 1)) in
  mkBucket cap nanos 0 cap.

(** The closure of the crediting [fetch_update], and of the taking one. *)
Definition credit (cap earned tk : Z) : Z := Z.min (u64_saturating_add tk earned) cap.
Definition take_one (tk : Z) : option Z := u64_checked_sub tk 1.

Definition try_acquire_at (now : Z) (b : TokenBucket) : bool * TokenBucket :=
  let last := refilled_to b in
  let b :=
    if now >? last then
      let earned := (now - last) / nanos_per_token b in
      if earned >? 0 then
        mkBucket (capacity b) (nanos_per_token b) (last + earned * nanos_per_token b)
          (credit (capacity b) earned (tokens b))
      else b
    else b in
  match take_one (tokens b) with
  | Some tk => (true, mkBucket (capacity b) (nanos_per_token b) (refilled_to b) tk)
  | None => (false, b)
  end.

(** [TokenBucket::try_acquire], the clock read being [elapsed] nanoseconds (a [u128]). *)
Definition try_acquire (elapsed : Z) (b : TokenBucket) : bool * TokenBucket :=
  try_acquire_at (default U64_MAX (try_u64 elapsed)) b.

(** The limiter of merge-failure lines. *)
Definition log_limiter : TokenBucket := TokenBucket_new 10 1000000000.

Record bucket_wf (b : TokenBucket) : Prop := {
  cap_u64 : is_u64 (capacity b);
  npt_pos : 1 <= nanos_per_token b <= U64_MAX;
  refilled_u64 : is_u64 (refilled_to b);
  tokens_le : 0 <= tokens b <= capacity b;
}.

Lemma credit_range cap earned tk :
  is_u64 cap -> 0 <= tk <= cap -> 0 <= earned -> 0 <= credit cap earned tk <= cap.
Proof. unfold credit, u64_saturating_add, is_u64, U64_MAX. lia. Qed.

Lemma credit_le cap earned tk : credit cap earned tk <= tk + earned.
Proof. unfold credit, u64_saturating_add. lia. Qed.

Lemma take_one_spec tk : 0 <= tk -> take_one tk = if 1 <=? tk then Some (tk - 1) else None.
Proof. done. Qed.

(** The whole tokens earned since [last], as a time, never pass [now]. *)
Lemma refill_le now last npt : 1 <= npt -> last <= now -> last + (now - last) / npt * npt <= now.
Proof. intros. pose proof (Z.mul_div_le (now - last) npt). lia. Qed.

Lemma bucket_new_wf cap interval : is_u64 cap -> 0 <= interval -> bucket_wf (TokenBucket_new cap interval).
Proof.
  intros Hc Hi. unfold TokenBucket_new, try_u64. constructor; cbn.
  - done.
  - destruct (Z.leb_spec (Z.max interval 1) U64_MAX); cbn; unfold U64_MAX in *; lia.
  - unfold is_u64, U64_MAX. lia.
  - unfold is_u64 in Hc. lia.
Qed.

(** ** The concurrent model *)

(** Where a caller is inside [try_acquire_at]. *)
Inductive Pc :=
| PcStart (now : Z)
| PcLoaded (now last : Z)
| PcCredit (earned : Z)
| PcTake
| PcDone (acquired : bool).

Record Shared := mkShared { sh_bucket : TokenBucket; sh_threads : list Pc }.

Definition set_refilled (b : TokenBucket) (r : Z) : TokenBucket :=
  mkBucket (capacity b) (nanos_per_token b) r (tokens b).
Definition set_tokens (b : TokenBucket) (tk : Z) : TokenBucket :=
  mkBucket (capacity b) (nanos_per_token b) (refilled_to b) tk.

(** One atomic operation of one caller, on the bucket. *)
Inductive pc_step (b : TokenBucket) : Pc -> TokenBucket -> Pc -> Prop :=
| step_load now last : is_u64 last -> pc_step b (PcStart now) b (PcLoaded now last)
| step_no_refill now last :
    (now > last -> (now - last) / nanos_per_token b <= 0) ->
    pc_step b (PcLoaded now last) b PcTake
| step_cas_ok now last earned :
    now > last -> earned = (now - last) / nanos_per_token b -> earned > 0 -> refilled_to b = last ->
    pc_step b (PcLoaded now last)
      (set_refilled b (last + earned * nanos_per_token b)) (PcCredit earned)
| step_cas_fail now last :
    now > last -> (now - last) / nanos_per_token b > 0 -> refilled_to b <> last ->
    pc_step b (PcLoaded now last) b PcTake
| step_credit earned :
    pc_step b (PcCredit earned) (set_tokens b (credit (capacity b) earned (tokens b))) PcTake
| step_take tk : take_one (tokens b) = Some tk -> pc_step b PcTake (set_tokens b tk) (PcDone true)
| step_empty : take_one (tokens b) = None -> pc_step b PcTake b (PcDone false).

(** A system step: a new call with its clock reading, or one caller moves. *)
Inductive sys_step (limit : Z) : Shared -> Shared -> Prop :=
| sys_call b ts now : 0 <= now <= limit -> sys_step limit (mkShared b ts) (mkShared b (ts ++ [PcStart now]))
| sys_move b ts i pc b' pc' :
    ts !! i = Some pc -> pc_step b pc b' pc' ->
    sys_step limit (mkShared b ts) (mkShared b' (<[i:=pc']> ts)).

(** Every state the callers can reach while the clock reads at most [limit]. *)
Inductive reachable (limit : Z) (b0 : TokenBucket) : Shared -> Prop :=
| reach_init : reachable limit b0 (mkShared b0 [])
| reach_step s s' : reachable limit b0 s -> sys_step limit s s' -> reachable limit b0 s'.

(** Calls that returned [true]. *)
Definition acquired (ts : list Pc) : Z :=
  zlen (List.filter (fun pc => match pc with PcDone true => true | _ => false end) ts).

(** What each caller holds against the bucket: a credit not yet delivered, or a
    token already taken. *)
Definition weight (pc : Pc) : Z :=
  match pc with PcCredit e => e | PcDone true => 1 | _ => 0 end.
Definition total (ts : list Pc) : Z := foldr Z.add 0 (weight <$> ts).

Lemma total_cons pc ts : total (pc :: ts) = weight pc + total ts.
Proof. reflexivity. Qed.

Lemma total_app ts us : total (ts ++ us) = total ts + total us.
Proof. induction ts as [|pc ts IH]; [done|]. cbn [app]. rewrite !total_cons. lia. Qed.

Lemma total_insert ts i pc pc' :
  ts !! i = Some pc -> total (<[i:=pc']> ts) = total ts - weight pc + weight pc'.
Proof.
  revert i; induction ts as [|q ts IH]; intros [|i] H; try discriminate; cbn in H.
  - injection H as ->. cbn [insert list_insert]. rewrite !total_cons. lia.
  - change (<[S i:=pc']> (q :: ts)) with (q :: <[i:=pc']> ts). rewrite !total_cons, (IH i H). lia.
Qed.

(** A caller in flight carries a clock reading within the limit, or a positive credit. *)
Definition pc_ok (limit : Z) (pc : Pc) : Prop :=
  match pc with
  | PcStart now => 0 <= now <= limit
  | PcLoaded now last => 0 <= now <= limit /\ is_u64 last
  | PcCredit e => 0 < e
  | _ => True
  end.

Lemma acquired_le_total limit ts : Forall (pc_ok limit) ts -> acquired ts <= total ts.
Proof.
  unfold acquired. induction 1 as [|pc ts Hpc _ IH]; [done|]. rewrite total_cons. cbn [List.filter].
  destruct pc as [| | | |[]]; cbn [weight pc_ok] in *; rewrite ?zlen_cons; lia.
Qed.

Lemma total_nonneg limit ts : Forall (pc_ok limit) ts -> 0 <= total ts.
Proof. intros H. pose proof (acquired_le_total _ _ H). unfold acquired in *. pose proof
  (zlen_nonneg (List.filter (fun pc => match pc with PcDone true => true | _ => false end) ts)). lia. Qed.

(** The invariant: the refill clock is a whole number [e] of tokens and within
    the limit, and everything handed out or promised fits the burst plus [e]. *)
Record sys_inv (limit : Z) (b0 : TokenBucket) (s : Shared) : Prop := {
  inv_wf : bucket_wf (sh_bucket s);
  inv_cap : capacity (sh_bucket s) = capacity b0;
  inv_npt : nanos_per_token (sh_bucket s) = nanos_per_token b0;
  inv_pcs : Forall (pc_ok limit) (sh_threads s);
  inv_clock : refilled_to (sh_bucket s) <= limit;
  inv_bound : exists e, refilled_to (sh_bucket s) = e * nanos_per_token b0 /\
    total (sh_threads s) + tokens (sh_bucket s) <= capacity b0 + e;
}.

Ltac bucket_cbn := cbn [capacity nanos_per_token refilled_to tokens set_refilled set_tokens].

Section Invariant.
Context (limit : Z) (Hlimit : is_u64 limit) (b0 : TokenBucket) (Hb0 : bucket_wf b0) (Hfresh : refilled_to b0 = 0).

Lemma pc_step_inv b pc b' pc' ts i :
  sys_inv limit b0 (mkShared b ts) -> ts !! i = Some pc -> pc_step b pc b' pc' ->
  sys_inv limit b0 (mkShared b' (<[i:=pc']> ts)).
Proof.
  intros [Hwf Hcap Hnpt Hpcs Hclk (e & He & Hbd)] Hi Hs. cbn [sh_bucket sh_threads] in *.
  pose proof (total_insert ts i pc pc' Hi) as Ht.
  assert (pc_ok limit pc) as Hpc by (by eapply Forall_lookup_1 in Hi).
  destruct Hwf as [Hc Hn Hr Htk]. unfold is_u64 in *.
  destruct Hs as [now last Hl|now last _|now last earned Hgt -> He0 Hlast|now last _ _ _|earned|tk Htake|Htake];
    cbn [pc_ok weight] in *;
    (constructor; cbn [sh_bucket sh_threads];
      [constructor; bucket_cbn|done|done|apply Forall_insert; [done|cbn [pc_ok]]|..]); bucket_cbn;
    unfold is_u64; try done; try lia; try (exists e; split; [done|lia]).
  - (* the CAS succeeded *)
    pose proof (refill_le now last (nanos_per_token b)). nia.
  - pose proof (refill_le now last (nanos_per_token b)). lia.
  - exists (e + (now - last) / nanos_per_token b). split; [|lia].
    rewrite <- Hlast at 1. rewrite He, Hnpt. lia.
  - pose proof (credit_range (capacity b) earned (tokens b)). unfold is_u64 in *. lia.
  - exists e. split; [done|]. pose proof (credit_le (capacity b) earned (tokens b)). lia.
  - unfold take_one, u64_checked_sub in Htake. split_if; [|done]. injection Htake as <-. lia.
  - exists e. split; [done|]. unfold take_one, u64_checked_sub in Htake. split_if; [|done].
    injection Htake as <-. lia.
Qed.

Lemma reachable_inv s : reachable limit b0 s -> sys_inv limit b0 s.
Proof.
  induction 1 as [|s s' _ IH Hs].
  - constructor; cbn [sh_bucket sh_threads]; try done; [unfold is_u64 in Hlimit; lia|].
    exists 0. split; [lia|]. destruct Hb0. change (total []) with 0. lia.
  - destruct Hs as [b ts now Hnow|b ts i pc b' pc' Hi Hp]; [|by eapply pc_step_inv].
    destruct IH as [Hwf Hcap Hnpt Hpcs Hclk (e & He & Hbd)]. cbn [sh_bucket sh_threads] in *.
    constructor; cbn [sh_bucket sh_threads]; try done.
    + apply Forall_app. split; [done|]. by apply Forall_singleton.
    + exists e. split; [done|]. rewrite total_app. change (total [PcStart now]) with 0. lia.
Qed.
End Invariant.

(** C20: however many threads call [try_acquire_at], in whatever interleaving of
    its atomic operations and however stale its relaxed loads, while the clock
    reads at most [limit] nanoseconds the limiter lets through at most the burst
    plus one line per elapsed interval, it never holds more tokens than its
    capacity, and its refill clock never leaves the [u64] range. *)
Theorem rate_limit cap interval limit s :
  is_u64 cap -> 0 <= interval -> is_u64 limit ->
  reachable limit (TokenBucket_new cap interval) s ->
  acquired (sh_threads s) <= cap + limit / nanos_per_token (TokenBucket_new cap interval) /\
  bucket_wf (sh_bucket s).
Proof.
  intros Hc Hi Hl Hr. pose proof (bucket_new_wf cap interval Hc Hi) as Hwf.
  destruct (reachable_inv limit Hl _ Hwf eq_refl s Hr) as [Hb _ _ Hpcs Hclk (e & He & Hbd)].
  split; [|done]. pose proof (acquired_le_total _ _ Hpcs). pose proof (tokens_le _ Hb).
  pose proof (npt_pos _ Hwf) as Hn. rewrite He in Hclk.
  assert (e <= limit / nanos_per_token (TokenBucket_new cap interval)) by (apply Z.div_le_lower_bound; lia).
  change (capacity (TokenBucket_new cap interval)) with cap in Hbd. lia.
Qed.

(** Two callers race for a bucket of one: the second finds it empty. *)
Definition race : Shared :=
  mkShared (mkBucket 1 10 0 0) [PcDone true; PcDone false].

Lemma race_reachable : reachable 5 (TokenBucket_new 1 10) race.
Proof.
  assert (forall b ts i pc b' pc' s,
    reachable 5 (TokenBucket_new 1 10) (mkShared b ts) -> ts !! i = Some pc -> pc_step b pc b' pc' ->
    s = mkShared b' (<[i:=pc']> ts) -> reachable 5 (TokenBucket_new 1 10) s) as move.
  { intros * Hr Hi Hp ->. eapply reach_step; [exact Hr|]. by eapply sys_move. }
  unfold race.
  eapply (move (mkBucket 1 10 0 0) [PcDone true; PcTake] 1%nat); [| reflexivity| by apply step_empty | reflexivity].
  eapply (move (mkBucket 1 10 0 1) [PcTake; PcTake] 0%nat); [| reflexivity| by apply step_take | reflexivity].
  eapply (move (mkBucket 1 10 0 1) [PcTake; PcLoaded 5 0] 1%nat);
    [| reflexivity| apply step_no_refill; reflexivity | reflexivity].
  eapply (move (mkBucket 1 10 0 1) [PcLoaded 4 0; PcLoaded 5 0] 0%nat);
    [| reflexivity| apply step_no_refill; reflexivity | reflexivity].
  eapply (move (mkBucket 1 10 0 1) [PcLoaded 4 0; PcStart 5] 1%nat);
    [| reflexivity| by apply step_load | reflexivity].
  eapply (move (mkBucket 1 10 0 1) [PcStart 4; PcStart 5] 0%nat);
    [| reflexivity| by apply step_load | reflexivity].
  eapply reach_step; [|apply (sys_call 5 (mkBucket 1 10 0 1) [PcStart 4] 5); lia].
  eapply reach_step; [apply reach_init|apply (sys_call 5 (mkBucket 1 10 0 1) [] 4); lia].
Qed.

Lemma rate_limit_witness :
  acquired (sh_threads race) = 1 /\ acquired (sh_threads race) <= 1 + 5 / 10 /\ bucket_wf (sh_bucket race).
Proof.
  split; [reflexivity|]. apply (rate_limit 1 10 5 race); [done|done|done|exact race_reachable].
Defined.

(** ** The undisturbed call *)

(** The tokens on hand at [now]: what the bucket holds and the whole intervals
    since the last refill, capped. *)
Definition available (now : Z) (b : TokenBucket) : Z :=
  Z.min (capacity b) (tokens b + Z.max 0 (now - refilled_to b) / nanos_per_token b).

(** A caller running alone. *)
Definition solo_step (c c' : TokenBucket * Pc) : Prop := pc_step c.1 c.2 c'.1 c'.2.

(** The refill half of [try_acquire_at]. *)
Definition refilled (now : Z) (b : TokenBucket) : TokenBucket :=
  if now >? refilled_to b then
    let earned := (now - refilled_to b) / nanos_per_token b in
    if earned >? 0 then
      mkBucket (capacity b) (nanos_per_token b) (refilled_to b + earned * nanos_per_token b)
        (credit (capacity b) earned (tokens b))
    else b
  else b.

Lemma try_acquire_at_split now b :
  try_acquire_at now b =
  match take_one (tokens (refilled now b)) with
  | Some tk => (true, set_tokens (refilled now b) tk)
  | None => (false, refilled now b)
  end.
Proof. reflexivity. Qed.

Lemma refilled_spec now b :
  bucket_wf b -> is_u64 now ->
  bucket_wf (refilled now b) /\ tokens (refilled now b) = available now b /\
  capacity (refilled now b) = capacity b /\ nanos_per_token (refilled now b) = nanos_per_token b /\
  refilled_to b <= refilled_to (refilled now b) <= Z.max now (refilled_to b).
Proof.
  intros [Hc Hn Hr Ht] Hnow. unfold refilled, available.
  destruct (Z.gtb_spec now (refilled_to b)); [|rewrite Z.max_l, Z.div_0_l by lia; split; [done|lia]].
  pose proof (refill_le now (refilled_to b) (nanos_per_token b)).
  assert (0 <= (now - refilled_to b) / nanos_per_token b) by (apply Z.div_pos; lia).
  rewrite (Z.max_r 0 (now - refilled_to b)) by lia.
  set (earned := (now - refilled_to b) / nanos_per_token b) in *.
  destruct (Z.gtb_spec earned 0); [|split; [done|lia]]. bucket_cbn.
  pose proof (credit_range (capacity b) earned (tokens b) Hc Ht).
  assert (credit (capacity b) earned (tokens b) = Z.min (capacity b) (tokens b + earned)).
  { unfold credit, u64_saturating_add, is_u64 in *. lia. }
  unfold is_u64 in *. repeat split; bucket_cbn; nia.
Qed.

Lemma refilled_steps now b :
  is_u64 (refilled_to b) -> rtc solo_step (b, PcStart now) (refilled now b, PcTake).
Proof.
  intros Hr. apply (rtc_l _ _ (b, PcLoaded now (refilled_to b))); [by constructor|]. unfold refilled.
  destruct (Z.gtb_spec now (refilled_to b)) as [Hgt|Hle];
    [|apply rtc_once, step_no_refill; lia].
  set (earned := (now - refilled_to b) / nanos_per_token b).
  destruct (Z.gtb_spec earned 0) as [He|He]; [|apply rtc_once, step_no_refill; intros _; exact He].
  apply (rtc_l _ _ (set_refilled b (refilled_to b + earned * nanos_per_token b), PcCredit earned)).
  - apply step_cas_ok; [lia|reflexivity|lia|reflexivity].
  - apply rtc_once, step_credit.
Qed.

(** The accounting of one call: a token handed out was held or earned, and the
    refill clock counts the earned ones. *)
Lemma try_acquire_at_account now b e :
  bucket_wf b -> is_u64 now -> refilled_to b = e * nanos_per_token b ->
  let '(r, b') := try_acquire_at now b in
  bucket_wf b' /\ capacity b' = capacity b /\ nanos_per_token b' = nanos_per_token b /\
  refilled_to b' <= Z.max now (refilled_to b) /\
  exists e', refilled_to b' = e' * nanos_per_token b /\
    (if r then 1 else 0) + tokens b' <= tokens b + (e' - e).
Proof.
  intros Hb Hnow He. rewrite try_acquire_at_split.
  destruct (refilled_spec now b Hb Hnow) as (Hwf & _ & Hcap & Hnpt & Hclk).
  assert (exists e', refilled_to (refilled now b) = e' * nanos_per_token b /\
    tokens (refilled now b) <= tokens b + (e' - e)) as (e' & He' & Ht).
  { unfold refilled in *. destruct (now >? refilled_to b); [|exists e; split; [done|lia]].
    destruct (_ >? 0); [|exists e; split; [done|lia]]. bucket_cbn.
    exists (e + (now - refilled_to b) / nanos_per_token b). split; [lia|].
    pose proof (credit_le (capacity b) ((now - refilled_to b) / nanos_per_token b) (tokens b)). lia. }
  pose proof (tokens_le _ Hwf). rewrite take_one_spec by lia.
  destruct (Z.leb_spec 1 (tokens (refilled now b))); cbn [set_tokens capacity nanos_per_token refilled_to tokens].
  - split_and!; [|done|done|lia|]; [destruct Hwf; constructor; bucket_cbn; done || lia|].
    exists e'. split; [done|lia].
  - split_and!; [done|done|done|lia|]. exists e'. split; [done|lia].
Qed.

(** An undisturbed [try_acquire_at] is a run of its atomic operations, and
    computes the token bucket: it succeeds exactly when a token is on hand,
    takes exactly one, keeps the bucket well formed, and never moves the refill
    clock backwards or past the present. *)
Theorem try_acquire_at_spec now b :
  bucket_wf b -> is_u64 now ->
  let '(r, b') := try_acquire_at now b in
  rtc solo_step (b, PcStart now) (b', PcDone r) /\
  r = (1 <=? available now b) /\
  tokens b' = available now b - (if r then 1 else 0) /\
  bucket_wf b' /\ refilled_to b <= refilled_to b' <= Z.max now (refilled_to b).
Proof.
  intros Hb Hnow. rewrite try_acquire_at_split.
  destruct (refilled_spec now b Hb Hnow) as ([Hc Hn Hr Ht] & Ha & _ & _ & Hclk).
  pose proof (refilled_steps now b (refilled_u64 _ Hb)) as Hsteps.
  destruct (take_one (tokens (refilled now b))) as [tk|] eqn:Et;
    (split; [eapply rtc_r; [exact Hsteps|]; by constructor|]);
    rewrite take_one_spec, Ha in Et by lia; destruct (1 <=? available now b) eqn:E; try discriminate;
    [injection Et as <-|]; bucket_cbn; repeat split; bucket_cbn; unfold is_u64 in *; lia.
Qed.

Lemma try_acquire_at_spec_witness :
  try_acquire_at 5000000000 log_limiter = (true, mkBucket 10 1000000000 5000000000 9) /\
  let '(r, b') := try_acquire_at 5000000000 log_limiter in
  rtc solo_step (log_limiter, PcStart 5000000000) (b', PcDone r) /\
  r = (1 <=? available 5000000000 log_limiter) /\
  tokens b' = available 5000000000 log_limiter - (if r then 1 else 0) /\
  bucket_wf b' /\ refilled_to log_limiter <= refilled_to b' <= Z.max 5000000000 (refilled_to log_limiter).
Proof.
  split; [reflexivity|]. apply (try_acquire_at_spec 5000000000 log_limiter); [|done].
  by apply bucket_new_wf.
Defined.
