(* ===== verification/Paths.v ===== *)
(** * Paths: what the gateway uses of [std::path] on Unix

    A path is a byte string; [components] is [Path::components], and two paths
    are equal when their components are.  [file_name], [parent], [file_stem],
    [extension] and [join] follow from it.  [Env] and [Fs] are the environment
    block and the file system, arguments of the code that consults them. *)

From Stdlib Require Import String.
From S2P Require Import Prelude Text.

Inductive Component := RootDir | CurDir | ParentDir | Normal (s : bytes).

#[export] Instance Component_eq_dec : EqDecision Component.
Proof. solve_decision. Defined.

Definition slash : byte := Byte.x2f.
Definition dot : byte := Byte.x2e.

(** [split] on one byte: always at least one piece. *)
Fixpoint split_on (c : byte) (bs : bytes) : list bytes :=
  match bs with
  | [] => [[]]
  | b :: bs =>
      if bool_decide (b = c) then [] :: split_on c bs
      else match split_on c bs with
           | p :: ps => (b :: p) :: ps
           | [] => [[b]]
           end
  end.

(** A piece inside a path: empty pieces and [.] vanish. *)
Definition component_of (p : bytes) : option Component :=
  if bool_decide (p = []) then None
  else if bool_decide (p = [dot]) then None
  else if bool_decide (p = [dot; dot]) then Some ParentDir
  else Some (Normal p).

(** A leading [.] of a relative path is kept. *)
Definition components (path : bytes) : list Component :=
  match split_on slash path with
  | [] => []
  | p :: ps =>
      if bool_decide (p = []) then
        match ps with
        | [] => []
        | _ => RootDir :: omap component_of ps
        end
      else if bool_decide (p = [dot]) then CurDir :: omap component_of ps
      else omap component_of (p :: ps)
  end.

Definition path_eq (a b : bytes) : bool := bool_decide (components a = components b).

(** [Path::file_name]. *)
Definition file_name (path : bytes) : option bytes :=
  match last (components path) with
  | Some (Normal s) => Some s
  | _ => None
  end.

(** [Path::parent], as the components of the path it returns. *)
Definition parent (path : bytes) : option (list Component) :=
  match last (components path) with
  | None | Some RootDir => None
  | Some _ => Some (removelast (components path))
  end.

(** The last [.] of a file name: what is before it and what is after it. *)
Fixpoint rsplit_dot (file : bytes) : option (bytes * bytes) :=
  match file with
  | [] => None
  | b :: file' =>
      match rsplit_dot file' with
      | Some (before, after) => Some (b :: before, after)
      | None => if bool_decide (b = dot) then Some ([], file') else None
      end
  end.

(** [rsplit_file_at_dot]: [before] and [after], either of them optional. *)
Definition rsplit_file_at_dot (file : bytes) : option bytes * option bytes :=
  if bool_decide (file = [dot; dot]) then (Some file, None)
  else match rsplit_dot file with
       | None => (None, Some file)
       | Some ([], _) => (Some file, None)
       | Some (before, after) => (Some before, Some after)
       end.

(** [Path::file_stem], [Path::extension]. *)
Definition file_stem (path : bytes) : option bytes :=
  file ← file_name path;
  match rsplit_file_at_dot file with
  | (Some before, _) => Some before
  | (None, after) => after
  end.

Definition extension (path : bytes) : option bytes :=
  file ← file_name path;
  match rsplit_file_at_dot file with
  | (Some _, after) => after
  | (None, _) => None
  end.

(** [Path::join] with a file name of a directory listing. *)
Definition join (dir name : bytes) : bytes :=
  match last dir with
  | None => name
  | Some b => if bool_decide (b = slash) then dir ++ name else dir ++ slash :: name
  end.

(** [s.to_str()] of an [OsStr]. *)
Definition to_str (s : bytes) : option bytes := from_utf8 s.

(** What the kernel allows as the name of a directory entry. *)
Definition entry_name (s : bytes) : bool :=
  negb (bool_decide (s = [])) && negb (bool_decide (s = [dot])) &&
  negb (bool_decide (s = [dot; dot])) && forallb (fun b => negb (bool_decide (b = slash))) s.

Example components_examples :
  components (str "/etc//mcgateway/./udf/") =
    [RootDir; Normal (str "etc"); Normal (str "mcgateway"); Normal (str "udf")] /\
  components (str "./a/../b") = [CurDir; Normal (str "a"); ParentDir; Normal (str "b")] /\
  components (str "") = [] /\ components (str "/") = [RootDir] /\
  parent (str "config.lua") = Some [] /\ parent (str "/") = None /\
  file_stem (str "/u/.wasm") = Some (str ".wasm") /\ extension (str "/u/.wasm") = None /\
  file_stem (str "/u/a.b.wasm") = Some (str "a.b") /\ extension (str "/u/a.b.wasm") = Some (str "wasm").
Proof. vm_compute. repeat split. Qed.

(** ** The environment and the file system *)

(** An [std::io::Error], by the text it displays as. *)
Definition IoError : Type := bytes.

(** The environment block, and [std::env::var]: only a Unicode value counts. *)
Definition Env : Type := bytes -> option bytes.
Definition env_var (env : Env) (k : bytes) : option bytes := v ← env k; from_utf8 v.

(** A file system as the gateway sees it; [fs_read_dir] yields entry names,
    and [fs_canonicalize] takes the components of a path. *)
Record Fs := mkFs {
  fs_is_dir : bytes -> bool;
  fs_read_dir : bytes -> Result IoError (list (Result IoError bytes));
  fs_read : bytes -> Result IoError bytes;
  fs_canonicalize : list Component -> Result IoError bytes;
}.

(** ** Splitting and joining *)

Lemma split_on_nonempty c bs : exists p ps, split_on c bs = p :: ps.
Proof.
  induction bs as [|b bs (p & ps & IH)]; cbn; [eauto|].
  destruct (bool_decide (b = c)); [eauto|]. rewrite IH. eauto.
Qed.

Lemma split_on_none c s : Forall (fun b => b <> c) s -> split_on c s = [s].
Proof.
  induction 1 as [|b s Hb _ IH]; cbn; [done|]. rewrite bool_decide_false by done. by rewrite IH.
Qed.

(** Splitting distributes over the separator. *)
Lemma split_on_app c a b : split_on c (a ++ c :: b) = split_on c a ++ split_on c b.
Proof.
  induction a as [|x a IH]; cbn; [by rewrite bool_decide_true|].
  destruct (bool_decide (x = c)); [by rewrite IH|]. rewrite IH.
  destruct (split_on_nonempty c a) as (p & ps & ->). done.
Qed.

Lemma entry_name_no_slash s : entry_name s = true -> Forall (fun b => b <> slash) s.
Proof.
  unfold entry_name. intros H. apply andb_true_iff in H as [_ H].
  rewrite forallb_forall in H. apply Forall_forall. intros b Hb.
  apply list_elem_of_In, H in Hb. by apply negb_true_iff, bool_decide_eq_false in Hb.
Qed.

Lemma component_of_entry s : entry_name s = true -> component_of s = Some (Normal s).
Proof.
  unfold entry_name, component_of. intros H.
  repeat (apply andb_true_iff in H as [H ?]).
  repeat match goal with H : negb _ = true |- _ => apply negb_true_iff in H; rewrite H; clear H end. done.
Qed.

Lemma split_on_last_slash dir : last dir = Some slash -> exists d, dir = d ++ [slash].
Proof. intros H. apply last_Some in H as [d ->]. eauto. Qed.

(** The pieces of [dir/name]. *)
Lemma join_pieces dir name :
  dir <> [] -> entry_name name = true ->
  exists ps, split_on slash (join dir name) = ps ++ [name] /\
    (forall q qs, ps = q :: qs -> exists qs', split_on slash dir = q :: qs' /\
       omap component_of qs' = omap component_of qs) /\ ps <> [].
Proof.
  intros Hd Hn. pose proof (split_on_none slash name (entry_name_no_slash _ Hn)) as Hs.
  unfold join. destruct (last dir) as [b|] eqn:El; [|by apply last_None in El].
  destruct (bool_decide_reflect (b = slash)) as [->|Hb].
  - apply split_on_last_slash in El as [d ->]. exists (split_on slash d).
    rewrite <- app_assoc. cbn [app]. rewrite split_on_app, Hs. split; [done|].
    rewrite (split_on_app slash d []). cbn [split_on].
    destruct (split_on_nonempty slash d) as (p & ps & ->). split; [|done].
    intros q qs [= <- <-]. exists (ps ++ [[]]). split; [done|].
    rewrite omap_app. cbn. by rewrite app_nil_r.
  - exists (split_on slash dir). rewrite split_on_app, Hs. split; [done|].
    split; [intros q qs ->; eauto|]. by destruct (split_on_nonempty slash dir) as (p & ps & ->).
Qed.

Lemma components_join dir name :
  dir <> [] -> entry_name name = true -> components (join dir name) = components dir ++ [Normal name].
Proof.
  intros Hd Hn. destruct (join_pieces dir name Hd Hn) as (ps & Hj & Hp & Hne).
  destruct ps as [|q qs]; [done|]. destruct (Hp q qs eq_refl) as (qs' & Hq & Ho).
  unfold components. rewrite Hj, Hq. cbn [app].
  pose proof (component_of_entry _ Hn) as Hc.
  assert (omap component_of (qs ++ [name]) = omap component_of qs' ++ [Normal name]) as Ha.
  { rewrite omap_app, Ho. cbn. by rewrite Hc. }
  destruct (bool_decide_reflect (q = [])) as [->|Hqn].
  - destruct qs' as [|q' qs'']; [|].
    + exfalso. assert (dir = []); [|done]. destruct dir as [|b dir]; [done|]. cbn in Hq.
      destruct (bool_decide (b = slash)); [|by destruct (split_on_nonempty slash dir) as (p & ps & E); rewrite E in Hq].
      destruct (split_on_nonempty slash dir) as (p & ps & E). by rewrite E in Hq.
    + destruct (qs ++ [name]) eqn:E; [by destruct qs|]. rewrite Ha. done.
  - destruct (bool_decide (q = [dot])); [by rewrite Ha|].
    change (q :: qs ++ [name]) with ([q] ++ (qs ++ [name])).
    change (q :: qs') with ([q] ++ qs'). by rewrite (omap_app _ [q] (qs ++ [name])), (omap_app _ [q] qs'), Ha, app_assoc.
Qed.

Lemma file_name_join dir name :
  dir <> [] -> entry_name name = true -> file_name (join dir name) = Some name.
Proof. intros. unfold file_name. by rewrite components_join, last_snoc. Qed.

Lemma parent_join dir name :
  dir <> [] -> entry_name name = true -> parent (join dir name) = Some (components dir).
Proof. intros. unfold parent. by rewrite components_join, last_snoc, removelast_last. Qed.

(** ** Stem and extension *)

Lemma rsplit_dot_Some file before after :
  rsplit_dot file = Some (before, after) -> file = before ++ dot :: after.
Proof.
  revert before; induction file as [|b file IH]; intros before; cbn; [done|].
  destruct (rsplit_dot file) as [[b' a']|]; [intros [= <- ->]; cbn; by rewrite <- IH|].
  destruct (bool_decide_reflect (b = dot)) as [->|]; [|done]. by intros [= <- ->].
Qed.

Lemma rsplit_dot_none s : Forall (fun b => b <> dot) s -> rsplit_dot s = None.
Proof. induction 1 as [|b s Hb _ IH]; cbn; [done|]. rewrite IH. by rewrite bool_decide_false. Qed.

Lemma rsplit_dot_app s e : Forall (fun b => b <> dot) e -> rsplit_dot (s ++ dot :: e) = Some (s, e).
Proof.
  intros He. induction s as [|b s IH]; cbn; [|by rewrite IH].
  by rewrite (rsplit_dot_none e), bool_decide_true.
Qed.

(** A file with an extension is its stem, a dot and the extension. *)
Lemma stem_extension path file ext :
  file_name path = Some file -> extension path = Some ext ->
  exists stem, file_stem path = Some stem /\ stem <> [] /\ file = stem ++ dot :: ext.
Proof.
  unfold extension, file_stem. intros ->. cbn. unfold rsplit_file_at_dot.
  destruct (bool_decide (file = [dot; dot])); [done|].
  destruct (rsplit_dot file) as [[[|b before] after]|] eqn:E; try done.
  intros [= <-]. exists (b :: before). by rewrite (rsplit_dot_Some _ _ _ E).
Qed.

Lemma extension_of path stem ext :
  file_name path = Some (stem ++ dot :: ext) -> stem <> [] -> Forall (fun b => b <> dot) ext -> ext <> [] ->
  extension path = Some ext /\ file_stem path = Some stem.
Proof.
  intros Hf Hs He Hne. unfold extension, file_stem. rewrite Hf. cbn. unfold rsplit_file_at_dot.
  rewrite bool_decide_false.
  - rewrite rsplit_dot_app by done. by destruct stem.
  - destruct stem as [|b [|b' stem]]; [done|by intros [= -> ->]|by destruct stem].
Qed.

(** The files the loader and the watcher react to: [name.wasm]. *)
Lemma wasm_extension path file :
  file_name path = Some file ->
  (extension path ≫= to_str) = Some (str "wasm") <-> exists name, file = name ++ str ".wasm" /\ name <> [].
Proof.
  intros Hn. split.
  - destruct (extension path) as [ext|] eqn:E; [|done]. cbn. unfold to_str, from_utf8.
    split_if; [|done]. intros [= ->]. destruct (stem_extension _ _ _ Hn E) as (stem & _ & Hne & ->).
    eauto.
  - intros (name & -> & Hne). destruct (extension_of path name (str "wasm")) as [-> _];
      [done|done|repeat constructor; discriminate|done|done].
Qed.

Lemma wasm_name dir file :
  dir <> [] -> entry_name file = true ->
  (extension (join dir file) ≫= to_str) = Some (str "wasm") <->
  exists name, file = name ++ str ".wasm" /\ name <> [].
Proof. intros Hdir Hf. by apply wasm_extension, file_name_join. Qed.

(** A path by its parent and its file name. *)
Lemma parent_file_name path dir file :
  parent path = Some dir /\ file_name path = Some file <-> components path = dir ++ [Normal file].
Proof.
  unfold parent, file_name. split.
  - intros [Hp Hf]. destruct (last (components path)) as [[| | |s]|] eqn:E; try done.
    injection Hf as ->. injection Hp as <-. apply last_Some in E as [l ->]. by rewrite removelast_last.
  - intros ->. by rewrite last_snoc, removelast_last.
Qed.

Lemma wasm_stem dir file stem :
  dir <> [] -> entry_name file = true -> file = stem ++ str ".wasm" -> stem <> [] ->
  file_stem (join dir file) = Some stem.
Proof.
  intros Hdir Hf -> Hne. pose proof (file_name_join dir _ Hdir Hf) as Hn.
  destruct (extension_of (join dir (stem ++ str ".wasm")) stem (str "wasm")) as [_ ->];
    [done|done|repeat constructor; discriminate|done|done].
Qed.

Lemma component_of_nonempty p s : component_of p = Some (Normal s) -> s <> [].
Proof. unfold component_of. repeat case_bool_decide; naive_solver. Qed.

(** No normal component is empty, and so no file name. *)
Lemma components_nonempty path s : Normal s ∈ components path -> s <> [].
Proof.
  assert (forall ps : list bytes, Normal s ∈ omap component_of ps -> s <> []) as Hps.
  { intros ps (p & _ & H)%list_elem_of_omap. by eapply component_of_nonempty. }
  unfold components. destruct (split_on slash path) as [|p ps]; [by intros H%not_elem_of_nil|].
  case_bool_decide; [destruct ps; [by intros Hh%not_elem_of_nil|]|case_bool_decide; [|apply Hps]];
    intros [Hh|Hh]%elem_of_cons; try done; by eapply Hps.
Qed.

Lemma file_name_nonempty path file : file_name path = Some file -> file <> [].
Proof.
  unfold file_name. destruct (last (components path)) as [[| | |s]|] eqn:E; try done. intros [= <-].
  apply last_Some in E as [l E]. eapply (components_nonempty path). rewrite E. set_solver.
Qed.

Lemma file_stem_nonempty path stem : file_stem path = Some stem -> stem <> [].
Proof.
  unfold file_stem. destruct (file_name path) as [file|] eqn:E; [|done]. apply file_name_nonempty in E. cbn.
  unfold rsplit_file_at_dot. case_bool_decide; [naive_solver|].
  destruct (rsplit_dot file) as [[[|b before] after]|]; naive_solver.
Qed.
