(* ===== verification/Metrics.v ===== *)
(** * Metrics: the process-global metrics and the state they live in ([metrics.rs])

    [prometheus_client] is a parameter: [PromClient] has the operations the
    crate calls, [PromClientLaws] what they are documented to do.  [World] is
    the process state a merge dispatch can touch: the metrics, the log limiter,
    the lines handed to the [log] facade, and the clock as the sequence of its
    readings. *)

From Stdlib Require Import String.
From Stdlib.Floats Require Import SpecFloat.
From S2P Require Import Prelude Text WasmHost TokenBucket.

(** ** [f64]

    IEEE 754 binary64, rounding to nearest even. *)
Definition f64 : Type := spec_float.
Definition f64_of_Z (z : Z) : f64 := binary_normalize 53 1024 z 0 false.
Definition f64_div (a b : f64) : f64 := SFdiv 53 1024 a b.

(** The decimal literal [n / d]. *)
Definition f64_lit (n d : Z) : f64 := f64_div (f64_of_Z n) (f64_of_Z d).

Definition DURATION_BUCKETS : list f64 :=
  (fun n => f64_lit n 10000) <$>
    [1; 2; 4; 8; 16; 32; 64; 128; 256; 512; 1024; 2048; 4096; 8192; 16384].
Definition MERGE_BUCKETS : list f64 :=
  (fun n => f64_lit n 100000) <$>
    [1; 2; 4; 8; 16; 32; 64; 128; 256; 512; 1024; 2048; 4096; 8192].

(** Each bucket is exactly twice the one before it, in [f64] arithmetic, and the
    default WASM deadline of 50 ms falls inside the merge range. *)
Definition f64_double (x : f64) : f64 := SFmul 53 1024 (f64_of_Z 2) x.
Fixpoint doubling (bs : list f64) : bool :=
  match bs with
  | b :: ((b' :: _) as rest) => SFeqb (f64_double b) b' && doubling rest
  | _ => true
  end.

Example buckets_double :
  doubling DURATION_BUCKETS = true /\ doubling MERGE_BUCKETS = true /\
  List.existsb (fun b => SFltb b (f64_lit DEFAULT_DEADLINE_MS 1000)) MERGE_BUCKETS = true /\
  List.existsb (SFltb (f64_lit DEFAULT_DEADLINE_MS 1000)) MERGE_BUCKETS = true.
Proof. vm_compute. repeat split. Qed.

Definition micros_to_seconds (us : Z) : f64 := f64_div (f64_of_Z us) (f64_of_Z 1000000).
Definition nanos_to_seconds (ns : Z) : f64 := f64_div (f64_of_Z ns) (f64_of_Z 1000000000).

(** [Duration::as_secs_f64] of a duration in nanoseconds. *)
Definition as_secs_f64 (ns : Z) : f64 :=
  SFadd 53 1024 (f64_of_Z (ns / 1000000000)) (f64_div (f64_of_Z (ns mod 1000000000)) (f64_of_Z 1000000000)).

(** ** Label sets *)
Record KindLabels := mkKind { kl_kind : bytes }.
Record ResultLabels := mkResultL { rl_result : bytes }.
Record ReasonLabels := mkReason { rl_reason : bytes }.
Record TriggerLabels := mkTrigger { tl_trigger : bytes }.
Record MergeErrorLabels := mkMergeErrorL { mel_merge : bytes; mel_kind : bytes }.
Record RequestLabels := mkRequestL { rq_keyspace : bytes; rq_op : bytes; rq_outcome : bytes }.
Record KeyspaceOpLabels := mkKeyspaceOp { ko_keyspace : bytes; ko_op : bytes }.
Record BackendLabels := mkBackendL { bl_pool : bytes; bl_status : bytes }.
Record PoolLabels := mkPoolL { pl_pool : bytes }.
Record MergeLabels := mkMergeL { ml_merge : bytes }.

#[export] Instance KindLabels_eq : EqDecision KindLabels. Proof. solve_decision. Defined.
#[export] Instance ResultLabels_eq : EqDecision ResultLabels. Proof. solve_decision. Defined.
#[export] Instance ReasonLabels_eq : EqDecision ReasonLabels. Proof. solve_decision. Defined.
#[export] Instance TriggerLabels_eq : EqDecision TriggerLabels. Proof. solve_decision. Defined.
#[export] Instance MergeErrorLabels_eq : EqDecision MergeErrorLabels. Proof. solve_decision. Defined.
#[export] Instance RequestLabels_eq : EqDecision RequestLabels. Proof. solve_decision. Defined.
#[export] Instance KeyspaceOpLabels_eq : EqDecision KeyspaceOpLabels. Proof. solve_decision. Defined.
#[export] Instance BackendLabels_eq : EqDecision BackendLabels. Proof. solve_decision. Defined.
#[export] Instance PoolLabels_eq : EqDecision PoolLabels. Proof. solve_decision. Defined.
#[export] Instance MergeLabels_eq : EqDecision MergeLabels. Proof. solve_decision. Defined.

(** [EncodeLabelSet], derived: the fields in declaration order. *)
Class EncodeLabelSet (L : Type) := encode_labels : L -> list (bytes * bytes).
#[export] Instance enc_kind : EncodeLabelSet KindLabels := fun l => [(str "kind", kl_kind l)].
#[export] Instance enc_result : EncodeLabelSet ResultLabels := fun l => [(str "result", rl_result l)].
#[export] Instance enc_reason : EncodeLabelSet ReasonLabels := fun l => [(str "reason", rl_reason l)].
#[export] Instance enc_trigger : EncodeLabelSet TriggerLabels := fun l => [(str "trigger", tl_trigger l)].
#[export] Instance enc_merge_error : EncodeLabelSet MergeErrorLabels :=
  fun l => [(str "merge", mel_merge l); (str "kind", mel_kind l)].
#[export] Instance enc_request : EncodeLabelSet RequestLabels :=
  fun l => [(str "keyspace", rq_keyspace l); (str "op", rq_op l); (str "outcome", rq_outcome l)].
#[export] Instance enc_keyspace_op : EncodeLabelSet KeyspaceOpLabels :=
  fun l => [(str "keyspace", ko_keyspace l); (str "op", ko_op l)].
#[export] Instance enc_backend : EncodeLabelSet BackendLabels :=
  fun l => [(str "pool", bl_pool l); (str "status", bl_status l)].
#[export] Instance enc_pool : EncodeLabelSet PoolLabels := fun l => [(str "pool", pl_pool l)].
#[export] Instance enc_merge : EncodeLabelSet MergeLabels := fun l => [(str "merge", ml_merge l)].

(** ** What the crate uses of [prometheus_client] *)

(** A metric as the registry holds it: a clone of the handle, whatever its labels. *)
Inductive Any (C G H : Type) (Fam : Type -> Type -> Type) : Type :=
| AnyCounter {L} {_ : EncodeLabelSet L} (f : Fam L C)
| AnyGaugeFamily {L} {_ : EncodeLabelSet L} (f : Fam L G)
| AnyHistogram {L} {_ : EncodeLabelSet L} (f : Fam L H)
| AnyGauge (g : G).
Arguments AnyCounter {C G H Fam L _} f.
Arguments AnyGaugeFamily {C G H Fam L _} f.
Arguments AnyHistogram {C G H Fam L _} f.
Arguments AnyGauge {C G H Fam} g.

Class PromClient := {
  Counter : Type;
  counter_default : Counter;
  counter_inc : Counter -> Counter;
  counter_get : Counter -> Z;
  Gauge : Type;
  gauge_default : Gauge;
  gauge_set : Z -> Gauge -> Gauge;
  gauge_get : Gauge -> Z;
  Histogram : Type;
  histogram_new : list f64 -> Histogram;
  histogram_observe : f64 -> Histogram -> Histogram;
  histogram_count : Histogram -> Z;
  Family : Type -> Type -> Type;
  family_new : forall {L M}, M -> Family L M;
  (** [family.get_or_create(l)] followed by the operation on the metric it returns. *)
  at_labels : forall {L M} {_ : EqDecision L}, L -> (M -> M) -> Family L M -> Family L M;
  (** The metric [family.get_or_create(l)] returns, and the label sets that have one. *)
  metric_at : forall {L M} {_ : EqDecision L}, L -> Family L M -> M;
  labels : forall {L M}, Family L M -> list L;
  (** The text encoding of a registry: name, help and metric of each entry. *)
  prom_encode : list (bytes * bytes * (Any Counter Gauge Histogram Family)) -> bytes;
}.

(** Documented behaviour: [get_or_create] returns the metric of exactly that
    label set, made by the family's constructor the first time; counters count
    (wrapping at 2^64), gauges hold what was set, histograms count observations. *)
Class PromClientLaws (PC : PromClient) : Prop := {
  counter_default_get : counter_get counter_default = 0;
  counter_inc_get c : counter_get (counter_inc c) = (counter_get c + 1) mod 2 ^ 64;
  counter_range c : 0 <= counter_get c < 2 ^ 64;
  gauge_set_get v g : is_i64 v -> gauge_get (gauge_set v g) = v;
  histogram_new_count bs : histogram_count (histogram_new bs) = 0;
  histogram_observe_count v h : histogram_count (histogram_observe v h) = (histogram_count h + 1) mod 2 ^ 64;
  metric_at_new {L M} `{EqDecision L} (d : M) (l : L) : metric_at l (family_new d) = d;
  metric_at_labels {L M} `{EqDecision L} l l' (g : M -> M) (f : Family L M) :
    metric_at l' (at_labels l g f) = if decide (l' = l) then g (metric_at l f) else metric_at l' f;
  labels_new {L M} (d : M) : labels (family_new (L := L) d) = [];
  labels_at {L M} `{EqDecision L} l (g : M -> M) (f : Family L M) l' :
    l' ∈ labels (at_labels l g f) <-> l' = l \/ l' ∈ labels f;
}.

Section Metrics.
Context {PC : PromClient}.

Definition duration_histogram : Histogram := histogram_new DURATION_BUCKETS.
Definition merge_histogram : Histogram := histogram_new MERGE_BUCKETS.

(** [Metrics].  A [Family] is a handle over shared state and the [registry]
    holds clones of the very handles of the fields, so the record keeps the
    shared state once and [registry] reads it off. *)
Record Metrics := mkMetrics {
  requests : Family RequestLabels Counter;
  request_duration : Family KeyspaceOpLabels Histogram;
  backend_requests : Family BackendLabels Counter;
  backend_duration : Family PoolLabels Histogram;
  merge_duration : Family MergeLabels Histogram;
  merge_errors : Family MergeErrorLabels Counter;
  config_reloads : Family ResultLabels Counter;
  config_pools : Gauge;
  config_keyspaces : Gauge;
  registry_merges : Family KindLabels Gauge;
  udf_rescans : Family ResultLabels Counter;
  udf_module_failures : Family ReasonLabels Counter;
  reload_signals : Family TriggerLabels Counter;
}.

Definition Metrics_new : Metrics :=
  mkMetrics (family_new counter_default) (family_new duration_histogram)
    (family_new counter_default) (family_new duration_histogram)
    (family_new merge_histogram) (family_new counter_default)
    (family_new counter_default) gauge_default gauge_default
    (family_new gauge_default) (family_new counter_default)
    (family_new counter_default) (family_new counter_default).

(** What [Metrics::new] registers, in its order. *)
Definition registry (m : Metrics) : list (bytes * bytes * Any Counter Gauge Histogram Family) :=
  [(str "mcgateway_requests", str "Requests by keyspace, op, and outcome", AnyCounter (requests m));
   (str "mcgateway_request_duration_seconds", str "Request handler duration by keyspace and op",
     AnyHistogram (request_duration m));
   (str "mcgateway_backend_requests", str "Per-pool backend results by status", AnyCounter (backend_requests m));
   (str "mcgateway_backend_duration_seconds", str "Per-pool backend request latency",
     AnyHistogram (backend_duration m));
   (str "mcgateway_merge_duration_seconds", str "Merge function execution time by merge name",
     AnyHistogram (merge_duration m));
   (str "mcgateway_merge_errors", str "Failed WASM merge calls by module and error kind",
     AnyCounter (merge_errors m));
   (str "mcgateway_config_reloads", str "Config loads by result (fallback = kept previous config)",
     AnyCounter (config_reloads m));
   (str "mcgateway_config_pools", str "Pools in the config currently serving", AnyGauge (config_pools m));
   (str "mcgateway_config_keyspaces", str "Keyspaces in the config currently serving",
     AnyGauge (config_keyspaces m));
   (str "mcgateway_registry_merges", str "Registered merge functions by kind",
     AnyGaugeFamily (registry_merges m));
   (str "mcgateway_udf_rescans", str "UDF directory rescans by result", AnyCounter (udf_rescans m));
   (str "mcgateway_udf_module_failures", str "WASM modules skipped during a rescan by reason",
     AnyCounter (udf_module_failures m));
   (str "mcgateway_reload_signals",
     str "Proxy reloads (SIGHUP) requested by the file watcher by trigger", AnyCounter (reload_signals m))].

Definition encode (m : Metrics) : bytes := prom_encode (registry m).

(** ** Recording *)
Definition set_requests f (m : Metrics) : Metrics :=
  mkMetrics (f (requests m)) (request_duration m) (backend_requests m) (backend_duration m)
    (merge_duration m) (merge_errors m) (config_reloads m) (config_pools m) (config_keyspaces m)
    (registry_merges m) (udf_rescans m) (udf_module_failures m) (reload_signals m).
Definition set_request_duration f (m : Metrics) : Metrics :=
  mkMetrics (requests m) (f (request_duration m)) (backend_requests m) (backend_duration m)
    (merge_duration m) (merge_errors m) (config_reloads m) (config_pools m) (config_keyspaces m)
    (registry_merges m) (udf_rescans m) (udf_module_failures m) (reload_signals m).
Definition set_backend_requests f (m : Metrics) : Metrics :=
  mkMetrics (requests m) (request_duration m) (f (backend_requests m)) (backend_duration m)
    (merge_duration m) (merge_errors m) (config_reloads m) (config_pools m) (config_keyspaces m)
    (registry_merges m) (udf_rescans m) (udf_module_failures m) (reload_signals m).
Definition set_backend_duration f (m : Metrics) : Metrics :=
  mkMetrics (requests m) (request_duration m) (backend_requests m) (f (backend_duration m))
    (merge_duration m) (merge_errors m) (config_reloads m) (config_pools m) (config_keyspaces m)
    (registry_merges m) (udf_rescans m) (udf_module_failures m) (reload_signals m).
Definition set_merge_duration f (m : Metrics) : Metrics :=
  mkMetrics (requests m) (request_duration m) (backend_requests m) (backend_duration m)
    (f (merge_duration m)) (merge_errors m) (config_reloads m) (config_pools m) (config_keyspaces m)
    (registry_merges m) (udf_rescans m) (udf_module_failures m) (reload_signals m).
Definition set_merge_errors f (m : Metrics) : Metrics :=
  mkMetrics (requests m) (request_duration m) (backend_requests m) (backend_duration m)
    (merge_duration m) (f (merge_errors m)) (config_reloads m) (config_pools m) (config_keyspaces m)
    (registry_merges m) (udf_rescans m) (udf_module_failures m) (reload_signals m).
Definition set_config f p k (m : Metrics) : Metrics :=
  mkMetrics (requests m) (request_duration m) (backend_requests m) (backend_duration m)
    (merge_duration m) (merge_errors m) (f (config_reloads m)) (p (config_pools m)) (k (config_keyspaces m))
    (registry_merges m) (udf_rescans m) (udf_module_failures m) (reload_signals m).
Definition set_registry_merges_family f (m : Metrics) : Metrics :=
  mkMetrics (requests m) (request_duration m) (backend_requests m) (backend_duration m)
    (merge_duration m) (merge_errors m) (config_reloads m) (config_pools m) (config_keyspaces m)
    (f (registry_merges m)) (udf_rescans m) (udf_module_failures m) (reload_signals m).
Definition set_udf_rescans f (m : Metrics) : Metrics :=
  mkMetrics (requests m) (request_duration m) (backend_requests m) (backend_duration m)
    (merge_duration m) (merge_errors m) (config_reloads m) (config_pools m) (config_keyspaces m)
    (registry_merges m) (f (udf_rescans m)) (udf_module_failures m) (reload_signals m).
Definition set_udf_module_failures f (m : Metrics) : Metrics :=
  mkMetrics (requests m) (request_duration m) (backend_requests m) (backend_duration m)
    (merge_duration m) (merge_errors m) (config_reloads m) (config_pools m) (config_keyspaces m)
    (registry_merges m) (udf_rescans m) (f (udf_module_failures m)) (reload_signals m).
Definition set_reload_signals f (m : Metrics) : Metrics :=
  mkMetrics (requests m) (request_duration m) (backend_requests m) (backend_duration m)
    (merge_duration m) (merge_errors m) (config_reloads m) (config_pools m) (config_keyspaces m)
    (registry_merges m) (udf_rescans m) (udf_module_failures m) (f (reload_signals m)).

Definition observe_request (keyspace op outcome : bytes) (duration_seconds : option f64) (m : Metrics)
  : Metrics :=
  let m := set_requests (at_labels (mkRequestL keyspace op outcome) counter_inc) m in
  match duration_seconds with
  | Some seconds =>
      set_request_duration (at_labels (mkKeyspaceOp keyspace op) (histogram_observe seconds)) m
  | None => m
  end.

Definition observe_backend (pool status : bytes) (elapsed_seconds : option f64) (m : Metrics) : Metrics :=
  let m := set_backend_requests (at_labels (mkBackendL pool status) counter_inc) m in
  match elapsed_seconds with
  | Some seconds => set_backend_duration (at_labels (mkPoolL pool) (histogram_observe seconds)) m
  | None => m
  end.

Definition observe_merge_duration (merge : bytes) (seconds : f64) : Metrics -> Metrics :=
  set_merge_duration (at_labels (mkMergeL merge) (histogram_observe seconds)).

Definition config_reload (result : bytes) (pools keyspaces : Z) : Metrics -> Metrics :=
  set_config (at_labels (mkResultL result) counter_inc)
    (gauge_set (default I64_MAX (try_i64 pools))) (gauge_set (default I64_MAX (try_i64 keyspaces))).

Definition set_registry_merges (kind : bytes) (n : Z) : Metrics -> Metrics :=
  let n := default I64_MAX (try_i64 n) in
  set_registry_merges_family (at_labels (mkKind kind) (gauge_set n)).

Definition udf_rescan (result : bytes) : Metrics -> Metrics :=
  set_udf_rescans (at_labels (mkResultL result) counter_inc).

Definition udf_module_failure (reason : bytes) : Metrics -> Metrics :=
  set_udf_module_failures (at_labels (mkReason reason) counter_inc).

Definition reload_signal (trigger : bytes) : Metrics -> Metrics :=
  set_reload_signals (at_labels (mkTrigger trigger) counter_inc).

Definition merge_error (merge kind : bytes) : Metrics -> Metrics :=
  set_merge_errors (at_labels (mkMergeErrorL merge kind) counter_inc).

(** ** The process state *)

(** The failures of [load_module] of [udf_loader.rs], before they are formatted. *)
Inductive LoadError := ReadError (e : bytes) | CompileError (e : WError) | InstantiateError (e : WError).

(** The message passed to [on_problem]. *)
Inductive ProblemMsg := NoStem | Collision | Failed (e : LoadError).

(** A line handed to the [log] facade by the gateway, before formatting. *)
Inductive LogRecord :=
| MergeFailed (name kind : bytes) (e : WError)
| UdfSkipped (path reason : bytes) (msg : ProblemMsg)
| RescanFailed (dir e : bytes)
| ReloadRequested (trigger : bytes)
| ExporterListening (addr : bytes)
| ExporterDisabled (e : bytes)
| ReloadArmed (config_path : bytes).

(** A signal the gateway sends to its own process. *)
Inductive Signal := SIGHUP.

Record World := mkWorld {
  w_metrics : Metrics;
  w_limiter : option (Z * TokenBucket);
  w_origin : option Z;
  w_log : list LogRecord;
  w_signals : list Signal;
  w_time : nat -> Z;
  w_reads : nat;
}.

(** [Instant::now()]: the next reading of the monotonic clock, in nanoseconds. *)
Definition Instant_now (w : World) : Z * World :=
  (w_time w (w_reads w),
   mkWorld (w_metrics w) (w_limiter w) (w_origin w) (w_log w) (w_signals w) (w_time w) (S (w_reads w))).

Definition with_metrics (f : Metrics -> Metrics) (w : World) : World :=
  mkWorld (f (w_metrics w)) (w_limiter w) (w_origin w) (w_log w) (w_signals w) (w_time w) (w_reads w).
Definition with_limiter (l : Z * TokenBucket) (w : World) : World :=
  mkWorld (w_metrics w) (Some l) (w_origin w) (w_log w) (w_signals w) (w_time w) (w_reads w).
Definition with_origin (o : Z) (w : World) : World :=
  mkWorld (w_metrics w) (w_limiter w) (Some o) (w_log w) (w_signals w) (w_time w) (w_reads w).
Definition emit (l : LogRecord) (w : World) : World :=
  mkWorld (w_metrics w) (w_limiter w) (w_origin w) (w_log w ++ [l]) (w_signals w) (w_time w) (w_reads w).

(** [libc::kill(libc::getpid(), sig)]. *)
Definition kill_self (sig : Signal) (w : World) : World :=
  mkWorld (w_metrics w) (w_limiter w) (w_origin w) (w_log w) (w_signals w ++ [sig]) (w_time w) (w_reads w).

(** [log_limiter()]: built by its first user, whose clock reading is the origin. *)
Definition get_limiter (w : World) : (Z * TokenBucket) * World :=
  match w_limiter w with
  | Some l => (l, w)
  | None =>
      let '(now, w) := Instant_now w in
      let l := (now, log_limiter) in
      (l, with_limiter l w)
  end.

(** [log_limiter().try_acquire()]; [elapsed] saturates at zero. *)
Definition limiter_try_acquire (w : World) : bool * World :=
  let '((origin, bucket), w) := get_limiter w in
  let '(now, w) := Instant_now w in
  let '(acquired, bucket) := try_acquire (Z.max 0 (now - origin)) bucket in
  (acquired, with_limiter (origin, bucket) w).

(** [clock_origin()] and [now_nanos()] of [lib.rs]. *)
Definition clock_origin (w : World) : Z * World :=
  match w_origin w with
  | Some o => (o, w)
  | None => let '(now, w) := Instant_now w in (now, with_origin now w)
  end.

Definition now_nanos (w : World) : Z * World :=
  let '(origin, w) := clock_origin w in
  let '(now, w) := Instant_now w in
  (default I64_MAX (try_i64 (Z.max 0 (now - origin))), w).

End Metrics.
Arguments World PC : clear implicits.
Arguments Metrics PC : clear implicits.
