(* ===== verification/Registries.v ===== *)
(** * Registries: built-ins and WASM modules behind one lookup ([registries.rs])

    The WASM table sits in an [ArcSwap]: [swap_wasm] replaces it in one atomic
    store and every lookup takes one snapshot, so a lookup is a function of the
    table it loaded.  [table_of] is the specification: one finite map in which
    built-ins shadow modules, that all lookups agree with. *)

From Stdlib Require Import String.
From S2P Require Import Prelude Text BTree Core Builtins.

Section Registries.
Context {W : Type}.

Record WasmEntry := mkWasmEntry {
  we_merge : Merge W;
  we_required_flags : bytes;
}.

Abbreviation WasmTable := (BTreeMap WasmEntry).

Record Registries := mkRegistries {
  builtins : Registry W;
  wasm : WasmTable;
}.

Definition Registries_new (builtins : Registry W) : Registries := mkRegistries builtins bt_new.

Definition swap_wasm (r : Registries) (new_table : WasmTable) : Registries :=
  mkRegistries (builtins r) new_table.

Definition reg_has (r : Registries) (name : bytes) : bool :=
  if Registry.has name (builtins r) then true else bt_contains name (wasm r).

Definition reg_apply (r : Registries) (name : bytes) (entries : list Entry) (w : W)
  : option MergeResult * W :=
  match Registry.get name (builtins r) with
  | Some m => let '(res, w) := apply m entries w in (Some res, w)
  | None =>
      match bt_get name (wasm r) with
      | Some e => let '(res, w) := apply (we_merge e) entries w in (Some res, w)
      | None => (None, w)
      end
  end.

Definition reg_required_flags (r : Registries) (name : bytes) : option bytes :=
  match Registry.get name (builtins r) with
  | Some m => Some (required_flags m)
  | None => we_required_flags <$> bt_get name (wasm r)
  end.

(** The [for] loop of [names]: push each module name not already there. *)
Definition push_new (out : list bytes) (k : bytes) : list bytes :=
  if List.existsb (fun n => bool_decide (n = k)) out then out else out ++ [k].

(** [Vec::sort] on strings: a stable merge sort; on a list of strings any
    sorting by [str_ltb] gives the same list. *)
Fixpoint insert_sorted (k : bytes) (l : list bytes) : list bytes :=
  match l with
  | [] => [k]
  | k' :: l' => if str_ltb k' k then k' :: insert_sorted k l' else k :: l
  end.
Definition sort_names (l : list bytes) : list bytes := foldr insert_sorted [] l.

Definition reg_names (r : Registries) : list bytes :=
  let out := Registry.names (builtins r) in
  sort_names (foldl push_new out (bt_keys (wasm r))).

(** ** The specification *)

(** What a name is bound to: the merge that runs and the flags it wants. *)
Definition table_of (r : Registries) : gmap bytes (Merge W * bytes) :=
  ((fun m => (m, required_flags m)) <$> bt_abs (by_name (builtins r))) ∪
  ((fun e => (we_merge e, we_required_flags e)) <$> bt_abs (wasm r)).

Definition reg_wf (r : Registries) : Prop := Registry.wf (builtins r) /\ bt_wf (wasm r).

Lemma reg_wf_new b : Registry.wf b -> reg_wf (Registries_new b).
Proof. done. Qed.
Lemma reg_wf_swap r t : reg_wf r -> bt_wf t -> reg_wf (swap_wasm r t).
Proof. by intros [??] ?. Qed.

Lemma lookup_table_of r name :
  reg_wf r ->
  table_of r !! name =
  match Registry.get name (builtins r) with
  | Some m => Some (m, required_flags m)
  | None => (fun e => (we_merge e, we_required_flags e)) <$> bt_get name (wasm r)
  end.
Proof.
  intros [Hb Hw]. unfold table_of, Registry.get. rewrite lookup_union, !lookup_fmap.
  rewrite !lookup_bt_abs by done. destruct (bt_get name (by_name (builtins r))); cbn.
  - by destruct (bt_get name (wasm r)).
  - by destruct (bt_get name (wasm r)).
Qed.

Lemma push_new_elem out k n : n ∈ push_new out k <-> n ∈ out \/ n = k.
Proof.
  unfold push_new. destruct (List.existsb _ out) eqn:E.
  - split; [auto|]. intros [H| ->]; [done|]. apply List.existsb_exists in E as (x & Hx & Hd).
    apply bool_decide_eq_true in Hd as ->. by apply list_elem_of_In.
  - rewrite elem_of_app, list_elem_of_singleton. done.
Qed.

Lemma push_new_NoDup out k : NoDup out -> NoDup (push_new out k).
Proof.
  intros Hd. unfold push_new. destruct (List.existsb _ out) eqn:E; [done|].
  apply NoDup_app. split_and!; [done| |by apply NoDup_singleton].
  intros x Hx Hk. apply list_elem_of_singleton in Hk as ->.
  apply not_true_iff_false in E. apply E, List.existsb_exists. exists k.
  split; [by apply list_elem_of_In|by apply bool_decide_eq_true].
Qed.

Lemma push_all_elem ks out n : n ∈ foldl push_new out ks <-> n ∈ out \/ n ∈ ks.
Proof.
  revert out; induction ks as [|k ks IH]; intros out; cbn; [set_solver|].
  rewrite IH, push_new_elem. set_solver.
Qed.

Lemma push_all_NoDup ks out : NoDup out -> NoDup (foldl push_new out ks).
Proof. revert out; induction ks; intros; cbn; auto using push_new_NoDup. Qed.

Lemma insert_sorted_perm k l : insert_sorted k l ≡ₚ k :: l.
Proof.
  induction l as [|k' l IH]; cbn; [done|]. destruct (str_ltb k' k); [|done].
  rewrite IH. constructor.
Qed.

Lemma sort_names_perm l : sort_names l ≡ₚ l.
Proof. induction l as [|k l IH]; cbn; [done|]. by rewrite insert_sorted_perm, IH. Qed.

(** A duplicate-free list comes out strictly increasing. *)
Lemma insert_sorted_lt k l :
  k ∉ l -> StronglySorted str_lt l -> StronglySorted str_lt (insert_sorted k l).
Proof.
  intros Hk. induction 1 as [|k' l Hs IH Hl]; cbn; [by repeat constructor|].
  apply not_elem_of_cons in Hk as [Hne Hk]. specialize (IH Hk).
  destruct (str_ltb k' k) eqn:E.
  - constructor; [done|]. apply Forall_forall. intros x Hx.
    rewrite insert_sorted_perm in Hx. apply elem_of_cons in Hx as [->|Hx]; [done|].
    by eapply Forall_forall in Hl.
  - assert (str_ltb k k' = true) as Hlt.
    { destruct (str_ltb k k') eqn:E'; [done|]. by rewrite (str_ltb_total _ _ E' E) in Hne. }
    constructor; [by constructor|]. constructor; [done|].
    eapply Forall_impl; [exact Hl|]. intros x Hx. by eapply str_ltb_trans.
Qed.

Lemma sort_names_sorted l : NoDup l -> StronglySorted str_lt (sort_names l).
Proof.
  induction 1 as [|k l Hk _ IH]; cbn; [constructor|].
  apply insert_sorted_lt; [|done]. by rewrite sort_names_perm.
Qed.

(** C9: every lookup of [Registries] answers from one table in which built-ins
    shadow modules: [has] is membership, [required_flags] and [apply] are the
    flags and the merge bound to the name ([None] exactly off the table), and
    [names] lists the table's domain, strictly sorted and so without repeats. *)
Theorem registries_agree r :
  reg_wf r ->
  (forall name, reg_has r name = bool_decide (is_Some (table_of r !! name))) /\
  (forall name, reg_required_flags r name = snd <$> table_of r !! name) /\
  (forall name entries w,
     reg_apply r name entries w =
     match table_of r !! name with
     | Some (m, _) => let '(res, w) := apply m entries w in (Some res, w)
     | None => (None, w)
     end) /\
  (forall name, name ∈ reg_names r <-> is_Some (table_of r !! name)) /\
  StronglySorted str_lt (reg_names r).
Proof.
  intros Hwf. pose proof Hwf as [Hb Hw].
  assert (forall name, reg_has r name = bool_decide (is_Some (table_of r !! name))) as Hhas.
  { intros name. rewrite lookup_table_of by done. unfold reg_has, Registry.has, Registry.get, bt_contains.
    destruct (bt_get name (by_name (builtins r))), (bt_get name (wasm r)); done. }
  split; [done|]. split_and!.
  - intros name. rewrite lookup_table_of by done. unfold reg_required_flags.
    destruct (Registry.get name (builtins r)), (bt_get name (wasm r)); done.
  - intros name entries w. rewrite lookup_table_of by done. unfold reg_apply.
    destruct (Registry.get name (builtins r)), (bt_get name (wasm r)); done.
  - intros name. unfold reg_names. rewrite sort_names_perm, push_all_elem.
    rewrite <- (bt_contains_keys name (wasm r)), <- (Registry.has_names name (builtins r)) by done.
    specialize (Hhas name). unfold reg_has in Hhas.
    destruct (Registry.has name (builtins r)), (bt_contains name (wasm r));
      case_bool_decide; naive_solver.
  - apply sort_names_sorted, push_all_NoDup, bt_keys_NoDup, Hb.
Qed.

End Registries.
Arguments WasmEntry W : clear implicits.
Arguments Registries W : clear implicits.
Abbreviation WasmTable W := (BTreeMap (WasmEntry W)).
#[export] Hint Resolve reg_wf_new reg_wf_swap : mcgw.

(** A module shadowed by the built-in of its name, and one that is not. *)
Definition demo_registries : Registries unit :=
  swap_wasm (Registries_new (register Registry.new))
    (bt_insert (str "first-hit") (mkWasmEntry (mkMerge (fun _ w => (MissResult, w)) []) (str "x"))
      (bt_insert (str "concat") (mkWasmEntry (mkMerge (fun _ w => (Synthesized [], w)) []) (str "v")) bt_new)).

Lemma registries_agree_witness :
  reg_names demo_registries =
    [str "concat"; str "first-hit"; str "last-write-wins"; str "pool-preferred"] /\
  reg_required_flags demo_registries (str "first-hit") = Some [] /\
  StronglySorted str_lt (reg_names demo_registries).
Proof.
  split; [reflexivity|]. split; [reflexivity|].
  apply (registries_agree demo_registries). split; repeat apply bt_wf_insert; done.
Defined.
