(* ===== verification/Swap.v ===== *)
(** * Swap: lookups running while the table is replaced ([registries.rs])

    Lua states dispatch merges while the watcher thread publishes new WASM
    tables.  [Registries::apply] consults the immutable built-ins, loads the
    [ArcSwap] once and runs the merge it found in that snapshot; each of these is
    a step, interleaved with any number of [swap_wasm] and of other calls. *)

From Stdlib Require Import String.
From S2P Require Import Prelude Text BTree Core Builtins Registries.

Section Swap.
Context {W : Type} (b : Registry W).

(** A call of [apply]: its arguments and the number of swaps before it; then
    its snapshot; then its answer and the number of swaps before the return. *)
Inductive CallPc :=
| Called (name : bytes) (entries : list Entry) (start : nat)
| Loaded (name : bytes) (entries : list Entry) (start : nat) (snapshot : WasmTable W)
| Returned (name : bytes) (entries : list Entry) (start fin : nat) (r : option MergeResult).

(** Every table published so far, the initial one first; the calls; the process state. *)
Record SwapState := mkSwap {
  sw_tables : list (WasmTable W);
  sw_calls : list CallPc;
  sw_world : W;
}.

Definition now (s : SwapState) : nat := (length (sw_tables s) - 1)%nat.

Inductive swap_step : SwapState -> SwapState -> Prop :=
| step_swap s new_table :
    swap_step s (mkSwap (sw_tables s ++ [new_table]) (sw_calls s) (sw_world s))
| step_call s name entries :
    swap_step s (mkSwap (sw_tables s) (sw_calls s ++ [Called name entries (now s)]) (sw_world s))
| step_load s i name entries start snapshot :
    sw_calls s !! i = Some (Called name entries start) -> last (sw_tables s) = Some snapshot ->
    swap_step s (mkSwap (sw_tables s) (<[i:=Loaded name entries start snapshot]> (sw_calls s)) (sw_world s))
| step_run s i name entries start snapshot r w :
    sw_calls s !! i = Some (Loaded name entries start snapshot) ->
    reg_apply (mkRegistries b snapshot) name entries (sw_world s) = (r, w) ->
    swap_step s (mkSwap (sw_tables s) (<[i:=Returned name entries start (now s) r]> (sw_calls s)) w).

Definition swap_reachable (w0 : W) : SwapState -> Prop :=
  rtc swap_step (mkSwap [wasm (Registries_new b)] [] w0).

(** [table] was current at some point from [lo] to [hi]. *)
Definition current_within (tables : list (WasmTable W)) (lo hi : nat) (table : WasmTable W) : Prop :=
  exists k, (lo <= k <= hi)%nat /\ tables !! k = Some table.

Definition call_ok (s : SwapState) (c : CallPc) : Prop :=
  match c with
  | Called _ _ start => (start <= now s)%nat
  | Loaded _ _ start snapshot => (start <= now s)%nat /\ current_within (sw_tables s) start (now s) snapshot
  | Returned name entries start fin r =>
      (fin <= now s)%nat /\ exists snapshot w w', current_within (sw_tables s) start fin snapshot /\
        reg_apply (mkRegistries b snapshot) name entries w = (r, w')
  end.

Definition swap_inv (s : SwapState) : Prop := sw_tables s <> [] /\ Forall (call_ok s) (sw_calls s).

Lemma current_within_grow tables more lo hi hi' table :
  (hi <= hi')%nat -> current_within tables lo hi table -> current_within (tables ++ more) lo hi' table.
Proof. intros Hh (k & Hk & Ht). exists k. split; [lia|]. by apply lookup_app_l_Some. Qed.

Lemma call_ok_grow s s' more c :
  sw_tables s' = sw_tables s ++ more -> call_ok s c -> call_ok s' c.
Proof.
  intros He. assert (now s <= now s')%nat as Hn by (unfold now; rewrite He, length_app; lia).
  destruct c as [name es st|name es st sn|name es st fin r]; cbn.
  - lia.
  - intros [? Hc]. split; [lia|]. rewrite He. by eapply current_within_grow.
  - intros (? & sn & w & w' & Hc & Hr). split; [lia|]. exists sn, w, w'. split; [|done].
    rewrite He. by eapply current_within_grow.
Qed.

Lemma swap_step_inv s s' : swap_inv s -> swap_step s s' -> swap_inv s'.
Proof.
  intros [Hne Hall] Hs.
  assert (forall s' more, sw_tables s' = sw_tables s ++ more -> Forall (call_ok s') (sw_calls s)) as Hgrow.
  { intros s1 more He. eapply Forall_impl; [exact Hall|]. intros c. by eapply call_ok_grow. }
  assert (forall s', sw_tables s' = sw_tables s -> Forall (call_ok s') (sw_calls s)) as Hsame.
  { intros s1 He. apply (Hgrow s1 []). by rewrite app_nil_r. }
  destruct Hs as [s new|s name es|s i name es st sn Hi Hl|s i name es st sn r w Hi Hr]; (split; [by try destruct (sw_tables s)|]);
    cbn [sw_calls].
  - by eapply Hgrow.
  - apply Forall_app. split; [by apply Hsame|]. apply Forall_singleton. cbn. unfold now. cbn. lia.
  - apply Forall_insert; [by apply Hsame|]. eapply Forall_lookup_1 in Hi; [|exact Hall]. cbn in Hi. split; [done|].
    exists (now s). split; [done|]. cbn. rewrite last_lookup in Hl. unfold now.
    by replace (length (sw_tables s) - 1)%nat with (Nat.pred (length (sw_tables s))) by lia.
  - apply Forall_insert; [by apply Hsame|]. eapply Forall_lookup_1 in Hi; [|exact Hall]. cbn in Hi. cbn.
    split; [done|]. exists sn, (sw_world s), w. split; [by apply Hi|done].
Qed.

(** C10: lookups are linearizable against table swaps: whatever the interleaving,
    a merge call that returned answered from one whole table, with the built-ins
    first, and that table was the current one at a moment between the call and
    its return; so a call made after a swap never sees an older table, and one in
    flight keeps the snapshot it loaded. *)
Theorem apply_linearizable w0 s i name entries start fin r :
  swap_reachable w0 s -> sw_calls s !! i = Some (Returned name entries start fin r) ->
  exists k table w w', (start <= k <= fin)%nat /\ sw_tables s !! k = Some table /\
    reg_apply (mkRegistries b table) name entries w = (r, w').
Proof.
  intros Hr Hi. assert (swap_inv s) as [_ Hall].
  { assert (swap_inv (mkSwap [wasm (Registries_new b)] [] w0)) as H0 by done.
    unfold swap_reachable in Hr. induction Hr as [|s0 s1 s2 Hs _ IH]; eauto using swap_step_inv. }
  eapply Forall_lookup_1 in Hi; [|exact Hall]. destruct Hi as (_ & sn & w & w' & (k & Hk & Ht) & Ha). eauto 8.
Qed.
End Swap.

(** A call that loads before a swap and returns after it: it answers from the
    table it loaded, in which the name is unknown. *)
Definition new_table : WasmTable unit :=
  bt_insert (str "m") (mkWasmEntry (mkMerge (fun _ w => (Synthesized (str "v"), w)) []) []) bt_new.
Definition overlapped : SwapState (W := unit) :=
  mkSwap [bt_new; new_table] [Returned (str "m") [] 0 1 None] tt.

Lemma overlapped_reachable : swap_reachable (register Registry.new) tt overlapped.
Proof.
  eapply rtc_l; [apply (step_call _ _ (str "m") [])|].
  eapply rtc_l; [apply (step_load _ _ 0 (str "m") [] 0 bt_new); reflexivity|].
  eapply rtc_l; [apply (step_swap _ _ new_table)|].
  eapply rtc_l; [apply (step_run _ _ 0 (str "m") [] 0 bt_new None tt); reflexivity|].
  apply rtc_refl.
Qed.

Lemma apply_linearizable_witness :
  exists k table w w', (0 <= k <= 1)%nat /\ sw_tables overlapped !! k = Some table /\
    reg_apply (mkRegistries (register Registry.new) table) (str "m") [] w = (None, w').
Proof. apply (apply_linearizable (register Registry.new) tt overlapped 0); [exact overlapped_reachable|reflexivity]. Defined.
