(* ===== verification/UdfLoader.v ===== *)
(** * UdfLoader: scanning a directory of WASM merges ([udf_loader.rs])

    The file system and the environment are arguments: [Fs] answers [is_dir],
    [read_dir] and [read].  A scan folds the listing into a table, reporting
    every module it skips through the callback; [ObservedMerge] is what enters
    the table. *)

From Stdlib Require Import String.
From S2P Require Import Prelude Text BTree Core WasmHost TokenBucket Metrics Registries Paths.

Inductive UdfProblem := InvalidName | BuiltinCollision | LoadFailed.

Definition problem_as_str (p : UdfProblem) : bytes :=
  match p with
  | InvalidName => str "invalid-name"
  | BuiltinCollision => str "builtin-collision"
  | LoadFailed => str "load-failed"
  end.

Definition UDF_DIR_ENV : bytes := str "MCGW_UDF_DIR".
Definition DEFAULT_UDF_DIR : bytes := str "/etc/mcgateway/udf".

Definition udf_dir (env : Env) (fs : Fs) : Result bytes (option bytes) :=
  match env_var env UDF_DIR_ENV with
  | Some custom =>
      if fs_is_dir fs custom then Ok (Some custom)
      else Err (UDF_DIR_ENV ++ str "=" ++ custom ++ str " is not a directory (or is unreadable)")
  | None => Ok (if fs_is_dir fs DEFAULT_UDF_DIR then Some DEFAULT_UDF_DIR else None)
  end.

Section Loader.
Context {WT : Wasmtime} {PC : PromClient}.

(** [ObservedMerge::apply]. *)
Definition observed_apply (inner : WasmMerge) (entries : list Entry) (w : World PC)
  : MergeResult * World PC :=
  match run inner entries with
  | Ok r => (r, w)
  | Err e =>
      let kind := classify e in
      let w := with_metrics (merge_error (wm_module_name inner) (kind_as_str kind)) w in
      let '(acquired, w) := limiter_try_acquire w in
      let w := if acquired then emit (MergeFailed (wm_module_name inner) (kind_as_str kind) e) w else w in
      (MissResult, w)
  end.

Definition ObservedMerge (inner : WasmMerge) : Merge (World PC) :=
  mkMerge (observed_apply inner) default_required_flags.

Definition load_module (fs : Fs) (host : WasmHost) (path name : bytes)
  : Result LoadError (WasmEntry (World PC)) :=
  bs ← map_err ReadError (fs_read fs path);
  module ← map_err CompileError (compile host bs);
  merge ← map_err InstantiateError (from_module module name);
  Ok (mkWasmEntry (ObservedMerge merge) (wm_required_flags merge)).

Section Scan.
Context {S : Type} (on_problem : bytes -> UdfProblem -> ProblemMsg -> S -> S).
Context (fs : Fs) (host : WasmHost) (registries : Registries (World PC)) (dir : bytes).

Fixpoint scan_loop (listing : list (Result IoError bytes)) (out : WasmTable (World PC)) (st : S)
  : Result IoError (WasmTable (World PC)) * S :=
  match listing with
  | [] => (Ok out, st)
  | Err e :: _ => (Err e, st)
  | Ok entry :: rest =>
      let path := join dir entry in
      if bool_decide ((extension path ≫= to_str) = Some (str "wasm")) then
        match file_stem path ≫= to_str with
        | None => scan_loop rest out (on_problem path InvalidName NoStem st)
        | Some name =>
            if Registry.has name (builtins registries) then
              scan_loop rest out (on_problem path BuiltinCollision Collision st)
            else
              match load_module fs host path name with
              | Ok entry => scan_loop rest (bt_insert name entry out) st
              | Err err => scan_loop rest out (on_problem path LoadFailed (Failed err) st)
              end
        end
      else scan_loop rest out st
  end.

Definition scan_dir (st : S) : Result IoError (WasmTable (World PC)) * S :=
  match fs_read_dir fs dir with
  | Ok listing => scan_loop listing bt_new st
  | Err e => (Err e, st)
  end.

(** ** What a scan means *)

(** The one way a listed file becomes the entry of a name. *)
Definition provides (file name : bytes) (e : WasmEntry (World PC)) : Prop :=
  file = name ++ str ".wasm" /\ name <> [] /\ utf8_valid name = true /\
  Registry.has name (builtins registries) = false /\
  load_module fs host (join dir file) name = Ok e.

Lemma provides_fun file name e file' e' : provides file name e -> provides file' name e' -> e' = e.
Proof. intros (-> & _ & _ & _ & H) (-> & _ & _ & _ & H'). congruence. Qed.

(** The step of the loop, by whether the file provides an entry. *)
Definition step_table (file : bytes) (out : WasmTable (World PC)) : WasmTable (World PC) :=
  let path := join dir file in
  if bool_decide ((extension path ≫= to_str) = Some (str "wasm")) then
    match file_stem path ≫= to_str with
    | Some name =>
        if Registry.has name (builtins registries) then out
        else match load_module fs host path name with
             | Ok entry => bt_insert name entry out
             | Err _ => out
             end
    | None => out
    end
  else out.

Lemma scan_loop_table files out st :
  exists st', scan_loop (Ok <$> files) out st = (Ok (foldl (fun o f => step_table f o) out files), st').
Proof.
  revert out st; induction files as [|f files IH]; intros out st; cbn [scan_loop fmap list_fmap foldl]; [eauto|].
  unfold step_table at 2. cbv zeta. destruct (bool_decide _); [|auto].
  destruct (file_stem _ ≫= to_str); [|auto]. destruct (Registry.has _ _); [auto|].
  destruct (load_module _ _ _ _); auto.
Qed.

Lemma scan_loop_error pre e post out st :
  exists st', scan_loop ((Ok <$> pre) ++ Err e :: post) out st = (Err e, st').
Proof.
  revert out st; induction pre as [|f pre IH]; intros out st; cbn; [eauto|].
  destruct (bool_decide _); [|auto]. destruct (file_stem _ ≫= to_str); [|auto].
  destruct (Registry.has _ _); [auto|]. destruct (load_module _ _ _ _); auto.
Qed.

Context (Hdir : dir <> []).

Lemma app_wasm_inj (a b : bytes) : a ++ str ".wasm" = b ++ str ".wasm" -> a = b.
Proof. apply app_inv_tail. Qed.

Lemma step_table_wf file out : bt_wf out -> bt_wf (step_table file out).
Proof.
  intros Hwf. unfold step_table. cbv zeta. repeat case_match; auto using bt_wf_insert.
Qed.

Lemma step_table_spec file out name e :
  entry_name file = true -> bt_wf out ->
  bt_get name (step_table file out) = Some e <->
   provides file name e \/ (bt_get name out = Some e /\ forall e', ~ provides file name e').
Proof.
  intros Hf Hwf. unfold step_table. cbv zeta.
  destruct (bool_decide_reflect ((extension (join dir file) ≫= to_str) = Some (str "wasm"))) as [Hx|Hx].
  2:{ rewrite (wasm_name dir) in Hx by done. unfold provides. naive_solver. }
  apply (proj1 (wasm_name dir _ Hdir Hf)) in Hx as (stem & Hst & Hne).
  rewrite (wasm_stem dir file stem) by done. cbn. unfold to_str, from_utf8.
  assert (forall n, file = n ++ str ".wasm" -> n = stem) as Hinj.
  { intros n Hn. apply app_wasm_inj. congruence. }
  assert (forall n e', provides file n e' ->
    n = stem /\ utf8_valid stem = true /\ Registry.has stem (builtins registries) = false /\
    load_module fs host (join dir file) stem = Ok e') as Hinv.
  { intros n e' (H1 & H2 & H3 & H4 & H5). pose proof (Hinj n H1) as ->. done. }
  destruct (utf8_valid stem) eqn:Hu; [|naive_solver].
  destruct (Registry.has stem (builtins registries)) eqn:Hh; [naive_solver|].
  destruct (load_module fs host (join dir file) stem) as [entry|err] eqn:Hl; [|naive_solver].
  rewrite bt_get_insert by done.
  assert (provides file stem entry) as Hp by done.
  case_decide as En; [subst name|naive_solver]. split; [naive_solver|].
  intros [(_ & _ & _ & H)%Hinv|[_ H]]; [congruence|]. by destruct (H entry).
Qed.

(** Tables whose every entry comes from a file. *)
Definition sound (seen : list bytes) (out : WasmTable (World PC)) : Prop :=
  bt_wf out /\ forall name e, bt_get name out = Some e <-> exists file, file ∈ seen /\ provides file name e.

Lemma sound_step seen out file :
  entry_name file = true -> sound seen out -> sound (seen ++ [file]) (step_table file out).
Proof.
  intros Hf [Hwf Hs]. split; [by apply step_table_wf|]. intros name e.
  rewrite (step_table_spec file out name e Hf Hwf), Hs. split.
  - intros [Hp|[(f & Hin & Hp) _]]; [exists file|exists f]; (split; [|done]); apply elem_of_app; [right; constructor|by left].
  - intros (f & [Hin|Hin]%elem_of_app & Hp).
    + destruct (decide (f = file)) as [->|Hne]; [by left|]. right. split; [eauto|].
      intros e' (-> & _). destruct Hp as (-> & _). done.
    + apply list_elem_of_singleton in Hin as ->. by left.
Qed.

Lemma sound_fold files : forall seen out,
  Forall (fun f => entry_name f = true) files -> sound seen out ->
  sound (seen ++ files) (foldl (fun o f => step_table f o) out files).
Proof.
  induction files as [|f files IH]; intros seen out Hf Hs; [by rewrite app_nil_r|].
  inversion Hf; subst. cbn [foldl]. rewrite (cons_middle f seen files), app_assoc.
  apply IH; [done|]. by apply sound_step.
Qed.

(** C8: a scan of a readable directory succeeds, and its table binds exactly the
    names whose file [name.wasm] is listed, is valid UTF-8, does not collide with
    a built-in and loads, each to the entry its own file loads to; so a broken
    file only drops itself and no built-in name ever enters the table. *)
Theorem scan_dir_exact files st :
  fs_read_dir fs dir = Ok (Ok <$> files) -> Forall (fun f => entry_name f = true) files ->
  exists table st', scan_dir st = (Ok table, st') /\ bt_wf table /\
    forall name e, bt_get name table = Some e <->
      name ++ str ".wasm" ∈ files /\ name <> [] /\ utf8_valid name = true /\
      Registry.has name (builtins registries) = false /\
      load_module fs host (join dir (name ++ str ".wasm")) name = Ok e.
Proof.
  intros Hl Hf. unfold scan_dir. rewrite Hl.
  destruct (scan_loop_table files bt_new st) as [st' ->]. eexists _, st'. split; [done|].
  destruct (sound_fold files [] bt_new Hf) as [Hwf Hs].
  { split; [done|]. intros name e. split; [done|]. intros (f & H & _). by apply not_elem_of_nil in H. }
  split; [done|]. intros name e. rewrite Hs. unfold provides. naive_solver.
Qed.

(** The table does not depend on the order the directory is read in, or on
    a name being listed twice. *)
Theorem scan_dir_order files files' st st' :
  Forall (fun f => entry_name f = true) files -> (forall f, f ∈ files <-> f ∈ files') ->
  (scan_loop (Ok <$> files) bt_new st).1 = (scan_loop (Ok <$> files') bt_new st').1.
Proof.
  intros Hf He. assert (Forall (fun f => entry_name f = true) files') as Hf'.
  { rewrite Forall_forall in *. intros f Hin. by apply Hf, He. }
  destruct (scan_loop_table files bt_new st) as [s1 ->], (scan_loop_table files' bt_new st') as [s2 ->].
  cbn [fst]. f_equal.
  assert (sound [] bt_new) as H0.
  { split; [done|]. intros name e. split; [done|]. intros (f & H & _). by apply not_elem_of_nil in H. }
  destruct (sound_fold files [] bt_new Hf H0) as [W1 S1], (sound_fold files' [] bt_new Hf' H0) as [W2 S2].
  apply bt_ext; [done|done|]. intros name. apply option_eq. intros e. rewrite S1, S2. cbn [app].
  set_solver.
Qed.
End Scan.

(** ** The observed merge *)

Lemma limiter_try_acquire_frame w acq w' :
  limiter_try_acquire w = (acq, w') ->
  w_metrics w' = w_metrics w /\ w_log w' = w_log w /\ w_origin w' = w_origin w /\ w_time w' = w_time w.
Proof.
  unfold limiter_try_acquire, get_limiter. destruct (w_limiter w) as [[o b]|]; cbn;
    destruct (try_acquire _ _); intros [= <- <-]; done.
Qed.

(** The kind a failure belongs to, by what went wrong under whatever context the
    host added: the call ran out of time, the guest trapped, the guest itself
    reported an error, or something on the host's side failed. *)
Inductive failure_kind : WError -> bytes -> Prop :=
| fk_deadline : failure_kind (TrapError Interrupt) (str "deadline")
| fk_trap code : failure_kind (TrapError (OtherTrap code)) (str "trap")
| fk_guest code : failure_kind (GuestError code) (str "guest")
| fk_memory kind : host_side kind -> failure_kind MemoryAccessError kind
| fk_engine msg kind : host_side kind -> failure_kind (EngineError msg) kind
| fk_protocol m kind : host_side kind -> failure_kind (Msg m) kind
| fk_context ctx e kind : failure_kind e kind -> failure_kind (Context ctx e) kind
(** A kind of its own, none that blames the module. *)
with host_side : bytes -> Prop :=
| host_kind kind : ~ (kind ∈ [str "deadline"; str "trap"; str "guest"]) -> host_side kind.

Lemma classify_kind e : failure_kind e (kind_as_str (classify e)).
Proof.
  assert (host_side (kind_as_str Host)) as Hh.
  { constructor. rewrite !not_elem_of_cons. split_and!; [discriminate..|apply not_elem_of_nil]. }
  induction e as [[|code]|code| |msg|m|ctx e IH]; constructor; done.
Qed.

(** C21: the merge that enters the registry answers exactly what the bare WASM
    merge answers; a success leaves no trace, and a failure adds one to one
    counter, that of its module and of the kind of what went wrong ([deadline]
    for an interrupted call, [trap] for any other trap, [guest] for an error the
    guest reported, a kind different from these for the host's own failures),
    touches no other series, and logs at most the one line about it. *)
Theorem observed_merge_contract (PL : PromClientLaws PC) inner entries w :
  let '(r, w') := observed_apply inner entries w in
  r = wasm_apply inner entries /\
  match run inner entries with
  | Ok _ => w' = w
  | Err e =>
      exists kind, failure_kind e kind /\
      (forall l', counter_get (metric_at l' (merge_errors (w_metrics w'))) =
         let c := counter_get (metric_at l' (merge_errors (w_metrics w))) in
         if decide (l' = mkMergeErrorL (wm_module_name inner) kind) then (c + 1) mod 2 ^ 64 else c) /\
      set_merge_errors (fun _ => merge_errors (w_metrics w)) (w_metrics w') = w_metrics w /\
      (w_log w' = w_log w \/ w_log w' = w_log w ++ [MergeFailed (wm_module_name inner) kind e])
  end.
Proof.
  unfold observed_apply, wasm_apply. destruct (run inner entries) as [r|e]; [done|].
  destruct (limiter_try_acquire _) as [acq w1] eqn:E.
  apply limiter_try_acquire_frame in E as (Em & El & _ & _).
  assert (w_metrics (if acq then emit (MergeFailed (wm_module_name inner) (kind_as_str (classify e)) e) w1 else w1)
    = w_metrics w1) as -> by (by destruct acq).
  rewrite Em. cbn [w_metrics with_metrics merge_error set_merge_errors merge_errors].
  split; [done|]. exists (kind_as_str (classify e)). split_and!.
  - apply classify_kind.
  - intros l'. rewrite metric_at_labels. case_decide as Ed; [subst l'; apply counter_inc_get|done].
  - by destruct (w_metrics w).
  - destruct acq; [right|left]; cbn [emit w_log]; by rewrite El.
Qed.

(** A sequence of dispatches to loaded modules. *)
Fixpoint dispatches (calls : list (WasmMerge * list Entry)) (w : World PC) : World PC :=
  match calls with
  | [] => w
  | (m, es) :: rest => dispatches rest (observed_apply m es w).2
  end.

(** [n] lines so far, all paid for by the limiter. *)
Definition paid (span n : Z) (w : World PC) : Prop :=
  match w_limiter w with
  | None => n = 0
  | Some (origin, b) =>
      (exists i, i < w_reads w /\ origin = w_time w i)%nat /\
      bucket_wf b /\ capacity b = 10 /\ nanos_per_token b = 1000000000 /\
      refilled_to b <= span /\
      exists e, refilled_to b = e * 1000000000 /\ n + tokens b <= 10 + e
  end.

Definition clock_ok (span : Z) (w : World PC) : Prop :=
  forall i j, (i <= j)%nat -> 0 <= w_time w j - w_time w i <= span.

Lemma limiter_paid span n w acq w' :
  clock_ok span w -> paid span n w -> limiter_try_acquire w = (acq, w') ->
  paid span (n + if acq then 1 else 0) w' /\ clock_ok span w'.
Proof.
  intros Hc Hp. unfold limiter_try_acquire.
  assert (exists o b w1, get_limiter w = ((o, b), w1) /\ w_time w1 = w_time w /\ w_limiter w1 = Some (o, b) /\
    paid span n w1) as (o & b & w1 & -> & Ht & Hl & Hp1).
  { unfold get_limiter. unfold paid in Hp. destruct (w_limiter w) as [[o b]|] eqn:E.
    - exists o, b, w. unfold paid. by rewrite E.
    - subst n. eexists _, _, _. split_and!; [done|done|done|]. unfold paid. cbn.
      split; [exists (w_reads w); split; [lia|done]|].
      split; [by apply (bucket_new_wf 10 1000000000)|]. split_and!; [done|done| |].
      + pose proof (Hc 0%nat 0%nat). lia.
      + exists 0. cbn. lia. }
  unfold paid in Hp1. rewrite Hl in Hp1. destruct Hp1 as ((i & Hi & Ho) & Hwf & Hcap & Hnpt & Hr & e & He & Hn).
  cbn [Instant_now]. set (now := w_time w1 (w_reads w1)).
  assert (0 <= now - o <= span) as Hspan by (subst now o; rewrite Ht; apply Hc; lia).
  unfold try_acquire. set (t := default U64_MAX (try_u64 (Z.max 0 (now - o)))).
  assert (is_u64 t /\ t <= span) as [Htu Hts].
  { subst t. unfold try_u64, is_u64, U64_MAX. destruct (Z.leb_spec (Z.max 0 (now - o)) (2 ^ 64 - 1)); cbn; lia. }
  pose proof (try_acquire_at_account t b e Hwf Htu) as Ha. rewrite Hnpt in Ha. specialize (Ha He).
  destruct (try_acquire_at t b) as [r b']. destruct Ha as (Hwf' & Hcap' & Hnpt' & Hclk & e' & He' & Hb').
  intros [= <- <-]. split.
  - unfold paid. cbn. split; [exists i; split; [lia|done]|]. split_and!; [done|congruence|done|lia|].
    exists e'. split; [done|]. destruct r; lia.
  - unfold clock_ok. cbn. by rewrite Ht.
Qed.

Lemma observed_paid span n m es w :
  clock_ok span w -> paid span n w ->
  let w' := (observed_apply m es w).2 in
  clock_ok span w' /\ exists k, paid span (n + k) w' /\ zlen (w_log w') = zlen (w_log w) + k.
Proof.
  intros Hc Hp. unfold observed_apply. destruct (run m es) as [r|e]; cbn [snd].
  { split; [done|]. exists 0. rewrite !Z.add_0_r. done. }
  set (w0 := with_metrics _ w). destruct (limiter_try_acquire w0) as [acq w1] eqn:E.
  pose proof (limiter_try_acquire_frame _ _ _ E) as (_ & El & _ & _). change (w_log w0) with (w_log w) in El.
  apply (limiter_paid span n) in E as [Hp' Hc']; [|done|done]. cbn [snd].
  destruct acq; (split; [done|]); eexists; (split; [exact Hp'|]); cbn [emit w_log]; rewrite El, ?zlen_app; unfold zlen; cbn; lia.
Qed.

(** C35: a module that fails at full request rate cannot flood the log: over any
    sequence of dispatches the failure lines number at most the burst of ten
    plus one per second of clock time, however many merges fail. *)
Theorem merge_failure_log_bounded calls w span :
  w_limiter w = None -> clock_ok span w ->
  zlen (w_log (dispatches calls w)) <= zlen (w_log w) + 10 + span / 1000000000.
Proof.
  intros Hl Hc. assert (paid span 0 w) as Hp by (unfold paid; by rewrite Hl). clear Hl.
  assert (forall n w, clock_ok span w -> paid span n w -> n <= 10 + span / 1000000000) as Hmax.
  { clear. intros n w Hc Hp. unfold paid in Hp. pose proof (Hc 0%nat 0%nat).
    assert (0 <= span / 1000000000) by (apply Z.div_pos; lia).
    destruct (w_limiter w) as [[o b]|]; [|lia]. destruct Hp as (_ & Hwf & _ & _ & Hr & e & He & Hn).
    pose proof (tokens_le _ Hwf). assert (e <= span / 1000000000) by (apply Z.div_le_lower_bound; lia). lia. }
  assert (exists n, zlen (w_log (dispatches calls w)) = zlen (w_log w) + n /\ 0 + n <= 10 + span / 1000000000)
    as (n & -> & ?); [|lia].
  revert w Hc Hp. generalize 0 as k. induction calls as [|[m es] calls IH]; intros k w Hc Hp; cbn [dispatches].
  - exists 0. rewrite !Z.add_0_r. split; [done|]. by eapply Hmax.
  - destruct (observed_paid span k m es w Hc Hp) as (Hc' & j & Hp' & Hj).
    destruct (IH (k + j) _ Hc' Hp') as (n & -> & Hn). exists (j + n). lia.
Qed.
End Loader.
