(* ===== verification/Watcher.v ===== *)
(** * Watcher: the live-reload debounce loop ([watcher.rs])

    [spawn] resolves the two watch roots; the thread it starts is a state
    machine whose inputs are the outcomes of [recv], [recv_timeout] and the
    clock readings between them, and whose outputs are the calls to the injected
    [rescan] and [reload] closures. *)

From Stdlib Require Import String.
From S2P Require Import Prelude Text Paths.

Inductive ReloadTrigger := Config | UdfSwap.

Definition trigger_as_str (t : ReloadTrigger) : bytes :=
  match t with Config => str "config" | UdfSwap => str "udf-swap" end.

(** Durations and instants are in nanoseconds. *)
Definition DEBOUNCE : Z := 200 * 1000000.
Definition MAX_BATCH_AGE : Z := 2 * 1000000000.

Record Plan := mkPlan {
  config_path : bytes;
  plan_udf_dir : option bytes;
  plan_debounce : Z;
  plan_max_batch_age : Z;
}.

Definition Plan_new (config_path : bytes) (udf_dir : option bytes) : Plan :=
  mkPlan config_path udf_dir DEBOUNCE MAX_BATCH_AGE.

(** ** [spawn] up to the thread *)

(** What [spawn] asks of its surroundings: [notify] to make a watcher and to
    register a watch, the system to start the thread. *)
Record Notify := mkNotify {
  n_init : Result bytes unit;
  n_watch : bytes -> Result bytes unit;
  n_thread : Result bytes unit;
}.

Inductive SpawnError :=
| NoParent (path : bytes)
| ConfigDirNotWatchable (path : bytes) (e : IoError)
| NoFileName (path : bytes)
| UdfDirNotWatchable (dir : bytes) (e : IoError)
| WatcherInit (e : bytes)
| WatchFailed (dir e : bytes)
| WatcherThread (e : bytes).

Record Armed := mkArmed {
  config_dir : bytes;
  config_name : bytes;
  udf_root : option bytes;
  debounce : Z;
  max_batch_age : Z;
}.

Definition spawn (fs : Fs) (nt : Notify) (plan : Plan) : Result SpawnError Armed :=
  dir ← ok_or (d ← parent (config_path plan); if bool_decide (d = []) then None else Some d)
    (NoParent (config_path plan));
  config_dir ← map_err (ConfigDirNotWatchable (config_path plan)) (fs_canonicalize fs dir);
  config_name ← ok_or (file_name (config_path plan)) (NoFileName (config_path plan));
  udf_root ←
    match plan_udf_dir plan with
    | Some dir => d ← map_err (UdfDirNotWatchable dir) (fs_canonicalize fs (components dir)); Ok (Some d)
    | None => Ok None
    end;
  _ ← map_err WatcherInit (n_init nt);
  _ ← map_err (WatchFailed config_dir) (n_watch nt config_dir);
  _ ← match udf_root with
      | Some dir => map_err (WatchFailed dir) (n_watch nt dir)
      | None => Ok tt
      end;
  _ ← map_err WatcherThread (n_thread nt);
  Ok (mkArmed config_dir config_name udf_root (plan_debounce plan) (plan_max_batch_age plan)).

(** ** The thread *)

(** A [notify::Event], by its paths. *)
Definition Event : Type := list bytes.

Section Loop.
Context (a : Armed).

Definition touches_config (ev : Event) : bool :=
  List.existsb (fun p => bool_decide (parent p = Some (components (config_dir a)))
                    && bool_decide (file_name p = Some (config_name a))) ev.

Definition touches_udf (ev : Event) : bool :=
  match udf_root a with
  | None => false
  | Some dir =>
      List.existsb (fun p => path_eq p dir
        || (bool_decide (parent p = Some (components dir))
            && bool_decide ((extension p ≫= to_str) = Some (str "wasm")))) ev
  end.

(** A call to one of the closures. *)
Inductive Call := Rescan | Reload (t : ReloadTrigger).

Inductive Loop := Idle | Collect (batch_start : Z) (config_dirty udf_dirty : bool) | Exited.

(** One round of either loop: [InRecv] is a return of [rx.recv()] with the
    [Instant::now()] after it, [InPoll] the reading behind [batch_start.elapsed()]
    and, where the code gets that far, the outcome of [rx.recv_timeout(wait)] and
    the time it returned. *)
Inductive RecvTimeout := Got (ev : Event) | Timeout | Disconnected.
Inductive Input :=
| InRecv (r : option Event) (now : Z)
| InPoll (now : Z) (r : RecvTimeout) (returned : Z).

Definition wait (elapsed : Z) : Z := Z.min (debounce a) (Z.max 0 (max_batch_age a - elapsed)).

(** What follows the inner loop. *)
Definition act (config_dirty udf_dirty : bool) : list Call :=
  (if udf_dirty then [Rescan] else []) ++
  (if config_dirty || udf_dirty then [Reload (if udf_dirty then UdfSwap else Config)] else []).

Definition loop_step (s : Loop) (i : Input) : Loop * list Call :=
  match s, i with
  | Idle, InRecv None _ => (Exited, [])
  | Idle, InRecv (Some first) now => (Collect now (touches_config first) (touches_udf first), [])
  | Collect batch_start config_dirty udf_dirty, InPoll now r _ =>
      let elapsed := now - batch_start in
      if elapsed >=? max_batch_age a then (Idle, act config_dirty udf_dirty)
      else
        match r with
        | Got ev => (Collect batch_start (config_dirty || touches_config ev) (udf_dirty || touches_udf ev), [])
        | Timeout => (Idle, act config_dirty udf_dirty)
        | Disconnected => (Exited, [])
        end
  | _, _ => (s, [])
  end.

Fixpoint loop_run (s : Loop) (ins : list Input) : Loop * list Call :=
  match ins with
  | [] => (s, [])
  | i :: ins =>
      let '(s, out) := loop_step s i in
      let '(s, outs) := loop_run s ins in
      (s, out ++ outs)
  end.

(** The event a round takes off the channel, with the time it did; none when the
    batch closes on age, before [recv_timeout] is called. *)
Definition taken (s : Loop) (i : Input) : list (Z * Event) :=
  match s, i with
  | Idle, InRecv (Some ev) now => [(now, ev)]
  | Collect start _ _, InPoll now (Got ev) ret => if now - start >=? max_batch_age a then [] else [(ret, ev)]
  | _, _ => []
  end.

Fixpoint received (s : Loop) (ins : list Input) : list (Z * Event) :=
  match ins with
  | [] => []
  | i :: ins => taken s i ++ received (loop_step s i).1 ins
  end.

(** ** What an event is about *)

(** One of its paths is the config file. *)
Definition config_event (ev : Event) : Prop :=
  exists p, p ∈ ev /\ components p = components (config_dir a) ++ [Normal (config_name a)].

(** One of its paths is the UDF directory itself or a [name.wasm] in it. *)
Definition udf_event (ev : Event) : Prop :=
  exists dir p, udf_root a = Some dir /\ p ∈ ev /\
    (components p = components dir \/
     exists name, name <> [] /\ components p = components dir ++ [Normal (name ++ str ".wasm")]).

Lemma existsb_Exists {A} (f : A -> bool) (P : A -> Prop) l :
  (forall x, f x = true <-> P x) -> List.existsb f l = true <-> exists x, x ∈ l /\ P x.
Proof.
  intros H. rewrite List.existsb_exists. split; intros (x & Hx & Hf); exists x;
    by rewrite ?list_elem_of_In, ?H in *; rewrite <- ?list_elem_of_In in *.
Qed.

Lemma touches_config_iff ev : touches_config ev = true <-> config_event ev.
Proof.
  unfold touches_config, config_event. apply existsb_Exists. intros p.
  by rewrite andb_true_iff, !bool_decide_eq_true, parent_file_name.
Qed.

Lemma touches_udf_iff ev : touches_udf ev = true <-> udf_event ev.
Proof.
  unfold touches_udf, udf_event. destruct (udf_root a) as [dir|]; [|naive_solver].
  rewrite (existsb_Exists _ (fun p => components p = components dir \/
    exists name, name <> [] /\ components p = components dir ++ [Normal (name ++ str ".wasm")])); [naive_solver|].
  intros p. rewrite orb_true_iff, andb_true_iff, !bool_decide_eq_true. unfold path_eq. rewrite bool_decide_eq_true.
  apply or_iff_compat_l. split.
  - intros [Hp He]. destruct (file_name p) as [file|] eqn:Ef; [|unfold extension in He; by rewrite Ef in He].
    destruct (proj1 (wasm_extension p file Ef) He) as (name & Hfile & Hne). exists name. split; [done|].
    apply parent_file_name. by rewrite Ef, Hfile.
  - intros (name & Hne & [Hp Hf]%parent_file_name). split; [done|]. apply (wasm_extension p _ Hf). eauto.
Qed.

(** A file of a watched directory counts exactly when it should: in the
    config directory only the config file's own name, in the UDF directory only
    the [name.wasm] files, so temporary files staged next to them trigger
    nothing. *)
Theorem watch_surfaces file :
  config_dir a <> [] -> udf_root a <> Some [] -> entry_name file = true ->
  (touches_config [join (config_dir a) file] = true <-> file = config_name a) /\
  (forall dir, udf_root a = Some dir ->
    touches_udf [join dir file] = true <-> exists name, file = name ++ str ".wasm" /\ name <> []).
Proof.
  intros Hc Hu Hf. split.
  - unfold touches_config. cbn [List.existsb]. rewrite parent_join, file_name_join by done.
    rewrite orb_false_r, andb_true_iff, !bool_decide_eq_true. naive_solver.
  - intros dir Hd. assert (dir <> []) as Hne by (by intros ->). unfold touches_udf. rewrite Hd. cbn [List.existsb].
    rewrite orb_false_r, orb_true_iff, andb_true_iff, !bool_decide_eq_true, (wasm_name dir) by done.
    rewrite parent_join by done. unfold path_eq. rewrite components_join, bool_decide_eq_true by done.
    assert (components dir ++ [Normal file] <> components dir) as Hl.
    { intros E%(f_equal length). rewrite length_app in E. cbn in E. lia. }
    naive_solver.
Qed.

(** ** Batches *)

Definition batch_act (evs : list Event) : list Call :=
  act (List.existsb touches_config evs) (List.existsb touches_udf evs).

(** The calls a closed batch asks for. *)
Inductive batch_calls (evs : list Event) : list Call -> Prop :=
| calls_udf : Exists udf_event evs -> batch_calls evs [Rescan; Reload UdfSwap]
| calls_config : ~ Exists udf_event evs -> Exists config_event evs -> batch_calls evs [Reload Config]
| calls_none : ~ Exists udf_event evs -> ~ Exists config_event evs -> batch_calls evs [].

Lemma touches_Exists (f : Event -> bool) (P : Event -> Prop) evs :
  (forall ev, f ev = true <-> P ev) -> reflect (Exists P evs) (List.existsb f evs).
Proof.
  intros H. apply iff_reflect. rewrite (existsb_Exists f P) by done. by rewrite Exists_exists.
Qed.

Lemma batch_act_calls evs : batch_calls evs (batch_act evs).
Proof.
  unfold batch_act, act.
  destruct (touches_Exists _ _ evs touches_udf_iff), (touches_Exists _ _ evs touches_config_iff); by constructor.
Qed.

(** The open batch of a state. *)
Definition open (s : Loop) (cur : list (Z * Event)) : Prop :=
  match s with
  | Idle => cur = []
  | Collect start c u =>
      head cur.*1 = Some start /\ c = List.existsb touches_config cur.*2 /\ u = List.existsb touches_udf cur.*2
  | Exited => True
  end.

Lemma existsb_snoc {A} (f : A -> bool) l x : List.existsb f (l ++ [x]) = List.existsb f l || f x.
Proof. rewrite List.existsb_app. cbn. by rewrite orb_false_r. Qed.

(** One round extends the open batch, or closes it and acts on all of it. *)
Lemma step_batches s i cur :
  open s cur ->
  let '(s', out) := loop_step s i in
  exists closed cur', cur ++ taken s i = concat closed ++ cur' /\ Forall (fun b => b <> []) closed /\
    out = concat ((fun b => batch_act b.*2) <$> closed) /\ open s' cur'.
Proof.
  intros Ho. destruct s as [|start c u|].
  - cbn in Ho. subst cur. destruct i as [[ev|] now|now r ret]; cbn.
    + exists [], [(now, ev)]. split_and!; [done|constructor|done|done|..]; cbn; by rewrite orb_false_r.
    + exists [], []. done.
    + exists [], []. done.
  - destruct Ho as (Hh & -> & ->). assert (cur <> []) as Hne by (by intros ->).
    destruct i as [r now|now r ret].
    { cbn. exists [], cur. rewrite app_nil_r. by destruct r. }
    cbn [loop_step taken]. destruct (_ >=? _).
    + exists [cur], []. cbn. rewrite !app_nil_r.
      destruct r; rewrite ?app_nil_r; repeat split; by constructor.
    + destruct r as [ev| |]; cbn.
      * exists [], (cur ++ [(ret, ev)]). rewrite !fmap_app. cbn. rewrite !existsb_snoc.
        split_and!; [done|done|done| |done|done]. by destruct cur.
      * exists [cur], []. cbn. rewrite !app_nil_r. repeat split; by constructor.
      * exists [], cur. rewrite app_nil_r. done.
  - exists [], cur. destruct i as [[]|]; cbn; rewrite app_nil_r; done.
Qed.

Lemma run_batches ins : forall s cur,
  open s cur ->
  let '(s', out) := loop_run s ins in
  exists closed cur', cur ++ received s ins = concat closed ++ cur' /\ Forall (fun b => b <> []) closed /\
    out = concat ((fun b => batch_act b.*2) <$> closed) /\ open s' cur'.
Proof.
  induction ins as [|i ins IH]; intros s cur Ho; cbn [loop_run received].
  { exists [], cur. by rewrite app_nil_r. }
  pose proof (step_batches s i cur Ho) as Hstep.
  destruct (loop_step s i) as [s1 out1]. destruct Hstep as (c1 & cur1 & E1 & N1 & -> & O1).
  specialize (IH s1 cur1 O1). cbn [fst]. destruct (loop_run s1 ins) as [s2 out2].
  destruct IH as (c2 & cur2 & E2 & N2 & -> & O2).
  exists (c1 ++ c2), cur2. split; [|split; [by apply Forall_app|split; [|done]]].
  - by rewrite app_assoc, E1, <- app_assoc, E2, app_assoc, <- concat_app.
  - by rewrite fmap_app, concat_app.
Qed.

(** A poll that leaves the batch open took an event off the channel while the
    batch was young. *)
Lemma still_open now r ret ins : forall s s' start c u,
  (loop_run s ins).1 = s' -> s' = Collect start c u -> last ins = Some (InPoll now r ret) ->
  (exists ev, r = Got ev) /\ now - start < max_batch_age a.
Proof.
  induction ins as [|i ins IH]; intros s s' start c u Hr Hs Hl; [done|]. cbn [loop_run] in Hr.
  destruct (loop_step s i) as [s1 out1] eqn:E. destruct ins as [|i' ins].
  - cbn in Hl, Hr. injection Hl as ->. subst. destruct s as [|start0 c0 u0|]; cbn in E; [by simplify_eq| |by simplify_eq].
    destruct (Z.geb_spec (now - start0) (max_batch_age a)); [by simplify_eq|]. destruct r; simplify_eq. eauto.
  - rewrite last_cons_cons in Hl. destruct (loop_run s1 (i' :: ins)) as [s2 outs] eqn:E2. cbn in Hr.
    apply (IH s1 s' start c u); [by rewrite E2|done|done].
Qed.

(** C19: whatever the channel and the clock do, the watcher's calls are those of
    its batches.  The events it takes off the channel are the concatenation of
    non-empty closed batches and one open batch; a closed batch one of whose
    events names the UDF directory or a [name.wasm] in it has called [rescan]
    and then [reload] with the [udf-swap] trigger, one that only names the config
    file [reload] with the [config] trigger, any other nothing, and the calls
    are those of the batches in order.  Waiting for the next batch, nothing is
    left unacted; a batch stays open over a poll only when that poll brought an
    event and was made before the batch, counted from its first event, was of
    the maximal age. *)
Theorem watcher_batches ins :
  let '(s, calls) := loop_run Idle ins in
  exists closed callss cur,
    received Idle ins = concat closed ++ cur /\ Forall (fun b => b <> []) closed /\
    Forall2 (fun b => batch_calls b.*2) closed callss /\ calls = concat callss /\
    (s = Idle -> cur = []) /\
    (forall start c u now r ret, s = Collect start c u -> last ins = Some (InPoll now r ret) ->
      exists ev first, r = Got ev /\ head cur.*1 = Some first /\ now - first < max_batch_age a).
Proof.
  pose proof (run_batches ins Idle [] eq_refl) as H. destruct (loop_run Idle ins) as [s calls] eqn:E.
  destruct H as (closed & cur & Hr & Hne & -> & Ho).
  exists closed, ((fun b => batch_act b.*2) <$> closed), cur. split_and!; [done|done| |done|by intros ->|].
  - clear. induction closed; constructor; [apply batch_act_calls|done].
  - intros start c u now r ret -> Hl. destruct Ho as (Hh & _).
    destruct (still_open now r ret ins Idle (Collect start c u) start c u) as [[ev ->] ?]; [by rewrite E|done|done|].
    eauto.
Qed.

(** ** Timing *)

(** The documented promise of [recv_timeout], with [lat] bounding how late a
    thread is woken or scheduled: each reading comes within [lat] of the previous
    return, and [recv_timeout(wait)] returns within [wait + lat]. *)
Fixpoint timely (lat : Z) (now : Z) (s : Loop) (ins : list Input) : Prop :=
  match ins with
  | [] => True
  | i :: ins =>
      match i with
      | InRecv _ t =>
          match s with
          | Idle => now <= t /\ timely lat t (loop_step s i).1 ins
          | _ => False
          end
      | InPoll t _ ret =>
          match s with
          | Collect start _ _ =>
              now <= t <= now + lat /\
              (if t - start >=? max_batch_age a then ret = t
               else t <= ret <= t + wait (t - start) + lat) /\
              timely lat ret (loop_step s i).1 ins
          | _ => False
          end
      end
  end.

(** When the rounds of a run end, and the state they leave. *)
Fixpoint run_times (s : Loop) (ins : list Input) : list (Z * Loop * Loop) :=
  match ins with
  | [] => []
  | i :: ins =>
      let s' := (loop_step s i).1 in
      (match i with InRecv _ t => t | InPoll _ _ ret => ret end, s, s') :: run_times s' ins
  end.

(** A batch acts at most [max_batch_age] after the event that opened it,
    give or take two scheduling delays, however long events keep arriving. *)
Theorem batch_age_bounded lat ins now :
  0 <= lat -> 0 <= debounce a -> 0 <= max_batch_age a -> timely lat now Idle ins ->
  forall t start c u, (t, Collect start c u, Idle) ∈ run_times Idle ins ->
    t <= start + max_batch_age a + 2 * lat.
Proof.
  intros Hlat Hd Hm Ht t start c u.
  assert (forall ins now s, timely lat now s ins ->
    (forall st c u, s = Collect st c u -> st <= now <= st + max_batch_age a + lat) ->
    (t, Collect start c u, Idle) ∈ run_times s ins -> t <= start + max_batch_age a + 2 * lat) as Hgen.
  { clear now ins Ht. induction ins as [|i ins IH]; intros now s Ht Hs Hin; [by apply not_elem_of_nil in Hin|].
    cbn [run_times] in Hin. apply elem_of_cons in Hin as [Heq|Hin].
    - injection Heq as -> <- Hs'. specialize (Hs start c u eq_refl).
      destruct i as [r t|t r ret]; [done|]. cbn [timely] in Ht. destruct Ht as (? & Hr & _). unfold wait in Hr.
      destruct (Z.geb_spec (t - start) (max_batch_age a)); lia.
    - cbn [timely] in Ht. destruct i as [r t'|t' r ret].
      + destruct s as [|st0 c0 u0|]; [|done|done]. destruct Ht as [? Ht].
        eapply (IH _ _ Ht); [|exact Hin]. intros st c' u'. cbn. destruct r; [|done]. intros [= -> _ _]. lia.
      + destruct s as [|st0 c0 u0|]; [done| |done]. destruct Ht as (? & Hr & Ht).
        specialize (Hs _ _ _ eq_refl).
        eapply (IH _ _ Ht); [|exact Hin]. cbn [loop_step]. unfold wait in Hr.
        destruct (Z.geb_spec (t' - st0) (max_batch_age a)); [done|].
        destruct r; cbn; [|done|done]. intros st c' u' [= -> _ _]. lia. }
  apply (Hgen ins now Idle Ht). done.
Qed.
End Loop.

(** An operator syncs two modules and the config, with a straggler in the next batch. *)
Definition demo_armed : Armed :=
  mkArmed (str "/run/mcgateway") (str "config.lua") (Some (str "/etc/mcgateway/udf")) DEBOUNCE MAX_BATCH_AGE.
Definition demo_inputs : list Input :=
  [ InRecv (Some [str "/etc/mcgateway/udf/a.wasm.tmp"]) 0;
    InPoll 10 (Got [str "/etc/mcgateway/udf/a.wasm"]) 1000;
    InPoll 1010 (Got [str "/run/mcgateway/config.lua"]) 2000;
    InPoll 2010 Timeout 200002010;
    InRecv (Some [str "/run/mcgateway/config.lua"]) 300000000;
    InPoll 300000010 Timeout 500000010 ].

Example demo_calls :
  loop_run demo_armed Idle demo_inputs = (Idle, [Rescan; Reload UdfSwap; Reload Config]).
Proof. reflexivity. Qed.

Lemma watcher_batches_witness :
  exists closed callss cur,
    received demo_armed Idle demo_inputs = concat closed ++ cur /\ Forall (fun b => b <> []) closed /\
    Forall2 (fun b => batch_calls demo_armed b.*2) closed callss /\
    [Rescan; Reload UdfSwap; Reload Config] = concat callss /\ cur = [].
Proof.
  pose proof (watcher_batches demo_armed demo_inputs) as H. rewrite demo_calls in H.
  destruct H as (closed & callss & cur & H1 & H2 & H3 & H4 & H5 & _). exists closed, callss, cur.
  split_and!; [exact H1|exact H2|exact H3|exact H4|exact (H5 eq_refl)].
Defined.

Lemma watch_surfaces_witness :
  (touches_config demo_armed [str "/run/mcgateway/config.lua"] = true <-> str "config.lua" = str "config.lua") /\
  (forall dir, udf_root demo_armed = Some dir ->
    touches_udf demo_armed [join dir (str "config.lua")] = true <->
    exists name, str "config.lua" = name ++ str ".wasm" /\ name <> []).
Proof. apply (watch_surfaces demo_armed (str "config.lua")); [discriminate|discriminate|reflexivity]. Defined.

Lemma batch_age_bounded_witness :
  (200002010, Collect 0 true true, Idle) ∈ run_times demo_armed Idle demo_inputs /\
  200002010 <= 0 + max_batch_age demo_armed + 2 * 10.
Proof.
  assert ((200002010, Collect 0 true true, Idle) ∈ run_times demo_armed Idle demo_inputs) as Hin.
  { apply (list_elem_of_lookup_2 _ 3). reflexivity. }
  split; [exact Hin|].
  refine (batch_age_bounded demo_armed 10 demo_inputs 0 _ _ _ _ _ _ _ _ Hin); [lia|discriminate|discriminate|].
  vm_compute. repeat split; discriminate.
Defined.
