(* ===== verification/Exporter.v ===== *)
(** * Exporter: the [/metrics] endpoint ([metrics.rs])

    One connection: read until the end of the headers or a full buffer, route
    on the request line, write the response, all under one deadline.  The socket
    has its read and write timeouts, and a trace records which of them was in
    force at each blocking call.  The peer and the kernel are arguments: what
    arrives on the socket, in which chunks, how much each write takes, and the
    clock. *)

From Stdlib Require Import String Ascii DecimalString DecimalN.
From S2P Require Import Prelude Text Paths Metrics.

Inductive IoKind := TimedOut | WriteZero | InvalidInput | OtherIo (code : Z).

(** The connection: the clock and how often it was read, the socket's two
    timeouts ([None]: the call blocks for as long as the peer likes), a trace of
    the blocking calls made, and the bytes accepted for sending.  An element of
    the trace is the number of clock readings before the call and the timeout
    the socket had when it was made. *)
Record Conn := mkConn {
  c_time : nat -> Z;
  c_reads : nat;
  c_rto : option Z;
  c_wto : option Z;
  c_calls : list (nat * option Z);
  c_sent : bytes;
}.

(** An accepted socket has no timeouts. *)
Definition conn_new (time : nat -> Z) : Conn := mkConn time 0 None None [] [].

(** [Instant::now()]. *)
Definition instant_now (c : Conn) : Z * Conn :=
  (c_time c (c_reads c), mkConn (c_time c) (S (c_reads c)) (c_rto c) (c_wto c) (c_calls c) (c_sent c)).

Inductive Side := Reading | Writing.

Definition timeout_of (side : Side) (c : Conn) : option Z :=
  match side with Reading => c_rto c | Writing => c_wto c end.

(** A blocking [read] or [write] is entered. *)
Definition blocking (side : Side) (c : Conn) : Conn :=
  mkConn (c_time c) (c_reads c) (c_rto c) (c_wto c) (c_calls c ++ [(c_reads c, timeout_of side c)]) (c_sent c).

(** What the peer's side of [read] yields, in order; the end of the list is its shutdown. *)
Inductive Arrival := Data (bs : bytes) | ReadErr (e : IoKind).
(** How a [write] returns: the number of bytes the kernel has room for, or an
    error; past the end of the list the peer takes nothing more and it times out. *)
Inductive Taking := Takes (n : Z) | WriteErr (e : IoKind).

Definition SCRAPE_IO_TIMEOUT : Z := 5 * 1000000000.
Definition BUF_LEN : Z := 4096.

Definition deadline_expired : IoKind := TimedOut.

(** [remaining_budget(deadline)]. *)
Definition remaining_budget (deadline : Z) (c : Conn) : Result IoKind Z * Conn :=
  let '(now, c) := instant_now c in
  let remaining := Z.max 0 (deadline - now) in
  if remaining =? 0 then (Err deadline_expired, c) else (Ok remaining, c).

(** [set_read_timeout(Some(d))], [set_write_timeout(Some(d))]: a zero duration is refused. *)
Definition set_timeout (side : Side) (d : Z) (c : Conn) : Result IoKind unit * Conn :=
  if d =? 0 then (Err InvalidInput, c)
  else
    (Ok tt,
     match side with
     | Reading => mkConn (c_time c) (c_reads c) (Some d) (c_wto c) (c_calls c) (c_sent c)
     | Writing => mkConn (c_time c) (c_reads c) (c_rto c) (Some d) (c_calls c) (c_sent c)
     end).

(** The two together, as both loops use them. *)
Definition arm (side : Side) (deadline : Z) (c : Conn) : Result IoKind unit * Conn :=
  match remaining_budget deadline c with
  | (Err e, c) => (Err e, c)
  | (Ok d, c) => set_timeout side d c
  end.

(** [windows(pat.len()).position(|w| w == pat)], for a non-empty pattern. *)
Fixpoint starts_with (pat bs : bytes) : bool :=
  match pat, bs with
  | [], _ => true
  | p :: pat, b :: bs => bool_decide (p = b) && starts_with pat bs
  | _ :: _, [] => false
  end.
Fixpoint position (pat bs : bytes) : option nat :=
  match bs with
  | [] => None
  | _ :: bs' => if starts_with pat bs then Some O else S <$> position pat bs'
  end.

Definition crlf : bytes := [Byte.x0d; Byte.x0a].
Definition crlf2 : bytes := crlf ++ crlf.
Definition space : byte := Byte.x20.

(** The read loop.  A chunk larger than the room left fills the buffer, and the
    loop is over. *)
Fixpoint read_loop (deadline : Z) (arrivals : list Arrival) (buf : bytes) (c : Conn)
  : Result IoKind bytes * Conn :=
  if zlen buf =? BUF_LEN then (Ok buf, c)
  else
    match arm Reading deadline c with
    | (Err e, c) => (Err e, c)
    | (Ok _, c) =>
        let c := blocking Reading c in
        match arrivals with
        | [] => (Ok buf, c)
        | ReadErr e :: _ => (Err e, c)
        | Data bs :: rest =>
            let got := take (Z.to_nat (BUF_LEN - zlen buf)) bs in
            if zlen got =? 0 then (Ok buf, c)
            else
              let buf := buf ++ got in
              match position crlf2 buf with
              | Some _ => (Ok buf, c)
              | None => read_loop deadline rest buf c
              end
        end
    end.

(** The method and the path of the request line. *)
Definition request_line (request : bytes) : bytes * bytes :=
  let line_end := default (length request) (position crlf request) in
  let parts := split_on space (take line_end request) in
  (default [] (parts !! 0%nat), default [] (parts !! 1%nat)).

Definition TEXT_PLAIN : bytes := str "text/plain; charset=utf-8".

(** A newline; the sources write it as an escape. *)
Definition nl : bytes := [Byte.x0a].

(** Status, content type and body by method and path. *)
Definition route (encoded method path : bytes) : bytes * bytes * bytes :=
  if negb (bool_decide (method = str "GET")) then
    (str "405 Method Not Allowed", TEXT_PLAIN, str "method not allowed" ++ nl)
  else if bool_decide (path = str "/metrics") || starts_with (str "/metrics?") path then
    (str "200 OK", str "application/openmetrics-text; version=1.0.0; charset=utf-8", encoded)
  else (str "404 Not Found", TEXT_PLAIN, str "not found; metrics are at /metrics" ++ nl).

(** [{len}]: decimal digits. *)
Definition decimal (n : Z) : bytes := str (NilZero.string_of_uint (N.to_uint (Z.to_N n))).

Definition response (r : bytes * bytes * bytes) : bytes :=
  let '(status, content_type, body) := r in
  str "HTTP/1.1 " ++ status ++ crlf ++ str "Content-Type: " ++ content_type ++ crlf ++
  str "Content-Length: " ++ decimal (zlen body) ++ crlf ++ str "Connection: close" ++ crlf2 ++ body.

Definition send (bs : bytes) (c : Conn) : Conn :=
  mkConn (c_time c) (c_reads c) (c_rto c) (c_wto c) (c_calls c) (c_sent c ++ bs).

(** [stream.flush()], which does nothing for a [TcpStream]. *)
Definition flush (c : Conn) : Result IoKind unit * Conn := (Ok tt, c).

Fixpoint write_all_until (deadline : Z) (takings : list Taking) (buf : bytes) (c : Conn)
  : Result IoKind unit * Conn :=
  if bool_decide (buf = []) then (Ok tt, c)
  else
    match arm Writing deadline c with
    | (Err e, c) => (Err e, c)
    | (Ok _, c) =>
        let c := blocking Writing c in
        match takings with
        | [] => (Err TimedOut, c)
        | WriteErr e :: _ => (Err e, c)
        | Takes n :: rest =>
            let written := Z.min (Z.max 0 n) (zlen buf) in
            let c := send (take (Z.to_nat written) buf) c in
            if written =? 0 then (Err WriteZero, c)
            else write_all_until deadline rest (drop (Z.to_nat written) buf) c
        end
    end.

Definition serve_one_until (encoded : bytes) (deadline : Z) (arrivals : list Arrival)
  (takings : list Taking) (c : Conn) : Result IoKind unit * Conn :=
  match read_loop deadline arrivals [] c with
  | (Err e, c) => (Err e, c)
  | (Ok request, c) =>
      let '(method, path) := request_line request in
      match write_all_until deadline takings (response (route encoded method path)) c with
      | (Err e, c) => (Err e, c)
      | (Ok _, c) => flush c
      end
  end.

Lemma serve_flush deadline takings bs c :
  match write_all_until deadline takings bs c with (Err e, c) => (Err e, c) | (Ok _, c) => flush c end =
  write_all_until deadline takings bs c.
Proof. destruct (write_all_until _ _ _ _) as [[[]|e] c']; done. Qed.

(** [serve_one]: the deadline is one timeout from now. *)
Definition serve_one (encoded : bytes) (arrivals : list Arrival) (takings : list Taking) (c : Conn)
  : Result IoKind unit * Conn :=
  let '(now, c) := instant_now c in
  serve_one_until encoded (now + SCRAPE_IO_TIMEOUT) arrivals takings c.

(** ** The deadline *)

(** A blocking call was made with exactly the time left until the deadline, as
    the clock showed at the last reading before it. *)
Definition in_budget (deadline : Z) (time : nat -> Z) (call : nat * option Z) : Prop :=
  exists k d, call = (S k, Some d) /\ 0 < d /\ time k + d = deadline.

(** Every call is in budget, and no two share a reading of the clock. *)
Record budgeted (deadline : Z) (c : Conn) : Prop := {
  bud_calls : Forall (in_budget deadline (c_time c)) (c_calls c);
  bud_past : Forall (fun call => (call.1 <= c_reads c)%nat) (c_calls c);
  bud_distinct : NoDup (c_calls c).*1;
}.

(** From [c] to [c']: one more reading, before the deadline, and one more call,
    armed with what was left. *)
Record armed_call (deadline : Z) (c c' : Conn) : Prop := {
  ac_time : c_time c' = c_time c;
  ac_sent : c_sent c' = c_sent c;
  ac_reads : c_reads c' = S (c_reads c);
  ac_before : c_time c (c_reads c) < deadline;
  ac_calls : exists d, c_calls c' = c_calls c ++ [(S (c_reads c), Some d)] /\ 0 < d /\ c_time c (c_reads c) + d = deadline;
}.

Lemma arm_spec side deadline c r c' :
  arm side deadline c = (r, c') ->
  (r = Ok tt /\ armed_call deadline c (blocking side c')) \/
  (r = Err TimedOut /\ deadline <= c_time c (c_reads c) /\ c' = (instant_now c).2).
Proof.
  unfold arm, remaining_budget, instant_now, set_timeout.
  destruct (Z.eqb_spec (Z.max 0 (deadline - c_time c (c_reads c))) 0) as [E|E].
  - intros [= <- <-]. right. split_and!; [done|lia|done].
  - rewrite (proj2 (Z.eqb_neq _ _) E). intros [= <- <-]. left. split; [done|].
    destruct side; constructor; cbn; try done; try lia; (eexists; split; [done|]); lia.
Qed.

Lemma arm_ok side deadline c :
  (forall k, c_time c k < deadline) ->
  exists c', arm side deadline c = (Ok tt, c') /\ armed_call deadline c (blocking side c').
Proof.
  intros Ht. destruct (arm side deadline c) as [r c'] eqn:E. exists c'.
  apply arm_spec in E as [[-> H]|(_ & H & _)]; [done|]. specialize (Ht (c_reads c)). lia.
Qed.

Lemma armed_budgeted deadline c c' : armed_call deadline c c' -> budgeted deadline c -> budgeted deadline c'.
Proof.
  intros [Ht _ Hr Hb (d & Hc & Hd & He)] [H1 H2 H3]. constructor; rewrite ?Hc, ?Ht, ?Hr.
  - apply Forall_app. split; [done|]. apply Forall_singleton. by exists (c_reads c), d.
  - apply Forall_app. split; [|by apply Forall_singleton]. eapply Forall_impl; [exact H2|]. cbn. lia.
  - rewrite fmap_app. apply NoDup_app. split_and!; [done| |apply NoDup_singleton].
    intros x ([n to] & -> & Hx)%list_elem_of_fmap E%list_elem_of_singleton.
    eapply Forall_forall in H2; [|exact Hx]. cbn in H2, E. lia.
Qed.

Lemma instant_budgeted deadline c : budgeted deadline c -> budgeted deadline (instant_now c).2.
Proof. intros [H1 H2 H3]. constructor; cbn; [done| |done]. eapply Forall_impl; [exact H2|]. cbn. lia. Qed.

(** A call under the deadline, from [c] to [c'], that did or did not succeed:
    all its clock readings are before the deadline, but possibly the last of one
    that failed, and its blocking calls are in budget. *)
Record under (deadline : Z) (whole : bool) (c c' : Conn) : Prop := {
  un_time : c_time c' = c_time c;
  un_reads : (c_reads c <= c_reads c')%nat;
  un_before : forall k, (c_reads c <= k < c_reads c')%nat -> whole = true \/ (S k < c_reads c')%nat -> c_time c k < deadline;
  un_budget : budgeted deadline c -> budgeted deadline c';
}.

Definition is_ok {E A} (r : Result E A) : bool := match r with Ok _ => true | Err _ => false end.

Lemma under_refl deadline b c : under deadline b c c.
Proof. constructor; [done|lia|lia|done]. Qed.

Lemma under_trans deadline b c c1 c2 :
  under deadline true c c1 -> under deadline b c1 c2 -> under deadline b c c2.
Proof.
  intros [Ht Hr H Hb] [Ht1 Hr1 H1 Hb1]. constructor; [congruence|lia| |auto]. intros k Hk Hw.
  destruct (decide (k < c_reads c1)%nat); [apply H; [lia|by left]|]. rewrite <- Ht. apply H1; [lia|done].
Qed.

Lemma under_weaken deadline b c c' : under deadline true c c' -> under deadline b c c'.
Proof. intros [? ? H ?]. constructor; [done|done| |done]. intros k Hk _. apply H; [done|by left]. Qed.

Lemma under_send deadline b c c' bs : under deadline b c c' -> under deadline b c (send bs c').
Proof. intros [? ? H Hb]. constructor; [done|done|done|]. intros [H1 H2 H3]%Hb. by constructor. Qed.

Lemma armed_under deadline c c' : armed_call deadline c c' -> under deadline true c c'.
Proof.
  intros H. pose proof H as [Ht _ Hr Hb _]. constructor; [done|lia| |by apply armed_budgeted].
  intros k Hk _. replace k with (c_reads c) by lia. done.
Qed.

Lemma instant_under deadline c : under deadline false c (instant_now c).2.
Proof. constructor; cbn; [done|lia| |apply instant_budgeted]. intros k Hk [?|?]; [done|lia]. Qed.

Lemma read_loop_under deadline arrivals : forall buf c r c',
  read_loop deadline arrivals buf c = (r, c') -> under deadline (is_ok r) c c' /\ c_sent c' = c_sent c.
Proof.
  induction arrivals as [|x arrivals IH]; intros buf c r c'; cbn [read_loop];
    (destruct (zlen buf =? BUF_LEN); [intros [= <- <-]; split; [apply under_refl|done]|]);
    destruct (arm Reading deadline c) as [ra c1] eqn:E;
    apply arm_spec in E as [[-> Ha]|(-> & _ & ->)];
    try (intros [= <- <-]; split; [apply instant_under|done]);
    pose proof (armed_under _ _ _ Ha) as Hu; pose proof (ac_sent _ _ _ Ha) as Hs.
  - by intros [= <- <-].
  - destruct x as [bs|e]; [|intros [= <- <-]; split; [by apply under_weaken|done]].
    destruct (zlen _ =? 0); [by intros [= <- <-]|].
    destruct (position crlf2 _); [by intros [= <- <-]|].
    intros [H1 H2]%IH. split; [by eapply under_trans|congruence].
Qed.

(** Nothing of [buf] was sent. *)
Ltac nothing_sent buf :=
  exists [], buf; split; [done|split; [rewrite app_nil_r; done|done]].

Lemma write_all_under deadline takings : forall buf c r c',
  write_all_until deadline takings buf c = (r, c') ->
  under deadline (is_ok r) c c' /\
  exists sent rest, buf = sent ++ rest /\ c_sent c' = c_sent c ++ sent /\ (r = Ok tt <-> rest = []).
Proof.
  induction takings as [|x takings IH]; intros buf c r c'; cbn [write_all_until];
    (destruct (bool_decide_reflect (buf = [])) as [->|Hne];
     [intros [= <- <-]; split; [apply under_refl|]; nothing_sent (@nil byte)|]);
    destruct (arm Writing deadline c) as [ra c1] eqn:E;
    apply arm_spec in E as [[-> Ha]|(-> & _ & ->)];
    try (intros [= <- <-]; split; [apply instant_under|]; nothing_sent buf);
    pose proof (armed_under _ _ _ Ha) as Hu; pose proof (ac_sent _ _ _ Ha) as Hs.
  - intros [= <- <-]. split; [by apply under_weaken|]. nothing_sent buf.
  - destruct x as [n|e]; [|intros [= <- <-]; split; [by apply under_weaken|]; nothing_sent buf].
    set (wr := Z.min (Z.max 0 n) (zlen buf)).
    destruct (Z.eqb_spec wr 0) as [E0|E0].
    + intros [= <- <-]. rewrite E0. split; [by apply under_send, under_weaken|]. exists [], buf.
      split; [done|]. split; [|done]. cbn in Hs |- *. by rewrite Hs.
    + intros (H1 & sent & rest & H2 & H3 & H4)%IH. split; [eapply under_trans; [by apply under_send|done]|].
      exists (take (Z.to_nat wr) buf ++ sent), rest. split; [by rewrite <- app_assoc, <- H2, take_drop|].
      split; [|done]. rewrite H3. cbn in Hs |- *. by rewrite Hs, app_assoc.
Qed.

Lemma conn_new_budgeted deadline time n : budgeted deadline (mkConn time n None None [] []).
Proof. constructor; cbn; constructor. Qed.


(** ** The request, however it is fragmented *)

Lemma starts_with_app pat bs rest :
  (length pat <= length bs)%nat -> starts_with pat (bs ++ rest) = starts_with pat bs.
Proof.
  revert bs; induction pat as [|p pat IH]; intros [|b bs] Hl; cbn in *; try done; [lia|].
  by rewrite IH by lia.
Qed.

Lemma starts_with_len pat bs : starts_with pat bs = true -> (length pat <= length bs)%nat.
Proof.
  revert bs; induction pat as [|p pat IH]; intros [|b bs]; cbn; try lia.
  intros [_ H]%andb_true_iff. apply IH in H. lia.
Qed.

Lemma position_len pat bs k : position pat bs = Some k -> (k + length pat <= length bs)%nat.
Proof.
  revert k; induction bs as [|b bs IH]; intros k; cbn [position]; [done|].
  destruct (starts_with pat (b :: bs)) eqn:E; [intros [= <-]; by apply starts_with_len|].
  destruct (position pat bs) as [j|]; [|done]. intros [= <-]. specialize (IH j eq_refl). cbn. lia.
Qed.

(** A match inside a prefix stays the first match. *)
Lemma position_app pat bs rest k : position pat bs = Some k -> position pat (bs ++ rest) = Some k.
Proof.
  revert k; induction bs as [|b bs IH]; intros k; cbn [position app]; [done|].
  intros H. pose proof (position_len pat (b :: bs) k H) as Hlen. cbn in Hlen.
  change (b :: bs ++ rest) with ((b :: bs) ++ rest). rewrite starts_with_app by (cbn; lia).
  destruct (starts_with pat (b :: bs)); [done|].
  destruct (position pat bs) as [j|]; [|done]. by rewrite (IH j eq_refl).
Qed.

(** The end of the headers ends a line. *)
Lemma crlf2_crlf bs k : position crlf2 bs = Some k -> exists j, position crlf bs = Some j.
Proof.
  revert k; induction bs as [|b bs IH]; intros k; cbn [position]; [done|].
  destruct (starts_with crlf (b :: bs)) eqn:E; [eauto|].
  assert (starts_with crlf2 (b :: bs) = false) as ->.
  { destruct bs as [|b' bs]; cbn in *; [by destruct (bool_decide _)|].
    rewrite andb_true_r in E. apply andb_false_iff in E as [-> | ->]; [done|]. by rewrite andb_false_r. }
  destruct (position crlf2 bs) as [j|]; [|done]. intros _. destruct (IH j eq_refl) as [i ->]. cbn. eauto.
Qed.

Lemma request_line_prefix bs rest k :
  position crlf bs = Some k -> request_line (bs ++ rest) = request_line bs.
Proof.
  intros H. unfold request_line. rewrite H, (position_app _ _ _ _ H). cbn.
  apply position_len in H. by rewrite take_app_le by (cbn in H; lia).
Qed.

Lemma read_loop_chunks deadline req k chunks : forall buf c,
  (forall i, c_time c i < deadline) -> zlen req <= BUF_LEN -> position crlf2 req = Some k ->
  Forall (fun bs => bs <> []) chunks -> buf ++ concat chunks = req -> position crlf2 buf = None ->
  exists got rest c', read_loop deadline (Data <$> chunks) buf c = (Ok got, c') /\
    req = got ++ rest /\ position crlf2 got <> None /\ c_sent c' = c_sent c /\ c_time c' = c_time c.
Proof.
  induction chunks as [|bs chunks IH]; intros buf c Ht Hl Hk Hne He Hb.
  { rewrite app_nil_r in He. congruence. }
  inversion Hne as [|? ? Hbs Hrest]; subst. cbn [concat] in *.
  rewrite !zlen_app in Hl. pose proof (zlen_nonneg buf). pose proof (zlen_nonneg (concat chunks)).
  assert (0 < zlen bs) by (destruct bs; [done|rewrite zlen_cons; pose proof (zlen_nonneg bs); lia]).
  cbn [read_loop fmap list_fmap]. rewrite (proj2 (Z.eqb_neq _ _)) by lia.
  destruct (arm_ok Reading deadline c Ht) as (c0 & -> & Ha). set (c1 := blocking Reading c0) in *.
  pose proof (ac_sent _ _ _ Ha) as Hs1. pose proof (ac_time _ _ _ Ha) as Ht1.
  rewrite take_ge by (unfold zlen in *; lia). rewrite (proj2 (Z.eqb_neq _ _)) by lia.
  destruct (position crlf2 (buf ++ bs)) as [j|] eqn:E.
  - exists (buf ++ bs), (concat chunks), c1. rewrite app_assoc, E. done.
  - destruct (IH (buf ++ bs) c1) as (got & rest & c' & Hr & Hq & Hg & Hs & Hc); try done.
    + by rewrite Ht1.
    + by rewrite !zlen_app.
    + by rewrite app_assoc.
    + exists got, rest, c'. split; [done|]. split; [done|]. split; [done|]. split; congruence.
Qed.

Definition sum_takes (ns : list Z) : Z := foldr Z.add 0 ns.

Lemma sum_takes_nonneg ns : Forall (fun n => 0 < n) ns -> 0 <= sum_takes ns.
Proof. induction 1; cbn; [done|]. unfold sum_takes in *. lia. Qed.

Lemma write_all_ok deadline ns : forall buf c,
  (forall i, c_time c i < deadline) -> Forall (fun n => 0 < n) ns -> zlen buf <= sum_takes ns ->
  exists c', write_all_until deadline (Takes <$> ns) buf c = (Ok tt, c') /\ c_sent c' = c_sent c ++ buf.
Proof.
  induction ns as [|n ns IH]; intros buf c Ht Hp Hl.
  { destruct buf as [|b buf]; [|rewrite zlen_cons in Hl; pose proof (zlen_nonneg buf); cbn in Hl; lia].
    exists c. by rewrite app_nil_r. }
  inversion Hp as [|? ? Hn Hns]; subst. cbn [write_all_until fmap list_fmap] in *.
  change (sum_takes (n :: ns)) with (n + sum_takes ns) in Hl.
  destruct (bool_decide_reflect (buf = [])) as [->|Hne]; [exists c; by rewrite app_nil_r|].
  assert (0 < zlen buf) by (destruct buf; [done|rewrite zlen_cons; pose proof (zlen_nonneg buf); lia]).
  destruct (arm_ok Writing deadline c Ht) as (c0 & -> & Ha). set (c1 := blocking Writing c0) in *.
  pose proof (ac_sent _ _ _ Ha) as Hs1. pose proof (ac_time _ _ _ Ha) as Ht1.
  set (wr := Z.min (Z.max 0 n) (zlen buf)). 
  assert (0 < wr <= zlen buf /\ wr <= Z.max 0 n /\ (wr = n \/ wr = zlen buf)) as (Hw1 & Hw2 & Hw3) by (unfold wr; lia).
  rewrite (proj2 (Z.eqb_neq wr 0)) by lia.
  destruct (IH (drop (Z.to_nat wr) buf) (send (take (Z.to_nat wr) buf) c1)) as (c' & -> & Hc').
  - change (c_time (send _ c1)) with (c_time c1). by rewrite Ht1.
  - done.
  - clearbody wr. pose proof (sum_takes_nonneg ns Hns). unfold zlen in *. rewrite length_drop. lia.
  - exists c'. split; [done|]. rewrite Hc'. change (c_sent (send ?bs c1)) with (c_sent c1 ++ bs).
    by rewrite Hs1, <- app_assoc, take_drop.
Qed.

(** C26: a complete request of at most 4 KiB is answered, with the answer its
    request line calls for, however the network fragments the request and
    however few bytes at a time the peer takes the response, as long as the
    deadline does not pass. *)
Theorem scrape_any_fragmentation encoded deadline req chunks ns time k :
  (forall i, time i < deadline) ->
  zlen req <= BUF_LEN -> position crlf2 req = Some k ->
  Forall (fun bs => bs <> []) chunks -> concat chunks = req ->
  Forall (fun n => 0 < n) ns ->
  let '(method, path) := request_line req in
  zlen (response (route encoded method path)) <= sum_takes ns ->
  exists c', serve_one_until encoded deadline (Data <$> chunks) (Takes <$> ns) (conn_new time) = (Ok tt, c') /\
    c_sent c' = response (route encoded method path).
Proof.
  intros Ht Hl Hk Hne Hc Hp. destruct (request_line req) as [method path] eqn:Er. intros Hn.
  destruct (read_loop_chunks deadline req k chunks [] (conn_new time)) as (got & rest & c1 & Hr & Hreq & Hg & Hs & Htt);
    try done.
  unfold serve_one_until. rewrite Hr.
  destruct (position crlf2 got) as [j|] eqn:Ej; [|done]. destruct (crlf2_crlf got j Ej) as [i Hi].
  rewrite Hreq, (request_line_prefix got rest i Hi) in Er. rewrite Er, serve_flush.
  destruct (write_all_ok deadline ns (response (route encoded method path)) c1) as (c' & -> & Hc');
    [by rewrite Htt|done|done|]. exists c'. split; [done|]. by rewrite Hc', Hs.
Qed.

Definition demo_request : bytes := str "GET /metrics?x HTTP/1.1" ++ crlf ++ str "Host: gw" ++ crlf2.

Lemma scrape_any_fragmentation_witness :
  exists c', serve_one_until (str "# EOF") 100 (Data <$> [take 7 demo_request; drop 7 demo_request])
      (Takes <$> [1; 2; 1000]) (conn_new (fun _ => 3)) = (Ok tt, c') /\
    c_sent c' = response (route (str "# EOF") (str "GET") (str "/metrics?x")).
Proof.
  pose proof (scrape_any_fragmentation (str "# EOF") 100 demo_request
    [take 7 demo_request; drop 7 demo_request] [1; 2; 1000] (fun _ => 3) 33%nat) as H.
  vm_compute (request_line demo_request) in H.
  apply H; [lia|by vm_compute|reflexivity|repeat constructor; discriminate|reflexivity|repeat constructor|by vm_compute].
Defined.

(** ** A client's view of the response *)

(** A minimal HTTP/1.1 client: lines up to the empty one, then a body of
    [Content-Length] bytes. *)
Definition take_line (bs : bytes) : option (bytes * bytes) :=
  k ← position crlf bs; Some (take k bs, drop (k + 2) bs).

Fixpoint take_head (fuel : nat) (bs : bytes) : option (list bytes * bytes) :=
  match fuel with
  | O => None
  | S fuel =>
      '(l, bs) ← take_line bs;
      if bool_decide (l = []) then Some ([], bs)
      else '(ls, bs) ← take_head fuel bs; Some (l :: ls, bs)
  end.

Definition strip_prefix (pat bs : bytes) : option bytes :=
  if starts_with pat bs then Some (drop (length pat) bs) else None.

Definition parse_decimal (bs : bytes) : option Z :=
  d ← NilZero.uint_of_string (string_of_list_byte bs); Some (Z.of_N (N.of_uint d)).

(** The first header line with a name, without it. *)
Fixpoint field (pat : bytes) (head : list bytes) : option bytes :=
  match head with
  | [] => None
  | l :: head => match strip_prefix pat l with Some v => Some v | None => field pat head end
  end.

Definition http_client (bs : bytes) : option (bytes * bytes * bytes) :=
  match take_head (S (length bs)) bs with
  | Some (l :: head, rest) =>
      match strip_prefix (str "HTTP/1.1 ") l, field (str "Content-Type: ") head,
            field (str "Content-Length: ") head ≫= parse_decimal with
      | Some status, Some ctype, Some len =>
          if bool_decide (len = zlen rest) then Some (status, ctype, rest) else None
      | _, _, _ => None
      end
  | _ => None
  end.

Definition no_cr (l : bytes) : Prop := Forall (fun b => b <> Byte.x0d) l.

Lemma take_line_app l rest : no_cr l -> take_line (l ++ crlf ++ rest) = Some (l, rest).
Proof.
  intros Hl. unfold take_line.
  assert (position crlf (l ++ crlf ++ rest) = Some (length l)) as ->.
  { induction Hl as [|b l Hb _ IH]; [by destruct rest|]. cbn [app position length].
    rewrite IH. cbn. rewrite bool_decide_false by done. done. }
  cbn. rewrite take_app_length. rewrite <- drop_drop, drop_app_length. done.
Qed.

Lemma take_head_cons fuel l rest :
  no_cr l -> l <> [] ->
  take_head (S fuel) (l ++ crlf ++ rest) = '(ls, bs) ← take_head fuel rest; Some (l :: ls, bs).
Proof. intros Hl Hne. cbn [take_head]. rewrite take_line_app by done. cbn. by rewrite bool_decide_false. Qed.

Lemma take_head_end fuel rest : take_head (S fuel) (crlf ++ rest) = Some ([], rest).
Proof. cbn [take_head]. change (crlf ++ rest) with ([] ++ crlf ++ rest). by rewrite take_line_app by constructor. Qed.

Lemma uint_no_cr d : no_cr (str (NilEmpty.string_of_uint d)).
Proof. induction d; cbn; constructor; done. Qed.

Lemma decimal_no_cr n : no_cr (decimal n).
Proof. unfold decimal, NilZero.string_of_uint. destruct (N.to_uint _) eqn:E; try apply uint_no_cr. by repeat constructor. Qed.

Lemma parse_decimal_decimal n : 0 <= n -> parse_decimal (decimal n) = Some n.
Proof.
  intros Hn. unfold parse_decimal, decimal, str. rewrite string_of_list_byte_of_string.
  rewrite NilZero.usu.
  - cbn. rewrite DecimalN.Unsigned.of_to. f_equal. lia.
  - destruct (Z.to_N n) as [|p]; [done|]. cbn. apply DecimalPos.Unsigned.to_uint_nonnil.
Qed.

Lemma strip_prefix_app pat l : strip_prefix pat (pat ++ l) = Some l.
Proof.
  unfold strip_prefix. rewrite drop_app_length.
  assert (starts_with pat (pat ++ l) = true) as ->; [|done].
  induction pat as [|p pat IH]; cbn; [done|]. by rewrite bool_decide_true.
Qed.

Lemma no_cr_app a b : no_cr a -> no_cr b -> no_cr (a ++ b).
Proof. intros. by apply Forall_app. Qed.

Lemma no_cr_dec l : forallb (fun b => negb (bool_decide (b = Byte.x0d))) l = true -> no_cr l.
Proof.
  rewrite forallb_forall. intros H. apply Forall_forall. intros b Hb%list_elem_of_In%H.
  by apply negb_true_iff, bool_decide_eq_false in Hb.
Qed.

Lemma route_no_cr encoded method path :
  let '(status, ctype, _) := route encoded method path in no_cr status /\ no_cr ctype.
Proof. unfold route. repeat case_match; simplify_eq; split; by apply no_cr_dec. Qed.

(** C29: an HTTP client reads back from the response exactly the status, the
    content type and the body that were routed, whatever bytes the body holds:
    the framing is sound and [Content-Length] is the body's length. *)
Theorem response_roundtrip encoded method path :
  http_client (response (route encoded method path)) = Some (route encoded method path).
Proof.
  pose proof (route_no_cr encoded method path) as Hcr.
  destruct (route encoded method path) as [[status ctype] body]. destruct Hcr as [Hs Ht].
  unfold http_client, response. set (bs := str "HTTP/1.1 " ++ _).
  assert (exists n, S (length bs) = S (S (S (S (S n))))) as [n ->].
  { exists (length bs - 4)%nat. subst bs. rewrite length_app. cbn. lia. }
  subst bs.
  assert (forall a b rest : bytes, a ++ b ++ crlf ++ rest = (a ++ b) ++ crlf ++ rest) as assoc.
  { intros. by rewrite app_assoc. }
  unfold crlf2. rewrite <- !(app_assoc crlf crlf).
  rewrite (assoc _ status), take_head_cons; [|by apply no_cr_app; [apply no_cr_dec|]|done].
  rewrite (assoc _ ctype), take_head_cons; [|by apply no_cr_app; [apply no_cr_dec|]|done].
  rewrite (assoc _ (decimal _)), take_head_cons;
    [|by apply no_cr_app; [apply no_cr_dec|apply decimal_no_cr]|done].
  rewrite take_head_cons; [|by apply no_cr_dec|done].
  rewrite take_head_end. cbn [mbind option_bind].
  rewrite strip_prefix_app. cbn [field]. rewrite strip_prefix_app.
  change (strip_prefix (str "Content-Length: ") (str "Content-Type: " ++ ctype)) with (@None bytes).
  rewrite strip_prefix_app. cbn [mbind option_bind].
  rewrite parse_decimal_decimal by apply zlen_nonneg. by rewrite bool_decide_true.
Qed.
