(* ===== verification/Serve.v ===== *)
(** * Serve: the exporter thread ([spawn_exporter] of [metrics.rs])

    The thread accepts connections one after the other and serves each to its
    end.  [Exporter] has one connection; here are the thread around it, the
    number of system calls a connection can cost, and how long it can keep the
    next one waiting. *)

From Stdlib Require Import String.
From S2P Require Import Prelude Text Paths Metrics Exporter.

(** ** Starting the thread *)

(** What the code asks of the system: a listener, its address, a thread. *)
Record Net := mkNet {
  Listener : Type;
  tcp_bind : bytes -> Result bytes Listener;
  local_addr : Listener -> Result bytes bytes;
  start_thread : Result bytes unit;
}.

Definition spawn_exporter (net : Net) (addr : bytes) : Result bytes bytes :=
  listener ← map_err (fun e => str "bind " ++ addr ++ str ": " ++ e) (tcp_bind net addr);
  local ← map_err (fun e => str "local_addr of " ++ addr ++ str ": " ++ e) (local_addr net listener);
  _ ← map_err (fun e => str "spawn metrics thread: " ++ e) (start_thread net);
  Ok local.

(** ** The accept loop *)

Definition ACCEPT_BACKOFF : Z := 100 * 1000000.

Section Loop.
Context {PC : PromClient}.

(** What [listener.incoming()] yields: a connection, with what its peer and the
    clock do and the metrics at the time it is answered, or an error. *)
Inductive Incoming :=
| Accepted (m : Metrics PC) (time : nat -> Z) (arrivals : list Arrival) (takings : list Taking)
| AcceptError.

Inductive Turn :=
| Served (r : Result IoKind unit) (c : Conn)
| Slept (d : Z).

(** The body of the loop; the result of [serve_one] is ignored. *)
Definition accept_turn (i : Incoming) : Turn :=
  match i with
  | AcceptError => Slept ACCEPT_BACKOFF
  | Accepted m time arrivals takings =>
      let '(r, c) := serve_one (encode m) arrivals takings (conn_new time) in Served r c
  end.

(** [incoming()] never ends, and neither does the loop: its turns so far. *)
Definition accept_loop (incoming : list Incoming) : list Turn := accept_turn <$> incoming.
End Loop.

(** ** A connection costs boundedly many system calls *)

Lemma read_loop_bounded deadline more : forall arrivals buf c,
  zlen buf <= BUF_LEN <= zlen buf + zlen arrivals ->
  read_loop deadline (arrivals ++ more) buf c = read_loop deadline arrivals buf c.
Proof.
  induction arrivals as [|x arrivals IH]; intros buf c Hn; cbn [app].
  - rewrite zlen_nil in Hn. destruct more as [|x more]; [done|]. cbn [read_loop].
    by rewrite (proj2 (Z.eqb_eq _ _)) by lia.
  - cbn [read_loop]. destruct (Z.eqb_spec (zlen buf) BUF_LEN) as [|Hne]; [done|].
    destruct (arm Reading deadline c) as [[u|e] c1]; [|done]. destruct x as [bs|e]; [|done].
    set (got := take _ bs). destruct (Z.eqb_spec (zlen got) 0) as [|Hgot]; [done|].
    destruct (position crlf2 (buf ++ got)); [done|]. apply IH. rewrite zlen_cons in Hn.
    pose proof (zlen_nonneg got). rewrite zlen_app.
    assert (zlen got <= BUF_LEN - zlen buf) by (unfold got, zlen in *; rewrite length_take; lia). lia.
Qed.

Lemma write_all_bounded deadline more : forall takings buf c,
  zlen buf <= zlen takings ->
  write_all_until deadline (takings ++ more) buf c = write_all_until deadline takings buf c.
Proof.
  induction takings as [|x takings IH]; intros buf c Hn; cbn [app].
  - destruct buf; [by destruct more|]. rewrite zlen_cons, zlen_nil in Hn. pose proof (zlen_nonneg buf). lia.
  - cbn [write_all_until]. destruct (bool_decide (buf = [])); [done|].
    destruct (arm Writing deadline c) as [[u|e] c1]; [|done]. destruct x as [n|e]; [|done].
    set (wr := Z.min _ _). destruct (Z.eqb_spec wr 0) as [|Hwr]; [done|]. apply IH.
    rewrite zlen_cons in Hn. unfold zlen in *. rewrite length_drop. lia.
Qed.

(** The first [n] elements of a stream. *)
Definition firsts {A} (f : nat -> A) (n : nat) : list A := f <$> seq 0 n.

Lemma zlen_firsts {A} (f : nat -> A) n : zlen (firsts f n) = Z.of_nat n.
Proof. unfold firsts, zlen. by rewrite length_fmap, length_seq. Qed.

(** C28: serving a connection terminates, whatever an endless peer does: after
    at most 4096 reads, and at most as many writes as the response has bytes,
    the outcome is settled and nothing the peer does later can change it. *)
Theorem scrape_terminates encoded deadline (peer : nat -> Arrival) (drain : nat -> Taking) c :
  let reads := 4096%nat in
  let writes :=
    match (read_loop deadline (firsts peer reads) [] c).1 with
    | Ok r => let '(method, path) := request_line r in length (response (route encoded method path))
    | Err _ => O
    end in
  forall more more',
    serve_one_until encoded deadline (firsts peer reads ++ more) (firsts drain writes ++ more') c =
    serve_one_until encoded deadline (firsts peer reads) (firsts drain writes) c.
Proof.
  cbv zeta. intros more more'. unfold serve_one_until.
  rewrite read_loop_bounded by (by rewrite zlen_firsts).
  destruct (read_loop deadline (firsts peer 4096) [] c) as [[r|e] c1]; [|done]. cbn [fst].
  destruct (request_line r) as [method path]. rewrite !serve_flush. apply write_all_bounded. by rewrite zlen_firsts.
Qed.

(** ** A connection takes boundedly long *)

(** How long the blocking calls made after [n] clock readings, and before the
    next one, may take together by the timeouts the socket had: [None], when one
    of them had no timeout, is no bound at all. *)
Fixpoint allowance (calls : list (nat * option Z)) (n : nat) : option Z :=
  match calls with
  | [] => Some 0
  | (m, to) :: calls =>
      rest ← allowance calls n;
      if bool_decide (m = n) then (fun d => d + rest) <$> to else Some rest
  end.

(** When reading [k] of a connection's clock was made; past the last, when the
    connection was over. *)
Definition moment (c : Conn) (fin : Z) (k : nat) : Z := if (k <? c_reads c)%nat then c_time c k else fin.

(** The clock of a connection served until [fin], [lat] bounding how late a
    thread is woken or scheduled and how long the code between two readings runs
    outside its blocking calls: it does not go back, and from one reading to
    the next passes no more time than the timeouts in force let the blocking
    calls between them take. *)
Definition paced (lat : Z) (c : Conn) (fin : Z) : Prop :=
  forall k, (k < c_reads c)%nat ->
    moment c fin k <= moment c fin (S k) /\
    (forall d, allowance (c_calls c) (S k) = Some d -> moment c fin (S k) <= moment c fin k + d + lat).

Lemma allowance_none calls n : ~ (n ∈ calls.*1) -> allowance calls n = Some 0.
Proof.
  induction calls as [|[m to] calls IH]; cbn; [done|]. intros H. apply not_elem_of_cons in H as [H1 H2].
  rewrite IH by done. cbn. by rewrite bool_decide_false.
Qed.

(** In budget, what is allowed after a reading ends at the deadline. *)
Lemma allowance_budget deadline time calls k :
  Forall (in_budget deadline time) calls -> NoDup calls.*1 ->
  exists d, allowance calls (S k) = Some d /\ time k + d <= Z.max (time k) deadline.
Proof.
  intros Hb Hn. induction calls as [|[m to] calls IH]; cbn in *; [exists 0; split; [done|lia]|].
  apply Forall_cons in Hb as [(k' & d & [= -> ->] & Hd & He) Hb']. apply NoDup_cons in Hn as [Hm Hn'].
  destruct (decide (S k' = S k)) as [[= ->]|Hne].
  - rewrite allowance_none by done. cbn. rewrite bool_decide_true by done. cbn. exists (d + 0). split; [done|lia].
  - destruct (IH Hb' Hn') as (d' & -> & H). cbn. rewrite bool_decide_false by done. eauto.
Qed.

Lemma serve_one_under encoded arrivals takings time r c' :
  serve_one encoded arrivals takings (conn_new time) = (r, c') ->
  under (time 0%nat + SCRAPE_IO_TIMEOUT) false (mkConn time 1 None None [] []) c'.
Proof.
  unfold serve_one, serve_one_until, instant_now. cbn [c_time c_reads c_rto c_wto c_calls c_sent conn_new].
  set (deadline := time 0%nat + SCRAPE_IO_TIMEOUT). intros H.
  destruct (read_loop deadline arrivals [] _) as [[request|e] c1] eqn:E; apply read_loop_under in E as [E _].
  - destruct (request_line request) as [method path]. rewrite serve_flush in H.
    apply write_all_under in H as [H _].
    eapply under_trans; [exact E|]. destruct r; [by apply under_weaken|done].
  - by injection H as <- <-.
Qed.

(** ** The queue moves *)

Section Queue.
Context {PC : PromClient} (lat : Z).

(** [turns t queue t']: a thread free at [t] works through a queue that is
    already waiting, and is free again at [t'].  Accepting, like waking up from a
    sleep, takes at most [lat]. *)
Inductive turns : Z -> list (Incoming (PC := PC)) -> Z -> Prop :=
| turns_nil t : turns t [] t
| turns_error t t1 d queue t2 :
    accept_turn (PC := PC) AcceptError = Slept d ->
    t + d <= t1 <= t + lat + d + lat -> turns t1 queue t2 -> turns t (AcceptError :: queue) t2
| turns_served t m time arrivals takings r c fin queue t2 :
    accept_turn (Accepted m time arrivals takings) = Served r c ->
    t <= time 0%nat <= t + lat -> paced lat c fin ->
    turns fin queue t2 -> turns t (Accepted m time arrivals takings :: queue) t2.

Definition is_error (i : Incoming (PC := PC)) : bool := match i with AcceptError => true | _ => false end.
Definition errors (queue : list Incoming) : Z := zlen (List.filter is_error queue).
Definition clients (queue : list Incoming) : Z := zlen (List.filter (fun i => negb (is_error i)) queue).

Lemma served_by t m time arrivals takings r c fin :
  0 <= lat -> accept_turn (PC := PC) (Accepted m time arrivals takings) = Served r c ->
  t <= time 0%nat <= t + lat -> paced lat c fin ->
  fin <= t + SCRAPE_IO_TIMEOUT + 3 * lat.
Proof.
  intros Hlat Ht H0 Hp. unfold accept_turn in Ht. destruct (serve_one _ _ _ _) as [r' c'] eqn:E. injection Ht as -> ->.
  apply serve_one_under in E as [Htime Hr Hk Hb]. cbn [c_time c_reads] in *.
  set (deadline := time 0%nat + SCRAPE_IO_TIMEOUT) in *.
  destruct (Hb (conn_new_budgeted _ _ _)) as [Hc _ Hd]. rewrite Htime in Hc.
  assert (forall k, (k < c_reads c)%nat -> moment c fin (S k) <= Z.max (time k) deadline + lat) as Hstep.
  { intros k Hlt. destruct (Hp k Hlt) as [_ Hs]. destruct (allowance_budget deadline time (c_calls c) k Hc Hd) as (d & Ea & Hle).
    specialize (Hs d Ea). unfold moment in Hs at 2. rewrite (proj2 (Nat.ltb_lt _ _) Hlt), Htime in Hs. lia. }
  destruct (c_reads c) as [|n] eqn:En; [lia|].
  assert (time n <= deadline + lat) as Hlast.
  { destruct n as [|n]; [unfold deadline, SCRAPE_IO_TIMEOUT; lia|].
    specialize (Hstep n ltac:(lia)). unfold moment in Hstep. rewrite En, (proj2 (Nat.ltb_lt _ _)), Htime in Hstep by lia.
    destruct n as [|n]; [unfold deadline, SCRAPE_IO_TIMEOUT in *; lia|]. specialize (Hk (S n) ltac:(lia) ltac:(right; lia)). lia. }
  specialize (Hstep n ltac:(lia)). unfold moment in Hstep. rewrite En, (proj2 (Nat.ltb_ge _ _)) in Hstep by lia. lia.
Qed.

(** C27: no client can wedge the exporter: whatever the waiting clients send,
    withhold or refuse to read, and however often accepting fails, the thread
    has dealt with all of them after five seconds per client and 100 ms per
    failed accept, give or take the scheduling delays, and is free to accept the
    next one.  Nothing is assumed of how long a read or a write blocks but that
    it respects the timeout set on its socket; one that had none could block for
    ever. *)
Theorem exporter_queue_moves t queue t' :
  0 <= lat -> turns t queue t' ->
  t' <= t + clients queue * (5 * 1000000000 + 3 * lat) + errors queue * (100 * 1000000 + 2 * lat).
Proof.
  intros Hlat H. unfold clients, errors.
  induction H as [t|t t1 d queue t2 [= <-] H1 _ IH|t m time arrivals takings r c fin queue t2 Ht H0 Hp _ IH];
    cbn [List.filter is_error negb]; rewrite ?zlen_cons.
  - unfold zlen. cbn. lia.
  - unfold ACCEPT_BACKOFF in *. lia.
  - pose proof (served_by _ _ _ _ _ _ _ _ Hlat Ht H0 Hp). unfold SCRAPE_IO_TIMEOUT in *. lia.
Qed.
End Queue.
