(* ===== verification/Logging.v ===== *)
(** * Logging: the stderr logger behind the [log] facade ([logging.rs])

    The [log] crate is a parameter: [LogCrate] has the process-wide cell for the
    logger, the maximum level and the parser of level names, [LogCrateLaws] what
    its documentation says of them.  Standard error is the bytes it took, with a
    script of which writes fail and after how many bytes. *)

From Stdlib Require Import String.
From S2P Require Import Prelude Text WasmHost Paths.

(** ** [log]'s levels *)

(** [log::LevelFilter]: nothing, or everything up to a level. *)
Inductive LevelFilter := Off | UpTo (l : LogLevel).

(** [Level as usize]: the lower, the more severe. *)
Definition verbosity (l : LogLevel) : Z :=
  match l with LError => 1 | LWarn => 2 | LInfo => 3 | LDebug => 4 | LTrace => 5 end.
Definition filter_verbosity (f : LevelFilter) : Z := match f with Off => 0 | UpTo l => verbosity l end.

(** [level <= filter]. *)
Definition passes (f : LevelFilter) (l : LogLevel) : bool := verbosity l <=? filter_verbosity f.

Definition LEVEL_NAMES : list (LevelFilter * bytes) :=
  [(Off, str "OFF"); (UpTo LError, str "ERROR"); (UpTo LWarn, str "WARN"); (UpTo LInfo, str "INFO");
   (UpTo LDebug, str "DEBUG"); (UpTo LTrace, str "TRACE")].

(** [eq_ignore_ascii_case] of [str]. *)
Definition ascii_lower (b : byte) : byte :=
  if in_bytes 65 90 b then byte_of_Z (byte_Z b + 32) else b.
Definition eq_ignore_ascii_case (a b : bytes) : bool :=
  bool_decide (ascii_lower <$> a = ascii_lower <$> b).

(** ** What the crate uses of [log] *)

(** A [&'static dyn Log]: ours, or one another library of the process installed. *)
Inductive Logger := StderrLogger | ForeignLogger.

#[export] Instance Logger_eq_dec : EqDecision Logger.
Proof. solve_decision. Defined.

Class LogCrate := {
  Facade : Type;
  installed : Facade -> option Logger;
  max_level : Facade -> LevelFilter;
  set_logger : Logger -> Facade -> Result unit unit * Facade;
  set_max_level : LevelFilter -> Facade -> Facade;
  (** [LevelFilter::from_str], [Display for Level] *)
  parse_filter : bytes -> option LevelFilter;
  level_display : LogLevel -> bytes;
  (** The logger that the [log!] macros hand a record of this level to. *)
  receiver : LogLevel -> Facade -> option Logger;
}.

(** Documented behaviour: the first [set_logger] of a process wins and later
    ones fail; a level name parses in any case; the macros drop records more
    verbose than the maximum level and send the rest to the installed logger. *)
Class LogCrateLaws (LC : LogCrate) : Prop := {
  set_logger_first l f : installed f = None ->
    exists f', set_logger l f = (Ok tt, f') /\ installed f' = Some l /\ max_level f' = max_level f;
  set_logger_again l f : installed f <> None -> set_logger l f = (Err tt, f);
  set_max_level_spec lf f :
    max_level (set_max_level lf f) = lf /\ installed (set_max_level lf f) = installed f;
  parse_filter_spec s lf :
    parse_filter s = Some lf <-> exists n, (lf, n) ∈ LEVEL_NAMES /\ eq_ignore_ascii_case s n = true;
  level_display_spec l : (UpTo l, level_display l) ∈ LEVEL_NAMES;
  receiver_spec l f : receiver l f = if passes (max_level f) l then installed f else None;
}.

(** ** Standard error *)

(** The bytes written so far, the number of calls, and for the n-th call the
    number of bytes after which it fails, if it does. *)
Record Stderr := mkStderr {
  se_bytes : bytes;
  se_calls : nat;
  se_fails : nat -> option nat;
}.

(** [stderr().write_all(bs)]. *)
Definition write_all (bs : bytes) (se : Stderr) : Result unit unit * Stderr :=
  match se_fails se (se_calls se) with
  | None => (Ok tt, mkStderr (se_bytes se ++ bs) (S (se_calls se)) (se_fails se))
  | Some n => (Err tt, mkStderr (se_bytes se ++ take n bs) (S (se_calls se)) (se_fails se))
  end.

(** ** The logger *)

Definition LOG_ENV : bytes := str "MCGW_LOG".

(** A [log::Record]. *)
Record LogRec := mkRec { r_level : LogLevel; r_target : bytes; r_args : bytes }.

Definition newline : byte := Byte.x0a.

Section Logger.
Context {LC : LogCrate}.

Definition logger_enabled (r : LogRec) : bool := true.

(** The line [StderrLogger::log] formats. *)
Definition log_line (r : LogRec) : bytes :=
  str "mcgw [" ++ level_display (r_level r) ++ str "] " ++ r_target r ++ str ": " ++ r_args r ++ [newline].

Definition logger_log (r : LogRec) (se : Stderr) : Stderr := (write_all (log_line r) se).2.

Definition logger_flush (se : Stderr) : Stderr := se.

(** [logging::init]. *)
Definition init (env : Env) (f : Facade) : Facade :=
  let level := default (UpTo LInfo) (env_var env LOG_ENV ≫= parse_filter) in
  match set_logger StderrLogger f with
  | (Ok _, f) => set_max_level level f
  | (Err _, f) => f
  end.

(** A call of [log!]: what it leaves on standard error; a foreign logger writes
    wherever it writes. *)
Definition log_call (f : Facade) (se : Stderr) (r : LogRec) : Stderr :=
  match receiver (r_level r) f with
  | Some StderrLogger => if logger_enabled r then logger_log r se else se
  | _ => se
  end.

Definition log_calls (f : Facade) (rs : list LogRec) (se : Stderr) : Stderr := foldl (log_call f) se rs.

(** ** What an operator sees *)

Context {LL : LogCrateLaws LC}.

Lemma ascii_lower_name lf lf' n n' :
  (lf, n) ∈ LEVEL_NAMES -> (lf', n') ∈ LEVEL_NAMES ->
  ascii_lower <$> n = ascii_lower <$> n' -> lf = lf'.
Proof.
  intros Hn Hn'. repeat (apply elem_of_cons in Hn as [[= -> ->]|Hn]); try by apply not_elem_of_nil in Hn.
  all: repeat (apply elem_of_cons in Hn' as [[= -> ->]|Hn']); try by apply not_elem_of_nil in Hn'.
  all: by vm_compute.
Qed.

Lemma init_fresh env f :
  installed f = None ->
  installed (init env f) = Some StderrLogger /\
  max_level (init env f) = default (UpTo LInfo) (env_var env LOG_ENV ≫= parse_filter).
Proof.
  intros Hf. unfold init. destruct (set_logger_first StderrLogger f Hf) as (f' & -> & Hi & _).
  destruct (set_max_level_spec (default (UpTo LInfo) (env_var env LOG_ENV ≫= parse_filter)) f') as [-> ->]. done.
Qed.

Lemma init_taken env f : installed f <> None -> init env f = f.
Proof. intros Hf. unfold init. by rewrite (set_logger_again _ _ Hf). Qed.

(** [named v lf]: [v] is the name of [lf], in any case. *)
Definition named (v : bytes) (lf : LevelFilter) : Prop :=
  exists n, (lf, n) ∈ LEVEL_NAMES /\ eq_ignore_ascii_case v n = true.

Lemma named_fun v lf lf' : named v lf -> named v lf' -> lf = lf'.
Proof.
  intros (n & Hn & E%bool_decide_eq_true) (n' & Hn' & E'%bool_decide_eq_true).
  eapply ascii_lower_name; [exact Hn|exact Hn'|congruence].
Qed.

(** The level an environment selects: the one [MCGW_LOG] names, and [info] when
    it is unset, not Unicode or names none. *)
Definition selects (env : Env) (lf : LevelFilter) : Prop :=
  (exists v, env_var env (str "MCGW_LOG") = Some v /\ named v lf) \/
  (lf = UpTo LInfo /\ forall v lf', env_var env (str "MCGW_LOG") = Some v -> ~ named v lf').

Lemma init_selects env f lf :
  installed f = None -> max_level (init env f) = lf <-> selects env lf.
Proof.
  intros Ei. destruct (init_fresh env f Ei) as [_ ->]. unfold selects. change LOG_ENV with (str "MCGW_LOG").
  destruct (env_var env (str "MCGW_LOG")) as [v|]; cbn.
  2:{ split; [intros <-; right; naive_solver|naive_solver]. }
  destruct (parse_filter v) as [lf0|] eqn:Ep; cbn.
  - apply parse_filter_spec in Ep. split; [intros <-; left; eauto|].
    intros [(? & [= <-] & H)|[-> H]]; [by eapply named_fun|by destruct (H v lf0)].
  - assert (forall lf', ~ named v lf') as Hno.
    { intros lf' H%parse_filter_spec. congruence. }
    split; [intros <-; right; naive_solver|]. intros [(? & [= <-] & H)|[-> _]]; [by destruct (Hno lf)|done].
Qed.

(** [MCGW_LOG] selects the level: in a process without a logger, [init]
    installs ours with exactly the level the variable names, in any case, and
    with [info] when it is unset, not Unicode or names no level; when another
    library installed its logger first, [init] changes nothing; and running it
    again never changes anything, whatever the environment says by then. *)
Theorem logging_init env env' f :
  match installed f with
  | Some _ => init env f = f
  | None =>
      installed (init env f) = Some StderrLogger /\ forall lf, max_level (init env f) = lf <-> selects env lf
  end /\
  init env' (init env f) = init env f.
Proof.
  destruct (installed f) as [l|] eqn:Ei.
  { assert (init env f = f) as -> by (apply init_taken; congruence).
    split; [done|]. apply init_taken. congruence. }
  destruct (init_fresh env f Ei) as [Hi _]. split; [|apply init_taken; congruence].
  split; [done|]. intros lf. by apply init_selects.
Qed.

(** ** The transcript *)

Lemma log_call_spec f se r :
  installed f = Some StderrLogger ->
  log_call f se r = if passes (max_level f) (r_level r) then logger_log r se else se.
Proof. intros Hi. unfold log_call. rewrite receiver_spec, Hi. by destruct (passes _ _). Qed.

Definition kept (lf : LevelFilter) (rs : list LogRec) : list LogRec :=
  filter (fun r => passes lf (r_level r) = true) rs.

(** What standard error takes of a line written by its [n]-th call. *)
Definition taken_of (se : Stderr) (n : nat) (line : bytes) : bytes :=
  match se_fails se n with None => line | Some k => take k line end.

Lemma log_calls_lines f rs : forall se,
  installed f = Some StderrLogger ->
  se_bytes (log_calls f rs se) =
    se_bytes se ++ concat (imap (fun i => taken_of se (se_calls se + i)) (log_line <$> kept (max_level f) rs)).
Proof.
  induction rs as [|r rs IH]; intros se Hi; [by rewrite app_nil_r|].
  change (log_calls f (r :: rs) se) with (log_calls f rs (log_call f se r)).
  rewrite log_call_spec by done. unfold kept. rewrite filter_cons.
  destruct (passes (max_level f) (r_level r)); [rewrite decide_True by done|rewrite decide_False by done; by apply IH].
  rewrite IH by done. cbn [fmap list_fmap imap concat]. fold (kept (max_level f) rs).
  assert (se_bytes (logger_log r se) = se_bytes se ++ taken_of se (se_calls se + 0) (log_line r) /\
    se_calls (logger_log r se) = S (se_calls se) /\ se_fails (logger_log r se) = se_fails se) as (-> & -> & Hf).
  { unfold logger_log, write_all, taken_of. rewrite Nat.add_0_r. by destruct (se_fails se (se_calls se)). }
  rewrite <- app_assoc. do 3 f_equal. apply imap_ext. intros i line _. unfold taken_of. cbn.
  by rewrite Hf, Nat.add_succ_r.
Qed.

Lemma split_on_line a rest :
  newline ∉ a -> split_on newline (a ++ [newline] ++ rest) = a :: split_on newline rest.
Proof.
  intros Ha. induction a as [|b a IH]; cbn; [done|]. apply not_elem_of_cons in Ha as [Hb Ha].
  rewrite bool_decide_false by done. cbn in IH. by rewrite IH.
Qed.

Lemma no_newline (s : bytes) : bool_decide (newline ∈ s) = false -> newline ∉ s.
Proof. exact (bool_decide_eq_false_1 _). Qed.

(** The line of a record, without its end: the level by its name, the target and
    the message. *)
Definition line_of (r : LogRec) (line : bytes) : Prop :=
  exists name, (UpTo (r_level r), name) ∈ LEVEL_NAMES /\
    line = str "mcgw [" ++ name ++ str "] " ++ r_target r ++ str ": " ++ r_args r.

Definition one_line (r : LogRec) : Prop := (newline ∉ r_target r) /\ (newline ∉ r_args r).

Lemma line_of_newline r line : line_of r line -> one_line r -> newline ∉ line.
Proof.
  intros (name & Hn & ->) [Ht Ha]. rewrite !elem_of_app.
  assert (newline ∉ name).
  { unfold LEVEL_NAMES in Hn. repeat (apply elem_of_cons in Hn as [[= _ ->]|Hn]); [..|by apply not_elem_of_nil in Hn];
      apply no_newline; by vm_compute. }
  assert (newline ∉ str "mcgw [") by (apply no_newline; by vm_compute).
  assert (newline ∉ str "] ") by (apply no_newline; by vm_compute).
  assert (newline ∉ str ": ") by (apply no_newline; by vm_compute). tauto.
Qed.

Lemma log_lines_of rs :
  exists lines, Forall2 line_of rs lines /\ (log_line <$> rs) = (fun l => l ++ [newline]) <$> lines.
Proof.
  induction rs as [|r rs (lines & Hl & IH)]; [by exists []|].
  exists ((str "mcgw [" ++ level_display (r_level r) ++ str "] " ++ r_target r ++ str ": " ++ r_args r) :: lines).
  split.
  - constructor; [|done]. exists (level_display (r_level r)). split; [apply level_display_spec|done].
  - cbn [fmap list_fmap]. rewrite IH. f_equal. unfold log_line. by rewrite <- !app_assoc.
Qed.

Lemma split_lines rs lines :
  Forall2 line_of rs lines -> Forall one_line rs ->
  split_on newline (concat ((fun l => l ++ [newline]) <$> lines)) = lines ++ [[]].
Proof.
  induction 1 as [|r line rs lines Hl _ IH]; intros Ho; [done|]. apply Forall_cons in Ho as [Hr Ho].
  cbn [fmap list_fmap concat]. rewrite <- app_assoc, split_on_line by (by eapply line_of_newline).
  cbn [app]. by rewrite IH.
Qed.

(** C32: the log stream of a process whose logger is ours: the records the
    gateway logs reach standard error in order, exactly those the level
    [MCGW_LOG] names lets through ([info] when it is unset, not Unicode or names
    none), each as one write of its own line [mcgw [LEVEL] target: message]; a
    write that fails loses the rest of its own line and nothing of any other;
    and as long as no write fails and no message contains a line break, reading
    the stream line by line gives back one line per record. *)
Theorem stderr_transcript env f rs se :
  installed f = None ->
  exists lf lines,
    selects env lf /\ Forall2 line_of (kept lf rs) lines /\
    let stream := concat (imap (fun i l => taken_of se (se_calls se + i) (l ++ [newline])) lines) in
    se_bytes (log_calls (init env f) rs se) = se_bytes se ++ stream /\
    ((forall n, se_fails se n = None) -> Forall one_line rs -> split_on newline stream = lines ++ [[]]).
Proof.
  intros Hf. pose proof (proj1 (init_fresh env f Hf)) as Hi. exists (max_level (init env f)).
  destruct (log_lines_of (kept (max_level (init env f)) rs)) as (lines & Hl & He). exists lines.
  split; [by apply (init_selects env f)|]. split; [done|]. cbv zeta.
  rewrite log_calls_lines, He, imap_fmap by done. split; [done|].
  intros Hh Ho. rewrite (imap_ext _ (const (fun l => l ++ [newline]))), imap_const
    by (intros i l _; unfold taken_of; by rewrite Hh).
  apply (split_lines (kept (max_level (init env f)) rs)); [done|].
  apply Forall_forall. unfold kept. intros r [_ Hr]%list_elem_of_filter. by eapply Forall_forall.
Qed.
End Logger.

(** ** A [log] crate *)

Definition ref_parse (s : bytes) : option LevelFilter :=
  fst <$> List.find (fun p => eq_ignore_ascii_case s p.2) LEVEL_NAMES.

Definition ref_log : LogCrate := {|
  Facade := option Logger * LevelFilter;
  installed := fst;
  max_level := snd;
  set_logger l f := match f.1 with None => (Ok tt, (Some l, f.2)) | Some _ => (Err tt, f) end;
  set_max_level lf f := (f.1, lf);
  parse_filter := ref_parse;
  level_display l := match l with
    | LError => str "ERROR" | LWarn => str "WARN" | LInfo => str "INFO" | LDebug => str "DEBUG" | LTrace => str "TRACE" end;
  receiver l f := if passes f.2 l then f.1 else None;
|}.

Lemma ref_parse_spec s lf :
  ref_parse s = Some lf <-> exists n, (lf, n) ∈ LEVEL_NAMES /\ eq_ignore_ascii_case s n = true.
Proof.
  unfold ref_parse. destruct (List.find (fun p => eq_ignore_ascii_case s p.2) LEVEL_NAMES) as [[lf' n']|] eqn:E; cbn.
  - apply List.find_some in E as [Hin' He']. cbn in He'. apply list_elem_of_In in Hin'. split.
    + intros [= <-]. eauto.
    + intros (n & Hin & He). f_equal. apply bool_decide_eq_true in He, He'.
      eapply (ascii_lower_name lf' lf n' n); [done|done|congruence].
  - split; [done|]. intros (n & Hin%list_elem_of_In & He). apply (List.find_none _ _ E) in Hin. cbn in Hin. congruence.
Qed.

#[export] Instance ref_log_laws : LogCrateLaws ref_log.
Proof.
  constructor; [..|intros; apply ref_parse_spec| |]; cbn.
  - intros l [o lf]. cbn. intros ->. eauto.
  - intros l [[o|] lf]; done.
  - done.
  - intros []; unfold LEVEL_NAMES; set_solver.
  - done.
Qed.

Definition quiet_env : Env := fun k => if bool_decide (k = LOG_ENV) then Some (str "Warn") else None.
Definition demo_recs : list LogRec :=
  [mkRec LInfo (str "mcgateway_native") (str "live reload armed"); mkRec LError (str "mcgateway_native") (str "udf rescan failed")].

Example demo_level : max_level (LogCrate := ref_log) (init (LC := ref_log) quiet_env (None, Off)) = UpTo LWarn.
Proof. reflexivity. Qed.

Lemma logging_init_witness :
  max_level (LogCrate := ref_log) (init (LC := ref_log) quiet_env (None, Off)) = UpTo LWarn /\
  init (LC := ref_log) (fun _ => None) (init (LC := ref_log) quiet_env (None, Off)) =
    init (LC := ref_log) quiet_env (None, Off).
Proof.
  destruct (logging_init (LC := ref_log) quiet_env (fun _ => None) (None, Off)) as [[_ H] H2].
  split; [|exact H2]. apply H. left. exists (str "Warn"). split; [reflexivity|].
  exists (str "WARN"). split; [unfold LEVEL_NAMES; set_solver|reflexivity].
Defined.

Lemma stderr_transcript_witness :
  exists lf lines, selects quiet_env lf /\
    Forall2 line_of (kept lf demo_recs) lines /\
    split_on newline (se_bytes (log_calls (LC := ref_log) (init (LC := ref_log) quiet_env (None, Off)) demo_recs
      (mkStderr [] 0 (fun _ => None)))) = lines ++ [[]].
Proof.
  destruct (stderr_transcript (LC := ref_log) quiet_env (None, Off) demo_recs (mkStderr [] 0 (fun _ => None)) eq_refl)
    as (lf & lines & H1 & H2 & H3 & H4). exists lf, lines. split; [exact H1|]. split; [exact H2|].
  rewrite H3. cbn [se_bytes app]. apply H4; [reflexivity|].
  repeat constructor; apply no_newline; reflexivity.
Defined.
