(* ===== verification/GuestLog.v ===== *)
(** * GuestLog: a guest's log line, from its macro to standard error

    The [log] module and the logging macros of the SDK
    ([mcgateway-sdk/src/lib.rs]), the [mcgw.log] import they call
    ([mcgateway-wasm-host/src/lib.rs]) and the stderr logger ([logging.rs]),
    composed. *)

From Stdlib Require Import String.
From S2P Require Import Prelude Text BTree Core WasmHost Sdk Boundary Examples RefEngine Paths Logging.

Module SdkLog.

Inductive Level := Trace | Debug | Info | Warn | Error.

(** [level as u32], the discriminants of [#[repr(u32)]]. *)
Definition level_u32 (l : Level) : Z :=
  match l with Trace => 0 | Debug => 1 | Info => 2 | Warn => 3 | Error => 4 end.

Section Guest.
Context {GH : Sdk.GuestHeap} {St : Type}.

(** The [mcgw.log] import, as a guest with this memory calls it. *)
Definition Import : Type := bytes -> Z -> Z -> Z -> St -> St.

(** [log::emit] on wasm32, for a [msg] at address [ptr]. *)
Definition emit (mcgw_log : Import) (level : Level) (ptr : Z) (msg : bytes) (g : Sdk.Heap) (st : St) : St :=
  mcgw_log (Sdk.g_mem g) (level_u32 level) (as_u32 ptr) (as_u32 (zlen msg)) st.

(** A [String] on the guest's heap: its pointer, dangling at the alignment while
    nothing is allocated, its capacity and its text. *)
Record Buf := mkBuf { b_ptr : Z; b_cap : Z; b_text : bytes }.

(** The amortised growth of a [Vec<u8>]. *)
Definition grown (cap need : Z) : Z := Z.max 8 (Z.max (2 * cap) need).

(** [String::with_capacity]; a failed allocation aborts the guest. *)
Definition with_capacity (cap : Z) (g : Sdk.Heap) : option (Buf * Sdk.Heap) :=
  if cap =? 0 then Some (mkBuf 1 0 [], g)
  else
    let '(ptr, g) := Sdk.g_alloc g (Sdk.mkLayout cap 1) in
    if ptr =? 0 then None else Some (mkBuf ptr cap [], g).

Definition drop_buf (b : Buf) (g : Sdk.Heap) : Sdk.Heap :=
  if b_cap b =? 0 then g else Sdk.g_dealloc g (b_ptr b) (Sdk.mkLayout (b_cap b) 1).

(** [push_str]: when the capacity does not suffice the text moves to a larger
    block and the old one is freed. *)
Definition push_str (piece : bytes) (b : Buf) (g : Sdk.Heap) : option (Buf * Sdk.Heap) :=
  let need := zlen (b_text b) + zlen piece in
  if bool_decide (piece = []) then Some (b, g)
  else if need <=? b_cap b then
    g ← Sdk.store g (b_ptr b + zlen (b_text b)) piece;
    Some (mkBuf (b_ptr b) (b_cap b) (b_text b ++ piece), g)
  else
    let cap := grown (b_cap b) need in
    if Sdk.ISIZE_MAX <? cap then None
    else
      let '(ptr, g) := Sdk.g_alloc g (Sdk.mkLayout cap 1) in
      if ptr =? 0 then None
      else
        g ← Sdk.store g (ptr + 0) (b_text b);
        let g := drop_buf b g in
        g ← Sdk.store g (ptr + zlen (b_text b)) piece;
        Some (mkBuf ptr cap (b_text b ++ piece), g).

Fixpoint push_all (pieces : list bytes) (b : Buf) (g : Sdk.Heap) : option (Buf * Sdk.Heap) :=
  match pieces with
  | [] => Some (b, g)
  | piece :: pieces => '(b, g) ← push_str piece b g; push_all pieces b g
  end.

(** [$crate::log::emit(level, &::alloc::format!(..))]: [format!] starts with the
    capacity it estimates from its arguments and appends the pieces they are
    written in; the [String] is dropped after the call. *)
Definition log_formatted (mcgw_log : Import) (level : Level) (estimate : Z) (pieces : list bytes) (g : Sdk.Heap) (st : St)
  : option (Sdk.Heap * St) :=
  '(b, g) ← with_capacity estimate g;
  '(b, g) ← push_all pieces b g;
  let st := emit mcgw_log level (b_ptr b) (b_text b) g st in
  Some (drop_buf b g, st).

(** The five macros. *)
Definition trace (i : Import) := log_formatted i Trace.
Definition debug (i : Import) := log_formatted i Debug.
Definition info (i : Import) := log_formatted i Info.
Definition warn (i : Import) := log_formatted i Warn.
Definition error (i : Import) := log_formatted i Error.
End Guest.
End SdkLog.

(** ** The host's side *)

(** The record the [mcgw.log] closure hands to the [log] facade. *)
Definition guest_record (l : LogLine) : LogRec :=
  mkRec (ll_level l) (str "mcgateway_wasm_host") (str "mcgw.log " ++ ll_module l ++ str ": " ++ ll_msg l).

(** [memory.read] of the caller's memory. *)
Definition mem_read (mem : bytes) : GuestRead := fun ptr len =>
  if ptr + len <=? zlen mem then Ok (slice mem ptr len) else Err MemoryAccessError.

Section Host.
Context {LC : LogCrate}.

(** The import as the linker wires it: the per-call store data and standard
    error, behind the facade. *)
Definition log_import (f : Facade) (mem : bytes) (level ptr len : Z) (st : MergeStoreData * Stderr)
  : MergeStoreData * Stderr :=
  match mcgw_log (Some (mem_read mem)) level ptr len st.1 with
  | (data, Some line) => (data, log_call f st.2 (guest_record line))
  | (data, None) => (data, st.2)
  end.
End Host.

(** ** Truncation *)

(** The first character of a text: what validation and decoding do with it, and
    that every proper prefix of it is ill-formed and decodes to one replacement
    character. *)
Record is_char (ch : bytes) : Prop := {
  char_len : (1 <= length ch <= 4)%nat;
  char_valid rest : utf8_valid (ch ++ rest) = utf8_valid rest;
  char_lossy rest : from_utf8_lossy (ch ++ rest) = ch ++ from_utf8_lossy rest;
  char_cut n : (0 < n < length ch)%nat ->
    utf8_valid (take n ch) = false /\ from_utf8_lossy (take n ch) = replacement;
}.

Lemma first_char m : utf8_valid m = true -> m <> [] ->
  exists ch rest, m = ch ++ rest /\ is_char ch /\ utf8_valid rest = true.
Proof.
  destruct m as [|b0 r0]; [done|]. cbn [utf8_valid]. destruct (is_ascii b0) eqn:E0; intros Hv _.
  { exists [b0], r0. split; [done|]. split; [|done]. constructor; cbn; rewrite ?E0; [lia|done|done|lia]. }
  destruct r0 as [|b1 r1]; [done|]. destruct (is_lead2 b0) eqn:E2.
  { apply andb_prop in Hv as [E1 Hv]. exists [b0; b1], r1. split; [done|]. split; [|done].
    constructor; cbn; rewrite ?E0, ?E2, ?E1; [lia|done|done|].
    intros n Hn. replace n with 1%nat by lia. cbn. by rewrite E0. }
  destruct r1 as [|b2 r2]; [done|]. destruct (is_pair3 b0 b1) eqn:E3.
  { apply andb_prop in Hv as [E1 Hv]. exists [b0; b1; b2], r2. split; [done|]. split; [|done].
    constructor; cbn; rewrite ?E0, ?E2, ?E3, ?E1; [lia|done|done|].
    intros n Hn. destruct n as [|[|[|n]]]; try lia; cbn; by rewrite ?E0, ?E2, ?E3. }
  destruct r2 as [|b3 r3]; [done|].
  apply andb_prop in Hv as [[[E4 E1]%andb_prop E5]%andb_prop Hv].
  exists [b0; b1; b2; b3], r3. split; [done|]. split; [|done].
  constructor; cbn; rewrite ?E0, ?E2, ?E3, ?E4, ?E1, ?E5; [lia|done|done|].
  intros n Hn. destruct n as [|[|[|[|n]]]]; try lia; cbn; by rewrite ?E0, ?E2, ?E3, ?E4, ?E1.
Qed.

(** Cutting a text at [n] bytes and decoding what is left keeps its whole
    characters, with one replacement character where the cut split one. *)
Lemma lossy_take m : utf8_valid m = true -> forall n, exists k,
  (k <= n /\ (n < k + 4 \/ length m = k))%nat /\ utf8_valid (take k m) = true /\
  (forall j, (k < j <= n /\ j <= length m)%nat -> utf8_valid (take j m) = false) /\
  from_utf8_lossy (take n m) = take k m ++ (if bool_decide (k < n /\ k < length m)%nat then replacement else []).
Proof.
  induction m as [m IH] using bytes_len_ind. intros Hv n.
  destruct (decide (m = [])) as [->|Hne].
  { exists O. rewrite !take_nil. split; [split; [lia|by right]|]. split; [done|]. split; [cbn; lia|].
    by rewrite bool_decide_false by (cbn; lia). }
  destruct (first_char m Hv Hne) as (ch & rest & -> & Hch & Hrest). pose proof (char_len _ Hch) as Hlen.
  destruct (decide (n < length ch)%nat) as [Hlt|Hge].
  - exists O. split; [lia|]. split; [done|].
    split; [intros j Hj; rewrite take_app_le by lia; apply (char_cut _ Hch); lia|]. rewrite take_app_le by lia.
    destruct n as [|n]; [by rewrite bool_decide_false by lia|].
    rewrite bool_decide_true by (rewrite length_app; lia). cbn [take app]. apply (char_cut _ Hch). lia.
  - destruct (IH rest ltac:(rewrite length_app; lia) Hrest (n - length ch)%nat) as (k & Hk & Hu & Hmax & He).
    exists (length ch + k)%nat. split; [rewrite length_app; lia|].
    rewrite !take_app_ge by lia. replace (length ch + k - length ch)%nat with k by lia.
    rewrite (char_valid _ Hch), (char_lossy _ Hch), He, app_assoc. split; [done|]. split.
    + intros j Hj. rewrite length_app in Hj. rewrite take_app_ge, (char_valid _ Hch) by lia. apply Hmax. lia.
    + f_equal. rewrite (bool_decide_ext (length ch + k < n /\ length ch + k < length (ch ++ rest))%nat
        (k < n - length ch /\ k < length rest)%nat); [done|]. rewrite length_app. lia.
Qed.

(** ** The whole way *)

(** The host's reading of a guest level. *)
Definition to_host_level (l : SdkLog.Level) : LogLevel :=
  match l with
  | SdkLog.Trace => LTrace | SdkLog.Debug => LDebug | SdkLog.Info => LInfo
  | SdkLog.Warn => LWarn | SdkLog.Error => LError
  end.

Lemma log_level_roundtrip l : log_level (SdkLog.level_u32 l) = to_host_level l.
Proof. by destruct l. Qed.

(** What the operator reads of a message: all of it up to 4096 bytes. *)
Definition shown (msg : bytes) : bytes := from_utf8_lossy (take (Z.to_nat LOG_MAX_BYTES) msg).

Lemma shown_short msg : utf8_valid msg = true -> zlen msg <= LOG_MAX_BYTES -> shown msg = msg.
Proof. intros Hv Hl. unfold shown. rewrite take_ge by (unfold zlen in Hl; lia). by apply from_utf8_lossy_id. Qed.

(** What a text that grows relies on besides the contract of [GlobalAlloc]:
    freeing a block does not leave less to allocate. *)
Class GuestFreeLaws {GH : Sdk.GuestHeap} (GL : Sdk.GuestHeapLaws GH) : Prop := {
  dealloc_room g p l : Sdk.g_ok g -> Sdk.g_live g !! p = Some l -> Sdk.g_room g <= Sdk.g_room (Sdk.g_dealloc g p l);
}.

Section Way.
Context {GH : Sdk.GuestHeap} {GL : Sdk.GuestHeapLaws GH} {LC : LogCrate}.

Lemma log_import_read f mem level ptr msg name budget se :
  0 <= ptr -> ptr + zlen msg <= zlen mem -> slice mem ptr (zlen msg) = msg -> 0 < budget ->
  log_import f mem level ptr (zlen msg) (mkStoreData name budget, se) =
    (mkStoreData name (budget - 1), log_call f se (guest_record (mkLogLine (log_level level) name (shown msg)))).
Proof.
  intros Hp Hr Hs Hb. unfold log_import, mcgw_log. cbn [fst snd]. pose proof (zlen_nonneg msg).
  unfold mem_read. rewrite (proj2 (Z.leb_le _ _)) by (unfold LOG_MAX_BYTES; lia).
  cbn [log_budget_remaining module_name]. rewrite (proj2 (Z.eqb_neq _ _)) by lia.
  assert (slice mem ptr (Z.min (zlen msg) LOG_MAX_BYTES) = take (Z.to_nat LOG_MAX_BYTES) msg) as ->; [|done].
  rewrite <- Hs at 2. unfold slice. rewrite take_take. f_equal. unfold LOG_MAX_BYTES in *. lia.
Qed.

(** ** The text on the guest's heap *)

(** A block survives work on another one. *)
Lemma blk_keep q g g' p l off hs :
  blk g p l off hs -> Sdk.g_ok g' -> Sdk.ext_but q g g' -> p <> q -> blk g' p l off hs.
Proof.
  intros (Hok & Hl & Hoff & Hhs) Hok' Hx Hne. destruct (Hx p l Hne Hl) as [Hl' E].
  split; [done|]. split; [done|]. split; [done|]. eapply Forall_impl; [exact Hhs|].
  intros [a bs] (Ha & Hb & Hs). cbn in *. split; [done|]. split; [done|]. cbn.
  destruct (Sdk.live_in_mem g p l Hok Hl). pose proof (zlen_nonneg bs).
  replace a with (p + (a - p)) at 1 by lia.
  rewrite <- (slice_slice _ p (Sdk.size l) (a - p) (zlen bs)), E, slice_slice by lia.
  by replace (p + (a - p)) with a by lia.
Qed.

(** Two adjacent pieces are one. *)
Lemma blk_merge g p l off hs a x y :
  blk g p l off ((a + zlen x, y) :: (a, x) :: hs) -> blk g p l off ((a, x ++ y) :: hs).
Proof.
  intros (Hok & Hl & Hoff & Hhs). apply Forall_cons in Hhs as [(Hy1 & Hy2 & Hy) Hhs].
  apply Forall_cons in Hhs as [(Hx1 & Hx2 & Hx) Hhs]. cbn in *.
  pose proof (zlen_nonneg x). pose proof (zlen_nonneg y). pose proof (Sdk.live_in_mem g p l Hok Hl).
  split; [done|]. split; [done|]. split; [done|]. constructor; [|done]. unfold piece_ok. cbn.
  rewrite zlen_app. split_and!; [done|lia|]. by rewrite slice_split, Hx, Hy by lia.
Qed.

(** The heap a growing text takes: every block it moves to. *)
Fixpoint growth (cap len : Z) (pieces : list bytes) : Z :=
  match pieces with
  | [] => 0
  | piece :: pieces =>
      let need := len + zlen piece in
      if bool_decide (piece = []) then growth cap len pieces
      else if need <=? cap then growth cap need pieces
      else SdkLog.grown cap need + 1 + growth (SdkLog.grown cap need) need pieces
  end.
Definition format_room (estimate : Z) (pieces : list bytes) : Z :=
  (if estimate =? 0 then 0 else estimate + 1) + growth estimate 0 pieces.

Lemma growth_nonneg pieces : forall cap len, 0 <= len -> 0 <= growth cap len pieces.
Proof.
  induction pieces as [|p ps IH]; intros cap len Hl; cbn; [lia|]. pose proof (zlen_nonneg p).
  destruct (bool_decide _); [by apply IH|]. destruct (_ <=? _); [apply IH; lia|].
  specialize (IH (SdkLog.grown cap (len + zlen p)) (len + zlen p)). unfold SdkLog.grown in *. lia.
Qed.

(** A [String] under construction in a heap that was [g0] when it was begun. *)
Definition buf_ok (g0 : Sdk.Heap) (b : SdkLog.Buf) (g : Sdk.Heap) : Prop :=
  Sdk.g_ok g /\ Sdk.ext g0 g /\ 0 <= SdkLog.b_cap b /\
  (if SdkLog.b_cap b =? 0 then SdkLog.b_ptr b = 1 /\ SdkLog.b_text b = [] /\ g = g0
   else Sdk.g_live g0 !! SdkLog.b_ptr b = None /\
        blk g (SdkLog.b_ptr b) (Sdk.mkLayout (SdkLog.b_cap b) 1) (zlen (SdkLog.b_text b)) [(SdkLog.b_ptr b, SdkLog.b_text b)]).

(** [String::drop]: what was live before the text was begun is as it was. *)
Lemma drop_buf_ok g0 b g : buf_ok g0 b g -> Sdk.g_ok (SdkLog.drop_buf b g) /\ Sdk.ext g0 (SdkLog.drop_buf b g).
Proof.
  intros (Hok & Hx & _ & Hb). unfold SdkLog.drop_buf. destruct (_ =? 0); [done|].
  destruct Hb as (Hf & _ & Hl & _). destruct (Sdk.dealloc_spec g _ _ Hok Hl) as (Hok' & _ & Hx').
  split; [done|]. by eapply ext_fresh.
Qed.

Context {FL : GuestFreeLaws GL}.

Lemma with_capacity_ok cap g :
  Sdk.g_ok g -> 0 <= cap -> (if cap =? 0 then 0 else cap + 1) <= Sdk.g_room g ->
  exists b g', SdkLog.with_capacity cap g = Some (b, g') /\ buf_ok g b g' /\
    SdkLog.b_cap b = cap /\ SdkLog.b_text b = [] /\
    Sdk.g_room g - (if cap =? 0 then 0 else cap + 1) <= Sdk.g_room g'.
Proof.
  intros Hok Hc Hr. unfold SdkLog.with_capacity. destruct (Z.eqb_spec cap 0) as [->|Hne].
  { exists (SdkLog.mkBuf 1 0 []), g. split; [done|]. split; [|split_and!; [done|done|lia]].
    split; [done|]. split; [apply ext_refl|]. done. }
  destruct (alloc_blk g (Sdk.mkLayout cap 1) Hok) as (p & g1 & Ha & Hp & Hfresh & Hx1 & Hblk & Hroom);
    [cbn; lia|done|done|].
  rewrite Ha, (proj2 (Z.eqb_neq p 0)) by lia. eexists _, g1. split; [done|].
  split; [|split_and!; [done|done|cbn in Hroom; lia]]. pose proof Hblk as (Hok1 & Hl1 & Hoff & _).
  split; [done|]. split; [done|]. split; [done|]. cbn. rewrite (proj2 (Z.eqb_neq cap 0)) by done.
  split; [done|]. split; [done|]. split; [done|]. split; [done|]. repeat constructor; cbn; lia.
Qed.

Lemma blk_append_text g p l t piece :
  blk g p l (zlen t) [(p, t)] -> zlen t + zlen piece <= Sdk.size l ->
  exists g', Sdk.store g (p + zlen t) piece = Some g' /\ blk g' p l (zlen (t ++ piece)) [(p, t ++ piece)] /\
    Sdk.ext_but p g g' /\ Sdk.g_room g' = Sdk.g_room g.
Proof.
  intros Hb Hl. destruct (store_blk g p l (zlen t) [(p, t)] piece Hb Hl) as (g' & Hs & Hb' & Hx & Hr).
  exists g'. split; [done|]. split; [|done]. rewrite zlen_app. by apply blk_merge.
Qed.

(** The text has moved to block [p]: freeing the one it left. *)
Lemma moved_ok g0 ptr cap t p cap' g g2 :
  buf_ok g0 (SdkLog.mkBuf ptr cap t) g -> Sdk.g_live g !! p = None -> Sdk.ext g g2 ->
  blk g2 p (Sdk.mkLayout cap' 1) (zlen t) [(p, t)] ->
  let g3 := SdkLog.drop_buf (SdkLog.mkBuf ptr cap t) g2 in
  Sdk.ext g0 g3 /\ blk g3 p (Sdk.mkLayout cap' 1) (zlen t) [(p, t)] /\ Sdk.g_room g2 <= Sdk.g_room g3.
Proof.
  intros (Hok & Hx & _ & Hb) Hp Hx2 Hblk. cbv zeta. pose proof (ext_trans _ _ _ Hx Hx2) as Hx02.
  unfold SdkLog.drop_buf. cbn [SdkLog.b_ptr SdkLog.b_cap SdkLog.b_text] in *.
  destruct (cap =? 0); [split_and!; [done|done|lia]|]. destruct Hb as (Hf & _ & Hl & _).
  destruct (Hx2 ptr _ I Hl) as [Hl2 _]. pose proof Hblk as (Hok2 & _).
  destruct (Sdk.dealloc_spec g2 _ _ Hok2 Hl2) as (Hok3 & _ & Hx3).
  split; [by eapply ext_fresh|]. split; [|by apply dealloc_room].
  eapply blk_keep; [done|done|exact Hx3|congruence].
Qed.

Lemma push_str_ok g0 piece b g :
  buf_ok g0 b g -> growth (SdkLog.b_cap b) (zlen (SdkLog.b_text b)) [piece] <= Sdk.g_room g ->
  exists b' g', SdkLog.push_str piece b g = Some (b', g') /\ buf_ok g0 b' g' /\
    SdkLog.b_text b' = SdkLog.b_text b ++ piece /\
    Sdk.g_room g - growth (SdkLog.b_cap b) (zlen (SdkLog.b_text b)) [piece] <= Sdk.g_room g' /\
    (forall more, growth (SdkLog.b_cap b) (zlen (SdkLog.b_text b)) (piece :: more) =
       growth (SdkLog.b_cap b) (zlen (SdkLog.b_text b)) [piece] + growth (SdkLog.b_cap b') (zlen (SdkLog.b_text b')) more).
Proof.
  intros Hbuf Hroom. pose proof Hbuf as (Hok & Hx & Hc & Hb). unfold SdkLog.push_str.
  destruct b as [ptr cap t]. cbn [SdkLog.b_ptr SdkLog.b_cap SdkLog.b_text growth] in *.
  destruct (bool_decide_reflect (piece = [])) as [->|Hne].
  { exists (SdkLog.mkBuf ptr cap t), g. cbn. rewrite app_nil_r. split_and!; [done|done|done|lia|done]. }
  assert (0 < zlen piece) as Hlen.
  { destruct piece; [done|]. rewrite zlen_cons. pose proof (zlen_nonneg piece). lia. }
  pose proof (zlen_nonneg t) as Ht.
  destruct (Z.leb_spec (zlen t + zlen piece) cap) as [Hfit|Hfull].
  - rewrite (proj2 (Z.eqb_neq cap 0)) in Hb by lia. destruct Hb as [Hf Hblk].
    destruct (blk_append_text g ptr _ t piece Hblk Hfit) as (g' & -> & Hblk' & Hx' & Hr'). cbn [mbind option_bind].
    eexists _, g'. split; [done|]. cbn [SdkLog.b_ptr SdkLog.b_cap SdkLog.b_text].
    split; [|split_and!; [done|lia|intros more; by rewrite zlen_app]].
    split; [apply Hblk'|]. split; [by eapply ext_fresh|]. cbn. split; [done|].
    by rewrite (proj2 (Z.eqb_neq cap 0)) by lia.
  - set (cap' := SdkLog.grown cap (zlen t + zlen piece)) in *.
    assert (zlen t + zlen piece <= cap' /\ 8 <= cap') as [Hneed H8] by (unfold cap', SdkLog.grown; lia).
    pose proof (Sdk.room_bounded g Hok). rewrite (proj2 (Z.ltb_ge _ _)) by lia.
    destruct (alloc_blk g (Sdk.mkLayout cap' 1) Hok) as (p & g1 & Ha & Hp & Hfresh & Hx1 & Hblk1 & Hroom1);
      [cbn; lia|done|cbn; lia|]. cbn in Hroom1.
    rewrite Ha, (proj2 (Z.eqb_neq p 0)) by lia.
    destruct (store_blk g1 p _ 0 [] t Hblk1) as (g2 & -> & Hblk2 & Hx2 & Hr2); [cbn; lia|].
    cbn [mbind option_bind]. rewrite Z.add_0_l in Hblk2. rewrite Z.add_0_r in Hblk2.
    assert (Sdk.g_live g0 !! p = None) as Hp0.
    { destruct (Sdk.g_live g0 !! p) as [k|] eqn:E; [|done]. destruct (Hx p k I E). congruence. }
    destruct (moved_ok g0 ptr cap t p cap' g g2) as (Hx3 & Hblk3 & Hr3); [done|done|by eapply ext_fresh|done|].
    destruct (blk_append_text _ p _ t piece Hblk3) as (g4 & -> & Hblk4 & Hx4 & Hr4); [done|].
    cbn [mbind option_bind]. eexists _, g4. split; [done|]. cbn [SdkLog.b_ptr SdkLog.b_cap SdkLog.b_text].
    split; [|split_and!; [done|lia|intros more; rewrite zlen_app; lia]].
    split; [apply Hblk4|]. split; [by eapply ext_fresh|]. cbn. split; [lia|].
    by rewrite (proj2 (Z.eqb_neq cap' 0)) by lia.
Qed.

Lemma push_all_ok g0 pieces : forall b g,
  buf_ok g0 b g -> growth (SdkLog.b_cap b) (zlen (SdkLog.b_text b)) pieces <= Sdk.g_room g ->
  exists b' g', SdkLog.push_all pieces b g = Some (b', g') /\ buf_ok g0 b' g' /\
    SdkLog.b_text b' = SdkLog.b_text b ++ concat pieces.
Proof.
  induction pieces as [|piece pieces IH]; intros b g Hb Hr.
  { exists b, g. by rewrite app_nil_r. }
  destruct (push_str_ok g0 piece b g Hb) as (b1 & g1 & E1 & Hb1 & Ht1 & Hr1 & Hg).
  { pose proof (growth_nonneg pieces). cbn [growth] in *. pose proof (zlen_nonneg (SdkLog.b_text b)).
    pose proof (zlen_nonneg piece).
    destruct (bool_decide _); [specialize (H (SdkLog.b_cap b) (zlen (SdkLog.b_text b))); lia|].
    destruct (_ <=? _); [specialize (H (SdkLog.b_cap b) (zlen (SdkLog.b_text b) + zlen piece)); lia|].
    specialize (H (SdkLog.grown (SdkLog.b_cap b) (zlen (SdkLog.b_text b) + zlen piece)) (zlen (SdkLog.b_text b) + zlen piece)). lia. }
  rewrite Hg in Hr. destruct (IH b1 g1 Hb1 ltac:(lia)) as (b2 & g2 & E2 & Hb2 & Ht2).
  exists b2, g2. cbn [SdkLog.push_all]. rewrite E1. cbn [mbind option_bind]. split; [done|]. split; [done|].
  by rewrite Ht2, Ht1, <- app_assoc.
Qed.

(** The host finds the text where the call says it is. *)
Lemma emit_read f level name budget se g0 b g :
  buf_ok g0 b g -> 1 <= zlen (Sdk.g_mem g0) -> 0 < budget ->
  SdkLog.emit (log_import f) level (SdkLog.b_ptr b) (SdkLog.b_text b) g (mkStoreData name budget, se) =
    (mkStoreData name (budget - 1),
     log_call f se (guest_record (mkLogLine (to_host_level level) name (shown (SdkLog.b_text b))))).
Proof.
  intros (Hok & _ & _ & Hb) Hmem Hbud. rewrite <- log_level_roundtrip. unfold SdkLog.emit.
  destruct (_ =? 0).
  { destruct Hb as (-> & -> & ->). change (as_u32 1) with 1. change (as_u32 (zlen (@nil byte))) with (zlen (@nil byte)).
    by rewrite log_import_read by (done || cbn; lia). }
  destruct Hb as (_ & _ & Hl & Hoff & Hp). apply Forall_cons in Hp as [(_ & _ & Hs) _]. cbn in Hs, Hoff.
  pose proof (Sdk.live_in_mem g _ _ Hok Hl) as [Hp Hin]. cbn in Hin.
  pose proof (Sdk.mem_size_ok g Hok) as Hcap. unfold MAX_GUEST_MEMORY_BYTES in Hcap.
  pose proof (zlen_nonneg (SdkLog.b_text b)).
  rewrite !as_u32_id by (unfold is_u32, U32_MAX; lia). by rewrite log_import_read by (done || lia).
Qed.

(** C31: a guest's log line reaches the operator: a logging macro of the SDK,
    called with budget left and heap for the [String] its text grows in, makes
    exactly one call of the logger, with the macro's level and the module's name,
    and leaves every live block of the guest as it was.  A text of up to 4096
    bytes arrives unchanged.  A longer one is cut at the last character boundary
    within its first 4096 bytes: its longest well-formed prefix of at most 4096
    bytes arrives, followed by one replacement character exactly when a
    character straddles the limit. *)
Theorem guest_log_line f level estimate pieces g name budget se :
  let msg := concat pieces in
  utf8_valid msg = true -> Sdk.g_ok g -> 1 <= zlen (Sdk.g_mem g) ->
  0 <= estimate -> format_room estimate pieces <= Sdk.g_room g -> 0 < budget ->
  exists g' text,
    SdkLog.log_formatted (log_import f) level estimate pieces g (mkStoreData name budget, se) =
      Some (g', (mkStoreData name (budget - 1),
        log_call f se (mkRec (to_host_level level) (str "mcgateway_wasm_host")
          (str "mcgw.log " ++ name ++ str ": " ++ text)))) /\
    Sdk.g_ok g' /\ Sdk.ext g g' /\
    (zlen msg <= 4096 -> text = msg) /\
    (4096 < zlen msg -> exists k, (k <= 4096)%nat /\ utf8_valid (take k msg) = true /\
      (forall j, (k < j <= 4096)%nat -> utf8_valid (take j msg) = false) /\
      text = take k msg ++ (if bool_decide (k = 4096%nat) then [] else replacement)).
Proof.
  cbv zeta. intros Hv Hok Hmem He Hroom Hb. unfold format_room in Hroom.
  pose proof (growth_nonneg pieces estimate 0 ltac:(lia)).
  destruct (with_capacity_ok estimate g Hok He ltac:(lia)) as (b & g1 & E1 & Hb1 & Hc1 & Ht1 & Hr1).
  destruct (push_all_ok g pieces b g1 Hb1) as (b2 & g2 & E2 & Hb2 & Ht2).
  { rewrite Hc1, Ht1. change (zlen (@nil byte)) with 0. lia. }
  rewrite Ht1 in Ht2. cbn in Ht2.
  exists (SdkLog.drop_buf b2 g2), (shown (concat pieces)). split; [|split; [|split]].
  - unfold SdkLog.log_formatted. rewrite E1. cbn [mbind option_bind]. rewrite E2. cbn [mbind option_bind].
    rewrite (emit_read f level name budget se g), Ht2; done.
  - by apply (drop_buf_ok g).
  - by apply (drop_buf_ok g).
  - split; [by apply shown_short|]. intros Hlong. unfold zlen in Hlong.
    destruct (lossy_take (concat pieces) Hv 4096) as (k & Hk & Hu & Hmax & E). exists k.
    split; [lia|]. split; [done|]. split; [intros j Hj; apply Hmax; lia|].
    unfold shown. change (Z.to_nat LOG_MAX_BYTES) with 4096%nat. rewrite E. f_equal.
    destruct (bool_decide_reflect (k = 4096%nat)); [by rewrite bool_decide_false by lia|by rewrite bool_decide_true by lia].
Qed.
End Way.

(** The [warn!] of the profile example, in a guest with 64 bytes of memory. *)
Definition demo_facade : @Facade ref_log := (Some StderrLogger, UpTo LInfo).

#[export] Instance bump_free_laws : GuestFreeLaws bump_laws.
Proof. constructor. intros g p l _ _. cbn. lia. Qed.

(** The text arrives in two pieces in a [String] that had to grow for the second. *)
Lemma guest_log_line_witness :
  exists g', SdkLog.warn (GH := bump_heap) (log_import (LC := ref_log) demo_facade) 9
      [str "dropping "; str "malformed profile"] (start_heap 64)
      (mkStoreData (str "profile") 16, mkStderr [] 0 (fun _ => None)) =
    Some (g', (mkStoreData (str "profile") 15,
      mkStderr (str "mcgw [WARN] mcgateway_wasm_host: mcgw.log profile: dropping malformed profile" ++ [newline]) 1 (fun _ => None))).
Proof.
  destruct (guest_log_line (GL := bump_laws) (LC := ref_log) demo_facade SdkLog.Warn 9
    [str "dropping "; str "malformed profile"] (start_heap 64) (str "profile") 16
    (mkStderr [] 0 (fun _ => None))) as (g' & text & E & _ & _ & Ht & _);
    [reflexivity|apply start_heap_ok; vm_compute; [lia|discriminate]|vm_compute; discriminate|lia|vm_compute; discriminate|lia|].
  rewrite Ht in E by (vm_compute; discriminate). exists g'. exact E.
Defined.
