(* ===== verification/Clib.v ===== *)
(** * Clib: the Lua C module ([mcgateway-clib/src/lib.rs])

    [mlua] is a parameter: the class [Mlua] has the table accesses and string
    creation the module performs.  Each exported Lua function is a definition
    from its arguments and the process state to a Lua result; [init_shared] and
    [rescan_into] build and refresh the registries they consult. *)

From Stdlib Require Import String.
From S2P Require Import Prelude Text BTree Core Builtins WasmHost TokenBucket Metrics Registries Paths UdfLoader Watcher Exporter Serve Logging.

Definition CONFIG_ENV : bytes := str "MCGATEWAY_CONFIG".
Definition METRICS_ADDR_ENV : bytes := str "MCGW_METRICS_ADDR".

(** ** Errors *)

(** The strings [init_shared] fails with, before they are formatted. *)
Inductive InitError :=
| UdfDirError (msg : bytes)
| WasmHostError (e : WError)
| ScanError (dir : bytes) (e : IoError)
| WatcherError (e : SpawnError).

Inductive LuaError :=
| MluaError (msg : bytes)
| InvalidStatus (s : bytes)
| NameNotUtf8
| UnknownMerge (name : bytes)
| WinnerOverflow
| InitFailed (e : InitError).

Inductive LuaValue := LInteger (i : Z) | LString (bs : bytes) | LNil.

(** ** What the module uses of [mlua] *)
Class Mlua := {
  LuaTable : Type;
  raw_len : LuaTable -> Z;
  (** [entries.get::<LuaTable>(i)] *)
  get_table : LuaTable -> Z -> Result LuaError LuaTable;
  (** [e.get::<LuaString>(k)], [e.get::<Option<LuaString>>(k)], [e.get::<Option<i64>>(k)] *)
  get_string : LuaTable -> bytes -> Result LuaError bytes;
  get_opt_string : LuaTable -> bytes -> Result LuaError (option bytes);
  get_opt_i64 : LuaTable -> bytes -> Result LuaError (option Z);
  (** [lua.create_string] *)
  create_string : bytes -> Result LuaError bytes;
}.

(** ** Labels *)
Definition status_label (s : Status) : bytes :=
  match s with Hit => str "hit" | Miss => str "miss" | Error => str "error" end.

Definition op_label (s : bytes) : bytes :=
  if bool_decide (s = str "read") then str "read"
  else if bool_decide (s = str "write") then str "write"
  else str "other".

Definition outcome_label (s : bytes) : bytes :=
  if bool_decide (s = str "hit") then str "hit"
  else if bool_decide (s = str "miss") then str "miss"
  else if bool_decide (s = str "error") then str "error"
  else if bool_decide (s = str "stored") then str "stored"
  else if bool_decide (s = str "negative") then str "negative"
  else str "other".

Definition parse_status (s : bytes) : Result LuaError Status :=
  if bool_decide (s = str "hit") then Ok Hit
  else if bool_decide (s = str "miss") then Ok Miss
  else if bool_decide (s = str "error") then Ok Error
  else Err (InvalidStatus (from_utf8_lossy s)).

Record OwnedEntry := mkOwned {
  o_key : bytes;
  o_pool : bytes;
  o_status : Status;
  o_t : option Z;
  o_value : option bytes;
  o_line : option bytes;
  o_elapsed : option Z;
}.

Definition as_views (owned : list OwnedEntry) : list Entry :=
  (fun o => mkEntry (o_key o) (o_pool o) (o_status o) (o_t o) (o_value o) (o_line o)) <$> owned.

Definition no_winner (owned : list OwnedEntry) : bytes :=
  if List.existsb (fun e => bool_decide (o_status e = Miss)) owned then str "miss" else str "error".

Definition read_outcome (result : MergeResult) (owned : list OwnedEntry) : bytes :=
  match result with
  | Synthesized _ => str "hit"
  | Winner i =>
      match o_status <$> owned !! Z.to_nat i with
      | Some status => status_label status
      | None => no_winner owned
      end
  | MissResult => no_winner owned
  end.

Definition name_str (name : bytes) : Result LuaError bytes := ok_or (from_utf8 name) NameNotUtf8.

Section Module.
Context {ML : Mlua} {WT : Wasmtime} {PC : PromClient} {LC : LogCrate}.

(** ** Projecting the Lua entry list *)
Definition project_one (entries : LuaTable) (i : Z) : Result LuaError OwnedEntry :=
  e ← get_table entries i;
  key ← get_string e (str "key");
  pool ← get_string e (str "pool");
  status ← get_string e (str "status");
  t ← get_opt_i64 e (str "t");
  value ← get_opt_string e (str "value");
  line ← get_opt_string e (str "line");
  elapsed ← get_opt_i64 e (str "elapsed");
  pool ← ok_or (from_utf8 pool) (MluaError (str "invalid utf-8"));
  status ← parse_status status;
  Ok (mkOwned key pool status t value line elapsed).

Fixpoint project_loop (entries : LuaTable) (is_ : list Z) (out : list OwnedEntry)
  : Result LuaError (list OwnedEntry) :=
  match is_ with
  | [] => Ok out
  | i :: is_ => o ← project_one entries i; project_loop entries is_ (out ++ [o])
  end.

Definition project (entries : LuaTable) : Result LuaError (list OwnedEntry) :=
  project_loop entries (seqZ 1 (raw_len entries)) [].

(** ** Recording a read *)
Definition observe_backends (owned : list OwnedEntry) (m : Metrics PC) : Metrics PC :=
  foldl (fun m e => observe_backend (o_pool e) (status_label (o_status e))
                      (micros_to_seconds <$> o_elapsed e) m) m owned.

(** [start.map(|s| nanos_to_seconds(now_nanos().saturating_sub(s).max(0)))] *)
Definition since (start : option Z) (w : World PC) : option f64 * World PC :=
  match start with
  | Some s =>
      let '(now, w) := now_nanos w in
      (Some (nanos_to_seconds (Z.max (i64_saturating_sub now s) 0)), w)
  | None => (None, w)
  end.

(** [opts.get(k).ok().flatten()] *)
Definition opt_field {A} (r : Result LuaError (option A)) : option A :=
  match r with Ok o => o | Err _ => None end.

Definition observe_read_dispatch (merge_name : bytes) (merge_seconds : f64) (owned : list OwnedEntry)
  (result : MergeResult) (opts : option LuaTable) (w : World PC) : World PC :=
  let w := with_metrics (observe_merge_duration merge_name merge_seconds) w in
  let w := with_metrics (observe_backends owned) w in
  match opts with
  | None => w
  | Some opts =>
      let prefix := opt_field (get_opt_string opts (str "prefix")) in
      let start := opt_field (get_opt_i64 opts (str "start")) in
      match prefix with
      | None => w
      | Some prefix =>
          let '(duration, w) := since start w in
          with_metrics
            (observe_request (from_utf8_lossy prefix) (str "read") (read_outcome result owned) duration) w
      end
  end.

(** ** The exported functions *)
Definition lua_merge (registries : Registries (World PC)) (name : bytes) (entries : LuaTable)
  (opts : option LuaTable) (w : World PC) : Result LuaError LuaValue * World PC :=
  match name_str name with
  | Err e => (Err e, w)
  | Ok name =>
      match project entries with
      | Err e => (Err e, w)
      | Ok owned =>
          let view := as_views owned in
          let '(merge_started, w) := Instant_now w in
          match reg_apply registries name view w with
          | (None, w) => (Err (UnknownMerge name), w)
          | (Some result, w) =>
              let '(now, w) := Instant_now w in
              let w := observe_read_dispatch name (as_secs_f64 (Z.max 0 (now - merge_started)))
                         owned result opts w in
              (match result with
               | Winner i => j ← ok_or (try_i64 (i + 1)) WinnerOverflow; Ok (LInteger j)
               | Synthesized bs => s ← create_string bs; Ok (LString s)
               | MissResult => Ok LNil
               end, w)
          end
      end
  end.

Definition lua_now (w : World PC) : Result LuaError LuaValue * World PC :=
  let '(now, w) := now_nanos w in (Ok (LInteger now), w).

Definition lua_observe (prefix op outcome : bytes) (start : option Z) (w : World PC) : World PC :=
  let '(duration, w) := since start w in
  with_metrics
    (observe_request (from_utf8_lossy prefix) (op_label (from_utf8_lossy op))
       (outcome_label (from_utf8_lossy outcome)) duration) w.

Definition reload_label (s : bytes) : bytes :=
  if bool_decide (s = str "ok") then str "ok"
  else if bool_decide (s = str "fallback") then str "fallback"
  else str "other".

Definition lua_observe_reload (result : bytes) (pools keyspaces : Z) (w : World PC) : World PC :=
  with_metrics (config_reload (reload_label (from_utf8_lossy result)) pools keyspaces) w.

Definition lua_has_merge (registries : Registries (World PC)) (name : bytes) : bool :=
  reg_has registries (default [] (from_utf8 name)).

Definition lua_required_flags (registries : Registries (World PC)) (name : bytes) : Result LuaError bytes :=
  name ← name_str name;
  ok_or (reg_required_flags registries name) (UnknownMerge name).

(** The table [names()] builds: slot [i + 1] holds the [i]-th name. *)
Definition lua_names (registries : Registries (World PC)) : list (Z * bytes) :=
  imap (fun i n => (Z.of_nat i + 1, n)) (reg_names registries).

(** ** Registries: building and refreshing *)

(** The callback [rescan_into] passes to the scan. *)
Definition on_problem (path : bytes) (problem : UdfProblem) (msg : ProblemMsg) (w : World PC) : World PC :=
  emit (UdfSkipped path (problem_as_str problem) msg)
    (with_metrics (udf_module_failure (problem_as_str problem)) w).

Definition rescan_into (fs : Fs) (host : WasmHost) (registries : Registries (World PC)) (dir : bytes)
  (w : World PC) : Result (bytes * IoError) (Registries (World PC)) * World PC :=
  match scan_dir on_problem fs host registries dir w with
  | (Err e, w) => (Err (dir, e), with_metrics (udf_rescan (str "error")) w)
  | (Ok table, w) =>
      let w := with_metrics (set_registry_merges (str "wasm") (zlen table)) w in
      let w := with_metrics (udf_rescan (str "ok")) w in
      (Ok (swap_wasm registries table), w)
  end.

(** The closures handed to the watcher: a rescan that fails keeps the previous
    table; a reload request is counted and logged, and then the process sends
    itself the signal. *)
Definition rescan_closure (fs : Fs) (dir_host : option (bytes * WasmHost))
  (registries : Registries (World PC)) (w : World PC) : Registries (World PC) * World PC :=
  match dir_host with
  | Some (dir, host) =>
      match rescan_into fs host registries dir w with
      | (Ok registries, w) => (registries, w)
      | (Err (d, e), w) => (registries, emit (RescanFailed d e) w)
      end
  | None => (registries, w)
  end.

Definition reload_closure (trigger : ReloadTrigger) (w : World PC) : World PC :=
  let w := with_metrics (reload_signal (trigger_as_str trigger)) w in
  let w := emit (ReloadRequested (trigger_as_str trigger)) w in
  kill_self SIGHUP w.

(** What [init_shared] leaves running: the registries every Lua state shares and
    the watcher, when one is armed, with the directory its rescans read. *)
Record Shared := mkShared {
  sh_registries : Registries (World PC);
  sh_rescans : option (bytes * WasmHost);
  sh_watcher : option Armed;
}.

(** The steps of [init_shared]: arm the exposition, make the host when there is a
    directory, scan it. *)
Definition start_exporter (env : Env) (net : Net) (w : World PC) : World PC :=
  match env_var env METRICS_ADDR_ENV with
  | Some addr =>
      match spawn_exporter net addr with
      | Ok bound => emit (ExporterListening bound) w
      | Err e => emit (ExporterDisabled e) w
      end
  | None => w
  end.

Definition host_for (dir : option bytes) : Result InitError (option (bytes * WasmHost)) :=
  match dir with
  | Some dir => host ← map_err WasmHostError WasmHost_new; Ok (Some (dir, host))
  | None => Ok None
  end.

Definition first_scan (fs : Fs) (dir_host : option (bytes * WasmHost)) (registries : Registries (World PC))
  (w : World PC) : Result InitError (Registries (World PC)) * World PC :=
  match dir_host with
  | Some (dir, host) =>
      let '(r, w) := rescan_into fs host registries dir w in
      (map_err (fun de => ScanError de.1 de.2) r, w)
  | None => (Ok registries, w)
  end.

(** [init_shared] after the logger is installed. *)
Definition init_registries (env : Env) (fs : Fs) (nt : Notify) (net : Net)
  (w : World PC) : Result InitError Shared * World PC :=
  let w := start_exporter env net w in
  let builtins := register Registry.new in
  let w := with_metrics (set_registry_merges (str "builtin") (zlen (Registry.names builtins))) w in
  let registries := Registries_new builtins in
  match udf_dir env fs with
  | Err e => (Err (UdfDirError e), w)
  | Ok dir =>
      match host_for dir with
      | Err e => (Err e, w)
      | Ok dir_host =>
          match first_scan fs dir_host registries w with
          | (Err e, w) => (Err e, w)
          | (Ok registries, w) =>
              match env_var env CONFIG_ENV with
              | None => (Ok (mkShared registries dir_host None), w)
              | Some config_path =>
                  match spawn fs nt (Plan_new config_path dir) with
                  | Err e => (Err (WatcherError e), w)
                  | Ok armed =>
                      (Ok (mkShared registries dir_host (Some armed)), emit (ReloadArmed config_path) w)
                  end
              end
          end
      end
  end.

Definition init_shared (env : Env) (fs : Fs) (nt : Notify) (net : Net) (f : Facade) (w : World PC)
  : Result InitError Shared * Facade * World PC :=
  let f := Logging.init env f in
  let '(r, w) := init_registries env fs nt net w in
  (r, f, w).

(** [build_registries]: the [OnceLock] caches success and failure alike. *)
Definition build_registries (env : Env) (fs : Fs) (nt : Notify) (net : Net)
  (cell : option (Result InitError Shared)) (f : Facade) (w : World PC)
  : Result LuaError Shared * option (Result InitError Shared) * Facade * World PC :=
  let '(r, f, w) := match cell with Some r => (r, f, w) | None => init_shared env fs nt net f w end in
  (map_err InitFailed r, Some r, f, w).

End Module.
Arguments Shared {WT} PC.
