(* ===== verification/Lua.v ===== *)
(** * Lua: the part of Lua 5.4 and of [mlua] the Lua sources rely on

    Values, tables with array part and named fields, the length operator, the
    string library functions of [src/lua/mcgateway], and how a table built in Lua
    reads from the Rust side.  Errors raised by Lua code are values. *)

From Stdlib Require Import String.
From S2P Require Import Prelude Text BTree Core Builtins WasmHost TokenBucket Metrics Registries Paths UdfLoader Watcher Exporter Serve Logging Clib.

(** ** Values *)

(** A table is its array part, in which an absent slot before a present one is
    [VNil], and its named fields.  Functions, userdata and threads are opaque. *)
Inductive Val :=
| VNil
| VBool (b : bool)
| VInt (z : Z)
| VFloat (f : f64)
| VStr (s : bytes)
| VTab (arr : list Val) (fields : list (bytes * Val))
| VOpaque.

Definition opt_str (o : option bytes) : Val := match o with Some s => VStr s | None => VNil end.
Definition opt_int (o : option Z) : Val := match o with Some z => VInt z | None => VNil end.

Definition is_nil (v : Val) : bool := match v with VNil => true | _ => false end.

(** [t[k]] on the named fields: the first binding, [nil] when there is none. *)
Fixpoint lookup_field (k : bytes) (fields : list (bytes * Val)) : Val :=
  match fields with
  | [] => VNil
  | (k', v) :: fields => if bool_decide (k' = k) then v else lookup_field k fields
  end.

(** [ipairs(t)]: the slots before the first [nil]. *)
Fixpoint ipairs (arr : list Val) : list Val :=
  match arr with
  | [] => []
  | v :: arr => if is_nil v then [] else v :: ipairs arr
  end.

(** The length operator returns some border of the table: slot [n] is present
    (or [n] is 0) and slot [n + 1] is not.  Which one, when the table has holes,
    is the implementation's choice. *)
Definition slot (arr : list Val) (i : Z) : Val :=
  if i <=? 0 then VNil else default VNil (arr !! Z.to_nat (i - 1)).
Definition is_border (arr : list Val) (n : Z) : Prop :=
  0 <= n /\ (n = 0 \/ is_nil (slot arr n) = false) /\ is_nil (slot arr (n + 1)) = true.

Class LuaLen := {
  border : list Val -> Z;
  border_is_border arr : is_border arr (border arr);
}.

(** A sequence, in the manual's sense: no holes. *)
Definition sequence (arr : list Val) : Prop := Forall (fun v => is_nil v = false) arr.

Lemma ipairs_sequence arr : sequence arr -> ipairs arr = arr.
Proof. induction 1 as [|v arr Hv _ IH]; cbn; [done|]. by rewrite Hv, IH. Qed.

Lemma ipairs_no_nil arr : Forall (fun v => is_nil v = false) (ipairs arr).
Proof. induction arr as [|v arr IH]; cbn; [constructor|]. destruct (is_nil v) eqn:E; by constructor. Qed.

Lemma slot_present arr i : is_nil (slot arr i) = false -> 1 <= i <= zlen arr.
Proof.
  unfold slot, zlen. destruct (Z.leb_spec i 0); [done|].
  destruct (arr !! Z.to_nat (i - 1)) eqn:E; [|done]. apply lookup_lt_Some in E. lia.
Qed.

Lemma slot_sequence arr i : sequence arr -> 1 <= i <= zlen arr -> is_nil (slot arr i) = false.
Proof.
  unfold slot, zlen. intros Hs Hi. destruct (Z.leb_spec i 0); [lia|].
  destruct (lookup_lt_is_Some_2 arr (Z.to_nat (i - 1)) ltac:(lia)) as [v Hv]. rewrite Hv. cbn.
  by eapply Forall_lookup_1 in Hs.
Qed.

(** On a sequence the length is the number of elements. *)
Lemma border_sequence {LL : LuaLen} arr : sequence arr -> border arr = zlen arr.
Proof.
  intros Hs. destruct (border_is_border arr) as (H0 & Hp & Ha). pose proof (zlen_nonneg arr).
  assert (border arr <= zlen arr). { destruct Hp as [->|Hp]; [lia|]. apply slot_present in Hp. lia. }
  destruct (Z.lt_ge_cases (border arr) (zlen arr)); [|lia].
  rewrite slot_sequence in Ha; [done|done|lia].
Qed.

(** One lawful length, which the reference implementation answers for a
    constructor whose last slot is present: the last present slot. *)
Fixpoint last_present (arr : list Val) : Z :=
  match arr with
  | [] => 0
  | v :: arr =>
      let n := last_present arr in
      if n =? 0 then (if is_nil v then 0 else 1) else n + 1
  end.

Lemma last_present_nonneg arr : 0 <= last_present arr.
Proof. induction arr as [|v arr IH]; cbn; [lia|]. repeat case_match; lia. Qed.

Lemma slot_cons v arr i : 1 < i -> slot (v :: arr) i = slot arr (i - 1).
Proof.
  intros. unfold slot. destruct (Z.leb_spec i 0), (Z.leb_spec (i - 1) 0); try lia.
  replace (Z.to_nat (i - 1)) with (S (Z.to_nat (i - 1 - 1))) by lia. done.
Qed.

Lemma slot_nil i : slot [] i = VNil.
Proof. unfold slot. by destruct (i <=? 0). Qed.

Lemma last_present_border arr : is_border arr (last_present arr).
Proof.
  induction arr as [|v arr (H0 & Hp & Ha)]; cbn [last_present].
  - split; [lia|]. split; [by left|]. by rewrite slot_nil.
  - destruct (Z.eqb_spec (last_present arr) 0) as [E|E].
    + rewrite E in *. destruct (is_nil v) eqn:Ev.
      * split; [lia|]. split; [by left|]. done.
      * split; [lia|]. split; [by right|]. by rewrite slot_cons.
    + destruct Hp as [Hp|Hp]; [lia|]. split; [lia|].
      rewrite !slot_cons by lia. replace (last_present arr + 1 - 1) with (last_present arr) by lia.
      replace (last_present arr + 1 + 1 - 1) with (last_present arr + 1) by lia. split; [by right|done].
Qed.

Definition puc_len : LuaLen := {| border := last_present; border_is_border := last_present_border |}.

(** ** The string library *)

(** [s:sub(i, j)]. *)
Definition lua_sub (s : bytes) (i j : Z) : bytes :=
  let n := zlen s in
  let i := if i <? 0 then Z.max (n + i + 1) 1 else if i =? 0 then 1 else i in
  let j := if j <? 0 then n + j + 1 else Z.min j n in
  if i <=? j then take (Z.to_nat (j - i + 1)) (drop (Z.to_nat (i - 1)) s) else [].

(** The classes [%s] (of the C locale) and [%d]. *)
Definition is_space (b : byte) : bool := in_bytes 9 13 b || in_bytes 32 32 b.
Definition is_digit (b : byte) : bool := in_bytes 48 57 b.

(** [s:gmatch("%S+")]: the maximal runs of non-space bytes.  [cur] is the run
    being read, reversed. *)
Fixpoint words_from (cur : bytes) (s : bytes) : list bytes :=
  match s with
  | [] => if bool_decide (cur = []) then [] else [rev cur]
  | b :: s =>
      if is_space b then (if bool_decide (cur = []) then [] else [rev cur]) ++ words_from [] s
      else words_from (b :: cur) s
  end.
Definition words (s : bytes) : list bytes := words_from [] s.

Definition minus : byte := Byte.x2d.
Definition colon : byte := Byte.x3a.
Definition hash_sign : byte := Byte.x23.

(** [tonumber(v)] on a string of the pattern [%-?%d+]: an integer when it fits 64
    bits, a float otherwise. *)
Definition digits_value (ds : bytes) : Z := foldl (fun acc b => acc * 10 + (byte_Z b - 48)) 0 ds.
Definition tonumber (v : bytes) : Val :=
  let z := match v with
           | b :: ds => if bool_decide (b = minus) then - digits_value ds else digits_value v
           | [] => 0
           end in
  if (I64_MIN <=? z) && (z <=? I64_MAX) then VInt z else VFloat (f64_of_Z z).

(** [s:find(c, 1, true)] for a single byte. *)
Definition has_byte (c : byte) (s : bytes) : bool := bool_decide (c ∈ s).

Lemma words_from_word cur w s :
  Forall (fun b => is_space b = false) w -> words_from cur (w ++ s) = words_from (rev w ++ cur) s.
Proof.
  intros Hw. revert cur. induction Hw as [|b w Hb _ IH]; intros cur; [done|].
  cbn [app words_from rev]. rewrite Hb, IH. f_equal. by rewrite <- app_assoc.
Qed.

(** A word, then a space or the end. *)
Lemma words_cons w b s :
  Forall (fun b => is_space b = false) w -> w <> [] -> is_space b = true ->
  words (w ++ b :: s) = w :: words s.
Proof.
  intros Hw Hne Hb. unfold words. rewrite words_from_word by done. cbn [words_from]. rewrite Hb, app_nil_r.
  rewrite bool_decide_false; [by rewrite rev_involutive|]. intros E. apply Hne. by rewrite <- (rev_involutive w), E.
Qed.

Lemma words_last w : Forall (fun b => is_space b = false) w -> w <> [] -> words w = [w].
Proof.
  intros Hw Hne. unfold words. rewrite <- (app_nil_r w) at 1. rewrite words_from_word by done. cbn. rewrite app_nil_r.
  rewrite bool_decide_false; [by rewrite rev_involutive|]. intros E. apply Hne. by rewrite <- (rev_involutive w), E.
Qed.

(** ** Tables built in Lua, read through [mlua] *)

(** What a table constructor gives the Rust side: [new_record] for
    [{ k = v, ... }], [new_seq] for a list of tables. *)
Class MluaBuild (ML : Mlua) := {
  new_record : list (bytes * Val) -> LuaTable;
  new_seq : list LuaTable -> LuaTable;
  len_seq ts : raw_len (new_seq ts) = zlen ts;
  get_seq ts i tb : 1 <= i -> ts !! Z.to_nat (i - 1) = Some tb -> get_table (new_seq ts) i = Ok tb;
  get_string_str fs k s : lookup_field k fs = VStr s -> get_string (new_record fs) k = Ok s;
  get_opt_string_str fs k s : lookup_field k fs = VStr s -> get_opt_string (new_record fs) k = Ok (Some s);
  get_opt_string_nil fs k : lookup_field k fs = VNil -> get_opt_string (new_record fs) k = Ok None;
  get_opt_i64_int fs k z : lookup_field k fs = VInt z -> is_i64 z -> get_opt_i64 (new_record fs) k = Ok (Some z);
  get_opt_i64_nil fs k : lookup_field k fs = VNil -> get_opt_i64 (new_record fs) k = Ok None;
}.
