(* ===== verification/Entries.v ===== *)
(** * Entries: from responses to merge entries ([src/lua/mcgateway/entries.lua])

    [mcp.response] is memcached's: [Res] is what the methods of one response
    answer.  [make] and [build] are the module's functions; the theorems say what
    of a response survives the way to the Rust side. *)

From Stdlib Require Import String DecimalString DecimalN.
From S2P Require Import Prelude Text BTree Core Builtins WasmHost TokenBucket Metrics Registries Paths UdfLoader Watcher Exporter Serve Logging Clib Lua.

(** What [res:ok()], [res:hit()], [res:code()], [res:line()], [res:vlen()],
    [res:raw_string()] answer; [res_elapsed] is [None] when the object has no
    [elapsed] method. *)
Record Res := mkRes {
  res_ok : bool;
  res_hit : bool;
  res_code : Z;
  res_line : option bytes;
  res_vlen : option Z;
  res_raw : option bytes;
  res_elapsed : option Z;
}.

#[export] Instance Res_eq_dec : EqDecision Res.
Proof. solve_decision. Defined.

(** ** The module *)

Definition classify_res (res : option Res) : Status :=
  match res with
  | None => Error
  | Some res => if negb (res_ok res) then Error else if res_hit res then Hit else Miss
  end.

(** [tok:match("^t(%-?%d+)$")]: the capture. *)
Definition match_t (tok : bytes) : option bytes :=
  match tok with
  | b :: v =>
      if bool_decide (b = Byte.x74) then
        let ds := match v with d :: ds => if bool_decide (d = minus) then ds else v | [] => [] end in
        if negb (bool_decide (ds = [])) && forallb is_digit ds then Some v else None
      else None
  | [] => None
  end.

Fixpoint first_t (toks : list bytes) : Val :=
  match toks with
  | [] => VNil
  | tok :: toks => match match_t tok with Some v => tonumber v | None => first_t toks end
  end.

Definition parse_t (line : option bytes) : Val :=
  match line with None => VNil | Some line => first_t (words line) end.

(** The value: the last [vlen] bytes before the trailing CRLF. *)
Definition value_of (res : Res) : option bytes :=
  match res_vlen res with
  | Some vlen =>
      if vlen >? 0 then
        match res_raw res with
        | Some raw => if zlen raw >=? vlen + 2 then Some (lua_sub raw (zlen raw - vlen - 1) (zlen raw - 2)) else None
        | None => None
        end
      else None
  | None => None
  end.

Record LuaEntry := mkLuaEntry {
  le_key : bytes;
  le_pool : bytes;
  le_status : Status;
  le_res : option Res;
  le_t : Val;
  le_value : option bytes;
  le_line : option bytes;
  le_elapsed : option Z;
}.

Definition make (key pool_name : bytes) (res : option Res) : LuaEntry :=
  let status := classify_res res in
  let elapsed := res ≫= res_elapsed in
  let '(t, value, line) :=
    match status, res with
    | Hit, Some res => (parse_t (res_line res), value_of res, res_line res)
    | _, _ => (VNil, None, None)
    end in
  mkLuaEntry key pool_name status res t value line elapsed.

(** [results[j]] is [None] past the end, as a table lookup. *)
Definition build (key : bytes) (pool_names : list bytes) (results : list (option Res)) : list LuaEntry :=
  imap (fun j p => make key p (mjoin (results !! j))) pool_names.

(** ** The table the Rust side reads *)

(** The strings [classify] returns. *)
Definition status_str (s : Status) : bytes :=
  match s with Hit => str "hit" | Miss => str "miss" | Error => str "error" end.

(** The constructor at the end of [make]. *)
Definition entry_fields (e : LuaEntry) : list (bytes * Val) :=
  [ (str "key", VStr (le_key e)); (str "pool", VStr (le_pool e)); (str "status", VStr (status_str (le_status e)));
    (str "res", match le_res e with Some _ => VOpaque | None => VNil end);
    (str "t", le_t e); (str "value", opt_str (le_value e)); (str "line", opt_str (le_line e));
    (str "elapsed", opt_int (le_elapsed e)) ].

(** The entry [project] makes of one, for a [t] that is an integer. *)
Definition owned_of (e : LuaEntry) : OwnedEntry :=
  mkOwned (le_key e) (le_pool e) (le_status e) (match le_t e with VInt z => Some z | _ => None end)
    (le_value e) (le_line e) (le_elapsed e).

(** What [project] needs of an entry: the pool is text, [t] is a 64-bit integer
    or absent, and so is [elapsed]. *)
Record projectable (e : LuaEntry) : Prop := {
  pj_pool : utf8_valid (le_pool e) = true;
  pj_t : match le_t e with VNil => True | VInt z => is_i64 z | _ => False end;
  pj_elapsed : forall z, le_elapsed e = Some z -> is_i64 z;
}.

Section Project.
Context {ML : Mlua} {MB : MluaBuild ML}.

Definition entry_table (e : LuaEntry) : LuaTable := new_record (entry_fields e).

Lemma project_one_entry ts i e :
  projectable e -> 1 <= i -> ts !! Z.to_nat (i - 1) = Some (entry_table e) ->
  project_one (new_seq ts) i = Ok (owned_of e).
Proof.
  intros [Hp Ht He] Hi Hl. unfold project_one, entry_table in *. rewrite (get_seq _ _ _ Hi Hl). cbn [mbind result_bind].
  rewrite (get_string_str (entry_fields e) (str "key") (le_key e)) by reflexivity.
  rewrite (get_string_str (entry_fields e) (str "pool") (le_pool e)) by reflexivity.
  rewrite (get_string_str (entry_fields e) (str "status") (status_str (le_status e))) by reflexivity.
  cbn [mbind result_bind].
  assert (get_opt_i64 (new_record (entry_fields e)) (str "t") =
    Ok (match le_t e with VInt z => Some z | _ => None end)) as ->.
  { destruct (le_t e) eqn:E; try done; [by apply get_opt_i64_nil|by apply get_opt_i64_int]. }
  assert (forall k o, lookup_field k (entry_fields e) = opt_str o ->
    get_opt_string (new_record (entry_fields e)) k = Ok o) as Hs.
  { intros k [s|]; [apply get_opt_string_str|apply get_opt_string_nil]. }
  cbn [mbind result_bind]. rewrite (Hs (str "value") (le_value e)), (Hs (str "line") (le_line e)) by reflexivity. cbn [mbind result_bind].
  assert (get_opt_i64 (new_record (entry_fields e)) (str "elapsed") = Ok (le_elapsed e)) as ->.
  { destruct (le_elapsed e) as [z|] eqn:E;
      [apply get_opt_i64_int; [cbn; by rewrite E|by apply He]|apply get_opt_i64_nil; cbn; by rewrite E]. }
  cbn [mbind result_bind]. rewrite from_utf8_valid by done. cbn [ok_or mbind result_bind].
  by destruct e as [? ? [] ? ? ? ? ?].
Qed.

Lemma project_loop_entries ts : forall es n out,
  Forall projectable es -> (forall j e, es !! j = Some e -> ts !! (n + j)%nat = Some (entry_table e)) ->
  project_loop (new_seq ts) (seqZ (1 + Z.of_nat n) (zlen es)) out = Ok (out ++ (owned_of <$> es)).
Proof.
  induction es as [|e es IH]; intros n out Hp Hl; [by rewrite app_nil_r|].
  inversion Hp as [|? ? He Hes]; subst. rewrite zlen_cons, seqZ_cons by (pose proof (zlen_nonneg es); lia).
  cbn [project_loop]. rewrite (project_one_entry ts _ e); [|done|lia|].
  2:{ replace (Z.to_nat (1 + Z.of_nat n - 1)) with (n + 0)%nat by lia. by apply Hl. }
  cbn [mbind result_bind]. replace (Z.pred (zlen es + 1)) with (zlen es) by lia.
  replace (Z.succ (1 + Z.of_nat n)) with (1 + Z.of_nat (S n)) by lia. rewrite IH; [|done|].
  - cbn [fmap list_fmap]. by rewrite <- app_assoc.
  - intros j e' Hj. replace (S n + j)%nat with (n + S j)%nat by lia. by apply Hl.
Qed.

(** Rust reads back the list Lua built, entry for entry. *)
Lemma project_entries es :
  Forall projectable es -> project (new_seq (entry_table <$> es)) = Ok (owned_of <$> es).
Proof.
  intros Hp. unfold project. rewrite len_seq, zlen_fmap.
  apply (project_loop_entries _ es 0 [] Hp). intros j e Hj. cbn. by rewrite list_lookup_fmap, Hj.
Qed.
End Project.

(** ** Decimal numbers *)

Definition print_int (z : Z) : bytes := if z <? 0 then minus :: decimal (- z) else decimal z.

Lemma str_String c s : str (String c s) = Ascii.byte_of_ascii c :: str s.
Proof. done. Qed.

Lemma digits_acc d : forall acc,
  foldl (fun acc b => acc * 10 + (byte_Z b - 48)) (Z.pos acc) (str (NilEmpty.string_of_uint d)) =
  Z.pos (Pos.of_uint_acc d acc).
Proof.
  induction d as [|d IH|d IH|d IH|d IH|d IH|d IH|d IH|d IH|d IH|d IH]; intros acc; [done| ..];
    cbn [NilEmpty.string_of_uint Pos.of_uint_acc]; rewrite <- IH, str_String; cbn [foldl]; f_equal;
    match goal with |- context [byte_Z ?b] =>
      let v := eval vm_compute in (byte_Z b) in change (byte_Z b) with v end; lia.
Qed.

Lemma digits_uint d : digits_value (str (NilEmpty.string_of_uint d)) = Z.of_N (N.of_uint d).
Proof.
  unfold digits_value. induction d as [|d IH|d _|d _|d _|d _|d _|d _|d _|d _|d _]; [done|exact IH| ..];
    cbn [NilEmpty.string_of_uint]; rewrite str_String; cbn [foldl]; apply digits_acc.
Qed.

Lemma uint_digits d : forallb is_digit (str (NilEmpty.string_of_uint d)) = true.
Proof. induction d; cbn; done. Qed.

Lemma decimal_uint n : exists d, decimal n = str (NilEmpty.string_of_uint d) /\ N.of_uint d = Z.to_N n /\ d <> Decimal.Nil.
Proof.
  unfold decimal, NilZero.string_of_uint.
  pose proof (DecimalN.Unsigned.of_to (Z.to_N n)) as Ho.
  destruct (N.to_uint (Z.to_N n)) eqn:E; [by exists (Decimal.D0 Decimal.Nil)|eexists; split_and!; [done|done|done]..].
Qed.

Lemma decimal_digits n : forallb is_digit (decimal n) = true /\ decimal n <> [].
Proof.
  destruct (decimal_uint n) as (d & -> & _ & Hd). split; [apply uint_digits|]. by destruct d.
Qed.

Lemma digits_value_decimal n : 0 <= n -> digits_value (decimal n) = n.
Proof. intros. destruct (decimal_uint n) as (d & -> & Hd & _). rewrite digits_uint, Hd. lia. Qed.

Lemma decimal_head n : exists b ds, decimal n = b :: ds /\ is_digit b = true.
Proof.
  destruct (decimal_digits n) as [Hd Hn]. destruct (decimal n) as [|b ds]; [done|].
  cbn in Hd. apply andb_prop in Hd as [? _]. eauto.
Qed.

Lemma digit_not_minus b : is_digit b = true -> b <> minus.
Proof. by intros H ->. Qed.

Lemma digit_not_space b : is_digit b = true -> is_space b = false.
Proof. destruct b; done. Qed.

Lemma tonumber_print z : is_i64 z -> tonumber (print_int z) = VInt z.
Proof.
  intros [Hlo Hhi]. unfold tonumber, print_int. destruct (Z.ltb_spec z 0).
  - rewrite bool_decide_true by done. rewrite digits_value_decimal by lia. rewrite Z.opp_involutive.
    by rewrite (proj2 (Z.leb_le _ _) Hlo), (proj2 (Z.leb_le _ _) Hhi).
  - destruct (decimal_head z) as (b & ds & E & Hb). rewrite E, bool_decide_false by (by apply digit_not_minus).
    rewrite <- E, digits_value_decimal by lia.
    by rewrite (proj2 (Z.leb_le _ _) Hlo), (proj2 (Z.leb_le _ _) Hhi).
Qed.

Lemma match_t_print z : match_t (Byte.x74 :: print_int z) = Some (print_int z).
Proof.
  cbn [match_t]. rewrite bool_decide_true by done. cbv zeta. unfold print_int. destruct (z <? 0).
  - rewrite (bool_decide_true (minus = minus)) by done. destruct (decimal_digits (- z)) as [Hd Hn].
    by rewrite bool_decide_false, Hd.
  - destruct (decimal_head z) as (b & ds & E & Hb).
    rewrite E, (bool_decide_false (b = minus)) by (by apply digit_not_minus).
    destruct (decimal_digits z) as [Hd _]. rewrite E in Hd. by rewrite Hd.
Qed.

(** ** What survives of a response *)

(** A flag as it appears on a response line: one non-empty word. *)
Definition flag_token (f : bytes) : Prop := Forall (fun b => is_space b = false) f /\ f <> [].
(** Not the [t] flag. *)
Definition other_flag (f : bytes) : Prop := flag_token f /\ head f <> Some Byte.x74.

Definition t_flag (ttl : option Z) : list bytes :=
  match ttl with Some z => [Byte.x74 :: print_int z] | None => [] end.

(** The tail of the header of a meta hit, after [VA]: the length and the flags. *)
Definition va_line (vlen : Z) (flags : list bytes) : bytes := decimal vlen ++ concat ((fun f => space :: f) <$> flags).

(** The response object of a meta hit carrying [value]: the header line without
    its code, the length of the value, the buffer as received. *)
Definition va_response (flags : list bytes) (value : bytes) (elapsed : option Z) : Res :=
  let line := va_line (zlen value) flags in
  mkRes true true 0 (Some line) (Some (zlen value)) (Some (str "VA " ++ line ++ crlf ++ value ++ crlf)) elapsed.

Lemma print_int_no_space z : Forall (fun b => is_space b = false) (print_int z).
Proof.
  assert (forall n, Forall (fun b => is_space b = false) (decimal n)) as Hd.
  { intros n. destruct (decimal_digits n) as [H _]. rewrite forallb_forall in H. apply Forall_forall.
    intros b Hb%list_elem_of_In%H. by apply digit_not_space. }
  unfold print_int. destruct (z <? 0); [constructor; [done|]|]; apply Hd.
Qed.

Lemma flag_token_t z : flag_token (Byte.x74 :: print_int z).
Proof. split; [constructor; [done|apply print_int_no_space]|done]. Qed.

Lemma words_va vlen flags :
  0 <= vlen -> Forall flag_token flags -> words (va_line vlen flags) = decimal vlen :: flags.
Proof.
  intros Hv Hf. unfold va_line.
  assert (flag_token (decimal vlen)) as Hw.
  { destruct (decimal_digits vlen) as [_ Hne]. split; [|done].
    pose proof (print_int_no_space vlen) as H. unfold print_int in H. by rewrite (proj2 (Z.ltb_ge _ _) Hv) in H. }
  revert Hw. generalize (decimal vlen) as w. induction Hf as [|f flags Hf _ IH]; intros w [Hw Hne]; cbn.
  - rewrite app_nil_r. by apply words_last.
  - rewrite words_cons by done. f_equal. by apply IH.
Qed.

Lemma match_t_other f : head f <> Some Byte.x74 -> match_t f = None.
Proof. destruct f as [|b f]; [done|]. cbn. intros H. rewrite bool_decide_false; [done|]. congruence. Qed.

Lemma first_t_app pre toks : Forall (fun f => head f <> Some Byte.x74) pre -> first_t (pre ++ toks) = first_t toks.
Proof. induction 1 as [|f pre Hf _ IH]; [done|]. cbn. by rewrite match_t_other, IH. Qed.

Lemma parse_t_va vlen pre ttl post :
  0 <= vlen -> Forall other_flag pre -> Forall other_flag post -> (forall z, ttl = Some z -> is_i64 z) ->
  parse_t (Some (va_line vlen (pre ++ t_flag ttl ++ post))) = opt_int ttl.
Proof.
  intros Hv Hpre Hpost Ht. cbn [parse_t].
  assert (Forall flag_token (t_flag ttl)) by (destruct ttl; [constructor; [apply flag_token_t|]|]; constructor).
  rewrite words_va; [|done|].
  2:{ rewrite !Forall_app. split_and!; [|done|]; eapply Forall_impl; [done|by intros ? [] |done|by intros ? []]. }
  assert (forall fs, Forall other_flag fs -> Forall (fun f => head f <> Some Byte.x74) fs) as Hh.
  { intros fs Hfs. eapply Forall_impl; [exact Hfs|]. by intros ? []. }
  change (decimal vlen :: pre ++ t_flag ttl ++ post) with ([decimal vlen] ++ pre ++ t_flag ttl ++ post).
  rewrite first_t_app. 2:{ destruct (decimal_head vlen) as (b & ds & -> & Hb). repeat constructor. intros [= ->]. done. }
  rewrite first_t_app by auto. destruct ttl as [z|]; cbn [t_flag app first_t opt_int].
  - rewrite match_t_print, tonumber_print; [done|by apply Ht].
  - rewrite <- (app_nil_r post), first_t_app by auto. done.
Qed.

Lemma lua_sub_tail pre s post :
  s <> [] -> let raw := pre ++ s ++ post in
  lua_sub raw (zlen raw - zlen s - zlen post + 1) (zlen raw - zlen post) = s.
Proof.
  intros Hs raw. unfold lua_sub. subst raw. rewrite !zlen_app.
  assert (0 < zlen s) by (destruct s; [done|]; rewrite zlen_cons; pose proof (zlen_nonneg s); lia).
  pose proof (zlen_nonneg pre). pose proof (zlen_nonneg post).
  replace (zlen pre + (zlen s + zlen post) - zlen s - zlen post + 1) with (zlen pre + 1) by lia.
  replace (zlen pre + (zlen s + zlen post) - zlen post) with (zlen pre + zlen s) by lia.
  rewrite (proj2 (Z.ltb_ge (zlen pre + 1) 0)), (proj2 (Z.eqb_neq (zlen pre + 1) 0)), (proj2 (Z.ltb_ge (zlen pre + zlen s) 0)) by lia.
  rewrite Z.min_l by lia. rewrite (proj2 (Z.leb_le _ _)) by lia.
  replace (Z.to_nat (zlen pre + 1 - 1)) with (length pre) by (unfold zlen; lia). rewrite drop_app_length.
  replace (Z.to_nat (zlen pre + zlen s - (zlen pre + 1) + 1)) with (length s) by (unfold zlen; lia).
  apply take_app_length.
Qed.

Lemma value_of_va flags value elapsed :
  value_of (va_response flags value elapsed) = if bool_decide (value = []) then None else Some value.
Proof.
  unfold value_of, va_response. cbn [res_vlen res_raw]. case_bool_decide as E; [by subst|].
  assert (0 < zlen value) by (destruct value; [done|]; rewrite zlen_cons; pose proof (zlen_nonneg value); lia).
  rewrite (proj2 (Z.gtb_lt _ _)) by done. set (line := va_line _ _).
  replace (str "VA " ++ line ++ crlf ++ value ++ crlf) with ((str "VA " ++ line ++ crlf) ++ value ++ crlf)
    by by rewrite <- !app_assoc.
  set (raw := (str "VA " ++ line ++ crlf) ++ value ++ crlf).
  assert (zlen value + 2 <= zlen raw).
  { subst raw. rewrite !zlen_app. change (zlen crlf) with 2. pose proof (zlen_nonneg line). change (zlen (str "VA ")) with 3. lia. }
  rewrite (proj2 (Z.geb_le _ _)) by done. f_equal.
  replace (zlen raw - zlen value - 1) with (zlen raw - zlen value - zlen crlf + 1) by (change (zlen crlf) with 2; lia).
  apply (lua_sub_tail _ value crlf E).
Qed.

(** C18: a meta hit on the wire becomes the entry it stands for: whatever bytes
    the value holds they are cut out exactly (an empty value gives none), the TTL
    is the [t] flag wherever it stands among the others, signed, and none when
    the line has no such flag. *)
Theorem make_meta_hit key pool pre ttl post value elapsed :
  Forall other_flag pre -> Forall other_flag post -> (forall z, ttl = Some z -> is_i64 z) ->
  let flags := pre ++ t_flag ttl ++ post in
  let res := va_response flags value elapsed in
  make key pool (Some res) =
  mkLuaEntry key pool Hit (Some res) (opt_int ttl) (if bool_decide (value = []) then None else Some value)
    (Some (va_line (zlen value) flags)) elapsed.
Proof.
  intros Hpre Hpost Ht flags res. unfold make. change (classify_res (Some res)) with Hit. cbv iota.
  change (res_line res) with (Some (va_line (zlen value) flags)). rewrite (value_of_va flags value elapsed : value_of res = _).
  unfold flags at 1. rewrite parse_t_va by (try done; apply zlen_nonneg). done.
Qed.

Lemma make_meta_hit_witness :
  make (str "user:1") (str "a") (Some (va_response [str "s5"; str "t-1"; str "c7"] (str "hello") (Some 250))) =
  mkLuaEntry (str "user:1") (str "a") Hit (Some (va_response [str "s5"; str "t-1"; str "c7"] (str "hello") (Some 250)))
    (VInt (-1)) (Some (str "hello")) (Some (str "5 s5 t-1 c7")) (Some 250).
Proof.
  apply (make_meta_hit (str "user:1") (str "a") [str "s5"] (Some (-1)) [str "c7"] (str "hello") (Some 250)).
  - repeat constructor; discriminate.
  - repeat constructor; discriminate.
  - intros z [= <-]. split; vm_compute; discriminate.
Defined.
