(* ===== verification/Dispatch.v ===== *)
(** * Dispatch: theorems about the read path

    What a call to [merge] records, and that its [outcome] label says what the
    client sees: [lua_reply] transcribes the reply selection of
    [src/lua/mcgateway/routes.lua]. *)

From Stdlib Require Import String.
From S2P Require Import Prelude Text BTree Core Builtins WasmHost TokenBucket Metrics Registries Paths UdfLoader Watcher Exporter Serve Logging Clib Lua Entries.

(** ** The reply, as [routes.lua] selects it *)

(** Some entry's response verbatim, or text of the gateway's own. *)
Inductive Reply := ReplyRes (res : Res) | ReplyStr (bs : bytes).

Definition ALL_READ_ERR : bytes := str "SERVER_ERROR all backends failed" ++ crlf.
Definition MISS_REPLY : bytes := str "EN" ++ crlf.

(** The loop under "No winner". *)
Fixpoint no_winner_reply (entries : list LuaEntry) (any_miss : bool) (concrete_error : option Res) : Reply :=
  match entries with
  | [] =>
      if any_miss then ReplyStr MISS_REPLY
      else match concrete_error with Some res => ReplyRes res | None => ReplyStr ALL_READ_ERR end
  | e :: rest =>
      if bool_decide (le_status e = Miss) then
        match le_res e with Some res => ReplyRes res | None => no_winner_reply rest true concrete_error end
      else
        no_winner_reply rest any_miss
          (match le_status e, le_res e, concrete_error with
           | Error, Some res, None => Some res
           | _, _, _ => concrete_error
           end)
  end.

(** The [VA] framing of synthesized bytes. *)
Definition va_reply (bs : bytes) : bytes := str "VA " ++ decimal (zlen bs) ++ crlf ++ bs ++ crlf.

Definition lua_reply (winner : LuaValue) (entries : list LuaEntry) : Reply :=
  match winner with
  | LInteger i =>
      match (if 1 <=? i then entries !! Z.to_nat (i - 1) else None) ≫= le_res with
      | Some res => ReplyRes res
      | None => no_winner_reply entries false None
      end
  | LString bs => ReplyStr (va_reply bs)
  | LNil => no_winner_reply entries false None
  end.

(** An entry [make] built: its status is the class of its response. *)
Definition built (e : LuaEntry) : Prop := le_status e = classify_res (le_res e).

(** What the client sees a reply as: of a response sent on as it is, what the
    proxy says of it. *)
Definition reply_class (r : Reply) : bytes :=
  match r with
  | ReplyRes res => if res_ok res then if res_hit res then str "hit" else str "miss" else str "error"
  | ReplyStr bs =>
      if starts_with (str "VA ") bs then str "hit"
      else if bool_decide (bs = MISS_REPLY) then str "miss"
      else str "error"
  end.

Lemma reply_class_res res : reply_class (ReplyRes res) = status_str (classify_res (Some res)).
Proof. cbn. by destruct (res_ok res), (res_hit res). Qed.

Lemma status_label_str s : status_label s = status_str s.
Proof. by destruct s. Qed.

Lemma make_built key pool res : built (make key pool res).
Proof. unfold built, make. by destruct (classify_res res) eqn:E, res; cbn [le_status le_res]. Qed.

Lemma make_res key pool res : le_res (make key pool res) = res.
Proof. unfold make. by destruct (classify_res res), res. Qed.

(** What [merge] hands back for a result. *)
Definition lua_value (r : MergeResult) : LuaValue :=
  match r with Winner i => LInteger (i + 1) | Synthesized bs => LString bs | MissResult => LNil end.

Definition view_of (o : OwnedEntry) (e : LuaEntry) : Prop := o_status o = le_status e.

Lemma no_winner_reply_class owned entries any ce :
  Forall2 view_of owned entries -> Forall built entries -> (forall r, ce = Some r -> classify_res (Some r) = Error) ->
  reply_class (no_winner_reply entries any ce) = if any then str "miss" else no_winner owned.
Proof.
  intros HF. revert any ce. induction HF as [|o e owned entries Hv _ IH]; intros any ce Hb Hce.
  - destruct any; [done|]. destruct ce as [res|]; [|done]. cbn [no_winner_reply reply_class].
    fold (reply_class (ReplyRes res)). by rewrite reply_class_res, (Hce res eq_refl).
  - inversion Hb as [|? ? He Hr]; subst. unfold no_winner in *. cbn [no_winner_reply List.existsb].
    unfold view_of, built in *. rewrite Hv. destruct (bool_decide_reflect (le_status e = Miss)) as [Em|Em]; cbn [orb].
    + destruct (le_res e) as [res|]; [|cbn in He; congruence].
      rewrite reply_class_res, <- He, Em. by destruct any.
    + apply IH; [done|]. destruct (le_status e), (le_res e) as [res|], ce as [ce|]; try done.
      by intros r [= <-].
Qed.

(** The accepted sliver: the merge picked an error entry that has no response,
    while some backend missed. *)
Definition sliver (r : MergeResult) (entries : list LuaEntry) : Prop :=
  exists i, r = Winner i /\
    (exists e, entries !! Z.to_nat i = Some e /\ le_status e = Error /\ le_res e = None) /\
    Exists (fun e => le_status e = Miss) entries.

Lemma no_winner_miss owned entries :
  Forall2 view_of owned entries ->
  no_winner owned = if bool_decide (Exists (fun e => le_status e = Miss) entries) then str "miss" else str "error".
Proof.
  intros HF. unfold no_winner. destruct (List.existsb _ owned) eqn:E.
  - rewrite bool_decide_true; [done|]. apply List.existsb_exists in E as (o & Hin & Ho).
    apply bool_decide_eq_true in Ho. apply list_elem_of_In, list_elem_of_lookup in Hin as [j Hj].
    destruct (Forall2_lookup_l _ _ _ _ _ HF Hj) as (e & He & Hv). apply Exists_exists. exists e.
    split; [by eapply list_elem_of_lookup_2|]. unfold view_of in Hv. congruence.
  - rewrite bool_decide_false; [done|]. intros (e & Hin & He)%Exists_exists.
    apply list_elem_of_lookup in Hin as [j Hj]. destruct (Forall2_lookup_r _ _ _ _ _ HF Hj) as (o & Ho & Hv).
    apply not_true_iff_false in E. apply E, List.existsb_exists. exists o.
    split; [by eapply list_elem_of_In, list_elem_of_lookup_2|]. apply bool_decide_eq_true. unfold view_of in Hv. congruence.
Qed.

Lemma outcome_mirrors r owned entries :
  (forall i, r = Winner i -> 0 <= i) -> Forall2 view_of owned entries -> Forall built entries ->
  (read_outcome r owned = reply_class (lua_reply (lua_value r) entries) <-> ~ sliver r entries) /\
  (sliver r entries ->
    read_outcome r owned = str "error" /\ reply_class (lua_reply (lua_value r) entries) = str "miss").
Proof.
  intros Hr HF Hb. pose proof (no_winner_reply_class owned entries false None HF Hb ltac:(done)) as Hn.
  destruct r as [i|bs|]; cbn [lua_value lua_reply read_outcome].
  2,3: (split; [split; [intros _ (? & ? & _); done|]|intros (? & ? & _); done]); by rewrite ?Hn.
  specialize (Hr i eq_refl). rewrite (proj2 (Z.leb_le 1 (i + 1))) by lia.
  replace (i + 1 - 1) with i by lia.
  destruct (entries !! Z.to_nat i) as [e|] eqn:Ee.
  - destruct (Forall2_lookup_r _ _ _ _ _ HF Ee) as (o & Ho & Hv). rewrite Ho. cbn [fmap option_fmap option_map mbind option_bind].
    unfold view_of in Hv. rewrite Hv. assert (built e) as He by (by eapply Forall_lookup_1 in Hb). unfold built in He.
    destruct (le_res e) as [res|] eqn:Er.
    + rewrite reply_class_res, status_label_str, He. split; [split; [|done]|]; intros; [intros (j & [= <-] & (e' & He' & _ & Hres) & _)|];
        [congruence|destruct H as (j & [= <-] & (e' & He' & _ & Hres) & _); congruence].
    + cbn in He. rewrite He, Hn, (no_winner_miss owned entries HF).
      destruct (bool_decide_reflect (Exists (fun e => le_status e = Miss) entries)) as [Hx|Hx]; cbn.
      * split; [|done]. split; [done|]. intros Hc. exfalso. apply Hc. exists i. eauto 6.
      * split; [split; [|done]|]; intros; [intros (j & _ & _ & ?); done|]. destruct H as (j & _ & _ & ?). done.
  - assert (owned !! Z.to_nat i = None) as ->.
    { apply lookup_ge_None in Ee. apply lookup_ge_None. by rewrite (Forall2_length _ _ _ HF). }
    cbn [fmap option_fmap option_map mbind option_bind]. rewrite Hn.
    split; [split; [|done]|]; intros; [intros (j & [= <-] & (e & He & _) & _); congruence|].
    destruct H as (j & [= <-] & (e & He & _) & _). congruence.
Qed.



(** ** What a read records *)

Section Recording.
Context {ML : Mlua} {WT : Wasmtime} {PC : PromClient} {PL : PromClientLaws PC}.

Definition count_at {L} `{EqDecision L} (l : L) (f : Family L Counter) : Z := counter_get (metric_at l f).

Lemma count_at_inc {L} `{EqDecision L} (l l' : L) (f : Family L Counter) :
  count_at l' (at_labels l counter_inc f) =
  if decide (l' = l) then (count_at l' f + 1) mod 2 ^ 64 else count_at l' f.
Proof.
  unfold count_at. rewrite metric_at_labels. case_decide; [subst; apply counter_inc_get|done].
Qed.

Lemma status_label_inj s s' : status_label s = status_label s' -> s = s'.
Proof. by destruct s, s'. Qed.

(** The entries of one pool with one status. *)
Definition entries_of (pool : bytes) (s : Status) (owned : list OwnedEntry) : Z :=
  zlen (List.filter (fun o => bool_decide (o_pool o = pool) && bool_decide (o_status o = s)) owned).

Lemma observe_backends_count owned : forall m pool s,
  count_at (mkBackendL pool (status_label s)) (backend_requests (observe_backends owned m)) =
  (count_at (mkBackendL pool (status_label s)) (backend_requests m) + entries_of pool s owned) mod 2 ^ 64.
Proof.
  induction owned as [|o owned IH]; intros m pool s.
  { cbn. rewrite Z.add_0_r. symmetry. apply Z.mod_small, counter_range. }
  change (observe_backends (o :: owned) m) with
    (observe_backends owned (observe_backend (o_pool o) (status_label (o_status o))
       (micros_to_seconds <$> o_elapsed o) m)).
  rewrite IH. unfold observe_backend.
  assert (forall m' : Metrics PC, backend_requests (match micros_to_seconds <$> o_elapsed o with
    | Some seconds => set_backend_duration (at_labels (mkPoolL (o_pool o)) (histogram_observe seconds)) m'
    | None => m' end) = backend_requests m') as -> by (intros; by destruct (o_elapsed o)).
  cbn [set_backend_requests backend_requests]. rewrite count_at_inc.
  unfold entries_of. cbn [List.filter].
  destruct (decide (mkBackendL pool (status_label s) = mkBackendL (o_pool o) (status_label (o_status o)))) as [E|E].
  - injection E as -> E%status_label_inj. subst s. rewrite !bool_decide_true by done. cbn [andb].
    rewrite (zlen_cons (A := OwnedEntry)), Zplus_mod_idemp_l. f_equal. lia.
  - destruct (bool_decide_reflect (o_pool o = pool)), (bool_decide_reflect (o_status o = s)); cbn [andb]; try done.
    congruence.
Qed.

Lemma observe_backends_frame owned : forall m,
  requests (observe_backends owned m) = requests m /\ merge_duration (observe_backends owned m) = merge_duration m /\
  merge_errors (observe_backends owned m) = merge_errors m.
Proof.
  induction owned as [|o owned IH]; intros m; [done|].
  destruct (IH (observe_backend (o_pool o) (status_label (o_status o)) (micros_to_seconds <$> o_elapsed o) m))
    as (H1 & H2 & H3).
  cbn [observe_backends foldl] in *. unfold observe_backends in *. rewrite H1, H2, H3.
  unfold observe_backend. by destruct (o_elapsed o).
Qed.

Lemma since_metrics start (w : World PC) : w_metrics (since start w).2 = w_metrics w.
Proof.
  unfold since, now_nanos, clock_origin. destruct start; [|done]. destruct (w_origin w); done.
Qed.

(** The keyspace a dispatch is attributed to. *)
Definition attributed (opts : option LuaTable) : option bytes :=
  opts ← opts; opt_field (get_opt_string opts (str "prefix")).

(** The series of the request counter a dispatch belongs to. *)
Definition read_series (opts : option LuaTable) (outcome : bytes) : option RequestLabels :=
  (fun p => mkRequestL (from_utf8_lossy p) (str "read") outcome) <$> attributed opts.

(** One dispatch records exactly what happened: for every pool and status as
    many backend results as the fan-out had entries of that pool and status, one
    observation of the merge's duration, and, when the call names its keyspace,
    one read request of that keyspace with the outcome of the result and no other
    request. *)
Lemma dispatch_records name seconds owned result opts (w : World PC) :
  let m := w_metrics w in
  let m' := w_metrics (observe_read_dispatch name seconds owned result opts w) in
  (forall pool s,
     count_at (mkBackendL pool (status_label s)) (backend_requests m') =
     (count_at (mkBackendL pool (status_label s)) (backend_requests m) + entries_of pool s owned) mod 2 ^ 64) /\
  merge_duration m' = at_labels (mkMergeL name) (histogram_observe seconds) (merge_duration m) /\
  (forall l,
     count_at l (requests m') =
     if bool_decide (read_series opts (read_outcome result owned) = Some l)
     then (count_at l (requests m) + 1) mod 2 ^ 64 else count_at l (requests m)).
Proof.
  cbv zeta. unfold observe_read_dispatch.
  set (w1 := with_metrics (observe_backends owned) (with_metrics (observe_merge_duration name seconds) w)).
  destruct (observe_backends_frame owned (observe_merge_duration name seconds (w_metrics w))) as (Hq & Hd & _).
  assert (forall pool s, count_at (mkBackendL pool (status_label s)) (backend_requests (w_metrics w1)) =
    (count_at (mkBackendL pool (status_label s)) (backend_requests (w_metrics w)) + entries_of pool s owned) mod 2 ^ 64) as Hb.
  { intros pool s. unfold w1. cbn [with_metrics w_metrics]. by rewrite observe_backends_count. }
  unfold read_series. destruct opts as [opts|]; cbn [attributed mbind option_bind].
  2:{ split_and!; [done|done|]. intros l. rewrite bool_decide_false by naive_solver. cbn. by rewrite Hq. }
  destruct (opt_field (get_opt_string opts (str "prefix"))) as [p|] eqn:Ep.
  2:{ split_and!; [done|done|]. intros l. rewrite bool_decide_false by naive_solver. cbn. by rewrite Hq. }
  destruct (since (opt_field (get_opt_i64 opts (str "start"))) w1) as [duration w2] eqn:Es.
  pose proof (since_metrics (opt_field (get_opt_i64 opts (str "start"))) w1) as Hm. rewrite Es in Hm. cbn [snd] in Hm.
  cbn [with_metrics w_metrics]. rewrite Hm. unfold observe_request.
  split; [|split].
  - intros pool s. rewrite <- Hb. by destruct duration.
  - etransitivity; [|exact Hd]. by destruct duration.
  - intros l. transitivity (count_at l (at_labels (mkRequestL (from_utf8_lossy p) (str "read") (read_outcome result owned))
      counter_inc (requests (w_metrics w1)))); [by destruct duration|].
    rewrite count_at_inc. change (requests (w_metrics w1)) with (requests (observe_backends owned (observe_merge_duration name seconds (w_metrics w)))).
    rewrite Hq. case_decide as E.
    + subst l. by rewrite bool_decide_true.
    + rewrite bool_decide_false; [done|]. intros [= <-]. by apply E.
Qed.
End Recording.
