(* ===== verification/Config.v ===== *)
(** * Config: loading and validating the gateway's configuration

    [src/lua/mcgateway/config.lua]: a chunk returns an arbitrary Lua value, and
    [validate] accepts it or raises.  The table it accepts is modelled by its
    typed reading, the records [PoolCfg], [KsCfg] and [Config]: validation fills
    in defaults and the flags of the merge, and the code that runs after it reads
    only these fields.  The registry may be swapped while a config is validated,
    so each keyspace is checked against the snapshot current at its lookup.
    Configuration values are trees: tables without cycles or metatables. *)

From Stdlib Require Import String.
From S2P Require Import Prelude Text BTree Core Builtins WasmHost TokenBucket Metrics Registries Paths UdfLoader Watcher Exporter Serve Logging Clib Lua.

(** ** Errors *)

(** The messages of [err], before formatting. *)
Inductive ConfigError :=
| PoolMissingName
| DuplicatePoolName (name : bytes)
| AddrsNotList (name : bytes)
| AddrNotString (name : bytes) (i : Z)
| InvalidHash (name : bytes) (v : Val)
| InvalidDist (name : bytes) (v : Val)
| PoolListEmpty (prefix field : bytes)
| PoolNotString (prefix field : bytes) (i : Z)
| UnknownPool (prefix field : bytes) (i : Z) (name : bytes)
| PoolTwice (prefix field name : bytes)
| MissingPrefix
| PrefixColon (prefix : bytes)
| PrefixReserved (prefix : bytes)
| DuplicatePrefix (prefix : bytes)
| InvalidWritePolicy (prefix : bytes) (v : Val)
| UnknownMergeName (prefix : bytes) (v : Val)
| NotATable
| PoolsNotAList
| KeyspacesNotAList
| CannotLoad (path msg : bytes)
| ErrorRunning (path : bytes) (v : Val).

(** What Lua code of the gateway can raise: its own errors, an index of a value
    that has no fields, a failed assertion, an error of the native module, an
    error of the proxy's API, among them that of a handle that is [nil]. *)
Inductive Raised :=
| ConfigErr (e : ConfigError)
| InvalidAddr (addr : bytes)
| NotIndexable (field : bytes)
| AssertionFailed (msg : bytes)
| NativeError (e : LuaError)
| ProxyError (msg : bytes)
| NilHandle.

Definition err {A} (e : ConfigError) : Result Raised A := Err (ConfigErr e).

(** The functions of the [string] library, which a string indexes into. *)
Definition string_lib : list bytes :=
  str <$> ["byte"; "char"; "dump"; "find"; "format"; "gmatch"; "gsub"; "len"; "lower"; "match"; "pack"; "packsize";
           "rep"; "reverse"; "sub"; "unpack"; "upper"]%string.

(** [v.k] *)
Definition index (v : Val) (k : bytes) : Result Raised Val :=
  match v with
  | VTab _ fields => Ok (lookup_field k fields)
  | VStr _ => Ok (if bool_decide (k ∈ string_lib) then VOpaque else VNil)
  | _ => Err (NotIndexable k)
  end.

(** ** The validated configuration *)

(** A validated list of names: what [ipairs] visits, and what [#] answers. *)
Record Seq := mkSeq { items : list bytes; seq_len : Z }.

Record PoolCfg := mkPool {
  p_name : bytes;
  p_addrs : list bytes;
  p_hash : option bytes;
  p_dist : option bytes;
}.

Inductive WritePolicy := All | First.

Record KsCfg := mkKs {
  k_prefix : bytes;
  k_read : Seq;
  k_write : Seq;
  k_policy : WritePolicy;
  k_merge : bytes;
  k_flags : bytes;
}.

(** The lists, and the lengths [#] reports for the gauges. *)
Record Config := mkConfig {
  c_pools : list PoolCfg;
  c_pools_len : Z;
  c_keyspaces : list KsCfg;
  c_keyspaces_len : Z;
}.

Definition VALID_HASH : list bytes := [str "xxhash"; str "md5"; str "crc32"].
Definition VALID_DIST : list bytes := [str "ring_hash"; str "jump_hash"].
Definition DEFAULT_MERGE : bytes := str "first-hit".
Definition RESERVED : list bytes := [str "__udf"; str "__mcgw"].

Section Validate.
Context {LL : LuaLen} {PC : PromClient}.

(** ** Pools *)

Fixpoint validate_addrs (name : bytes) (i : Z) (addrs : list Val) : Result Raised (list bytes) :=
  match addrs with
  | [] => Ok []
  | VStr a :: addrs =>
      if bool_decide (a = []) then err (AddrNotString name i)
      else rest ← validate_addrs name (i + 1) addrs; Ok (a :: rest)
  | _ :: _ => err (AddrNotString name i)
  end.

(** [p.k ~= nil and not VALID[p.k]] raises. *)
Definition one_of (valid : list bytes) (v : Val) (e : ConfigError) : Result Raised (option bytes) :=
  match v with
  | VNil => Ok None
  | VStr s => if bool_decide (s ∈ valid) then Ok (Some s) else err e
  | _ => err e
  end.

Definition validate_pool (p : Val) (seen : gset bytes) : Result Raised (PoolCfg * gset bytes) :=
  name ← index p (str "name");
  match name with
  | VStr name =>
      if bool_decide (name = []) then err PoolMissingName
      else if bool_decide (name ∈ seen) then err (DuplicatePoolName name)
      else
        let seen := {[name]} ∪ seen in
        addrs ← index p (str "addrs");
        match addrs with
        | VTab arr _ =>
            if border arr =? 0 then err (AddrsNotList name)
            else
              addrs ← validate_addrs name 1 (ipairs arr);
              hash ← index p (str "hash");
              hash' ← one_of VALID_HASH hash (InvalidHash name hash);
              dist ← index p (str "dist");
              dist' ← one_of VALID_DIST dist (InvalidDist name dist);
              Ok (mkPool name addrs hash' dist', seen)
        | _ => err (AddrsNotList name)
        end
  | _ => err PoolMissingName
  end.

Fixpoint validate_pools (ps : list Val) (seen : gset bytes) : Result Raised (list PoolCfg * gset bytes) :=
  match ps with
  | [] => Ok ([], seen)
  | p :: ps =>
      '(c, seen) ← validate_pool p seen;
      '(cs, seen) ← validate_pools ps seen;
      Ok (c :: cs, seen)
  end.

(** ** Keyspaces *)

Definition as_pool_list (v : Val) : Val := match v with VStr s => VTab [VStr s] [] | _ => v end.

Fixpoint validate_names (prefix field : bytes) (pool_names : gset bytes) (i : Z) (names : list Val) (seen : gset bytes)
  : Result Raised (list bytes) :=
  match names with
  | [] => Ok []
  | VStr name :: names =>
      if bool_decide (name = []) then err (PoolNotString prefix field i)
      else if bool_decide (name ∉ pool_names) then err (UnknownPool prefix field i name)
      else if bool_decide (name ∈ seen) then err (PoolTwice prefix field name)
      else rest ← validate_names prefix field pool_names (i + 1) names ({[name]} ∪ seen); Ok (name :: rest)
  | _ :: _ => err (PoolNotString prefix field i)
  end.

Definition validate_pool_list (prefix field : bytes) (list : Val) (pool_names : gset bytes) : Result Raised Seq :=
  match list with
  | VTab arr _ =>
      if border arr =? 0 then err (PoolListEmpty prefix field)
      else
        names ← validate_names prefix field pool_names 1 (ipairs arr) ∅;
        Ok (mkSeq names (border arr))
  | _ => err (PoolListEmpty prefix field)
  end.

Definition policy_of (prefix : bytes) (v : Val) : Result Raised WritePolicy :=
  match v with
  | VNil => Ok All
  | VStr s =>
      if bool_decide (s = str "all") then Ok All
      else if bool_decide (s = str "first") then Ok First
      else err (InvalidWritePolicy prefix v)
  | _ => err (InvalidWritePolicy prefix v)
  end.

Definition merge_of (prefix : bytes) (v : Val) : Result Raised bytes :=
  match v with
  | VNil => Ok DEFAULT_MERGE
  | VStr s => Ok s
  | _ => err (UnknownMergeName prefix v)
  end.

Definition validate_keyspace (registries : Registries (World PC)) (ks : Val) (seen_prefix pool_names : gset bytes)
  : Result Raised (KsCfg * gset bytes) :=
  prefix ← index ks (str "prefix");
  match prefix with
  | VStr prefix =>
      if bool_decide (prefix = []) then err MissingPrefix
      else if has_byte colon prefix then err (PrefixColon prefix)
      else if bool_decide (prefix ∈ RESERVED) then err (PrefixReserved prefix)
      else if bool_decide (prefix ∈ seen_prefix) then err (DuplicatePrefix prefix)
      else
        let seen_prefix := {[prefix]} ∪ seen_prefix in
        read ← index ks (str "read");
        write ← index ks (str "write");
        read ← validate_pool_list prefix (str "read") (as_pool_list read) pool_names;
        write ← validate_pool_list prefix (str "write") (as_pool_list write) pool_names;
        policy ← index ks (str "write_policy");
        policy ← policy_of prefix policy;
        merge ← index ks (str "merge");
        merge ← merge_of prefix merge;
        flags ← map_err (fun _ => ConfigErr (UnknownMergeName prefix (VStr merge))) (lua_required_flags registries merge);
        Ok (mkKs prefix read write policy merge flags, seen_prefix)
  | _ => err MissingPrefix
  end.

(** [snapshots i] is the registry at the lookup of the [i]-th keyspace. *)
Fixpoint validate_keyspaces (snapshots : nat -> Registries (World PC)) (i : nat) (kss : list Val)
  (seen_prefix pool_names : gset bytes) : Result Raised (list KsCfg) :=
  match kss with
  | [] => Ok []
  | ks :: kss =>
      '(c, seen_prefix) ← validate_keyspace (snapshots i) ks seen_prefix pool_names;
      cs ← validate_keyspaces snapshots (S i) kss seen_prefix pool_names;
      Ok (c :: cs)
  end.

Definition validate (snapshots : nat -> Registries (World PC)) (cfg : Val) : Result Raised Config :=
  match cfg with
  | VTab _ fields =>
      match lookup_field (str "pools") fields with
      | VTab pools _ =>
          match lookup_field (str "keyspaces") fields with
          | VTab keyspaces _ =>
              '(ps, pool_names) ← validate_pools (ipairs pools) ∅;
              kss ← validate_keyspaces snapshots 0 (ipairs keyspaces) ∅ pool_names;
              Ok (mkConfig ps (border pools) kss (border keyspaces))
          | _ => err KeyspacesNotAList
          end
      | _ => err PoolsNotAList
      end
  | _ => err NotATable
  end.

(** [load(path)]: [loaded] is what [loadfile] answers, a message or the outcome
    of running the chunk under [pcall]. *)
Definition load (snapshots : nat -> Registries (World PC)) (path : bytes) (loaded : Result bytes (Result Val Val))
  : Result Raised Config :=
  match loaded with
  | Err loaderr => err (CannotLoad path loaderr)
  | Ok (Err v) => err (ErrorRunning path v)
  | Ok (Ok cfg) => validate snapshots cfg
  end.
End Validate.

(** ** Well-formed configurations *)

Definition nonempty (s : bytes) : Prop := s <> [].

(** A list of pool names: known, distinct, and not empty as [#] sees it; [#] may
    only exceed what [ipairs] visits, and does so exactly on a list with holes. *)
Record seq_ok (pools : list bytes) (s : Seq) : Prop := {
  so_known : Forall (fun n => n ∈ pools) (items s);
  so_nodup : NoDup (items s);
  so_len : 0 < seq_len s /\ zlen (items s) <= seq_len s;
}.

Record pool_ok (p : PoolCfg) : Prop := {
  po_name : nonempty (p_name p);
  po_addrs : Forall nonempty (p_addrs p);
  po_hash : forall h, p_hash p = Some h -> h ∈ VALID_HASH;
  po_dist : forall d, p_dist p = Some d -> d ∈ VALID_DIST;
}.

Record ks_ok (pools : list bytes) (k : KsCfg) : Prop := {
  ko_prefix : nonempty (k_prefix k) /\ ~ (colon ∈ k_prefix k) /\ k_prefix k ∉ RESERVED;
  ko_read : seq_ok pools (k_read k);
  ko_write : seq_ok pools (k_write k);
}.

Record config_ok (c : Config) : Prop := {
  co_pools : Forall pool_ok (c_pools c);
  co_pool_names : NoDup (p_name <$> c_pools c);
  co_keyspaces : Forall (ks_ok (p_name <$> c_pools c)) (c_keyspaces c);
  co_prefixes : NoDup (k_prefix <$> c_keyspaces c);
}.

Lemma ipairs_prefix arr : exists rest, arr = ipairs arr ++ rest /\ is_nil (default VNil (head rest)) = true.
Proof.
  induction arr as [|v arr (rest & E & Hr)]; cbn; [by exists []|].
  destruct (is_nil v) eqn:Ev; [by exists (v :: arr)|]. exists rest. by rewrite E at 1.
Qed.

Section Sound.
Context {LL : LuaLen} {PC : PromClient}.

(** [#] counts at least what [ipairs] visits. *)
Lemma border_ipairs arr : zlen (ipairs arr) <= border arr.
Proof.
  destruct (border_is_border arr) as (H0 & _ & Ha).
  destruct (Z.lt_ge_cases (border arr) (zlen (ipairs arr))) as [Hlt|]; [|lia].
  destruct (ipairs_prefix arr) as (rest & E & _). exfalso. revert Ha. rewrite E at 1. unfold slot.
  destruct (Z.leb_spec (border arr + 1) 0); [lia|].
  replace (Z.to_nat (border arr + 1 - 1)) with (Z.to_nat (border arr)) by lia.
  rewrite lookup_app_l by (unfold zlen in Hlt; lia).
  destruct (lookup_lt_is_Some_2 (ipairs arr) (Z.to_nat (border arr)) ltac:(unfold zlen in Hlt; lia)) as [v Hv].
  rewrite Hv. cbn. pose proof (ipairs_no_nil arr) as Hn. eapply Forall_lookup_1 in Hn; [|done]. by rewrite Hn.
Qed.

Lemma validate_addrs_spec name addrs : forall i out,
  validate_addrs name i addrs = Ok out <-> addrs = VStr <$> out /\ Forall nonempty out.
Proof.
  unfold nonempty. induction addrs as [|v addrs IH]; intros i out.
  { split; [by intros [= <-]|]. by intros [E%symmetry%fmap_nil_inv _]; subst. }
  assert (forall v', v = v' -> (forall s, v' <> VStr s) -> v :: addrs = VStr <$> out -> False) as Hno.
  { intros v' -> Hs E. destruct out; [done|]. injection E as E _. by eapply Hs. }
  destruct v; cbn [validate_addrs]; try (split; [done|]; intros [E _]; by exfalso; eapply Hno).
  case_bool_decide as Es.
  - split; [done|]. intros [E Hf]. destruct out as [|a out]; [done|]. injection E as -> _. by inversion Hf.
  - rewrite bind_Ok. setoid_rewrite IH. split.
    + intros (rest & [-> Hf] & [= <-]). split; [done|by constructor].
    + intros [E Hf]. destruct out as [|a out]; [done|]. injection E as -> ->. inversion Hf. eauto.
Qed.

Lemma validate_names_spec prefix field pns names : forall i seen out,
  validate_names prefix field pns i names seen = Ok out <->
  names = VStr <$> out /\ Forall (fun n => nonempty n /\ n ∈ pns /\ n ∉ seen) out /\ NoDup out.
Proof.
  unfold nonempty. induction names as [|v names IH]; intros i seen out.
  { split; [intros [= <-]; repeat constructor|]. by intros [E%symmetry%fmap_nil_inv _]; subst. }
  assert (forall v', v = v' -> (forall s, v' <> VStr s) -> v :: names = VStr <$> out -> False) as Hno.
  { intros v' -> Hs E. destruct out; [done|]. injection E as E _. by eapply Hs. }
  destruct v as [| | | |name| |]; cbn [validate_names]; try (split; [done|]; intros [E _]; by exfalso; eapply Hno).
  destruct (bool_decide_reflect (name = [])); [|destruct (bool_decide_reflect (name ∉ pns)); [|destruct (bool_decide_reflect (name ∈ seen))]].
  1,2,3: split; [done|]; intros (E & Hf & _); destruct out; [done|]; injection E as -> _; inversion Hf; naive_solver.
  rewrite bind_Ok. setoid_rewrite IH. split.
  - intros (rest & (-> & Hf & Hnd) & [= <-]). split_and!; [done| |].
    + constructor; [split_and!; [done|by apply dec_stable|done]|]. eapply Forall_impl; [exact Hf|]. set_solver.
    + constructor; [|done]. intros Hin. rewrite Forall_forall in Hf. apply Hf in Hin. set_solver.
  - intros (E & Hf & Hnd). destruct out as [|a out]; [done|]. injection E as -> ->.
    inversion Hf; inversion Hnd; subst. exists out. split_and!; [done| |done|done].
    apply Forall_forall. intros x Hx. pose proof (proj1 (Forall_forall _ out) ltac:(eassumption) x Hx). set_solver.
Qed.

Lemma pool_list_sound prefix field v (pools : list bytes) s :
  validate_pool_list prefix field v (list_to_set pools) = Ok s -> seq_ok pools s.
Proof.
  unfold validate_pool_list. destruct v as [| | | | |arr fs|]; try done.
  destruct (Z.eqb_spec (border arr) 0) as [|Hb]; [done|]. rewrite bind_Ok.
  intros (names & (E & Hf & Hnd)%validate_names_spec & [= <-]). pose proof (border_ipairs arr) as Hl.
  rewrite E, zlen_fmap in Hl. destruct (border_is_border arr) as (H0 & _).
  split; cbn; [|done|lia]. eapply Forall_impl; [exact Hf|]. cbn. set_solver.
Qed.

Lemma one_of_sound valid v e h : one_of valid v e = Ok (Some h) -> h ∈ valid.
Proof. destruct v; try done. cbn. case_bool_decide; [|done]. by intros [= <-]. Qed.

Lemma validate_pool_sound p seen c seen' :
  validate_pool p seen = Ok (c, seen') -> pool_ok c /\ ~ (p_name c ∈ seen) /\ seen' = {[p_name c]} ∪ seen.
Proof.
  unfold validate_pool. rewrite bind_Ok. intros (name & _ & H). destruct name as [| | | |name| |]; try done.
  revert H. case_bool_decide as Hn; [done|]. case_bool_decide as Hs; [done|]. cbv zeta. rewrite bind_Ok.
  intros (addrs & _ & H). destruct addrs as [| | | | |arr fs|]; try done. revert H. destruct (border arr =? 0); [done|].
  intros H. inv_ok. split_and!; [|done|done]. rename select (validate_addrs _ _ _ = _) into Ha. apply validate_addrs_spec in Ha as [_ Ha].
  split; cbn; [done|done|..]; intros ? ->; by eapply one_of_sound.
Qed.

Lemma validate_pools_sound ps : forall seen cs seen',
  validate_pools ps seen = Ok (cs, seen') ->
  Forall pool_ok cs /\ NoDup (p_name <$> cs) /\ Forall (fun c => p_name c ∉ seen) cs /\
  seen' = list_to_set (p_name <$> cs) ∪ seen.
Proof.
  induction ps as [|p ps IH]; intros seen cs seen'; cbn [validate_pools].
  { intros [= <- <-]. split_and!; [constructor..|cbn; set_solver]. }
  intros H. inv_ok. rename select (validate_pool _ _ = _) into Hp. apply validate_pool_sound in Hp as (Hp & Hnew & ->).
  rename select (validate_pools _ _ = _) into Hps. apply IH in Hps as (Hps & Hnd & Hf & ->).
  split_and!.
  - by constructor.
  - cbn. constructor; [|done]. rewrite list_elem_of_fmap. intros (c' & E & Hin).
    rewrite Forall_forall in Hf. apply Hf in Hin. set_solver.
  - constructor; [done|]. eapply Forall_impl; [exact Hf|]. cbn. set_solver.
  - cbn. set_solver.
Qed.

Lemma validate_keyspace_sound r ks seen (pools : list bytes) c seen' :
  validate_keyspace r ks seen (list_to_set pools) = Ok (c, seen') ->
  ks_ok pools c /\ ~ (k_prefix c ∈ seen) /\ seen' = {[k_prefix c]} ∪ seen /\
  lua_required_flags r (k_merge c) = Ok (k_flags c).
Proof.
  unfold validate_keyspace. rewrite bind_Ok. intros (prefix & _ & H). destruct prefix as [| | | |prefix| |]; try done.
  revert H. case_bool_decide as Hn; [done|]. unfold has_byte. case_bool_decide as Hc; [done|].
  case_bool_decide as Hr; [done|]. case_bool_decide as Hs; [done|]. cbv zeta. intros H. inv_ok. cbn.
  split_and!; [|done|done|done]. split; cbn; [done|..]; by eapply pool_list_sound.
Qed.

Lemma validate_keyspaces_sound snapshots (pools : list bytes) kss : forall i seen cs,
  validate_keyspaces snapshots i kss seen (list_to_set pools) = Ok cs ->
  Forall (ks_ok pools) cs /\ NoDup (k_prefix <$> cs) /\ Forall (fun c => k_prefix c ∉ seen) cs /\
  (forall j c, cs !! j = Some c -> lua_required_flags (snapshots (i + j)%nat) (k_merge c) = Ok (k_flags c)).
Proof.
  induction kss as [|ks kss IH]; intros i seen cs; cbn [validate_keyspaces].
  { intros [= <-]. split_and!; [constructor..|done]. }
  intros H. inv_ok. rename select (validate_keyspace _ _ _ _ = _) into Hk.
  apply validate_keyspace_sound in Hk as (Hk & Hnew & -> & Hflags).
  rename select (validate_keyspaces _ _ _ _ _ = _) into Hks. apply IH in Hks as (Hks & Hnd & Hf & Hfl).
  split_and!.
  - by constructor.
  - cbn. constructor; [|done]. rewrite list_elem_of_fmap. intros (c' & E & Hin).
    rewrite Forall_forall in Hf. apply Hf in Hin. set_solver.
  - constructor; [done|]. eapply Forall_impl; [exact Hf|]. cbn. set_solver.
  - intros [|j] c Hj; cbn in Hj.
    + injection Hj as <-. by rewrite Nat.add_0_r.
    + replace (i + S j)%nat with (S i + j)%nat by lia. by apply Hfl.
Qed.

Lemma validate_accepts snapshots cfg c :
  validate snapshots cfg = Ok c ->
  config_ok c /\
  (forall i k, c_keyspaces c !! i = Some k -> lua_required_flags (snapshots i) (k_merge k) = Ok (k_flags k)).
Proof.
  unfold validate. destruct cfg as [| | | | |arr fs|]; try done.
  destruct (lookup_field (str "pools") fs) as [| | | | |pools ?|]; try done.
  destruct (lookup_field (str "keyspaces") fs) as [| | | | |keyspaces ?|]; try done. intros H. inv_ok.
  rename select (validate_pools _ _ = _) into Hp. apply validate_pools_sound in Hp as (Hps & Hnd & _ & ->).
  rename select (validate_keyspaces _ _ _ _ _ = _) into Hk. rewrite union_empty_r_L in Hk.
  apply validate_keyspaces_sound in Hk as (Hk & Hnd' & _ & Hfl). split; [by constructor|]. exact Hfl.
Qed.
End Sound.

(** ** Rendering *)

Definition render_list (l : list bytes) : Val := VTab (VStr <$> l) [].

Definition render_pool (p : PoolCfg) : Val :=
  VTab [] [ (str "name", VStr (p_name p)); (str "addrs", render_list (p_addrs p));
            (str "hash", opt_str (p_hash p)); (str "dist", opt_str (p_dist p)) ].

Definition render_policy (p : WritePolicy) : bytes := match p with All => str "all" | First => str "first" end.

Definition render_ks (k : KsCfg) : Val :=
  VTab [] [ (str "prefix", VStr (k_prefix k)); (str "read", render_list (items (k_read k)));
            (str "write", render_list (items (k_write k))); (str "write_policy", VStr (render_policy (k_policy k)));
            (str "merge", VStr (k_merge k)) ].

(** The table of a configuration file. *)
Definition render (c : Config) : Val :=
  VTab [] [ (str "pools", VTab (render_pool <$> c_pools c) []); (str "keyspaces", VTab (render_ks <$> c_keyspaces c) []) ].

(** No holes: every length is the number of elements, and no list of addresses
    is empty. *)
Definition sized (s : Seq) : Prop := seq_len s = zlen (items s).
Record listed (c : Config) : Prop := {
  ls_pools : c_pools_len c = zlen (c_pools c);
  ls_keyspaces : c_keyspaces_len c = zlen (c_keyspaces c);
  ls_addrs : Forall (fun p => p_addrs p <> []) (c_pools c);
  ls_names : Forall (fun k => sized (k_read k) /\ sized (k_write k)) (c_keyspaces c);
}.

Section Render.
Context {LL : LuaLen} {PC : PromClient}.

Lemma sequence_fmap {A} (f : A -> Val) l : (forall a, is_nil (f a) = false) -> sequence (f <$> l).
Proof. intros H. apply Forall_forall. intros v (a & -> & _)%list_elem_of_fmap. apply H. Qed.

Lemma zlen_pos {A} (l : list A) : l <> [] -> zlen l <> 0.
Proof. destruct l; [done|]. rewrite zlen_cons. pose proof (zlen_nonneg l). lia. Qed.

Lemma one_of_render valid o e : (forall h, o = Some h -> h ∈ valid) -> one_of valid (opt_str o) e = Ok o.
Proof. destruct o as [h|]; [|done]. intros H. cbn. by rewrite bool_decide_true by (by apply H). Qed.

Lemma validate_pool_render p seen :
  pool_ok p -> p_addrs p <> [] -> ~ (p_name p ∈ seen) ->
  validate_pool (render_pool p) seen = Ok (p, {[p_name p]} ∪ seen).
Proof.
  intros [Hn Ha Hh Hd] Hne Hs. unfold validate_pool, render_pool, render_list. cbn [index mbind result_bind].
  change (lookup_field (str "name") _) with (VStr (p_name p)). cbv iota.
  rewrite !bool_decide_false by done. cbv zeta.
  change (lookup_field (str "addrs") _) with (VTab (VStr <$> p_addrs p) []). cbv iota.
  assert (sequence (VStr <$> p_addrs p)) as Hseq by (by apply sequence_fmap).
  rewrite border_sequence, ipairs_sequence, zlen_fmap by done.
  rewrite (proj2 (Z.eqb_neq _ _)) by (by apply zlen_pos).
  rewrite (proj2 (validate_addrs_spec _ _ _ (p_addrs p)) (conj eq_refl Ha)). cbn [mbind result_bind].
  change (lookup_field (str "hash") _) with (opt_str (p_hash p)).
  change (lookup_field (str "dist") _) with (opt_str (p_dist p)).
  rewrite !one_of_render by done. cbn. by destruct p.
Qed.

Lemma validate_pools_render ps : forall seen,
  Forall pool_ok ps -> Forall (fun p => p_addrs p <> []) ps -> NoDup (p_name <$> ps) ->
  Forall (fun p => ~ (p_name p ∈ seen)) ps ->
  validate_pools (render_pool <$> ps) seen = Ok (ps, list_to_set (p_name <$> ps) ∪ seen).
Proof.
  induction ps as [|p ps IH]; intros seen Hok Hne Hnd Hs; [cbn; by rewrite union_empty_l_L|].
  inversion Hok; inversion Hne; inversion Hs; subst. cbn in Hnd. apply NoDup_cons in Hnd as [Hni Hnd].
  cbn [fmap list_fmap validate_pools]. rewrite validate_pool_render by done. cbn [mbind result_bind].
  change (list_fmap _ _ render_pool ps) with (render_pool <$> ps). rewrite IH; [| |done|done|].
  - cbn. do 2 f_equal. set_solver.
  - done.
  - apply Forall_forall. intros q Hq. rewrite elem_of_union, elem_of_singleton. intros [E|Hin].
    + apply Hni. rewrite <- E. by apply list_elem_of_fmap_2.
    + rename select (Forall (fun p => ~ (p_name p ∈ seen)) ps) into Hfresh. rewrite Forall_forall in Hfresh. by eapply Hfresh.
Qed.

Lemma pool_list_render prefix field s (pools : list bytes) :
  seq_ok pools s -> sized s -> Forall nonempty pools ->
  validate_pool_list prefix field (as_pool_list (render_list (items s))) (list_to_set pools) = Ok s.
Proof.
  intros [Hk Hnd [Hl _]] Hsz Hp. unfold validate_pool_list, render_list, as_pool_list, sized in *.
  assert (sequence (VStr <$> items s)) as Hseq by (by apply sequence_fmap).
  rewrite border_sequence, ipairs_sequence, zlen_fmap, <- Hsz by done.
  rewrite (proj2 (Z.eqb_neq _ _)) by lia.
  rewrite (proj2 (validate_names_spec _ _ _ _ _ _ (items s))); [by destruct s|]. split_and!; [done| |done].
  eapply Forall_impl; [exact Hk|]. intros n Hn. cbn. split_and!; [|by apply elem_of_list_to_set|set_solver].
  by eapply (proj1 (Forall_forall _ pools)).
Qed.

Lemma validate_keyspace_render r k seen (pools : list bytes) :
  ks_ok pools k -> sized (k_read k) -> sized (k_write k) -> Forall nonempty pools -> ~ (k_prefix k ∈ seen) ->
  lua_required_flags r (k_merge k) = Ok (k_flags k) ->
  validate_keyspace r (render_ks k) seen (list_to_set pools) = Ok (k, {[k_prefix k]} ∪ seen).
Proof.
  intros [(Hn & Hc & Hr) Hrd Hwr] Hsr Hsw Hp Hs Hf. unfold validate_keyspace, render_ks. cbn [index mbind result_bind].
  change (lookup_field (str "prefix") _) with (VStr (k_prefix k)). cbv iota.
  unfold has_byte. rewrite !bool_decide_false by done. cbv zeta.
  change (lookup_field (str "read") _) with (render_list (items (k_read k))).
  change (lookup_field (str "write") _) with (render_list (items (k_write k))).
  rewrite !pool_list_render by done. cbn [mbind result_bind].
  change (lookup_field (str "write_policy") _) with (VStr (render_policy (k_policy k))).
  change (lookup_field (str "merge") _) with (VStr (k_merge k)).
  cbn [merge_of mbind result_bind].
  assert (policy_of (k_prefix k) (VStr (render_policy (k_policy k))) = Ok (k_policy k)) as -> by (by destruct (k_policy k)).
  cbn [mbind result_bind]. rewrite Hf. cbn. by destruct k.
Qed.

Lemma validate_keyspaces_render snapshots (pools : list bytes) kss : forall i seen,
  Forall (ks_ok pools) kss -> Forall (fun k => sized (k_read k) /\ sized (k_write k)) kss -> Forall nonempty pools ->
  NoDup (k_prefix <$> kss) -> Forall (fun k => ~ (k_prefix k ∈ seen)) kss ->
  (forall j k, kss !! j = Some k -> lua_required_flags (snapshots (i + j)%nat) (k_merge k) = Ok (k_flags k)) ->
  validate_keyspaces snapshots i (render_ks <$> kss) seen (list_to_set pools) = Ok kss.
Proof.
  induction kss as [|k kss IH]; intros i seen Hok Hsz Hp Hnd Hs Hf; [done|].
  inversion Hok; inversion Hsz as [|? ? [? ?]]; inversion Hs; subst. cbn in Hnd. apply NoDup_cons in Hnd as [Hni Hnd].
  cbn [fmap list_fmap validate_keyspaces]. rewrite validate_keyspace_render; [|done..|].
  2:{ specialize (Hf O k eq_refl). by rewrite Nat.add_0_r in Hf. }
  cbn [mbind result_bind]. change (list_fmap _ _ render_ks kss) with (render_ks <$> kss). rewrite IH; [done..| |].
  - apply Forall_forall. intros q Hq. rewrite elem_of_union, elem_of_singleton. intros [E|Hin].
    + apply Hni. rewrite <- E. by apply list_elem_of_fmap_2.
    + rename select (Forall (fun k => ~ (k_prefix k ∈ seen)) kss) into Hfresh. rewrite Forall_forall in Hfresh. by eapply Hfresh.
  - intros j k' Hj. replace (S i + j)%nat with (i + S j)%nat by lia. by apply Hf.
Qed.

End Render.
