(* ===== verification/Reload.v ===== *)
(** * Reload: the configuration in service ([mcgateway.lua], [pools.lua], [keyspaces.lua])

    The module state that survives reloads, the functions memcached's two hooks
    call ([src/lua/examples/proxy.lua]) and what they build: a pool object per
    configured pool, a keyspace record per prefix.  The proxy's constructors are
    the class [McpPools]; the native module may be missing or broken. *)

From Stdlib Require Import String.
From S2P Require Import Prelude Text BTree Core Builtins WasmHost TokenBucket Metrics Registries Paths UdfLoader Watcher Exporter Serve Logging Clib Lua Config.

(** ** What the gateway uses of the proxy to build pools *)
Class McpPools := {
  Backend : Type;
  Pool : Type;
  (** [mcp.backend(label, host, port)], [mcp.pool(backends, { hash, dist })] *)
  mcp_backend : bytes -> bytes -> Val -> Result Raised Backend;
  mcp_pool : list Backend -> option bytes -> option bytes -> Result Raised Pool;
}.

(** [addr:match("^(.+):(%d+)$")].  [.+] is greedy, so the host extends to the last
    colon after which only digits follow, which is the last colon. *)
Fixpoint split_last (c : byte) (s : bytes) : option (bytes * bytes) :=
  match s with
  | [] => None
  | b :: s =>
      match split_last c s with
      | Some (host, port) => Some (b :: host, port)
      | None => if bool_decide (b = c) then Some ([], s) else None
      end
  end.

Definition parse_addr (addr : bytes) : Result Raised (bytes * Val) :=
  match split_last colon addr with
  | Some (host, port) =>
      if negb (bool_decide (host = [])) && negb (bool_decide (port = [])) && forallb is_digit port
      then Ok (host, tonumber port) else Err (InvalidAddr addr)
  | None => Err (InvalidAddr addr)
  end.

Section Build.
Context {MP : McpPools}.

Definition make_backend (pool_name addr : bytes) : Result Raised Backend :=
  '(host, port) ← parse_addr addr;
  mcp_backend (pool_name ++ [slash] ++ addr) host port.

Fixpoint make_backends (pool_name : bytes) (addrs : list bytes) : Result Raised (list Backend) :=
  match addrs with
  | [] => Ok []
  | addr :: addrs =>
      b ← make_backend pool_name addr;
      bs ← make_backends pool_name addrs;
      Ok (b :: bs)
  end.

(** [pools.build]: the table from names to pools. *)
Fixpoint pools_loop (pools_cfg : list PoolCfg) (out : gmap bytes Pool) : Result Raised (gmap bytes Pool) :=
  match pools_cfg with
  | [] => Ok out
  | p :: pools_cfg =>
      backends ← make_backends (p_name p) (p_addrs p);
      pool ← mcp_pool backends (p_hash p) (p_dist p);
      pools_loop pools_cfg (<[p_name p := pool]> out)
  end.

Definition pools_build (pools_cfg : list PoolCfg) : Result Raised (gmap bytes Pool) := pools_loop pools_cfg ∅.

(** [keyspaces.build]; a pool is [None] where the lookup gave [nil]. *)
Record Keyspace := mkKeyspace {
  ks_prefix : bytes;
  ks_read_pools : list (option Pool);
  ks_read_names : Seq;
  ks_write_pools : list (option Pool);
  ks_write_policy : WritePolicy;
  ks_merge_name : bytes;
  ks_merge_flags : bytes;
}.

Definition keyspace_of (pools_by_name : gmap bytes Pool) (k : KsCfg) : Keyspace :=
  mkKeyspace (k_prefix k) ((fun n => pools_by_name !! n) <$> items (k_read k)) (k_read k)
    ((fun n => pools_by_name !! n) <$> items (k_write k)) (k_policy k) (k_merge k) (k_flags k).

Definition keyspaces_build (keyspaces_cfg : list KsCfg) (pools_by_name : gmap bytes Pool) : gmap bytes Keyspace :=
  foldl (fun out k => <[k_prefix k := keyspace_of pools_by_name k]> out) ∅ keyspaces_cfg.
End Build.

(** ** The module *)

Record GwModule := mkGwModule { gw_config : option Config; gw_last_good : option Config }.

(** The lines of [util.log]. *)
Inductive GwLog :=
| ReloadFailedKept (path : bytes) (e : Raised)
| LoadedConfig (path : bytes) (pools keyspaces : Z).

(** What [require("mcgateway_native")] finds: nothing, a value without a function
    [observe_reload], or the module, whose function may itself raise. *)
Inductive NativeModule := NotLoadable | NoObserver | Observer (raises : bool).

Section Module.
Context {LL : LuaLen} {PC : PromClient} {MP : McpPools}.

Definition observe_reload (native : NativeModule) (result : bytes) (cfg : Config) (w : World PC) : World PC :=
  match native with
  | NotLoadable | NoObserver | Observer true => w
  | Observer false => lua_observe_reload result (c_pools_len cfg) (c_keyspaces_len cfg) w
  end.

(** One call's circumstances: the registry snapshots, the native module, and
    what [loadfile] and the chunk give. *)
Record LoadInput := mkLoadInput {
  li_snapshots : nat -> Registries (World PC);
  li_native : NativeModule;
  li_loaded : Result bytes (Result Val Val);
}.

Definition load_config (i : LoadInput) (path : bytes) (gw : GwModule) (w : World PC)
  : Result Raised Config * GwModule * list GwLog * World PC :=
  match load (li_snapshots i) path (li_loaded i) with
  | Err e =>
      match gw_last_good gw with
      | None => (Err e, gw, [], w)
      | Some good =>
          (Ok good, mkGwModule (Some good) (gw_last_good gw), [ReloadFailedKept path e],
           observe_reload (li_native i) (str "fallback") good w)
      end
  | Ok cfg =>
      (Ok cfg, mkGwModule (Some cfg) (Some cfg), [LoadedConfig path (c_pools_len cfg) (c_keyspaces_len cfg)],
       observe_reload (li_native i) (str "ok") cfg w)
  end.

Definition use_config (cfg : Config) (gw : GwModule) : GwModule := mkGwModule (Some cfg) (gw_last_good gw).

Definition build_pools (gw : GwModule) : Result Raised (gmap bytes Pool) :=
  match gw_config gw with
  | Some cfg => pools_build (c_pools cfg)
  | None => Err (AssertionFailed (str "mcgateway: load_config must run before build_pools"))
  end.

(** [build_routes], before the routes are attached. *)
Definition build_keyspaces (gw : GwModule) (pools_by_name : gmap bytes Pool) : Result Raised (gmap bytes Keyspace) :=
  match gw_config gw with
  | Some cfg => Ok (keyspaces_build (c_keyspaces cfg) pools_by_name)
  | None => Err (AssertionFailed (str "mcgateway: load_config must run before build_routes"))
  end.

(** The hooks of [proxy.lua]: the first runs in the configuration VM, the second
    in each worker's, on what the first returned. *)
Definition mcp_config_pools (i : LoadInput) (path : bytes) (gw : GwModule) (w : World PC)
  : Result Raised (gmap bytes Pool * Config) * GwModule * list GwLog * World PC :=
  let '(r, gw, log, w) := load_config i path gw w in
  (cfg ← r; pools ← build_pools gw; Ok (pools, cfg), gw, log, w).

Definition mcp_config_routes (bundle : gmap bytes Pool * Config) (gw : GwModule)
  : Result Raised (gmap bytes Keyspace) * GwModule :=
  let gw := use_config bundle.2 gw in
  (build_keyspaces gw bundle.1, gw).
End Module.
Arguments LoadInput PC : clear implicits.

(** ** The configuration in service *)

Section InService.
Context {LL : LuaLen} {PC : PromClient} {PL : PromClientLaws PC}.

Definition Load : Type := LoadInput PC * bytes.

(** A run of loads, in order, with what each returned. *)
Definition run_load (s : list (Result Raised Config) * GwModule * World PC) (l : Load) :=
  let '(rs, gw, w) := s in
  let '(r, gw, _, w) := load_config l.1 l.2 gw w in (rs ++ [r], gw, w).
Definition run_loads (ls : list Load) (w : World PC) := foldl run_load ([], mkGwModule None None, w) ls.

(** What a load would install on its own, and the most recent such one. *)
Definition accepted (l : Load) : option Config := ok (load (li_snapshots l.1) l.2 (li_loaded l.1)).
Definition latest (ls : list Load) : option Config := last (omap accepted ls).

Lemma latest_snoc ls l : latest (ls ++ [l]) = match accepted l with Some c => Some c | None => latest ls end.
Proof.
  unfold latest. rewrite omap_app. cbn [omap list_omap]. change (omap accepted [l]) with (match accepted l with Some c => [c] | None => [] end).
  destruct (accepted l); [by rewrite last_snoc|by rewrite app_nil_r].
Qed.

Lemma accepted_ok l c : accepted l = Some c -> config_ok c.
Proof.
  unfold accepted, load. destruct (li_loaded l.1) as [[cfg|v]|e]; try done.
  destruct (validate _ _) eqn:E; [|done]. intros [= <-]. by apply validate_accepts in E as [? _].
Qed.

Lemma latest_ok ls c : latest ls = Some c -> config_ok c.
Proof.
  unfold latest. intros H%last_Some_elem_of. apply list_elem_of_omap in H as (l & _ & Hl). by eapply accepted_ok.
Qed.

(** What one load does to a module whose two fields agree. *)
Lemma load_config_latest l gc w :
  let served := match accepted l with Some c => Some c | None => gc end in
  let '(r, gw, _, w') := load_config l.1 l.2 (mkGwModule gc gc) w in
  ok r = served /\ gw = mkGwModule served served /\
  (forall c, served = Some c -> li_native l.1 = Observer false ->
     exists result, w' = lua_observe_reload result (c_pools_len c) (c_keyspaces_len c) w).
Proof.
  unfold load_config, accepted. destruct (load _ _ _) as [c|e]; cbn.
  - split_and!; [done|done|]. intros c' [= <-] ->. by eexists.
  - destruct gc as [g|]; cbn; [|done]. split_and!; [done|done|]. intros c' [= <-] ->. by eexists.
Qed.

(** The gauges hold the shape of a config, clamped to 64 bits. *)
Definition gauges_show (c : Config) (w : World PC) : Prop :=
  gauge_get (config_pools (w_metrics w)) = Z.min (c_pools_len c) I64_MAX /\
  gauge_get (config_keyspaces (w_metrics w)) = Z.min (c_keyspaces_len c) I64_MAX.

Lemma clamp_i64 n : 0 <= n -> default I64_MAX (try_i64 n) = Z.min n I64_MAX /\ is_i64 (Z.min n I64_MAX).
Proof.
  unfold try_i64, is_i64, I64_MIN, I64_MAX. intros. destruct (Z.leb_spec n (2 ^ 63 - 1)); cbn; lia.
Qed.

Lemma observe_reload_gauges result (c : Config) (w : World PC) :
  0 <= c_pools_len c -> 0 <= c_keyspaces_len c ->
  gauges_show c (lua_observe_reload result (c_pools_len c) (c_keyspaces_len c) w).
Proof.
  intros [E1 B1]%clamp_i64 [E2 B2]%clamp_i64. unfold gauges_show, lua_observe_reload, config_reload. cbn.
  by rewrite E1, E2, !gauge_set_get.
Qed.

Lemma accepted_lens l c : accepted l = Some c -> 0 <= c_pools_len c /\ 0 <= c_keyspaces_len c.
Proof.
  unfold accepted, load, validate. destruct (li_loaded l.1) as [[cfg|v]|e]; try done.
  destruct cfg as [| | | | |arr fs|]; try done.
  destruct (lookup_field (str "pools") fs) as [| | | | |pools ?|]; try done.
  destruct (lookup_field (str "keyspaces") fs) as [| | | | |keyspaces ?|]; try done.
  destruct (validate_pools _ _) as [[ps names]|]; [|done]. cbn [mbind result_bind].
  destruct (validate_keyspaces _ _ _ _ _); [|done]. intros [= <-]. cbn.
  split; [by destruct (border_is_border pools)|by destruct (border_is_border keyspaces)].
Qed.

Lemma run_loads_length ls (w : World PC) : length (run_loads ls w).1.1 = length ls.
Proof.
  unfold run_loads. induction ls as [|l ls IH] using rev_ind; [done|].
  rewrite foldl_app. cbn [foldl]. destruct (foldl run_load _ ls) as [[rs gw] w1]. cbn in *.
  destruct (load_config _ _ _ _) as [[[r ?] ?] ?]. cbn. rewrite !length_app. cbn. by rewrite IH.
Qed.

(** C12: through any sequence of loads, whatever the files hold and whichever
    modules come and go, the configuration in service is the last one that was
    accepted, and it is well-formed.  A load returns it and raises only while none
    has been accepted yet; a rejected one changes nothing; and the gauges, when
    the native module works, show the configuration in service. *)
Theorem config_in_service ls (w : World PC) :
  let '(rs, gw, w') := run_loads ls w in
  gw = mkGwModule (latest ls) (latest ls) /\
  (forall c, latest ls = Some c -> config_ok c) /\
  (forall n, (n < length ls)%nat -> ok <$> rs !! n = Some (latest (take (S n) ls))) /\
  (forall l c, last ls = Some l -> li_native l.1 = Observer false -> latest ls = Some c -> gauges_show c w').
Proof.
  induction ls as [|l ls IH] using rev_ind; [cbn; split_and!; try done; intros; lia|].
  unfold run_loads in *. rewrite foldl_app. cbn [foldl].
  destruct (foldl run_load _ ls) as [[rs gw] w1] eqn:Er. destruct IH as (-> & _ & Hrs & _).
  pose proof (run_loads_length ls w) as Hlen. unfold run_loads in Hlen. rewrite Er in Hlen. cbn in Hlen.
  pose proof (load_config_latest l (latest ls) w1) as Hl. cbn [run_load].
  destruct (load_config l.1 l.2 _ w1) as [[[r gw] log] w2]. cbv zeta in Hl. rewrite <- latest_snoc in Hl.
  destruct Hl as (Hr & -> & Hw). split_and!; [done|by intros c; apply latest_ok| |].
  - intros n Hn. rewrite length_app in Hn. cbn in Hn. destruct (decide (n < length ls)%nat).
    + rewrite lookup_app_l, take_app_le by lia. by apply Hrs.
    + replace n with (length rs) by lia. rewrite list_lookup_middle by done. cbn.
      rewrite Hr, Hlen, take_ge by (rewrite length_app; cbn; lia). done.
  - intros l' c Hlast Hn Hc. rewrite last_snoc in Hlast. injection Hlast as <-.
    destruct (Hw c Hc Hn) as [result ->].
    assert (0 <= c_pools_len c /\ 0 <= c_keyspaces_len c) as [].
    { unfold latest in Hc. apply last_Some_elem_of, list_elem_of_omap in Hc as (l' & _ & Hl'). by eapply accepted_lens. }
    by apply observe_reload_gauges.
Qed.
End InService.

(** ** What a configuration builds *)

(** [host_port addr host port]: the address is a host, a colon and a port of
    decimal digits. *)
Definition host_port (addr host port : bytes) : Prop :=
  addr = host ++ colon :: port /\ host <> [] /\ port <> [] /\ Forall (fun b => is_digit b = true) port.

Lemma split_last_Some c s a b : split_last c s = Some (a, b) -> s = a ++ c :: b.
Proof.
  revert a; induction s as [|x s IH]; intros a; cbn; [done|].
  destruct (split_last c s) as [[h p]|]; [intros [= <- ->]; cbn; by rewrite <- IH|].
  case_bool_decide; [|done]. by intros [= <- ->]; subst.
Qed.

Lemma split_last_none c s : ~ (c ∈ s) -> split_last c s = None.
Proof. induction s as [|x s IH]; cbn; [done|]. intros H. rewrite IH, bool_decide_false by set_solver. done. Qed.

Lemma split_last_app c a b : ~ (c ∈ b) -> split_last c (a ++ c :: b) = Some (a, b).
Proof.
  intros H. induction a as [|x a IH]; cbn; [|by rewrite IH]. by rewrite split_last_none, bool_decide_true.
Qed.

Lemma digits_no_colon port : Forall (fun b => is_digit b = true) port -> ~ (colon ∈ port).
Proof. intros H Hin. eapply Forall_forall in H; [|exact Hin]. done. Qed.

Lemma parse_addr_ok addr host v :
  parse_addr addr = Ok (host, v) <-> exists port, host_port addr host port /\ v = tonumber port.
Proof.
  unfold parse_addr, host_port. split.
  - destruct (split_last colon addr) as [[h port]|] eqn:E; [|done]. apply split_last_Some in E.
    destruct (_ && _) eqn:Eb; [|done]. intros [= <- <-].
    apply andb_prop in Eb as [[H1%negb_true_iff H2%negb_true_iff]%andb_prop H3].
    apply bool_decide_eq_false in H1, H2. rewrite forallb_forall in H3.
    exists port. split_and!; [done|done|done| |done]. apply Forall_forall. intros b Hb%list_elem_of_In. by apply H3.
  - intros (port & (-> & Hh & Hp & Hd) & ->). rewrite split_last_app by (by apply digits_no_colon).
    rewrite !bool_decide_false by done. cbn.
    assert (forallb is_digit port = true) as ->; [|done].
    apply forallb_forall. intros b Hb%list_elem_of_In. by eapply Forall_forall in Hd.
Qed.

Lemma parse_addr_err addr e :
  parse_addr addr = Err e -> e = InvalidAddr addr /\ forall host port, ~ host_port addr host port.
Proof.
  intros H. split; [unfold parse_addr in H; repeat case_match; congruence|]. intros host port Hp.
  assert (parse_addr addr = Ok (host, tonumber port)) by (apply parse_addr_ok; eauto). congruence.
Qed.

Section Keyspaces.
Context {MP : McpPools}.

Lemma keyspaces_foldl pools kss : forall (out : gmap bytes Keyspace) pfx,
  NoDup (k_prefix <$> kss) ->
  foldl (fun out k => <[k_prefix k := keyspace_of pools k]> out) out kss !! pfx =
  match List.find (fun k => bool_decide (k_prefix k = pfx)) kss with
  | Some k => Some (keyspace_of pools k)
  | None => out !! pfx
  end.
Proof.
  induction kss as [|k kss IH]; intros out pfx Hnd; [done|]. cbn in Hnd. apply NoDup_cons in Hnd as [Hni Hnd].
  cbn [foldl List.find]. rewrite IH by done. case_bool_decide as E.
  - subst pfx. assert (List.find (fun k' => bool_decide (k_prefix k' = k_prefix k)) kss = None) as ->.
    { destruct (List.find _ kss) as [k'|] eqn:Ef; [|done]. apply List.find_some in Ef as [Hin Heq].
      apply bool_decide_eq_true in Heq. exfalso. apply Hni. rewrite <- Heq.
      by apply list_elem_of_fmap_2, list_elem_of_In. }
    by rewrite lookup_insert_eq.
  - by rewrite lookup_insert_ne.
Qed.

(** [find] by a key that occurs once finds the element. *)
Lemma find_unique kss k :
  NoDup (k_prefix <$> kss) -> k ∈ kss -> List.find (fun k' => bool_decide (k_prefix k' = k_prefix k)) kss = Some k.
Proof.
  induction kss as [|k' kss IH]; intros Hnd Hin; [set_solver|]. cbn in Hnd. apply NoDup_cons in Hnd as [Hni Hnd].
  cbn. case_bool_decide as E.
  - apply elem_of_cons in Hin as [->|Hin]; [done|]. exfalso. apply Hni. rewrite E. by apply list_elem_of_fmap_2.
  - apply elem_of_cons in Hin as [->|Hin]; [done|]. by apply IH.
Qed.

Lemma keyspaces_build_lookup kss pools pfx :
  NoDup (k_prefix <$> kss) ->
  keyspaces_build kss pools !! pfx =
  keyspace_of pools <$> List.find (fun k => bool_decide (k_prefix k = pfx)) kss.
Proof. intros. unfold keyspaces_build. rewrite keyspaces_foldl by done. by destruct (List.find _ kss). Qed.

(** A keyspace all of whose pools were found, in the order of its names. *)
Definition resolved (pools : gmap bytes Pool) (names : list bytes) (ps : list (option Pool)) : Prop :=
  Forall2 (fun n p => is_Some p /\ p = pools !! n) names ps.

Lemma keyspace_of_resolved (pools : gmap bytes Pool) names s :
  seq_ok names s -> dom pools = list_to_set names -> resolved pools (items s) ((fun n => pools !! n) <$> items s).
Proof.
  intros [Hk _ _] Hd. unfold resolved. apply Forall2_fmap_r, Forall_Forall2_diag. eapply Forall_impl; [exact Hk|].
  intros n Hn. split; [|done]. apply elem_of_dom. rewrite Hd. by apply elem_of_list_to_set.
Qed.

Lemma worker_routes (c : Config) (pools : gmap bytes Pool) (worker : GwModule) :
  config_ok c -> dom pools = list_to_set (p_name <$> c_pools c) ->
  exists kss, (mcp_config_routes (pools, c) worker).1 = Ok kss /\
    (forall pfx, is_Some (kss !! pfx) <-> pfx ∈ k_prefix <$> c_keyspaces c) /\
    (forall k, k ∈ c_keyspaces c -> exists ks,
       kss !! k_prefix k = Some ks /\ ks = keyspace_of pools k /\
       resolved pools (items (k_read k)) (ks_read_pools ks) /\
       resolved pools (items (k_write k)) (ks_write_pools ks)).
Proof.
  intros [_ _ Hks Hnd] Hd. eexists. split; [done|]. cbn [snd fst]. split.
  - intros pfx. rewrite keyspaces_build_lookup, fmap_is_Some, list_elem_of_fmap by done. split.
    + intros [k [Hin Heq]%List.find_some]. apply bool_decide_eq_true in Heq. exists k. split; [done|by apply list_elem_of_In].
    + intros (k & -> & Hin). exists k. by apply find_unique.
  - intros k Hin. rewrite keyspaces_build_lookup, find_unique by done. eexists. split_and!; [done|done|..];
      rewrite Forall_forall in Hks; destruct (Hks k Hin) as [_ Hr Hw]; by eapply keyspace_of_resolved.
Qed.

End Keyspaces.

Section Builds.
Context {LL : LuaLen} {PC : PromClient} {MP : McpPools}.

(** A backend, and a pool, as the proxy made them of the configuration. *)
Definition backend_of (pool_name addr : bytes) (b : Backend) : Prop :=
  exists host port, host_port addr host port /\
    mcp_backend (pool_name ++ str "/" ++ addr) host (tonumber port) = Ok b.
Definition pool_of (p : PoolCfg) (pool : Pool) : Prop :=
  exists backends, Forall2 (backend_of (p_name p)) (p_addrs p) backends /\ mcp_pool backends (p_hash p) (p_dist p) = Ok pool.

(** Why building a pool raises: an address that is no [host:port], or what the
    proxy's own constructors raise on the configured backends. *)
Inductive refused (p : PoolCfg) : Raised -> Prop :=
| refused_addr addr :
    addr ∈ p_addrs p -> (forall host port, ~ host_port addr host port) -> refused p (InvalidAddr addr)
| refused_backend addr host port e :
    addr ∈ p_addrs p -> host_port addr host port ->
    mcp_backend (p_name p ++ str "/" ++ addr) host (tonumber port) = Err e -> refused p e
| refused_pool backends e :
    Forall2 (backend_of (p_name p)) (p_addrs p) backends -> mcp_pool backends (p_hash p) (p_dist p) = Err e -> refused p e.

Lemma make_backends_spec p addrs :
  (forall a, a ∈ addrs -> a ∈ p_addrs p) ->
  match make_backends (p_name p) addrs with
  | Ok bs => Forall2 (backend_of (p_name p)) addrs bs
  | Err e => refused p e
  end.
Proof.
  induction addrs as [|a addrs IH]; intros Hin; cbn; [constructor|]. unfold make_backend.
  destruct (parse_addr a) as [[host v]|e] eqn:E; cbn [mbind result_bind].
  - apply parse_addr_ok in E as (port & Hp & ->). change [slash] with (str "/").
    destruct (mcp_backend _ host _) as [b|e] eqn:Eb; cbn [mbind result_bind];
      [|eapply refused_backend; [apply Hin; left|exact Hp|exact Eb]].
    specialize (IH ltac:(intros; apply Hin; by right)).
    destruct (make_backends _ addrs); cbn [mbind result_bind]; [|done]. constructor; [by exists host, port|done].
  - apply parse_addr_err in E as [-> Hno]. apply refused_addr; [apply Hin; left|done].
Qed.

Lemma pools_loop_spec ps : forall out,
  NoDup (p_name <$> ps) ->
  match pools_loop ps out with
  | Ok pools => dom pools = list_to_set (p_name <$> ps) ∪ dom out /\
      (forall p, p ∈ ps -> exists pool, pools !! p_name p = Some pool /\ pool_of p pool) /\
      (forall n, ~ (n ∈ p_name <$> ps) -> pools !! n = out !! n)
  | Err e => exists p, p ∈ ps /\ refused p e
  end.
Proof.
  induction ps as [|p ps IH]; intros out Hnd; cbn.
  { split_and!; [by rewrite union_empty_l_L|by intros p H%not_elem_of_nil|done]. }
  cbn in Hnd. apply NoDup_cons in Hnd as [Hni Hnd].
  pose proof (make_backends_spec p (p_addrs p) ltac:(done)) as Hb.
  destruct (make_backends _ _) as [bs|e]; cbn [mbind result_bind]; [|exists p; split; [left|done]].
  destruct (mcp_pool bs _ _) as [pool|e] eqn:Ep; cbn [mbind result_bind];
    [|exists p; split; [left|by eapply refused_pool]].
  specialize (IH (<[p_name p := pool]> out) Hnd). destruct (pools_loop ps _) as [pools|e].
  - destruct IH as (Hd & Hps & Ho). split_and!.
    + rewrite Hd, dom_insert_L. set_solver.
    + intros q [->|Hq]%elem_of_cons; [|by apply Hps]. exists pool. split; [|by exists bs].
      by rewrite Ho, lookup_insert_eq.
    + intros n Hn. rewrite Ho, lookup_insert_ne by set_solver. done.
  - destruct IH as (q & Hq & Hr). exists q. split; [by right|done].
Qed.

(** With a configuration to fall back to, a load settles on a well-formed one. *)
Lemma load_config_settles i path gw good (w : World PC) :
  gw_last_good gw = Some good -> config_ok good ->
  exists c log w', load_config i path gw w = (Ok c, mkGwModule (Some c) (Some c), log, w') /\ config_ok c.
Proof.
  intros Hg Hok. unfold load_config. destruct (load _ _ _) as [c|e] eqn:E.
  - exists c. do 2 eexists. split; [done|]. apply (accepted_ok (i, path)). unfold accepted. cbn. by rewrite E.
  - rewrite Hg. eauto 6.
Qed.

(** C13: what a reload builds is what it loaded.  Once a configuration has been
    accepted, the load itself never raises: it settles on a well-formed one, the
    new file's or the last good.  When the first hook returns, it hands the workers
    that very configuration with exactly one pool per configured pool, made by
    [mcp.pool] of the backends [mcp.backend] made of its addresses, in order, by
    host, port and the label [pool/addr]; every worker then attaches one keyspace
    per configured prefix, with the flags resolved at validation and every pool of
    its read and of its write list found.  When the hook raises, it is because an
    address of that configuration is no [host:port], or the error is the one
    [mcp.backend] or [mcp.pool] itself raised on the configured values. *)
Theorem reload_builds i path gw good (w : World PC) :
  gw_last_good gw = Some good -> config_ok good ->
  exists c gw' log w',
    load_config i path gw w = (Ok c, gw', log, w') /\ gw_last_good gw' = Some c /\ config_ok c /\
    match mcp_config_pools i path gw w with
    | (Ok (pools, c'), gw'', log', w'') =>
        c' = c /\ gw'' = gw' /\ log' = log /\ w'' = w' /\
        dom pools = list_to_set (p_name <$> c_pools c) /\
        (forall p, p ∈ c_pools c -> exists pool, pools !! p_name p = Some pool /\ pool_of p pool) /\
        forall worker, exists kss, (mcp_config_routes (pools, c) worker).1 = Ok kss /\
          (forall pfx, is_Some (kss !! pfx) <-> pfx ∈ k_prefix <$> c_keyspaces c) /\
          (forall k, k ∈ c_keyspaces c -> exists ks,
             kss !! k_prefix k = Some ks /\
             ks_prefix ks = k_prefix k /\ ks_write_policy ks = k_policy k /\
             ks_merge_name ks = k_merge k /\ ks_merge_flags ks = k_flags k /\ ks_read_names ks = k_read k /\
             resolved pools (items (k_read k)) (ks_read_pools ks) /\
             resolved pools (items (k_write k)) (ks_write_pools ks))
    | (Err e, gw'', log', w'') =>
        gw'' = gw' /\ log' = log /\ w'' = w' /\ exists p, p ∈ c_pools c /\ refused p e
    end.
Proof.
  intros Hg Hok. destruct (load_config_settles i path gw good w Hg Hok) as (c & log & w' & E & Hc).
  exists c, (mkGwModule (Some c) (Some c)), log, w'. split_and!; [done|done|done|].
  unfold mcp_config_pools. rewrite E. cbn [mbind result_bind build_pools gw_config]. unfold pools_build.
  pose proof (pools_loop_spec (c_pools c) ∅ ltac:(apply Hc)) as Hsp.
  destruct (pools_loop _ ∅) as [pools|e]; cbn [mbind result_bind]; [|done].
  destruct Hsp as (Hd & Hp & _). rewrite dom_empty_L, union_empty_r_L in Hd. split_and!; [done..|].
  intros worker. destruct (worker_routes c pools worker Hc Hd) as (kss & H1 & H2 & H3).
  exists kss. split; [done|]. split; [done|]. intros k Hk. destruct (H3 k Hk) as (ks & Hl & -> & Hr & Hw).
  eexists. split; [exact Hl|]. done.
Qed.
End Builds.
