(* ===== verification/Gateway.v ===== *)
(** * Gateway: the whole module as a transition system

    A gateway starts with [init_shared] and moves by the calls of the Lua
    states, by the batches of the watcher, and with a file system that changes
    arbitrarily under it.  The invariant [gw_ok] holds in every reachable
    state; the claims are its consequences for the callers. *)

From Stdlib Require Import String.
From S2P Require Import Prelude Text BTree Core Builtins WasmHost Sdk Boundary Examples RefEngine HostSafety TokenBucket Metrics Registries Paths UdfLoader Watcher Serve Logging Clib.

(** ** Built-ins stay in range *)

Lemma first_hit_valid es : valid_result (zlen es) (FirstHit.apply es).
Proof.
  pose proof (first_hit_loop_spec 0 es) as H. unfold FirstHit.apply.
  destruct (FirstHit.loop 0 es) as [i| |]; cbn; [|done|done].
  destruct H as (? & e & He & _). apply lookup_lt_Some in He. unfold zlen. lia.
Qed.

Lemma lww_valid es : valid_result (zlen es) (LastWriteWins.apply es).
Proof.
  pose proof (lww_apply_ok es) as H. destruct (LastWriteWins.apply es) as [i| |]; cbn; [|done|done].
  destruct H as (? & e & He & _). apply lookup_lt_Some in He. unfold zlen. lia.
Qed.

(** ** Closed label sets *)

Definition OPS : list bytes := [str "read"; str "write"; str "other"].
Definition OUTCOMES : list bytes :=
  [str "hit"; str "miss"; str "error"; str "stored"; str "negative"; str "other"].
Definition STATUSES : list bytes := [str "hit"; str "miss"; str "error"].
Definition KINDS : list bytes := [str "deadline"; str "trap"; str "guest"; str "host"].
Definition RELOADS : list bytes := [str "ok"; str "fallback"; str "other"].
Definition RESCANS : list bytes := [str "ok"; str "error"].
Definition REASONS : list bytes := [str "invalid-name"; str "builtin-collision"; str "load-failed"].
Definition TRIGGERS : list bytes := [str "config"; str "udf-swap"].
Definition SOURCES : list bytes := [str "builtin"; str "wasm"].

Lemma op_label_closed s : op_label s ∈ OPS.
Proof. unfold op_label, OPS. repeat case_bool_decide; set_solver. Qed.
Lemma outcome_label_closed s : outcome_label s ∈ OUTCOMES.
Proof. unfold outcome_label, OUTCOMES. repeat case_bool_decide; set_solver. Qed.
Lemma reload_label_closed s : reload_label s ∈ RELOADS.
Proof. unfold reload_label, RELOADS. repeat case_bool_decide; set_solver. Qed.
Lemma status_label_closed s : status_label s ∈ STATUSES.
Proof. unfold STATUSES. destruct s; set_solver. Qed.
Lemma kind_closed k : kind_as_str k ∈ KINDS.
Proof. unfold KINDS. destruct k; set_solver. Qed.
Lemma problem_closed p : problem_as_str p ∈ REASONS.
Proof. unfold REASONS. destruct p; set_solver. Qed.
Lemma trigger_closed t : trigger_as_str t ∈ TRIGGERS.
Proof. unfold TRIGGERS. destruct t; set_solver. Qed.
Lemma status_outcome s : status_label s ∈ OUTCOMES.
Proof. unfold OUTCOMES. destruct s; set_solver. Qed.
Lemma read_outcome_closed r owned : read_outcome r owned ∈ OUTCOMES.
Proof.
  assert (no_winner owned ∈ OUTCOMES) as Hn by (unfold no_winner, OUTCOMES; case_match; set_solver).
  destruct r as [i|bs|]; cbn; [|unfold OUTCOMES; set_solver|done].
  destruct (owned !! Z.to_nat i); cbn; [apply status_outcome|done].
Qed.
#[export] Hint Resolve op_label_closed outcome_label_closed reload_label_closed status_label_closed
  kind_closed problem_closed trigger_closed read_outcome_closed : mcgw.

Section Gateway.
Context {ML : Mlua} {WT : Wasmtime} {WL : WasmtimeLaws WT} {PC : PromClient} {PL : PromClientLaws PC} {LC : LogCrate}.

Definition closed {L M} (P : L -> Prop) (f : Family L M) : Prop := forall l, l ∈ labels f -> P l.

(** A [String]: the bytes are UTF-8. *)
Definition text (s : bytes) : Prop := utf8_valid s = true.

(** Every label: a [String] where the code has one, a member of its closed set
    where the code has a [&'static str]. *)
Record labels_ok (m : Metrics PC) : Prop := {
  requests_ok : closed (fun l => text (rq_keyspace l) /\ rq_op l ∈ OPS /\ rq_outcome l ∈ OUTCOMES) (requests m);
  request_duration_ok : closed (fun l => text (ko_keyspace l) /\ ko_op l ∈ OPS) (request_duration m);
  backend_requests_ok : closed (fun l => text (bl_pool l) /\ bl_status l ∈ STATUSES) (backend_requests m);
  backend_duration_ok : closed (fun l => text (pl_pool l)) (backend_duration m);
  merge_duration_ok : closed (fun l => text (ml_merge l)) (merge_duration m);
  merge_errors_ok : closed (fun l => text (mel_merge l) /\ mel_kind l ∈ KINDS) (merge_errors m);
  config_reloads_ok : closed (fun l => rl_result l ∈ RELOADS) (config_reloads m);
  registry_merges_ok : closed (fun l => kl_kind l ∈ SOURCES) (registry_merges m);
  udf_rescans_ok : closed (fun l => rl_result l ∈ RESCANS) (udf_rescans m);
  udf_failures_ok : closed (fun l => rl_reason l ∈ REASONS) (udf_module_failures m);
  reload_signals_ok : closed (fun l => tl_trigger l ∈ TRIGGERS) (reload_signals m);
}.

Lemma closed_new {L M} (P : L -> Prop) (d : M) : closed P (family_new d).
Proof. intros l H. rewrite labels_new in H. by apply not_elem_of_nil in H. Qed.
Lemma closed_at {L M} `{EqDecision L} (P : L -> Prop) l (g : M -> M) f :
  P l -> closed P f -> closed P (at_labels l g f).
Proof. intros Hl Hf l' [->|H]%labels_at; auto. Qed.

Lemma labels_new_ok : labels_ok Metrics_new.
Proof. constructor; apply closed_new. Qed.

Ltac keep_labels := intros []; constructor; cbn; try assumption; apply closed_at; [|assumption].

Lemma observe_request_ok ks op oc d m :
  text ks -> op ∈ OPS -> oc ∈ OUTCOMES -> labels_ok m -> labels_ok (observe_request ks op oc d m).
Proof. intros ? ? ? []. unfold observe_request. destruct d; constructor; cbn; try done; by apply closed_at. Qed.
Lemma observe_backend_ok p s d m :
  text p -> s ∈ STATUSES -> labels_ok m -> labels_ok (observe_backend p s d m).
Proof. intros ? ? []. unfold observe_backend. destruct d; constructor; cbn; try done; by apply closed_at. Qed.
Lemma observe_merge_duration_ok n s m : text n -> labels_ok m -> labels_ok (observe_merge_duration n s m).
Proof. intros ?. by keep_labels. Qed.
Lemma config_reload_ok r p k m : r ∈ RELOADS -> labels_ok m -> labels_ok (config_reload r p k m).
Proof. intros ?. by keep_labels. Qed.
Lemma set_registry_merges_ok k n m : k ∈ SOURCES -> labels_ok m -> labels_ok (set_registry_merges k n m).
Proof. intros ?. by keep_labels. Qed.
Lemma udf_rescan_ok r m : r ∈ RESCANS -> labels_ok m -> labels_ok (udf_rescan r m).
Proof. intros ?. by keep_labels. Qed.
Lemma udf_module_failure_ok r m : r ∈ REASONS -> labels_ok m -> labels_ok (udf_module_failure r m).
Proof. intros ?. by keep_labels. Qed.
Lemma reload_signal_ok t m : t ∈ TRIGGERS -> labels_ok m -> labels_ok (reload_signal t m).
Proof. intros ?. by keep_labels. Qed.
Lemma merge_error_ok n k m : text n -> k ∈ KINDS -> labels_ok m -> labels_ok (merge_error n k m).
Proof. intros ? ?. by keep_labels. Qed.

Lemma observe_backends_ok owned : forall m,
  Forall (fun o => text (o_pool o)) owned -> labels_ok m -> labels_ok (observe_backends owned m).
Proof.
  induction owned as [|o owned IH]; intros m Hp Hm; [done|]. apply Forall_cons in Hp as [Ho Hp].
  apply (IH (observe_backend _ _ _ m) Hp). apply observe_backend_ok; auto with mcgw.
Qed.

Lemma since_ok start (w : World PC) : w_metrics (since start w).2 = w_metrics w.
Proof. unfold since, now_nanos, clock_origin. destruct start; [|done]. by destruct (w_origin w). Qed.

Lemma observe_dispatch_ok n s owned r opts (w : World PC) :
  text n -> Forall (fun o => text (o_pool o)) owned ->
  labels_ok (w_metrics w) -> labels_ok (w_metrics (observe_read_dispatch n s owned r opts w)).
Proof.
  intros Hn Hp Hm. unfold observe_read_dispatch.
  assert (labels_ok (w_metrics (with_metrics (observe_backends owned) (with_metrics (observe_merge_duration n s) w)))) as H1.
  { cbn. by apply observe_backends_ok, observe_merge_duration_ok. }
  revert H1. generalize (with_metrics (observe_backends owned) (with_metrics (observe_merge_duration n s) w)).
  intros w1 H1. destruct opts as [opts|]; [|done]. destruct (opt_field (get_opt_string _ _)); [|done].
  pose proof (since_ok (opt_field (get_opt_i64 opts (str "start"))) w1) as Hs.
  destruct (since _ w1). cbn in *. rewrite Hs.
  apply observe_request_ok; [apply utf8_valid_lossy|unfold OPS; set_solver|auto with mcgw|done].
Qed.

(** ** Good merges *)

(** What the module relies on for every merge it can dispatch to. *)
Record good_merge (m : Merge (World PC)) : Prop := {
  good_valid es w : valid_result (zlen es) (apply m es w).1;
  good_labels es w : labels_ok (w_metrics w) -> labels_ok (w_metrics (apply m es w).2);
  good_traffic es w : requests (w_metrics (apply m es w).2) = requests (w_metrics w) /\
    backend_requests (w_metrics (apply m es w).2) = backend_requests (w_metrics w);
}.

Lemma pure_good f flags : (forall es, valid_result (zlen es) (f es)) -> good_merge (pure_merge f flags).
Proof. by constructor. Qed.

Lemma limiter_metrics (w : World PC) : w_metrics (limiter_try_acquire w).2 = w_metrics w.
Proof. destruct (limiter_try_acquire w) as [a w'] eqn:E. by apply limiter_try_acquire_frame in E as (? & _). Qed.

Lemma observed_valid inner es (w : World PC) : valid_result (zlen es) (observed_apply inner es w).1.
Proof.
  unfold observed_apply. destruct (run inner es) as [r|e] eqn:E; [cbn; by eapply run_with_pre_valid|].
  set (w0 := with_metrics _ w). by destruct (limiter_try_acquire w0).
Qed.

(** A failing merge touches one series of the error family and nothing else of
    the metrics. *)
Lemma observed_metrics inner es (w : World PC) :
  w_metrics (observed_apply inner es w).2 =
  match run inner es with
  | Ok _ => w_metrics w
  | Err e => merge_error (wm_module_name inner) (kind_as_str (classify e)) (w_metrics w)
  end.
Proof.
  unfold observed_apply. destruct (run inner es) as [r|e]; [done|].
  set (w0 := with_metrics _ w). pose proof (limiter_metrics w0) as Hl.
  destruct (limiter_try_acquire w0) as [acq w1]. cbn [snd] in *. by destruct acq.
Qed.

Lemma observed_good inner : text (wm_module_name inner) -> good_merge (ObservedMerge inner).
Proof.
  intros Ht. constructor; intros es w; [apply observed_valid|..]; cbn; rewrite observed_metrics;
    destruct (run inner es); try done. apply merge_error_ok; auto with mcgw.
Qed.

Lemma register_good name m : Registry.get name (register (@Registry.new (World PC))) = Some m -> good_merge m.
Proof.
  rewrite get_register by done. repeat case_decide; intros [= <-]; apply pure_good;
    auto using first_hit_valid, lww_valid.
Qed.

(** ** The invariant *)

Definition entry_ok (r : Registries (World PC)) (name : bytes) (e : WasmEntry (World PC)) : Prop :=
  name <> [] /\ utf8_valid name = true /\ Registry.has name (builtins r) = false /\
  good_merge (we_merge e) /\ text (we_required_flags e).

Record regs_ok (r : Registries (World PC)) : Prop := {
  ok_builtins : builtins r = register Registry.new;
  ok_wf : bt_wf (wasm r);
  ok_table : forall name e, bt_get name (wasm r) = Some e -> entry_ok r name e;
}.

Lemma regs_ok_wf r : regs_ok r -> reg_wf r.
Proof. intros [Hb Hw _]. split; [|done]. rewrite Hb. apply wf_register, Registry.wf_new. Qed.

Lemma regs_ok_new : regs_ok (Registries_new (register Registry.new)).
Proof. by constructor. Qed.

(** A scan only ever adds good entries, whatever the file system answers. *)
Lemma from_module_name module name m : from_module module name = Ok m -> wm_module_name m = name.
Proof. unfold from_module. intros H. inv_ok. by destruct (negb _); inv_ok. Qed.

Lemma read_required_flags_text i st flags st' : read_required_flags i st = Ok (flags, st') -> text flags.
Proof.
  unfold read_required_flags. destruct (get_typed_func _ _ _ _); [|by intros [= <- _]]. intros H. inv_ok.
  destruct (_ =? 0); [by inv_ok|]. inv_ok. unfold text.
  match goal with E : from_utf8 _ = Some _ |- _ => unfold from_utf8 in E; by destruct (utf8_valid _) eqn:?; simplify_eq end.
Qed.

Lemma from_module_flags module name m : from_module module name = Ok m -> text (wm_required_flags m).
Proof.
  unfold from_module. intros H. inv_ok. destruct (negb _); [done|]. inv_ok. by eapply read_required_flags_text.
Qed.

Lemma load_module_good fs host path name e :
  text name -> load_module fs host path name = Ok e -> good_merge (we_merge e) /\ text (we_required_flags e).
Proof.
  unfold load_module. intros Hn H. inv_ok. split; [|by eapply from_module_flags].
  apply observed_good. match goal with E : from_module _ _ = Ok _ |- _ => by rewrite (from_module_name _ _ _ E) end.
Qed.

Lemma scan_loop_ok {S} (on : bytes -> UdfProblem -> ProblemMsg -> S -> S) fs host r dir listing : forall out st,
  bt_wf out -> (forall name e, bt_get name out = Some e -> entry_ok r name e) ->
  match (scan_loop on fs host r dir listing out st).1 with
  | Ok table => bt_wf table /\ forall name e, bt_get name table = Some e -> entry_ok r name e
  | Err _ => True
  end.
Proof.
  induction listing as [|[file|e] listing IH]; intros out st Hwf Hok; cbn [scan_loop fst]; [done| |done].
  destruct (bool_decide _); [|by apply IH].
  destruct (file_stem (join dir file)) as [stem|] eqn:Es; cbn [mbind option_bind]; [|by apply IH].
  destruct (to_str stem) as [name|] eqn:En; [|by apply IH].
  assert (name = stem /\ utf8_valid stem = true) as [-> Hu].
  { unfold to_str, from_utf8 in En. by destruct (utf8_valid stem); simplify_eq. }
  destruct (Registry.has stem (builtins r)) eqn:Hh; [by apply IH|].
  destruct (load_module fs host (join dir file) stem) as [entry|err] eqn:Hl; [|by apply IH].
  apply IH; [by apply bt_wf_insert|]. intros n e. rewrite bt_get_insert by done.
  case_decide as E; [|by apply Hok]. intros [= <-]. subst n. unfold entry_ok.
  destruct (load_module_good fs host (join dir file) stem entry Hu Hl) as [Hg Ht].
  split_and!; [by eapply file_stem_nonempty|done|done|done|done].
Qed.

(** What the callback keeps, a scan keeps. *)
Lemma scan_loop_keeps (P : World PC -> Prop) fs host r dir listing :
  (forall path p msg w, P w -> P (on_problem path p msg w)) ->
  forall out w, P w -> P (scan_loop on_problem fs host r dir listing out w).2.
Proof.
  intros Hp. induction listing as [|[file|e] listing IH]; intros out w Hw; cbn [scan_loop snd]; [done| |done].
  destruct (bool_decide _); [|by apply IH].
  destruct (file_stem (join dir file) ≫= to_str); [|by apply IH, Hp].
  destruct (Registry.has _ _); [by apply IH, Hp|].
  destruct (load_module _ _ _ _); [by apply IH|by apply IH, Hp].
Qed.

(** The callback only touches the skipped-module series. *)
Lemma scan_loop_labels fs host r dir listing out w :
  labels_ok (w_metrics w) -> labels_ok (w_metrics (scan_loop (PC := PC) on_problem fs host r dir listing out w).2).
Proof.
  apply (scan_loop_keeps (fun w => labels_ok (w_metrics w))). clear w. intros path p msg w Hw. cbn.
  apply udf_module_failure_ok; auto with mcgw.
Qed.

Lemma scan_signals fs host r dir (w : World PC) :
  w_signals (scan_dir on_problem fs host r dir w).2 = w_signals w.
Proof.
  unfold scan_dir. destruct (fs_read_dir fs dir) as [listing|e]; [|done].
  by apply (scan_loop_keeps (fun w' => w_signals w' = w_signals w)).
Qed.

Lemma rescan_into_ok fs host r dir w :
  regs_ok r -> labels_ok (w_metrics w) ->
  match rescan_into fs host r dir w with
  | (Ok r', w') => regs_ok r' /\ labels_ok (w_metrics w')
  | (Err _, w') => labels_ok (w_metrics w')
  end.
Proof.
  intros Hr Hw. unfold rescan_into, scan_dir.
  destruct (fs_read_dir fs dir) as [listing|e].
  2:{ cbn. apply udf_rescan_ok; [unfold RESCANS; set_solver|done]. }
  pose proof (scan_loop_ok on_problem fs host r dir listing bt_new w) as Hs.
  pose proof (scan_loop_labels fs host r dir listing bt_new w Hw) as Hl.
  destruct (scan_loop _ _ _ _ _ _ _ _) as [[table|e] w'].
  - destruct Hs as [Hwf Hok]; [done|done|]. split.
    + destruct Hr. by constructor.
    + cbn. apply udf_rescan_ok; [unfold RESCANS; set_solver|].
      apply set_registry_merges_ok; [unfold SOURCES; set_solver|done].
  - cbn. apply udf_rescan_ok; [unfold RESCANS; set_solver|done].
Qed.

(** ** The system *)

Record Gw := mkGw { gw_shared : Shared PC; gw_world : World PC }.

(** The watcher thread performing the calls of a batch. *)
Definition perform_call (fs : Fs) (g : Gw) (c : Call) : Gw :=
  match c with
  | Rescan =>
      let '(r, w) := rescan_closure fs (sh_rescans (gw_shared g)) (sh_registries (gw_shared g)) (gw_world g) in
      mkGw (mkShared r (sh_rescans (gw_shared g)) (sh_watcher (gw_shared g))) w
  | Reload trigger => mkGw (gw_shared g) (reload_closure trigger (gw_world g))
  end.

Definition perform (fs : Fs) (calls : list Call) (g : Gw) : Gw := foldl (perform_call fs) g calls.

(** A fresh process. *)
Definition fresh (w : World PC) : Prop :=
  w_metrics w = Metrics_new /\ w_limiter w = None /\ w_origin w = None.

Inductive gw_step : Gw -> Gw -> Prop :=
| gw_merge sh w name entries opts :
    gw_step (mkGw sh w) (mkGw sh (lua_merge (sh_registries sh) name entries opts w).2)
| gw_now sh w : gw_step (mkGw sh w) (mkGw sh (lua_now w).2)
| gw_observe sh w prefix op outcome start :
    gw_step (mkGw sh w) (mkGw sh (lua_observe prefix op outcome start w))
| gw_observe_reload sh w result pools keyspaces :
    gw_step (mkGw sh w) (mkGw sh (lua_observe_reload result pools keyspaces w))
| gw_batch g fs armed batch :
    sh_watcher (gw_shared g) = Some armed -> gw_step g (perform fs (batch_act armed batch) g).

Inductive gw_reachable : Gw -> Prop :=
| gw_init env fs nt net f0 f w0 sh w :
    fresh w0 -> init_shared env fs nt net f0 w0 = (Ok sh, f, w) -> gw_reachable (mkGw sh w)
| gw_next g g' : gw_reachable g -> gw_step g g' -> gw_reachable g'.

Record gw_ok (g : Gw) : Prop := {
  gw_regs : regs_ok (sh_registries (gw_shared g));
  gw_labels : labels_ok (w_metrics (gw_world g));
}.

Lemma rescan_closure_ok fs dh r w :
  regs_ok r -> labels_ok (w_metrics w) ->
  regs_ok (rescan_closure fs dh r w).1 /\ labels_ok (w_metrics (rescan_closure fs dh r w).2).
Proof.
  intros Hr Hw. unfold rescan_closure. destruct dh as [[dir host]|]; [|done].
  pose proof (rescan_into_ok fs host r dir w Hr Hw) as H.
  destruct (rescan_into _ _ _ _ _) as [[r'|[d e]] w']; [done|]. done.
Qed.

Lemma perform_ok fs calls : forall g, gw_ok g -> gw_ok (perform fs calls g).
Proof.
  induction calls as [|c calls IH]; intros g Hg; [done|]. apply (IH (perform_call fs g c)).
  destruct Hg as [Hr Hl]. destruct c as [|trigger]; cbn.
  - pose proof (rescan_closure_ok fs (sh_rescans (gw_shared g)) _ _ Hr Hl) as [H1 H2].
    destruct (rescan_closure _ _ _ _). by constructor.
  - constructor; [done|]. cbn. apply reload_signal_ok; auto with mcgw.
Qed.

Lemma reg_apply_good r name es (w : World PC) :
  regs_ok r ->
  match reg_apply r name es w with
  | (Some res, w') => valid_result (zlen es) res /\ (labels_ok (w_metrics w) -> labels_ok (w_metrics w'))
  | (None, w') => w' = w
  end.
Proof.
  intros [Hb Hw Ht]. unfold reg_apply. destruct (Registry.get name (builtins r)) as [m|] eqn:E.
  - rewrite Hb in E. apply register_good in E as [Hv Hl _]. specialize (Hv es w). specialize (Hl es w).
    by destruct (apply m es w).
  - destruct (bt_get name (wasm r)) as [e|] eqn:Ee; [|done]. destruct (Ht _ _ Ee) as (_ & _ & _ & [Hv Hl _] & _).
    specialize (Hv es w). specialize (Hl es w). by destruct (apply (we_merge e) es w).
Qed.

(** Running a merge leaves the traffic counters to the dispatch. *)
Lemma reg_apply_traffic r name es (w : World PC) :
  regs_ok r ->
  requests (w_metrics (reg_apply r name es w).2) = requests (w_metrics w) /\
  backend_requests (w_metrics (reg_apply r name es w).2) = backend_requests (w_metrics w).
Proof.
  intros [Hb Hw Ht]. unfold reg_apply. destruct (Registry.get name (builtins r)) as [m|] eqn:E.
  - rewrite Hb in E. apply register_good in E as [_ _ Hq]. specialize (Hq es w). by destruct (apply m es w).
  - destruct (bt_get name (wasm r)) as [e|] eqn:Ee; [|done]. destruct (Ht _ _ Ee) as (_ & _ & _ & [_ _ Hq] & _).
    specialize (Hq es w). by destruct (apply (we_merge e) es w).
Qed.

Lemma name_str_text name n : name_str name = Ok n -> text n.
Proof. unfold name_str, from_utf8, text. by destruct (utf8_valid name) eqn:?; intros [= <-]. Qed.

Lemma project_one_text entries i o : project_one entries i = Ok o -> text (o_pool o).
Proof.
  unfold project_one. intros H. inv_ok. cbn. unfold text.
  match goal with E : from_utf8 _ = Some _ |- _ => unfold from_utf8 in E; by destruct (utf8_valid _) eqn:?; simplify_eq end.
Qed.

Lemma project_text entries owned : project entries = Ok owned -> Forall (fun o => text (o_pool o)) owned.
Proof.
  unfold project. assert (forall idx out owned, project_loop entries idx out = Ok owned ->
    Forall (fun o => text (o_pool o)) out -> Forall (fun o => text (o_pool o)) owned) as Hg.
  { induction idx as [|i idx IH]; intros out ow H Ho; cbn in H; [by injection H as <-|]. inv_ok.
    eapply IH; [exact H|]. apply Forall_app. split; [done|]. apply Forall_singleton. by eapply project_one_text. }
  intros H. by eapply Hg.
Qed.

Lemma lua_merge_labels r name entries opts w :
  regs_ok r -> labels_ok (w_metrics w) -> labels_ok (w_metrics (lua_merge r name entries opts w).2).
Proof.
  intros Hr Hw. unfold lua_merge. destruct (name_str name) as [n|] eqn:En; [|done]. apply name_str_text in En.
  destruct (project entries) as [owned|] eqn:Ep; [|done]. apply project_text in Ep. cbn [Instant_now].
  set (w1 := mkWorld _ _ _ _ _ _ _). pose proof (reg_apply_good r n (as_views owned) w1 Hr) as H.
  destruct (reg_apply r n (as_views owned) w1) as [[res|] w2]; [|by subst w2].
  cbn [snd]. apply observe_dispatch_ok; [done|done|]. cbn. by apply H.
Qed.

Lemma gw_step_ok g g' : gw_ok g -> gw_step g g' -> gw_ok g'.
Proof.
  intros Hg Hs. destruct Hs as [sh w name entries opts|sh w|sh w p op oc st|sh w res p k|g fs armed batch _];
    [destruct Hg as [Hr Hl]..|by apply perform_ok]; cbn [gw_shared gw_world] in *; (constructor; [done|]); cbn [gw_world].
  - by apply lua_merge_labels.
  - unfold lua_now, now_nanos, clock_origin. by destruct (w_origin w).
  - unfold lua_observe. pose proof (since_ok st w) as Hs. destruct (since st w). cbn in *. rewrite Hs.
    apply observe_request_ok; first [apply utf8_valid_lossy|auto with mcgw].
  - cbn. apply config_reload_ok; auto with mcgw.
Qed.

Lemma first_scan_ok fs dh r w :
  regs_ok r -> labels_ok (w_metrics w) ->
  match first_scan fs dh r w with
  | (Ok r', w') => regs_ok r' /\ labels_ok (w_metrics w')
  | (Err _, _) => True
  end.
Proof.
  intros Hr Hw. unfold first_scan. destruct dh as [[d host]|]; [|done].
  pose proof (rescan_into_ok fs host r d w Hr Hw). by destruct (rescan_into _ _ _ _ _) as [[?|?] ?].
Qed.

Lemma init_registries_ok env fs nt net w0 sh w :
  fresh w0 -> init_registries env fs nt net w0 = (Ok sh, w) -> gw_ok (mkGw sh w).
Proof.
  intros (Hm & _ & _). unfold init_registries. cbv zeta. set (w2 := with_metrics _ (start_exporter env net w0)).
  assert (labels_ok (w_metrics w2)) as Hl2.
  { subst w2. cbn. apply set_registry_merges_ok; [unfold SOURCES; set_solver|].
    assert (w_metrics (start_exporter env net w0) = w_metrics w0) as ->; [|rewrite Hm; apply labels_new_ok].
    unfold start_exporter. destruct (env_var env METRICS_ADDR_ENV) as [a|]; [|done]. by destruct (spawn_exporter net a). }
  clearbody w2. destruct (udf_dir env fs) as [dir|]; [|done].
  destruct (host_for dir) as [dh|]; [|done].
  pose proof (first_scan_ok fs dh _ w2 regs_ok_new Hl2) as Hx.
  destruct (first_scan fs dh _ w2) as [[r|e] w3]; [|done]. destruct Hx as [Hr Hl3].
  destruct (env_var env CONFIG_ENV) as [cfg|]; [|intros [= <- <-]; by constructor].
  destruct (spawn _ _ _); [|done]. intros [= <- <-]. by constructor.
Qed.

Lemma init_shared_ok env fs nt net f0 f w0 sh w :
  fresh w0 -> init_shared env fs nt net f0 w0 = (Ok sh, f, w) -> gw_ok (mkGw sh w).
Proof.
  intros Hf. unfold init_shared. destruct (init_registries _ _ _ _ _) as [r w1] eqn:E. intros [= -> _ ->].
  by eapply init_registries_ok.
Qed.

Lemma gw_reachable_ok g : gw_reachable g -> gw_ok g.
Proof. induction 1; [by eapply init_shared_ok|by eapply gw_step_ok]. Qed.

(** ** What the callers get *)

Lemma project_loop_len entries idx : forall out owned,
  project_loop entries idx out = Ok owned -> length owned = (length out + length idx)%nat.
Proof.
  induction idx as [|i idx IH]; intros out owned H; cbn in H; [injection H as <-; cbn; lia|].
  inv_ok. apply IH in H. rewrite length_app in H. cbn in *. lia.
Qed.

Lemma project_len entries owned :
  0 <= raw_len entries -> project entries = Ok owned -> zlen owned = raw_len entries.
Proof.
  intros Hl H. apply project_loop_len in H. rewrite length_seqZ in H. unfold zlen. cbn in H. lia.
Qed.

Lemma reg_has_spec r name : regs_ok r -> reg_has r name = bool_decide (is_Some (table_of r !! name)).
Proof.
  intros Hr%regs_ok_wf. rewrite lookup_table_of by done.
  unfold reg_has, Registry.has, Registry.get, bt_contains.
  destruct (bt_get name (by_name (builtins r))), (bt_get name (wasm r)); done.
Qed.

(** C3: in every reachable state of the gateway, a Lua caller of [merge] gets
    back the 1-based index of an entry it passed, bytes no larger than a guest
    memory, or nil; and the only errors are a name that is not UTF-8, an entry
    list that does not project, a name that [has] denies, and Lua failing to
    make the string. *)
Theorem gateway_merge_in_range g name entries opts :
  gw_reachable g -> 0 <= raw_len entries <= I64_MAX ->
  let r := sh_registries (gw_shared g) in
  match (lua_merge r name entries opts (gw_world g)).1 with
  | Ok (LInteger j) => 1 <= j <= raw_len entries
  | Ok (LString s) => exists bs, zlen bs <= MAX_GUEST_MEMORY_BYTES /\ create_string bs = Ok s
  | Ok LNil => True
  | Err e =>
      name_str name = Err e \/ project entries = Err e \/
      (e = UnknownMerge name /\ reg_has r name = false) \/ exists bs, create_string bs = Err e
  end.
Proof.
  intros [Hr _]%gw_reachable_ok Hl. cbv zeta. unfold lua_merge.
  destruct (name_str name) as [n|e] eqn:En; [|by left].
  assert (n = name) as -> by (unfold name_str, from_utf8 in En; destruct (utf8_valid name); cbn in En; congruence).
  destruct (project entries) as [owned|e] eqn:Ep; [|by right; left].
  apply project_len in Ep; [|lia]. cbn [Instant_now]. set (w1 := mkWorld _ _ _ _ _ _ _).
  pose proof (reg_apply_good (sh_registries (gw_shared g)) name (as_views owned) w1 Hr) as Hg.
  destruct (reg_apply _ name (as_views owned) w1) as [[res|] w2] eqn:Ea; cbn [fst].
  - destruct Hg as [Hv _]. unfold as_views in Hv. rewrite zlen_fmap, Ep in Hv.
    destruct res as [i|bs|]; cbn in Hv |- *; [|by destruct (create_string bs) as [s|e] eqn:Es; cbn; [exists bs|right; right; right; exists bs]|done].
    unfold try_i64. destruct (Z.leb_spec (i + 1) I64_MAX); cbn; lia.
  - right; right; left. split; [done|]. unfold reg_apply in Ea. unfold reg_has, Registry.has, bt_contains.
    unfold Registry.get in Ea. destruct (bt_get name (by_name _)) as [m|]; [by destruct (apply m _ _)|].
    destruct (bt_get name (wasm _)) as [e|]; [by destruct (apply (we_merge e) _ _)|done].
Qed.

(** The lookups the config validator uses agree with each other in every
    reachable state, on any byte string: [has_merge] holds exactly when
    [required_flags] answers and exactly when [names] lists the name, and a
    name that is not UTF-8 is never a merge. *)
Theorem gateway_lookups_agree g name :
  gw_reachable g ->
  let r := sh_registries (gw_shared g) in
  (lua_has_merge r name = true <-> exists flags, lua_required_flags r name = Ok flags) /\
  (lua_has_merge r name = true <-> name ∈ reg_names r) /\
  (utf8_valid name = false -> lua_has_merge r name = false).
Proof.
  intros [Hr _]%gw_reachable_ok. cbv zeta. set (r := sh_registries (gw_shared g)) in *.
  pose proof (regs_ok_wf r Hr) as [Hb Hw].
  assert (forall n, n ∈ reg_names r <-> reg_has r n = true) as Hnames.
  { intros n. unfold reg_names. rewrite sort_names_perm, push_all_elem.
    rewrite <- (bt_contains_keys n (wasm r)), <- (Registry.has_names n (builtins r)) by done.
    unfold reg_has. destruct (Registry.has n (builtins r)), (bt_contains n (wasm r)); naive_solver. }
  assert (forall n, utf8_valid n = false -> reg_has r n = false) as Hu.
  { intros n Hn. unfold reg_has. rewrite (ok_builtins _ Hr).
    destruct (Registry.has n (register Registry.new)) eqn:E.
    - apply Registry.has_get in E as [m E]. rewrite get_register in E by done.
      repeat case_decide; subst; discriminate.
    - unfold bt_contains. destruct (bt_get n (wasm r)) as [e|] eqn:Ee; [|done].
      destruct (ok_table _ Hr _ _ Ee) as (_ & H & _). congruence. }
  assert (reg_has r [] = false) as Hnil.
  { unfold reg_has. rewrite (ok_builtins _ Hr). change (Registry.has [] (register Registry.new)) with false.
    unfold bt_contains. destruct (bt_get [] (wasm r)) as [e|] eqn:Ee; [|done].
    destruct (ok_table _ Hr _ _ Ee) as (H & _). done. }
  unfold lua_has_merge, lua_required_flags, name_str. rewrite Hnames.
  destruct (from_utf8 name) as [n|] eqn:En; cbn; unfold from_utf8 in En; destruct (utf8_valid name) eqn:Hv; simplify_eq.
  - split; [|split; [done|done]]. unfold reg_has, reg_required_flags, Registry.has, Registry.get, bt_contains.
    destruct (bt_get n (by_name (builtins r))), (bt_get n (wasm r)); cbn; naive_solver.
  - rewrite Hnil, (Hu name Hv). naive_solver.
Qed.

(** ** Strings are text *)

(** The label sets of a family, as the encoder writes them. *)
Definition text_labels {L M} `{EncodeLabelSet L} (f : Family L M) : Prop :=
  forall l, l ∈ labels f -> Forall (fun kv => text kv.1 /\ text kv.2) (encode_labels l).

Lemma member_text (set : list bytes) x : forallb utf8_valid set = true -> x ∈ set -> text x.
Proof. intros H Hin%list_elem_of_In. by eapply forallb_forall in H. Qed.

Ltac text_family H :=
  let l := fresh "l" in let Hl := fresh "Hl" in
  intros l Hl; apply H in Hl; cbn in Hl |- *;
  repeat (apply Forall_cons; split; [split; [reflexivity|]|]); [..|constructor];
  repeat match goal with Hx : _ /\ _ |- _ => destruct Hx end;
  first [assumption | by (eapply member_text; [|eassumption])].

(** C24: the gateway's strings are text: in every reachable state, whatever
    bytes Lua passed as names, prefixes and pools and whatever the modules on
    disk declare, every registered name, every flags string handed to Lua and
    every label name and value the exposition writes is valid UTF-8, as their
    Rust types promise. *)
Theorem gateway_strings_are_text g :
  gw_reachable g ->
  let r := sh_registries (gw_shared g) in
  let m := w_metrics (gw_world g) in
  (forall name, name ∈ reg_names r -> text name) /\
  (forall name flags, lua_required_flags r name = Ok flags -> text flags) /\
  text_labels (requests m) /\ text_labels (request_duration m) /\ text_labels (backend_requests m) /\
  text_labels (backend_duration m) /\ text_labels (merge_duration m) /\ text_labels (merge_errors m) /\
  text_labels (config_reloads m) /\ text_labels (registry_merges m) /\ text_labels (udf_rescans m) /\
  text_labels (udf_module_failures m) /\ text_labels (reload_signals m).
Proof.
  intros [Hr Hm]%gw_reachable_ok. cbv zeta. split; [|split].
  - intros name Hn. unfold reg_names in Hn. rewrite sort_names_perm, push_all_elem in Hn.
    destruct Hn as [Hn|Hn].
    + rewrite (ok_builtins _ Hr) in Hn. by eapply (member_text (Registry.names (register (@Registry.new (World PC))))).
    + apply bt_contains_keys in Hn; [|exact (ok_wf _ Hr)]. unfold bt_contains in Hn.
      destruct (bt_get name (wasm _)) as [e|] eqn:Ee; [|done]. by destruct (ok_table _ Hr _ _ Ee) as (_ & ? & _).
  - intros name flags H. unfold lua_required_flags in H. inv_ok. unfold reg_required_flags in H.
    destruct (Registry.get a (builtins _)) as [b|] eqn:E.
    + injection H as <-. rewrite (ok_builtins _ Hr) in E. rewrite get_register in E by done.
      by repeat case_decide; simplify_eq.
    + destruct (bt_get a (wasm _)) as [e|] eqn:Ee; [|done]. injection H as <-.
      by destruct (ok_table _ Hr _ _ Ee) as (_ & _ & _ & _ & ?).
  - destruct Hm as [H1 H2 H3 H4 H5 H6 H7 H8 H9 H10 H11]. split_and!;
      [text_family H1|text_family H2|text_family H3|text_family H4|text_family H5|text_family H6
      |text_family H7|text_family H8|text_family H9|text_family H10|text_family H11].
Qed.

(** All the request series one keyspace can have. *)
Definition keyspace_series (ks : bytes) : list RequestLabels :=
  op ← OPS; oc ← OUTCOMES; [mkRequestL ks op oc].

(** C23: the cardinality contract: in every reachable state, whatever strings
    the Lua side passed as operations, outcomes and results and whatever
    modules failed, every label but the configured names (pool, keyspace, merge)
    comes from its closed set, and no keyspace has more than eighteen request
    series. *)
Theorem gateway_cardinality g :
  gw_reachable g ->
  labels_ok (w_metrics (gw_world g)) /\
  forall ks ls, NoDup ls -> (forall l, l ∈ ls -> rq_keyspace l = ks /\ l ∈ labels (requests (w_metrics (gw_world g)))) ->
    zlen ls <= 18.
Proof.
  intros [_ Hl]%gw_reachable_ok. split; [done|]. intros ks ls Hd Hin.
  assert (ls ⊆+ keyspace_series ks) as Hsub.
  { apply NoDup_submseteq; [done|]. intros [k op oc] [Hk Hls]%Hin. cbn in Hk. subst k.
    apply (requests_ok _ Hl) in Hls as (_ & Ho & Hc). cbn in Ho, Hc.
    unfold keyspace_series. apply list_elem_of_bind. exists op. split; [|done].
    apply list_elem_of_bind. exists oc. split; [|done]. constructor. }
  apply submseteq_length in Hsub. change (length (keyspace_series ks)) with 18%nat in Hsub. unfold zlen. lia.
Qed.

(** ** Live reload *)

(** A rescan publishes what the scan found, or keeps the table, and signals nothing. *)
Lemma rescan_publishes fs dir host r (w : World PC) :
  let '(scan, w1) := scan_dir on_problem fs host r dir w in
  let '(r', w') := rescan_closure fs (Some (dir, host)) r w in
  r' = match scan with Ok table => swap_wasm r table | Err _ => r end /\
  reload_signals (w_metrics w') = reload_signals (w_metrics w1) /\ w_signals w' = w_signals w.
Proof.
  pose proof (scan_signals fs host r dir w) as Hs. unfold rescan_closure, rescan_into.
  destruct (scan_dir _ _ _ _ _ _) as [[table|e] w1]; cbn in *; done.
Qed.

(** C25: a batch with an event about the UDF directory publishes before it
    signals: the registry is rescanned, and becomes the directory's content as
    scanned, or stays the previous table when the scan fails, with the built-ins
    untouched either way; one [udf-swap] reload is counted and logged, and the
    process sends itself exactly one [SIGHUP].  At no point between the
    watcher's calls has a signal been sent while the table is not yet the one
    published, so the config the signal re-validates sees it. *)
Theorem udf_batch_publishes_then_reloads g fs armed batch dir host :
  sh_rescans (gw_shared g) = Some (dir, host) -> Exists (udf_event armed) batch ->
  let calls := batch_act armed batch in
  let g' := perform fs calls g in
  let r := sh_registries (gw_shared g) in
  let '(scan, w1) := scan_dir on_problem fs host r dir (gw_world g) in
  let published := match scan with Ok table => swap_wasm r table | Err _ => r end in
  sh_registries (gw_shared g') = published /\
  reload_signals (w_metrics (gw_world g')) =
    at_labels (mkTrigger (str "udf-swap")) counter_inc (reload_signals (w_metrics w1)) /\
  last (w_log (gw_world g')) = Some (ReloadRequested (str "udf-swap")) /\
  w_signals (gw_world g') = w_signals (gw_world g) ++ [SIGHUP] /\
  (forall before after, calls = before ++ after ->
    w_signals (gw_world (perform fs before g)) <> w_signals (gw_world g) ->
    sh_registries (gw_shared (perform fs before g)) = published).
Proof.
  intros Hd Hu. cbv zeta.
  assert (batch_act armed batch = [Rescan; Reload UdfSwap]) as -> by (by destruct (batch_act_calls armed batch)).
  pose proof (rescan_publishes fs dir host (sh_registries (gw_shared g)) (gw_world g)) as H.
  destruct (scan_dir _ _ _ _ _ _) as [scan w1].
  destruct (rescan_closure _ _ _ _) as [r' w'] eqn:Er. destruct H as (Hr & Hm & Hs).
  assert (perform_call fs g Rescan = mkGw (mkShared r' (sh_rescans (gw_shared g)) (sh_watcher (gw_shared g))) w') as Hg
    by (cbn [perform_call]; by rewrite Hd, Er).
  unfold perform. cbn [foldl]. rewrite Hg. cbn. rewrite Hm, Hs, last_snoc. split_and!; [done..|].
  intros [|c1 [|c2 [|c3 before]]] after E Hne; cbn in E; simplify_eq; cbn [foldl] in *; rewrite ?Hg in *; cbn in *; done.
Qed.

(** C36: a directory that cannot be read to the end changes nothing: the table
    of the last good scan keeps serving, whichever modules were already seen,
    and the failure is counted and logged. *)
Theorem failed_rescan_keeps_table fs dir host r (w : World PC) pre e post :
  fs_read_dir fs dir = Ok ((Ok <$> pre) ++ Err e :: post) \/ fs_read_dir fs dir = Err e ->
  let '(r', w') := rescan_closure fs (Some (dir, host)) r w in
  r' = r /\ last (w_log w') = Some (RescanFailed dir e) /\
  exists w1, (scan_dir on_problem fs host r dir w).2 = w1 /\
    udf_rescans (w_metrics w') = at_labels (mkResultL (str "error")) counter_inc (udf_rescans (w_metrics w1)) /\
    registry_merges (w_metrics w') = registry_merges (w_metrics w1).
Proof.
  intros Hfs. unfold rescan_closure, rescan_into.
  assert (exists w1, scan_dir on_problem fs host r dir w = (Err e, w1)) as [w1 ->].
  { unfold scan_dir. destruct Hfs as [-> | ->]; [apply scan_loop_error|eauto]. }
  cbn. rewrite last_snoc. eauto 6.
Qed.

(** ** Initialisation *)

(** What a Lua state that requires the module finds around it. *)
Record Around := mkAround {
  ar_env : Env;
  ar_fs : Fs;
  ar_notify : Notify;
  ar_net : Net;
}.

(** Lua states requiring the module one after the other. *)
Fixpoint requires (states : list Around) (cell : option (Result InitError (Shared PC))) (f : Facade) (w : World PC)
  : list (Result LuaError (Shared PC)) * Facade * World PC :=
  match states with
  | [] => ([], f, w)
  | a :: states =>
      let '(r, cell, f, w) := build_registries (ar_env a) (ar_fs a) (ar_notify a) (ar_net a) cell f w in
      let '(rs, f, w) := requires states cell f w in
      (r :: rs, f, w)
  end.

Lemma requires_cached states r f w :
  requires states (Some r) f w = (replicate (length states) (map_err InitFailed r), f, w).
Proof. induction states as [|a states IH]; cbn; [done|]. by rewrite IH. Qed.

(** The module initialises once per process: the first state to require it
    runs [init_shared], every later one gets the very same registries, or the
    very same failure, without touching the process state, whatever has changed
    in the environment or on disk since. *)
Theorem init_runs_once a states f w :
  let '(r, f1, w1) := init_shared (ar_env a) (ar_fs a) (ar_notify a) (ar_net a) f w in
  requires (a :: states) None f w = (replicate (S (length states)) (map_err InitFailed r), f1, w1).
Proof.
  cbn [requires]. unfold build_registries.
  destruct (init_shared _ _ _ _ f w) as [[r f1] w1]. by rewrite requires_cached.
Qed.
End Gateway.
