(* ===== verification/RefGateway.v ===== *)
(** * RefGateway: concrete instances for the gateway's interfaces

    A [prometheus_client] of association lists, Lua tables as trees, a small
    file system with one good, one broken and one colliding module; and the
    witnesses that the hypotheses of the gateway's theorems can hold. *)

From Stdlib Require Import String.
From S2P Require Import Prelude Text BTree Core Builtins WasmHost Sdk Boundary Examples RefEngine HostSafety TokenBucket Metrics Registries Paths UdfLoader Watcher Exporter Serve Logging Clib Dispatch Gateway.

(** ** [prometheus_client] *)

Section Assoc.
Context {L M : Type} `{EqDecision L}.

Fixpoint assoc_get (d : M) (l : L) (ms : list (L * M)) : M :=
  match ms with
  | [] => d
  | (l', m) :: ms => if decide (l' = l) then m else assoc_get d l ms
  end.

Fixpoint assoc_update (d : M) (l : L) (g : M -> M) (ms : list (L * M)) : list (L * M) :=
  match ms with
  | [] => [(l, g d)]
  | (l', m) :: ms => if decide (l' = l) then (l', g m) :: ms else (l', m) :: assoc_update d l g ms
  end.

Lemma assoc_get_update d l g ms l' :
  assoc_get d l' (assoc_update d l g ms) = if decide (l' = l) then g (assoc_get d l ms) else assoc_get d l' ms.
Proof. induction ms as [|[k m] ms IH]; cbn; repeat (case_decide; cbn); subst; congruence. Qed.

Lemma assoc_update_keys d l g ms l' : l' ∈ (assoc_update d l g ms).*1 <-> l' = l \/ l' ∈ ms.*1.
Proof.
  induction ms as [|[k m] ms IH]; cbn; [set_solver|]. case_decide; cbn; [set_solver|].
  rewrite !elem_of_cons, IH. tauto.
Qed.
End Assoc.

Definition ref_prom : PromClient := {|
  Counter := Z;
  counter_default := 0;
  counter_inc c := c + 1;
  counter_get c := c mod 2 ^ 64;
  Gauge := Z;
  gauge_default := 0;
  gauge_set v _ := v;
  gauge_get g := g;
  Histogram := list f64 * list f64;
  histogram_new bs := (bs, []);
  histogram_observe v h := (h.1, v :: h.2);
  histogram_count h := zlen h.2 mod 2 ^ 64;
  Family L M := (M * list (L * M))%type;
  family_new L M d := (d, []);
  at_labels L M _ l g f := (f.1, assoc_update f.1 l g f.2);
  metric_at L M _ l f := assoc_get f.1 l f.2;
  labels L M f := f.2.*1;
  prom_encode r := concat ((fun x => x.1.1) <$> r);
|}.

#[export] Instance ref_prom_laws : PromClientLaws ref_prom.
Proof.
  constructor; cbn.
  - done.
  - intros c. by rewrite Zplus_mod_idemp_l.
  - intros c. by apply Z.mod_pos_bound.
  - done.
  - done.
  - intros v h. rewrite zlen_cons. by rewrite Zplus_mod_idemp_l.
  - done.
  - intros. apply assoc_get_update.
  - done.
  - intros. apply assoc_update_keys.
Qed.

(** ** [mlua] *)
Record Row := mkRow { strs : list (bytes * bytes); ints : list (bytes * Z) }.
Inductive RTable := RList (items : list RTable) | RRow (r : Row).
Definition row_of (tb : RTable) : Row := match tb with RRow r => r | RList _ => mkRow [] [] end.

Definition find_field {A} (k : bytes) (fs : list (bytes * A)) : option A :=
  snd <$> List.find (fun kv => bool_decide (kv.1 = k)) fs.

Definition ref_lua : Mlua := {|
  LuaTable := RTable;
  raw_len tb := match tb with RList items => zlen items | RRow _ => 0 end;
  get_table tb i :=
    match tb with
    | RList items => ok_or (items !! Z.to_nat (i - 1)) (MluaError (str "not a table"))
    | RRow _ => Err (MluaError (str "not a table"))
    end;
  get_string tb k := ok_or (find_field k (strs (row_of tb))) (MluaError (str "not a string"));
  get_opt_string tb k := Ok (find_field k (strs (row_of tb)));
  get_opt_i64 tb k := Ok (find_field k (ints (row_of tb)));
  create_string bs := Ok bs;
|}.

#[export] Existing Instance ref_lua.
#[export] Existing Instance ref_prom.
#[export] Existing Instance ref_log.

(** The concat example behind an engine with two kilobytes of guest memory. *)
#[export] Instance demo_engine : Wasmtime := ref_engine (sdk_module (simple_user ConcatValues.concat_values) 2048).
#[export] Instance demo_engine_laws : WasmtimeLaws demo_engine := ref_engine_laws _.

(** ** A deployment *)
Definition demo_fs : Fs := {|
  fs_is_dir _ := true;
  fs_read_dir _ := Ok (Ok <$> [str "broken.wasm"; str "concat.wasm"; str "first-hit.wasm"; str "notes.txt"]);
  fs_read p := Ok (if bool_decide (p = str "/udf/broken.wasm") then [] else [Byte.x01]);
  fs_canonicalize cs := Ok (if bool_decide (cs = components (str "/udf")) then str "/udf" else str "/conf");
|}.
Definition demo_env : Env := fun k =>
  if bool_decide (k = UDF_DIR_ENV) then Some (str "/udf")
  else if bool_decide (k = CONFIG_ENV) then Some (str "/conf/config.lua") else None.
Definition demo_notify : Notify := mkNotify (Ok tt) (fun _ => Ok tt) (Ok tt).
Definition demo_world : World ref_prom := mkWorld Metrics_new None None [] [] (fun n => Z.of_nat n * 1000) 0.

Definition demo_net : Net := mkNet unit (fun _ => Ok tt) (fun _ => Ok (str "0.0.0.0:9151")) (Ok tt).

Definition demo_init : Result InitError (Shared ref_prom) * Facade * World ref_prom :=
  init_shared demo_env demo_fs demo_notify demo_net (None, Off) demo_world.

Example demo_init_names :
  match demo_init with
  | (Ok sh, _, w) =>
      reg_names (sh_registries sh) = [str "concat"; str "first-hit"; str "last-write-wins"; str "pool-preferred"] /\
      w_log w = [UdfSkipped (str "/udf/broken.wasm") (str "load-failed")
                   (Failed (CompileError (EngineError (str "empty module"))));
                 UdfSkipped (str "/udf/first-hit.wasm") (str "builtin-collision") Collision;
                 ReloadArmed (str "/conf/config.lua")]
  | _ => False
  end.
Proof. vm_compute. by split. Qed.

Lemma demo_fresh : fresh demo_world.
Proof. done. Qed.

Definition row (pool status value : bytes) : RTable :=
  RRow (mkRow [(str "key", str "k"); (str "pool", pool); (str "status", status); (str "value", value)]
    [(str "elapsed", 120)]).
Definition demo_table : RTable :=
  RList [row (str "a") (str "hit") (str "x"); row (str "b") (str "miss") []; row (str "c") (str "hit") (str "y")].
Definition demo_opts : option RTable := Some (RRow (mkRow [(str "prefix", str "ks")] [(str "start", 5)])).

(** The module is reached through the registry, and its answer comes back. *)
Example demo_merge :
  match demo_init with
  | (Ok sh, _, w) =>
      (lua_merge (sh_registries sh) (str "concat") demo_table demo_opts w).1 = Ok (LString (str "x|y")) /\
      (lua_merge (sh_registries sh) (str "first-hit") demo_table demo_opts w).1 = Ok (LInteger 1)
  | _ => False
  end.
Proof. vm_compute. by split. Qed.

(** The deployment, after it served a merge. *)
Lemma demo_serving :
  exists g : Gw, gw_reachable (ML := ref_lua) g /\ lua_has_merge (sh_registries (gw_shared g)) (str "concat") = true.
Proof.
  destruct demo_init as [[[sh|e] f] w] eqn:E; [|by pose proof demo_init_names as H; rewrite E in H].
  set (w' := (lua_merge (ML := ref_lua) (sh_registries sh) (str "concat") demo_table demo_opts w).2).
  exists (mkGw sh w'). split.
  - eapply gw_next; [|apply gw_merge]. by eapply gw_init; [exact demo_fresh|exact E].
  - assert (match demo_init with (Ok sh, _, _) => lua_has_merge (sh_registries sh) (str "concat") = true | _ => False end) as H
      by (vm_compute; reflexivity). by rewrite E in H.
Qed.

Lemma demo_reachable : exists g : Gw, gw_reachable (ML := ref_lua) g.
Proof. destruct demo_serving as (g & Hg & _). by exists g. Qed.

Lemma gateway_merge_in_range_witness :
  exists g, gw_reachable g /\
  match (lua_merge (sh_registries (gw_shared g)) (str "concat") demo_table demo_opts (gw_world g)).1 with
  | Ok (LInteger j) => 1 <= j <= 3
  | Ok (LString s) => exists bs, zlen bs <= MAX_GUEST_MEMORY_BYTES /\ create_string bs = Ok s
  | Ok LNil => True
  | Err e =>
      name_str (str "concat") = Err e \/ project demo_table = Err e \/
      (e = UnknownMerge (str "concat") /\ reg_has (sh_registries (gw_shared g)) (str "concat") = false) \/
      exists bs, create_string bs = Err e
  end.
Proof.
  destruct demo_reachable as [g Hr].
  exists g. split; [exact Hr|].
  apply (gateway_merge_in_range (ML := ref_lua) g (str "concat") demo_table demo_opts Hr).
  vm_compute. split; discriminate.
Defined.

Lemma gateway_lookups_agree_witness :
  exists g, gw_reachable g /\
  let r := sh_registries (gw_shared g) in
  (lua_has_merge r (str "concat") = true <-> exists flags, lua_required_flags r (str "concat") = Ok flags) /\
  (lua_has_merge r (str "concat") = true <-> str "concat" ∈ reg_names r) /\
  (utf8_valid (str "concat") = false -> lua_has_merge r (str "concat") = false).
Proof.
  destruct demo_reachable as [g Hr].
  exists g. split; [exact Hr|]. apply (gateway_lookups_agree g (str "concat") Hr).
Defined.

Lemma gateway_cardinality_witness :
  exists g, gw_reachable g /\ labels_ok (w_metrics (gw_world g)).
Proof.
  destruct demo_reachable as [g Hr].
  exists g. split; [exact Hr|]. apply (gateway_cardinality g Hr).
Defined.

Lemma gateway_strings_are_text_witness :
  exists g, gw_reachable g /\ text_labels (backend_requests (w_metrics (gw_world g))).
Proof.
  destruct demo_reachable as [g Hr].
  exists g. split; [exact Hr|].
  pose proof (gateway_strings_are_text g Hr) as H. cbv zeta in H.
  destruct H as (_ & _ & _ & _ & H & _). exact H.
Defined.

(** ** Loader witnesses *)
Definition demo_host : WasmHost := mkWasmHost tt.
Definition demo_builtins : Registries (World ref_prom) := Registries_new (register Registry.new).
Definition demo_files : list bytes := [str "broken.wasm"; str "concat.wasm"; str "first-hit.wasm"; str "notes.txt"].

Lemma scan_dir_exact_witness :
  exists table w', scan_dir on_problem demo_fs demo_host demo_builtins (str "/udf") demo_world = (Ok table, w') /\
    bt_wf table /\ forall name e, bt_get name table = Some e <->
      name ++ str ".wasm" ∈ demo_files /\ name <> [] /\ utf8_valid name = true /\
      Registry.has name (builtins demo_builtins) = false /\
      load_module demo_fs demo_host (join (str "/udf") (name ++ str ".wasm")) name = Ok e.
Proof.
  apply (scan_dir_exact on_problem demo_fs demo_host demo_builtins (str "/udf")); [discriminate|reflexivity|].
  repeat constructor.
Defined.

Lemma scan_dir_order_witness :
  (scan_loop on_problem demo_fs demo_host demo_builtins (str "/udf") (Ok <$> demo_files) bt_new demo_world).1 =
  (scan_loop on_problem demo_fs demo_host demo_builtins (str "/udf") (Ok <$> rev demo_files) bt_new demo_world).1.
Proof.
  apply (scan_dir_order on_problem demo_fs demo_host demo_builtins (str "/udf")).
  - discriminate.
  - repeat constructor.
  - intros f. rewrite !list_elem_of_In. apply in_rev.
Defined.

(** ** Observation witnesses *)
Definition demo_wasm : @WasmMerge (ref_engine hostile) := hostile_merge.

Lemma observed_merge_contract_witness :
  w_log (observed_apply (WT := ref_engine hostile) demo_wasm [] demo_world).2 =
    [MergeFailed (str "evil") (str "host") (Msg (WinnerOutOfRange 7 0))] /\
  let '(r, w') := observed_apply (WT := ref_engine hostile) demo_wasm [] demo_world in
  r = wasm_apply (WT := ref_engine hostile) demo_wasm [].
Proof.
  split; [vm_compute; reflexivity|].
  pose proof (observed_merge_contract (WT := ref_engine hostile) ref_prom_laws demo_wasm [] demo_world) as H.
  destruct (observed_apply _ _ _) as [r w']. exact (proj1 H).
Defined.

(** Thirty failing dispatches within three milliseconds: ten lines. *)
Definition storm : list (@WasmMerge (ref_engine hostile) * list Entry) := replicate 30 (demo_wasm, []).
Definition storm_world : World ref_prom := mkWorld Metrics_new None None [] [] (fun n => Z.min (Z.of_nat n) 3000000) 0.

Lemma storm_clock : clock_ok 3000000 storm_world.
Proof. intros i j Hij. cbn. lia. Qed.

Lemma merge_failure_log_bounded_witness :
  zlen (w_log (dispatches (WT := ref_engine hostile) storm storm_world)) = 10 /\
  zlen (w_log (dispatches (WT := ref_engine hostile) storm storm_world)) <= zlen (w_log storm_world) + 10 + 3000000 / 1000000000.
Proof.
  split; [vm_compute; reflexivity|].
  apply (merge_failure_log_bounded (WT := ref_engine hostile) storm storm_world 3000000); [reflexivity|exact storm_clock].
Defined.

(** ** Reload witnesses *)
Definition demo_shared : Shared ref_prom := mkShared demo_builtins (Some (str "/udf", demo_host)) (Some demo_armed).
Definition demo_udf_event : Event := [str "/etc/mcgateway/udf/concat.wasm"].

Lemma udf_batch_publishes_then_reloads_witness :
  let g' := perform demo_fs (batch_act demo_armed [demo_udf_event]) (mkGw demo_shared demo_world) in
  last (w_log (gw_world g')) = Some (ReloadRequested (str "udf-swap")) /\ w_signals (gw_world g') = [SIGHUP].
Proof.
  cbv zeta. assert (Exists (Watcher.udf_event demo_armed) [demo_udf_event]) as He.
  { apply Exists_cons_hd. exists (str "/etc/mcgateway/udf"), (str "/etc/mcgateway/udf/concat.wasm").
    split; [reflexivity|]. split; [constructor|]. right. exists (str "concat"). split; [discriminate|reflexivity]. }
  pose proof (udf_batch_publishes_then_reloads (mkGw demo_shared demo_world) demo_fs demo_armed
    [demo_udf_event] (str "/udf") demo_host eq_refl He) as H. cbv zeta in H.
  destruct (scan_dir _ _ _ _ _ _) as [scan w1]. destruct H as (_ & _ & H1 & H2 & _). split; [exact H1|exact H2].
Defined.

(** The same directory, unreadable after its first entry. *)
Definition torn_fs : Fs := {|
  fs_is_dir _ := true;
  fs_read_dir _ := Ok ((Ok <$> [str "concat.wasm"]) ++ Err (str "EIO") :: []);
  fs_read := fs_read demo_fs;
  fs_canonicalize := fs_canonicalize demo_fs;
|}.

Lemma failed_rescan_keeps_table_witness :
  let '(r', w') := rescan_closure torn_fs (Some (str "/udf", demo_host)) demo_builtins demo_world in
  r' = demo_builtins /\ last (w_log w') = Some (RescanFailed (str "/udf") (str "EIO")).
Proof.
  pose proof (failed_rescan_keeps_table torn_fs (str "/udf") demo_host demo_builtins demo_world
    [str "concat.wasm"] (str "EIO") [] ltac:(left; reflexivity)) as H.
  destruct (rescan_closure _ _ _ _) as [r' w']. destruct H as (H1 & H2 & _). by split.
Defined.

(** ** Exporter witnesses *)

(** A client that connects and stays silent until its read times out. *)
Definition silent_clock (k : nat) : Z := match k with O => 102000500 | _ => 102001000 end.
Definition silent : Incoming := Accepted (PC := ref_prom) Metrics_new silent_clock [ReadErr TimedOut] [].

Lemma exporter_queue_moves_witness :
  turns 1000000 0 [AcceptError; silent] 5102500000 /\
  5102500000 <= 0 + clients [AcceptError; silent] * (5 * 1000000000 + 3 * 1000000)
                  + errors [AcceptError; silent] * (100 * 1000000 + 2 * 1000000).
Proof.
  assert (turns (PC := ref_prom) 1000000 0 [AcceptError; silent] 5102500000) as H.
  { apply (turns_error 1000000 0 102000000 ACCEPT_BACKOFF); [reflexivity|vm_compute; split; discriminate|].
    eapply (turns_served 1000000 102000000 Metrics_new silent_clock _ _ _ _ 5102500000);
      [vm_compute; reflexivity|vm_compute; split; discriminate| |constructor].
    intros k Hk. cbn [c_reads] in Hk. destruct k as [|[|k]]; [| |lia];
      (split; [vm_compute; discriminate|]); intros d [= <-]; vm_compute; discriminate. }
  split; [exact H|]. apply (exporter_queue_moves 1000000 0 [AcceptError; silent]); [lia|exact H].
Defined.
