(* ===== verification/Threads.v ===== *)
(** * Threads: many Lua states at once

    memcached runs one Lua state per worker thread, and they all dispatch through
    this module at the same time.  Here a call of [merge] or of [observe] is a
    sequence of the operations that touch shared state (a clock reading, the load
    of the table, the run of the merge, each single metric update), and the
    operations of any number of calls interleave with each other, with table
    swaps and with whatever else the process does. *)

From Stdlib Require Import String.
From S2P Require Import Prelude Text BTree Core Builtins WasmHost Sdk Boundary Examples RefEngine HostSafety TokenBucket Metrics Registries Paths UdfLoader Watcher Serve Logging Clib Dispatch Gateway RefGateway.

Section Threads.
Context {ML : Mlua} {WT : Wasmtime} {PC : PromClient}.

(** ** Metric updates, one at a time *)

Inductive Update :=
| UMergeDuration (merge : bytes) (seconds : f64)
| UBackend (l : BackendLabels)
| UBackendDuration (l : PoolLabels) (seconds : f64)
| URequest (l : RequestLabels)
| URequestDuration (l : KeyspaceOpLabels) (seconds : f64).

Definition update (u : Update) : Metrics PC -> Metrics PC :=
  match u with
  | UMergeDuration merge seconds => observe_merge_duration merge seconds
  | UBackend l => set_backend_requests (at_labels l counter_inc)
  | UBackendDuration l seconds => set_backend_duration (at_labels l (histogram_observe seconds))
  | URequest l => set_requests (at_labels l counter_inc)
  | URequestDuration l seconds => set_request_duration (at_labels l (histogram_observe seconds))
  end.

(** The updates of [observe_backend], [observe_request] and of the first half of
    [observe_read_dispatch]. *)
Definition backend_updates (o : OwnedEntry) : list Update :=
  UBackend (mkBackendL (o_pool o) (status_label (o_status o))) ::
  match micros_to_seconds <$> o_elapsed o with
  | Some seconds => [UBackendDuration (mkPoolL (o_pool o)) seconds]
  | None => []
  end.

Definition request_updates (l : RequestLabels) (duration : option f64) : list Update :=
  URequest l ::
  match duration with
  | Some seconds => [URequestDuration (mkKeyspaceOp (rq_keyspace l) (rq_op l)) seconds]
  | None => []
  end.

Definition dispatch_updates (merge : bytes) (seconds : f64) (owned : list OwnedEntry) : list Update :=
  UMergeDuration merge seconds :: concat (backend_updates <$> owned).

Definition updates (us : list Update) (m : Metrics PC) : Metrics PC := foldl (fun m u => update u m) m us.

Lemma updates_app us vs m : updates (us ++ vs) m = updates vs (updates us m).
Proof. apply foldl_app. Qed.

Lemma backend_updates_spec o m :
  updates (backend_updates o) m =
  observe_backend (o_pool o) (status_label (o_status o)) (micros_to_seconds <$> o_elapsed o) m.
Proof. unfold backend_updates, observe_backend. by destruct (micros_to_seconds <$> o_elapsed o). Qed.

Lemma request_updates_spec ks op oc d m :
  updates (request_updates (mkRequestL ks op oc) d) m = observe_request ks op oc d m.
Proof. unfold request_updates, observe_request. by destruct d. Qed.

Lemma dispatch_updates_spec merge seconds owned m :
  updates (dispatch_updates merge seconds owned) m = observe_backends owned (observe_merge_duration merge seconds m).
Proof.
  unfold dispatch_updates. cbn [updates foldl update]. generalize (observe_merge_duration merge seconds m). clear m.
  induction owned as [|o owned IH]; intros m; [done|].
  cbn [fmap list_fmap concat]. change (foldl (fun m u => update u m) m ?us) with (updates us m).
  rewrite updates_app, backend_updates_spec. apply IH.
Qed.

(** ** A call, operation by operation *)

Record MergeCall := mkCall { mc_name : bytes; mc_owned : list OwnedEntry; mc_opts : option LuaTable }.

Inductive Pc :=
| PCalled (name : bytes) (entries : LuaTable) (opts : option LuaTable)
| PProjected (c : MergeCall)
| PStarted (c : MergeCall) (merge_started : Z)
| PFound (c : MergeCall) (merge_started : Z) (m : Merge (World PC))
| PRan (c : MergeCall) (merge_started : Z) (result : MergeResult)
| PRecording (c : MergeCall) (result : MergeResult) (todo : list Update)
| PAttributing (c : MergeCall) (result : MergeResult)
| PRequesting (c : MergeCall) (result : MergeResult) (todo : list Update)
| PReturned (c : MergeCall) (result : MergeResult)
| PFailed (e : LuaError)
| PObserve (l : RequestLabels) (start : option Z)
| PObserving (l : RequestLabels) (todo : list Update)
| PObserved (l : RequestLabels).

(** The merge [Registries::apply] finds: a built-in, or the module of the table
    it loaded. *)
Definition reg_find (r : Registries (World PC)) (name : bytes) : option (Merge (World PC)) :=
  match Registry.get name (builtins r) with
  | Some m => Some m
  | None => we_merge <$> bt_get name (wasm r)
  end.

Definition pc_step (r : Registries (World PC)) (pc : Pc) (w : World PC) : Pc * World PC :=
  match pc with
  | PCalled name entries opts =>
      match name_str name with
      | Err e => (PFailed e, w)
      | Ok name =>
          match project entries with
          | Err e => (PFailed e, w)
          | Ok owned => (PProjected (mkCall name owned opts), w)
          end
      end
  | PProjected c => let '(now, w) := Instant_now w in (PStarted c now, w)
  | PStarted c started =>
      match reg_find r (mc_name c) with
      | Some m => (PFound c started m, w)
      | None => (PFailed (UnknownMerge (mc_name c)), w)
      end
  | PFound c started m => let '(result, w) := apply m (as_views (mc_owned c)) w in (PRan c started result, w)
  | PRan c started result =>
      let '(now, w) := Instant_now w in
      (PRecording c result (dispatch_updates (mc_name c) (as_secs_f64 (Z.max 0 (now - started))) (mc_owned c)), w)
  | PRecording c result [] => (PAttributing c result, w)
  | PRecording c result (u :: todo) => (PRecording c result todo, with_metrics (update u) w)
  | PAttributing c result =>
      match attributed (mc_opts c), mc_opts c with
      | Some prefix, Some opts =>
          let '(duration, w) := since (opt_field (get_opt_i64 opts (str "start"))) w in
          (PRequesting c result
             (request_updates (mkRequestL (from_utf8_lossy prefix) (str "read") (read_outcome result (mc_owned c))) duration), w)
      | _, _ => (PReturned c result, w)
      end
  | PRequesting c result [] => (PReturned c result, w)
  | PRequesting c result (u :: todo) => (PRequesting c result todo, with_metrics (update u) w)
  | PObserve l start => let '(duration, w) := since start w in (PObserving l (request_updates l duration), w)
  | PObserving l [] => (PObserved l, w)
  | PObserving l (u :: todo) => (PObserving l todo, with_metrics (update u) w)
  | PReturned _ _ | PFailed _ | PObserved _ => (pc, w)
  end.

(** What a returned call of [merge] gives Lua. *)
Definition returned (result : MergeResult) : Result LuaError LuaValue :=
  match result with
  | Winner i => j ← ok_or (try_i64 (i + 1)) WinnerOverflow; Ok (LInteger j)
  | Synthesized bs => s ← create_string bs; Ok (LString s)
  | MissResult => Ok LNil
  end.

(** ** Alone, a call is the function of the module *)

Definition solo (r : Registries (World PC)) (x y : Pc * World PC) : Prop := y = pc_step r x.1 x.2.

(** Working off a list of updates. *)
Lemma solo_todo r (at_todo : list Update -> Pc) (fin : Pc) :
  (forall w, pc_step r (at_todo []) w = (fin, w)) ->
  (forall u us w, pc_step r (at_todo (u :: us)) w = (at_todo us, with_metrics (update u) w)) ->
  forall us w, rtc (solo r) (at_todo us, w) (fin, with_metrics (updates us) w).
Proof.
  intros Hnil Hcons. induction us as [|u us IH]; intros w.
  - eapply rtc_l; [symmetry; apply Hnil|]. by destruct w.
  - eapply rtc_l; [symmetry; apply Hcons|]. apply (IH (with_metrics (update u) w)).
Qed.

Lemma reg_apply_find r name es (w : World PC) :
  reg_apply r name es w =
  match reg_find r name with Some m => let '(res, w) := apply m es w in (Some res, w) | None => (None, w) end.
Proof. unfold reg_apply, reg_find. destruct (Registry.get _ _); [done|]. by destruct (bt_get _ _). Qed.

Lemma solo_recorded r c started result (w : World PC) :
  let '(now, w1) := Instant_now w in
  rtc (solo r) (PRan c started result, w)
    (PReturned c result, observe_read_dispatch (mc_name c) (as_secs_f64 (Z.max 0 (now - started)))
       (mc_owned c) result (mc_opts c) w1).
Proof.
  cbn [Instant_now]. set (w1 := mkWorld _ _ _ _ _ _ _). set (secs := as_secs_f64 _).
  eapply rtc_l; [reflexivity|]. cbn [pc_step fst snd Instant_now]. fold w1 secs.
  etrans.
  { apply (solo_todo r (PRecording c result) (PAttributing c result)); done. }
  assert (with_metrics (updates (dispatch_updates (mc_name c) secs (mc_owned c))) w1 =
    with_metrics (observe_backends (mc_owned c)) (with_metrics (observe_merge_duration (mc_name c) secs) w1)) as ->.
  { unfold with_metrics. rewrite dispatch_updates_spec. done. }
  unfold observe_read_dispatch. set (w2 := with_metrics (observe_backends _) _).
  destruct c as [name owned opts]. cbn [mc_opts mc_owned mc_name] in *.
  destruct opts as [opts|]; [|by eapply rtc_l; [reflexivity|]].
  destruct (opt_field (get_opt_string opts (str "prefix"))) as [prefix|] eqn:Ep.
  2:{ eapply rtc_l; [reflexivity|]. cbn [pc_step fst snd mc_opts attributed mbind option_bind]. by rewrite Ep. }
  eapply rtc_l; [reflexivity|]. cbn [pc_step fst snd mc_opts mc_owned attributed mbind option_bind]. rewrite Ep.
  destruct (since _ w2) as [duration w3].
  assert (with_metrics (observe_request (from_utf8_lossy prefix) (str "read") (read_outcome result owned) duration) w3 =
    with_metrics (updates (request_updates (mkRequestL (from_utf8_lossy prefix) (str "read") (read_outcome result owned)) duration)) w3) as ->.
  { unfold with_metrics. by rewrite request_updates_spec. }
  apply (solo_todo r (PRequesting (mkCall name owned (Some opts)) result)); done.
Qed.

(** The operations are those of the exported functions: run without
    interruption, they take a call of [merge] to the very value and the very
    process state of [lua_merge], and a call of [observe] to that of
    [lua_observe]. *)
Theorem solo_call_refines r name entries opts (w : World PC) :
  (exists pc, rtc (solo r) (PCalled name entries opts, w) (pc, (lua_merge r name entries opts w).2) /\
    match pc with
    | PReturned _ result => (lua_merge r name entries opts w).1 = returned result
    | PFailed e => (lua_merge r name entries opts w).1 = Err e
    | _ => False
    end) /\
  forall prefix op outcome start,
    let l := mkRequestL (from_utf8_lossy prefix) (op_label (from_utf8_lossy op)) (outcome_label (from_utf8_lossy outcome)) in
    rtc (solo r) (PObserve l start, w) (PObserved l, lua_observe prefix op outcome start w).
Proof.
  split.
  - unfold lua_merge. destruct (name_str name) as [n|e] eqn:En.
    2:{ exists (PFailed e). split; [|done]. eapply rtc_l; [reflexivity|]. cbn. by rewrite En. }
    destruct (project entries) as [owned|e] eqn:Ep.
    2:{ exists (PFailed e). split; [|done]. eapply rtc_l; [reflexivity|]. cbn. by rewrite En, Ep. }
    assert (rtc (solo r) (PCalled name entries opts, w) (PStarted (mkCall n owned opts) (w_time w (w_reads w)), (Instant_now w).2)) as Hs.
    { eapply rtc_l; [reflexivity|]. cbn [pc_step fst snd]. rewrite En, Ep. by eapply rtc_l; [reflexivity|]. }
    cbn [Instant_now snd] in *. set (w1 := mkWorld _ _ _ _ _ _ _) in *. rewrite reg_apply_find.
    destruct (reg_find r n) as [m|] eqn:Ef.
    2:{ exists (PFailed (UnknownMerge n)). split; [|done]. etrans; [exact Hs|].
        eapply rtc_l; [reflexivity|]. cbn. by rewrite Ef. }
    destruct (apply m (as_views owned) w1) as [res w2] eqn:Ea. cbn [fst snd].
    exists (PReturned (mkCall n owned opts) res). split; [|done].
    etrans; [exact Hs|]. eapply rtc_l; [reflexivity|]. cbn [pc_step fst snd mc_name]. rewrite Ef.
    eapply rtc_l; [reflexivity|]. cbn [pc_step fst snd mc_owned]. rewrite Ea.
    exact (solo_recorded r (mkCall n owned opts) (w_time w (w_reads w)) res w2).
  - intros prefix op outcome start. cbv zeta. unfold lua_observe. eapply rtc_l; [reflexivity|]. cbn [pc_step fst snd].
    destruct (since start w) as [duration w1].
    assert (forall ks o oc, with_metrics (observe_request ks o oc duration) w1 =
      with_metrics (updates (request_updates (mkRequestL ks o oc) duration)) w1) as ->.
    { intros. unfold with_metrics. by rewrite request_updates_spec. }
    apply (solo_todo r (PObserving _)); done.
Qed.

(** ** Interleaving *)

(** The families a dispatch records in. *)
Definition same_traffic (m m' : Metrics PC) : Prop :=
  requests m' = requests m /\ backend_requests m' = backend_requests m /\ merge_duration m' = merge_duration m.

(** A merge that leaves the traffic metrics to its caller and names an entry it
    was given, if any. *)
Definition confined (m : Merge (World PC)) : Prop :=
  forall es w, same_traffic (w_metrics w) (w_metrics (apply m es w).2) /\ valid_result (zlen es) (apply m es w).1.

Definition confined_table (table : WasmTable (World PC)) : Prop :=
  forall name e, bt_get name table = Some e -> confined (we_merge e).

Record Pool := mkPool { p_regs : Registries (World PC); p_pcs : list Pc; p_world : World PC }.

(** [th_other] is anything else the process does: the watcher's rescans and
    reloads, the other exported functions, the limiter, the clock. *)
Inductive th_step : Pool -> Pool -> Prop :=
| th_call g name entries opts :
    th_step g (mkPool (p_regs g) (p_pcs g ++ [PCalled name entries opts]) (p_world g))
| th_observe g l start :
    th_step g (mkPool (p_regs g) (p_pcs g ++ [PObserve l start]) (p_world g))
| th_run g i pc :
    p_pcs g !! i = Some pc ->
    th_step g (mkPool (p_regs g) (<[i:=(pc_step (p_regs g) pc (p_world g)).1]> (p_pcs g))
                 (pc_step (p_regs g) pc (p_world g)).2)
| th_swap g table :
    confined_table table -> th_step g (mkPool (swap_wasm (p_regs g) table) (p_pcs g) (p_world g))
| th_other g w :
    same_traffic (w_metrics (p_world g)) (w_metrics w) -> th_step g (mkPool (p_regs g) (p_pcs g) w).

Definition th_init (w : World PC) : Pool := mkPool (Registries_new (register Registry.new)) [] w.

(** ** Accounting *)

(** The series of the traffic metrics. *)
Inductive Series := SBackend (pool : bytes) (s : Status) | SRequest (l : RequestLabels) | SMerge (name : bytes).

Definition hits (ser : Series) (u : Update) : bool :=
  match ser, u with
  | SBackend pool s, UBackend l => bool_decide (l = mkBackendL pool (status_label s))
  | SRequest l, URequest l' => bool_decide (l' = l)
  | SMerge name, UMergeDuration name' _ => bool_decide (name' = name)
  | _, _ => false
  end.

Definition tally (ser : Series) (m : Metrics PC) : Z :=
  match ser with
  | SBackend pool s => count_at (mkBackendL pool (status_label s)) (backend_requests m)
  | SRequest l => count_at l (requests m)
  | SMerge name => histogram_count (metric_at (mkMergeL name) (merge_duration m))
  end.

Definition pending (ser : Series) (us : list Update) : Z := zlen (List.filter (hits ser) us).

(** What a call adds to a series: while it records the dispatch, and when it
    attributes it. *)
Definition dispatch_share (ser : Series) (c : MergeCall) : Z :=
  match ser with
  | SBackend pool s => entries_of pool s (mc_owned c)
  | SRequest _ => 0
  | SMerge name => if bool_decide (mc_name c = name) then 1 else 0
  end.
Definition request_share (ser : Series) (l : option RequestLabels) : Z :=
  match ser with
  | SRequest l' => if bool_decide (l = Some l') then 1 else 0
  | _ => 0
  end.
Definition read_label (c : MergeCall) (result : MergeResult) : option RequestLabels :=
  read_series (mc_opts c) (read_outcome result (mc_owned c)).

(** What it has added so far. *)
Definition share (ser : Series) (pc : Pc) : Z :=
  match pc with
  | PRecording c _ todo => dispatch_share ser c - pending ser todo
  | PAttributing c _ => dispatch_share ser c
  | PRequesting c result todo => dispatch_share ser c + request_share ser (read_label c result) - pending ser todo
  | PReturned c result => dispatch_share ser c + request_share ser (read_label c result)
  | PObserving l todo => request_share ser (Some l) - pending ser todo
  | PObserved l => request_share ser (Some l)
  | _ => 0
  end.

Fixpoint shares (ser : Series) (pcs : list Pc) : Z :=
  match pcs with [] => 0 | pc :: pcs => share ser pc + shares ser pcs end.

Lemma shares_snoc ser pcs pc : shares ser (pcs ++ [pc]) = shares ser pcs + share ser pc.
Proof. induction pcs as [|q pcs IH]; cbn in *; lia. Qed.

Lemma shares_insert ser pcs i pc pc' :
  pcs !! i = Some pc -> shares ser (<[i:=pc']> pcs) = shares ser pcs - share ser pc + share ser pc'.
Proof.
  revert i. induction pcs as [|q pcs IH]; intros i H; [done|]. destruct i as [|i].
  - injection H as <-. cbn. lia.
  - change (<[S i:=pc']> (q :: pcs)) with (q :: <[i:=pc']> pcs). cbn [shares]. rewrite (IH i H). lia.
Qed.

Lemma pending_cons ser u us : pending ser (u :: us) = (if hits ser u then 1 else 0) + pending ser us.
Proof. unfold pending. cbn. destruct (hits ser u); rewrite ?(zlen_cons (A := Update)); lia. Qed.

Lemma pending_app ser us vs : pending ser (us ++ vs) = pending ser us + pending ser vs.
Proof. unfold pending. by rewrite List.filter_app, zlen_app. Qed.

Lemma pending_backend ser o :
  pending ser (backend_updates o) =
  match ser with
  | SBackend pool s => if bool_decide (o_pool o = pool) && bool_decide (o_status o = s) then 1 else 0
  | _ => 0
  end.
Proof.
  unfold backend_updates. rewrite pending_cons.
  assert (forall d, pending ser (match d with Some x => [UBackendDuration (mkPoolL (o_pool o)) x] | None => [] end) = 0) as ->.
  { intros [d|]; [|done]. rewrite pending_cons. by destruct ser. }
  destruct ser as [pool s|l|name]; cbn; [|lia|lia].
  repeat case_bool_decide; subst; try lia; simplify_eq; try done.
  match goal with H : status_label _ = status_label _ |- _ => apply status_label_inj in H; congruence end.
Qed.

Lemma pending_dispatch ser c seconds :
  pending ser (dispatch_updates (mc_name c) seconds (mc_owned c)) = dispatch_share ser c.
Proof.
  unfold dispatch_updates. rewrite pending_cons.
  assert (forall owned, pending ser (concat (backend_updates <$> owned)) =
    match ser with SBackend pool s => entries_of pool s owned | _ => 0 end) as ->.
  { induction owned as [|o owned IH]; [by destruct ser|]. cbn [fmap list_fmap concat].
    rewrite pending_app, pending_backend, IH. destruct ser as [pool s|l|name]; [|lia|lia].
    unfold entries_of. cbn [List.filter]. destruct (_ && _); rewrite ?(zlen_cons (A := OwnedEntry)); lia. }
  destruct ser; cbn; lia.
Qed.

Lemma pending_request ser l d : pending ser (request_updates l d) = request_share ser (Some l).
Proof.
  unfold request_updates. rewrite pending_cons.
  assert (pending ser (match d with Some x => [URequestDuration (mkKeyspaceOp (rq_keyspace l) (rq_op l)) x] | None => [] end) = 0) as ->.
  { destruct d; [|done]. rewrite pending_cons. by destruct ser. }
  destruct ser as [pool s|l'|name]; cbn; [lia| |lia].
  repeat case_bool_decide; simplify_eq; lia.
Qed.

Context {PL : PromClientLaws PC}.

Lemma tally_update ser u m :
  tally ser (update u m) = if hits ser u then (tally ser m + 1) mod 2 ^ 64 else tally ser m.
Proof.
  destruct ser as [pool s|l|name], u; cbn; try done.
  - rewrite count_at_inc. case_decide; case_bool_decide; congruence.
  - rewrite count_at_inc. case_decide; case_bool_decide; congruence.
  - rewrite metric_at_labels. case_decide as E; case_bool_decide as E'; simplify_eq; [apply histogram_observe_count|done].
Qed.

Lemma tally_traffic ser m m' : same_traffic m m' -> tally ser m' = tally ser m.
Proof. intros (Hr & Hb & Hd). destruct ser; cbn; by rewrite ?Hr, ?Hb, ?Hd. Qed.

(** Counters wrap at 2^64, so the books balance modulo it. *)
Definition balanced (ser : Series) (start : Z) (g : Pool) : Prop :=
  tally ser (w_metrics (p_world g)) mod 2 ^ 64 = (start + shares ser (p_pcs g)) mod 2 ^ 64.

(** One operation of one call: what it adds to the tally it adds to its share. *)
Definition moves (ser : Series) (w w' : World PC) (d : Z) : Prop :=
  tally ser (w_metrics w') mod 2 ^ 64 = (tally ser (w_metrics w) + d) mod 2 ^ 64.

Lemma moves_none ser w w' d : w_metrics w' = w_metrics w -> d = 0 -> moves ser w w' d.
Proof. unfold moves. intros -> ->. by rewrite Z.add_0_r. Qed.

Lemma moves_update ser u w d :
  d = (if hits ser u then 1 else 0) -> moves ser w (with_metrics (update u) w) d.
Proof.
  intros ->. unfold moves. cbn. rewrite tally_update. destruct (hits ser u); [by rewrite Z.mod_mod|by rewrite Z.add_0_r].
Qed.

(** What holds of a call on its way. *)
Definition pc_ok (pc : Pc) : Prop :=
  match pc with
  | PFound _ _ m => confined m
  | PRan c _ result | PRecording c result _ | PAttributing c result | PRequesting c result _ | PReturned c result =>
      valid_result (zlen (mc_owned c)) result
  | _ => True
  end.

Lemma pc_step_moves ser r pc w :
  pc_ok pc ->
  moves ser w (pc_step r pc w).2 (share ser (pc_step r pc w).1 - share ser pc).
Proof.
  intros Hc. destruct pc as [name entries opts|c|c st|c st m|c st res|c res [|u todo]|c res|c res [|u todo]|c res|e|l st|l [|u todo]|l];
    cbn [pc_step].
  - destruct (name_str name); [|by apply moves_none]. destruct (project entries); by apply moves_none.
  - by apply moves_none.
  - destruct (reg_find _ _); by apply moves_none.
  - destruct (Hc (as_views (mc_owned c)) w) as [Ht _]. destruct (apply m _ w) as [res w']. cbn [fst snd share] in *.
    unfold moves. rewrite (tally_traffic ser _ _ Ht). f_equal. lia.
  - cbn [Instant_now fst snd]. apply moves_none; [done|]. cbn [share]. rewrite pending_dispatch. lia.
  - apply moves_none; [done|]. cbn [fst share]. change (pending ser []) with 0. lia.
  - apply moves_update. cbn [fst share]. rewrite pending_cons. lia.
  - destruct (attributed (mc_opts c)) as [prefix|] eqn:Ea; destruct (mc_opts c) as [opts|] eqn:Eo; try done.
    + pose proof (since_metrics (opt_field (get_opt_i64 opts (str "start"))) w) as Hs.
      destruct (since _ w) as [d w']. cbn [fst snd share] in *. apply moves_none; [done|].
      rewrite pending_request. unfold read_label, read_series. rewrite Eo, Ea. cbn [fmap option_fmap option_map]. lia.
    + apply moves_none; [done|]. cbn [fst share]. unfold read_label, read_series. rewrite Eo, Ea. cbn.
      destruct ser; cbn; rewrite ?bool_decide_false by done; lia.
    + apply moves_none; [done|]. cbn [fst share]. unfold read_label, read_series. rewrite Eo. cbn.
      destruct ser; cbn; rewrite ?bool_decide_false by done; lia.
  - apply moves_none; [done|]. cbn [fst share]. change (pending ser []) with 0. lia.
  - apply moves_update. cbn [fst share]. rewrite pending_cons. lia.
  - apply moves_none; [done|]. cbn [fst]. lia.
  - apply moves_none; [done|]. cbn [fst]. lia.
  - pose proof (since_metrics st w) as Hs. destruct (since st w) as [d w']. cbn [fst snd share] in *.
    apply moves_none; [done|]. rewrite pending_request. lia.
  - apply moves_none; [done|]. cbn [fst share]. change (pending ser []) with 0. lia.
  - apply moves_update. cbn [fst share]. rewrite pending_cons. lia.
  - apply moves_none; [done|]. cbn [fst]. lia.
Qed.

(** ** Every interleaving *)

Record pool_ok (g : Pool) : Prop := {
  pool_builtins : builtins (p_regs g) = register Registry.new;
  pool_table : confined_table (wasm (p_regs g));
  pool_calls : Forall pc_ok (p_pcs g);
}.

Lemma builtin_confined name m : Registry.get name (register (@Registry.new (World PC))) = Some m -> confined m.
Proof.
  rewrite get_register by done. repeat case_decide; intros [= <-] es w; (split; [done|]); cbn;
    auto using first_hit_valid, lww_valid.
Qed.

Lemma reg_find_confined g name m : pool_ok g -> reg_find (p_regs g) name = Some m -> confined m.
Proof.
  intros [Hb Ht _]. unfold reg_find. destruct (Registry.get name (builtins (p_regs g))) as [b|] eqn:E.
  - intros [= <-]. rewrite Hb in E. by eapply builtin_confined.
  - destruct (bt_get name (wasm (p_regs g))) as [e|] eqn:Ee; [|done]. intros [= <-]. by eapply Ht.
Qed.

Lemma pc_step_ok g pc : pool_ok g -> pc_ok pc -> pc_ok (pc_step (p_regs g) pc (p_world g)).1.
Proof.
  intros Hg. destruct pc as [name entries opts|c|c st|c st m|c st res|c res [|u todo]|c res|c res [|u todo]|c res|e|l st|l [|u todo]|l];
    cbn [pc_step pc_ok]; try done.
  - intros _. destruct (name_str name); [|done]. by destruct (project entries).
  - intros _. destruct (reg_find (p_regs g) (mc_name c)) as [m|] eqn:E; [|done]. by eapply reg_find_confined.
  - intros Hc. destruct (Hc (as_views (mc_owned c)) (p_world g)) as [_ Hv]. destruct (apply m _ _) as [res w']. cbn in *.
    unfold as_views in Hv. by rewrite zlen_fmap in Hv.
  - intros Hv. destruct (attributed (mc_opts c)), (mc_opts c); try done. by destruct (since _ _).
  - intros _. by destruct (since _ _).
Qed.

Lemma th_step_ok g g' : pool_ok g -> th_step g g' -> pool_ok g'.
Proof.
  intros Hg Hs. pose proof Hg as [Hb Ht Hp].
  destruct Hs as [g name entries opts|g l start|g i pc Hi|g table Htab|g w Hw]; constructor; cbn; try done.
  - apply Forall_app. split; [done|]. by apply Forall_singleton.
  - apply Forall_app. split; [done|]. by apply Forall_singleton.
  - apply Forall_insert; [done|]. apply pc_step_ok; [done|]. by eapply Forall_lookup_1.
Qed.

Lemma th_step_balanced ser start g g' : pool_ok g -> balanced ser start g -> th_step g g' -> balanced ser start g'.
Proof.
  intros Hg Hbal Hs. unfold balanced in *.
  destruct Hs as [g name entries opts|g l st|g i pc Hi|g table Htab|g w Hw]; cbn [p_world p_pcs].
  - rewrite shares_snoc. cbn [share]. by rewrite Z.add_0_r.
  - rewrite shares_snoc. cbn [share]. by rewrite Z.add_0_r.
  - pose proof (pc_step_moves ser (p_regs g) pc (p_world g)
      (Forall_lookup_1 _ _ _ _ (pool_calls _ Hg) Hi)) as Hm.
    unfold moves in Hm. rewrite Hm, (shares_insert _ _ _ _ _ Hi).
    rewrite <- Zplus_mod_idemp_l, Hbal, Zplus_mod_idemp_l. f_equal. lia.
  - done.
  - by rewrite (tally_traffic _ _ _ Hw).
Qed.

Lemma pool_init_ok w : pool_ok (th_init w).
Proof. constructor; [done| |constructor]. intros name e H. done. Qed.

(** C11: no update is lost and none is made twice: however the operations of any
    number of dispatches and observations interleave, with each other, with
    table swaps and with the rest of the process, every series of the traffic
    metrics stands at all times at its starting value plus exactly the shares of
    the calls so far (a returned dispatch's share being one result per entry of
    its fan-out, one duration of its merge and one request under its keyspace
    and outcome); and every dispatch that returned chose among its own entries. *)
Theorem no_update_lost w0 g :
  rtc th_step (th_init w0) g ->
  (forall ser, tally ser (w_metrics (p_world g)) mod 2 ^ 64 =
    (tally ser (w_metrics w0) + shares ser (p_pcs g)) mod 2 ^ 64) /\
  forall c result, PReturned c result ∈ p_pcs g -> valid_result (zlen (mc_owned c)) result.
Proof.
  intros Hr.
  assert (pool_ok g /\ forall ser, balanced ser (tally ser (w_metrics w0)) g) as [Hg Hb].
  { eapply (rtc_ind_r (fun g => pool_ok g /\ forall ser, balanced ser (tally ser (w_metrics w0)) g)); [| |exact Hr].
    - split; [apply pool_init_ok|]. intros ser. unfold balanced. cbn. by rewrite Z.add_0_r.
    - intros g1 g2 _ Hs [Hg1 Hb1]. split; [by eapply th_step_ok|]. intros ser. by eapply th_step_balanced. }
  split; [exact Hb|]. intros c result Hin. pose proof (pool_calls _ Hg) as Hall. rewrite Forall_forall in Hall.
  exact (Hall _ Hin).
Qed.

(** ** The tables the watcher publishes qualify *)

Context {WL : WasmtimeLaws WT}.

Lemma observed_confined inner : confined (ObservedMerge inner).
Proof.
  intros es w. split; [|apply observed_valid]. cbn. rewrite observed_metrics. by destruct (run inner es).
Qed.

Lemma scan_loop_confined {S} (on : bytes -> UdfProblem -> ProblemMsg -> S -> S) fs host r dir listing : forall out st,
  bt_wf out -> confined_table out ->
  match (scan_loop on fs host r dir listing out st).1 with Ok table => confined_table table | Err _ => True end.
Proof.
  induction listing as [|[file|e] listing IH]; intros out st Hwf Hok; cbn [scan_loop fst]; [done| |done].
  destruct (bool_decide _); [|by apply IH]. destruct (file_stem _ ≫= to_str) as [name|]; [|by apply IH].
  destruct (Registry.has name _); [by apply IH|].
  destruct (load_module fs host (join dir file) name) as [entry|err] eqn:Hl; [|by apply IH].
  apply IH; [by apply bt_wf_insert|]. intros n e. rewrite bt_get_insert by done. case_decide; [|by apply Hok].
  intros [= <-]. unfold load_module in Hl. inv_ok. apply observed_confined.
Qed.

Lemma scanned_confined {S} (on : bytes -> UdfProblem -> ProblemMsg -> S -> S) fs host r dir st table st' :
  scan_dir on fs host r dir st = (Ok table, st') -> confined_table table.
Proof.
  unfold scan_dir. destruct (fs_read_dir fs dir) as [listing|]; [|done]. intros H.
  pose proof (scan_loop_confined on fs host r dir listing bt_new st) as Hs. rewrite H in Hs. by apply Hs.
Qed.
End Threads.

(** ** Two Lua states in lockstep *)

(** The threads of a schedule, one operation each. *)
Fixpoint run_schedule {ML : Mlua} {PC : PromClient} (schedule : list nat) (g : Pool (PC := PC)) : Pool (PC := PC) :=
  match schedule with
  | [] => g
  | i :: schedule =>
      match p_pcs g !! i with
      | Some pc =>
          let '(pc, w) := pc_step (p_regs g) pc (p_world g) in
          run_schedule schedule (mkPool (p_regs g) (<[i:=pc]> (p_pcs g)) w)
      | None => run_schedule schedule g
      end
  end.

Lemma run_schedule_steps {ML : Mlua} {WT : Wasmtime} {PC : PromClient} schedule : forall g,
  rtc th_step g (run_schedule (PC := PC) schedule g).
Proof.
  induction schedule as [|i schedule IH]; intros g; [constructor|]. cbn [run_schedule].
  destruct (p_pcs g !! i) as [pc|] eqn:E; [|apply IH].
  pose proof (th_run g i pc E) as Hs. destruct (pc_step (p_regs g) pc (p_world g)) as [pc' w].
  eapply rtc_l; [exact Hs|apply IH].
Qed.

Definition two_calls : Pool (ML := ref_lua) (PC := ref_prom) :=
  mkPool (p_regs (th_init (ML := ref_lua) demo_world))
    [PCalled (str "first-hit") demo_table demo_opts; PCalled (str "pool-preferred") demo_table demo_opts] demo_world.
Definition lockstep : list nat := concat (replicate 16 [0%nat; 1%nat]).
Definition both_done : Pool (ML := ref_lua) (PC := ref_prom) := run_schedule lockstep two_calls.

Lemma both_done_reachable : rtc th_step (th_init (ML := ref_lua) demo_world) both_done.
Proof.
  eapply rtc_l; [apply (th_call (ML := ref_lua) (th_init (ML := ref_lua) demo_world) (str "first-hit") demo_table demo_opts)|].
  eapply rtc_l; [apply (th_call (ML := ref_lua) _ (str "pool-preferred") demo_table demo_opts)|].
  apply run_schedule_steps.
Qed.

Lemma no_update_lost_witness :
  tally (SRequest (mkRequestL (str "ks") (str "read") (str "hit"))) (w_metrics (p_world both_done)) = 2 /\
  tally (SBackend (str "b") Miss) (w_metrics (p_world both_done)) mod 2 ^ 64 =
    (tally (SBackend (str "b") Miss) (w_metrics demo_world) + shares (SBackend (str "b") Miss) (p_pcs both_done)) mod 2 ^ 64.
Proof.
  split; [vm_compute; reflexivity|].
  exact (proj1 (no_update_lost demo_world both_done both_done_reachable) (SBackend (str "b") Miss)).
Defined.
