(* ===== verification/Routes.v ===== *)
(** * Routes: handlers and routers ([src/lua/mcgateway/routes.lua])

    The read handler from request to reply, through the entries, the native merge
    and the reply selection; the write handlers with the reduction of their
    responses; the routers that choose a handler by the key's prefix.  memcached's
    request context is an argument (what each handle's response turns out to be),
    and a handler returns what it enqueued beside its reply. *)

From Stdlib Require Import String.
From S2P Require Import Prelude Text BTree Core Builtins WasmHost Sdk Boundary Examples RefEngine HostSafety TokenBucket Metrics Registries Paths UdfLoader Watcher Exporter Serve Logging Clib Lua Entries Dispatch Config Reload Gateway RefGateway.

(** ** What the handlers use of the proxy *)
Class McpRequests := {
  Request : Type;
  req_key : Request -> bytes;
  raw_line : Request -> bytes;
  raw_value : Request -> option bytes;
  (** [r:flag_add(f)]: the request afterwards *)
  flag_add : Request -> byte -> Request;
  (** [mcp.request(line, value)] *)
  mk_request : bytes -> option bytes -> Request;
  MCMC_CODE_STORED : Z;
  MCMC_CODE_DELETED : Z;
  MCMC_CODE_OK : Z;
}.

(** The request context: the response each handle has after the wait, and what
    waiting for one handle returns.  Handles are numbered from 0. *)
Record Rctx := mkRctx { res_any : nat -> option Res; wait_handle : nat -> option Res }.

Definition UNKNOWN_KEYSPACE : bytes := str "SERVER_ERROR unknown keyspace" ++ crlf.
Definition UDF_NOT_SUPPORTED : bytes := str "SERVER_ERROR udf not supported" ++ crlf.
Definition MULTIKEY_UNSUPPORTED : bytes := str "SERVER_ERROR multi-key not supported" ++ crlf.
Definition NO_BACKENDS : bytes := str "SERVER_ERROR no backends available" ++ crlf.

(** Metric outcome label per rank. *)
Definition write_outcome (rank : Z) : bytes :=
  if rank =? 1 then str "stored" else if rank =? 2 then str "negative" else str "error".

Section Handlers.
Context {ML : Mlua} {MB : MluaBuild ML} {WT : Wasmtime} {PC : PromClient} {MR : McpRequests}.

(** What a handler did: its reply ([None] is [nil]), the requests it enqueued,
    each with the handles it went to, and the process state. *)
Record Handled := mkHandled {
  h_reply : Result Raised (option Reply);
  h_sent : list (Request * list nat);
  h_world : World PC;
}.

(** ** Reads *)

(** [row[j] = rctx:res_any(handles[j])] for [j] from 1 to [n_pools]; a handle that
    is [nil] is refused by the proxy. *)
Definition read_row (rctx : Rctx) (n_handles : nat) (n_pools : Z) : Result Raised (list (option Res)) :=
  if n_pools <=? Z.of_nat n_handles then Ok (res_any rctx <$> seq 0 (Z.to_nat n_pools))
  else Err NilHandle.

Definition read_opts (prefix : bytes) (start : Z) : LuaTable :=
  new_record [(str "prefix", VStr prefix); (str "start", VInt start)].

Definition read_handler (registries : Registries (World PC)) (rctx : Rctx) (n_handles : nat) (prefix : bytes)
  (pool_names : Seq) (merge_name merge_flags : bytes) (r : Request) (w : World PC) : Handled :=
  let '(start, w) := now_nanos w in
  let key := req_key r in
  if has_byte hash_sign key then
    mkHandled (Ok (Some (ReplyStr MULTIKEY_UNSUPPORTED))) [] (lua_observe prefix (str "read") (str "error") (Some start) w)
  else
    let r := foldl flag_add r merge_flags in
    let sent := [(r, seq 0 n_handles)] in
    match read_row rctx n_handles (seq_len pool_names) with
    | Err e => mkHandled (Err e) sent w
    | Ok row =>
        let entries := build key (items pool_names) row in
        let '(winner_idx, w) :=
          lua_merge registries merge_name (new_seq (entry_table <$> entries)) (Some (read_opts prefix start)) w in
        match winner_idx with
        | Err e => mkHandled (Err (NativeError e)) sent w
        | Ok winner_idx => mkHandled (Ok (Some (lua_reply winner_idx entries))) sent w
        end
    end.

(** ** Writes *)

Definition write_rank (res : option Res) : Z :=
  match res with
  | None => 3
  | Some res =>
      if negb (res_ok res) then 3
      else if (res_code res =? MCMC_CODE_STORED) || (res_code res =? MCMC_CODE_DELETED) || (res_code res =? MCMC_CODE_OK)
      then 1 else 2
  end.

Fixpoint reduce_loop (responses : list (option Res)) (worst : option Res) (worst_rank : Z) : option Res * Z :=
  match responses with
  | [] => (worst, worst_rank)
  | res :: responses =>
      let rank := write_rank res in
      if rank >? worst_rank then reduce_loop responses res rank
      else if (rank =? worst_rank) && bool_decide (worst = None) && bool_decide (is_Some res)
      then reduce_loop responses res worst_rank
      else reduce_loop responses worst worst_rank
  end.

Definition reduce_write_all (rctx : Rctx) (n_handles : nat) : Reply * Z :=
  match reduce_loop (res_any rctx <$> seq 0 n_handles) None (-1) with
  | (Some res, rank) => (ReplyRes res, rank)
  | (None, _) => (ReplyStr NO_BACKENDS, 3)
  end.

Definition fanout_write (r : Request) (n_handles : nat) : list (Request * list nat) :=
  (fun h => (mk_request (raw_line r ++ crlf) (raw_value r), [h])) <$> seq 0 n_handles.

Definition write_handler (rctx : Rctx) (n_handles : nat) (prefix : bytes) (policy : WritePolicy) (r : Request)
  (w : World PC) : Handled :=
  let '(start, w) := now_nanos w in
  let sent := fanout_write r n_handles in
  match policy with
  | First =>
      match n_handles with
      | O => mkHandled (Err NilHandle) sent w
      | S _ =>
          let res := wait_handle rctx 0 in
          mkHandled (Ok (ReplyRes <$> res)) sent
            (lua_observe prefix (str "write") (write_outcome (write_rank res)) (Some start) w)
      end
  | All =>
      let '(res, rank) := reduce_write_all rctx n_handles in
      mkHandled (Ok (Some res)) sent (lua_observe prefix (str "write") (write_outcome rank) (Some start) w)
  end.

(** ** Function generators and routers *)

Context {MP : McpPools}.

(** [ipairs] over a table of pools: up to the first [nil]. *)
Fixpoint new_handles (pools : list (option Pool)) : list Pool :=
  match pools with
  | Some p :: pools => p :: new_handles pools
  | _ => []
  end.

Inductive Fgen :=
| ReadFgen (handles : list Pool) (prefix : bytes) (pool_names : Seq) (merge_name merge_flags : bytes)
| WriteFgen (handles : list Pool) (prefix : bytes) (policy : WritePolicy)
| CountingFgen (prefix op outcome msg : bytes).

Definition read_fgen (ks : Keyspace) : Fgen :=
  ReadFgen (new_handles (ks_read_pools ks)) (ks_prefix ks) (ks_read_names ks) (ks_merge_name ks) (ks_merge_flags ks).
Definition write_fgen (ks : Keyspace) : Fgen :=
  WriteFgen (new_handles (ks_write_pools ks)) (ks_prefix ks) (ks_write_policy ks).

(** Running the function a generator makes on a request. *)
Definition run_fgen (registries : Registries (World PC)) (f : Fgen) (rctx : Rctx) (r : Request) (w : World PC) : Handled :=
  match f with
  | ReadFgen handles prefix pool_names merge_name merge_flags =>
      read_handler registries rctx (length handles) prefix pool_names merge_name merge_flags r w
  | WriteFgen handles prefix policy => write_handler rctx (length handles) prefix policy r w
  | CountingFgen prefix op outcome msg =>
      mkHandled (Ok (Some (ReplyStr msg))) [] (lua_observe prefix op outcome None w)
  end.

Record Router := mkRouter { rt_map : gmap bytes Fgen; rt_stop : byte; rt_default : Fgen }.

(** [table.concat(names, ",")]. *)
Fixpoint concat_with (sep : byte) (l : list bytes) : bytes :=
  match l with
  | [] => []
  | [x] => x
  | x :: l => x ++ sep :: concat_with sep l
  end.

Definition comma : byte := Byte.x2c.
Definition names_reply (names : list bytes) : bytes := va_reply (concat_with comma names).

Definition build_routers (registries : Registries (World PC)) (keyspaces_built : gmap bytes Keyspace) : Router * Router :=
  let read_map := <[str "__udf" := CountingFgen (str "__udf") (str "read") (str "error") UDF_NOT_SUPPORTED]>
                    (read_fgen <$> keyspaces_built) in
  let write_map := <[str "__udf" := CountingFgen (str "__udf") (str "write") (str "error") UDF_NOT_SUPPORTED]>
                     (write_fgen <$> keyspaces_built) in
  let read_map := <[str "__mcgw" := CountingFgen (str "__mcgw") (str "read") (str "hit") (names_reply (lua_names registries).*2)]> read_map in
  let write_map := <[str "__mcgw" := CountingFgen (str "__mcgw") (str "write") (str "error") UDF_NOT_SUPPORTED]> write_map in
  (mkRouter read_map colon (CountingFgen (str "__unknown__") (str "read") (str "error") UNKNOWN_KEYSPACE),
   mkRouter write_map colon (CountingFgen (str "__unknown__") (str "write") (str "error") UNKNOWN_KEYSPACE)).

(** The commands [attach] binds. *)
Inductive Cmd := CMD_MG | CMD_MS | CMD_MD.
Definition attach (registries : Registries (World PC)) (keyspaces_built : gmap bytes Keyspace) (c : Cmd) : Router :=
  let '(read_router, write_router) := build_routers registries keyspaces_built in
  match c with CMD_MG => read_router | CMD_MS | CMD_MD => write_router end.
End Handlers.
Arguments Handled {PC MR}.

(** What the proxy documents of requests: a flag added is there, with those that
    were; a request made of a line and a value has them. *)
Class McpRequestsLaws (MR : McpRequests) := {
  has_flag : Request -> byte -> bool;
  flag_add_has r f : has_flag (flag_add r f) f = true;
  flag_add_keeps r f g : has_flag r g = true -> has_flag (flag_add r f) g = true;
  mk_request_line line value : raw_line (mk_request (line ++ crlf) value) = line;
  mk_request_value line value : raw_value (mk_request line value) = value;
}.

(** ** Writes *)

Section Writes.
Context {PC : PromClient} {PL : PromClientLaws PC} {MR : McpRequests} {RL : McpRequestsLaws MR}.

(** The first concrete response of a rank. *)
Definition first_of (rank : Z) (rs : list (option Res)) : option Res :=
  mjoin (List.find (fun o => bool_decide (is_Some o) && (write_rank o =? rank)) rs).

Definition worst_of (base : Z) (rs : list (option Res)) : Z := foldr (fun o m => Z.max (write_rank o) m) base rs.

Lemma worst_of_cons o rs b : worst_of b (o :: rs) = Z.max (write_rank o) (worst_of b rs).
Proof. done. Qed.

Lemma worst_of_base rs a b : worst_of (Z.max a b) rs = Z.max a (worst_of b rs).
Proof. induction rs as [|o rs IH]; [done|]. rewrite !worst_of_cons, IH. lia. Qed.

Lemma worst_of_ge rs b : b <= worst_of b rs.
Proof. induction rs as [|o rs IH]; [done|]. rewrite worst_of_cons. lia. Qed.

(** The loop keeps the first concrete response of the greatest rank. *)
Lemma reduce_loop_spec rs : forall worst rank,
  let m := worst_of rank rs in
  reduce_loop rs worst rank =
  (match (if m =? rank then worst else None) with Some res => Some res | None => first_of m rs end, m).
Proof.
  induction rs as [|o rs IH]; intros worst rank; cbv zeta.
  { cbn. rewrite Z.eqb_refl. by destruct worst. }
  rewrite worst_of_cons. cbn [reduce_loop]. pose proof (worst_of_ge rs rank) as Hge.
  unfold first_of in *. cbn [List.find].
  destruct (Z.gtb_spec (write_rank o) rank) as [Hgt|Hle].
  - rewrite IH. replace (worst_of (write_rank o) rs) with (Z.max (write_rank o) (worst_of rank rs))
      by (rewrite <- worst_of_base; f_equal; lia).
    rewrite (proj2 (Z.eqb_neq (Z.max _ _) rank)) by lia. f_equal.
    rewrite (Z.eqb_sym (write_rank o)). destruct (Z.eqb_spec (Z.max (write_rank o) (worst_of rank rs)) (write_rank o)) as [E|E].
    + destruct o as [res|]; [|done]. by rewrite bool_decide_true by eauto.
    + by rewrite andb_false_r.
  - replace (Z.max (write_rank o) (worst_of rank rs)) with (worst_of rank rs) by lia.
    destruct (Z.eqb_spec (write_rank o) rank) as [E|E]; cbn [andb].
    + destruct worst as [res|]; cbn [andb bool_decide].
      * rewrite bool_decide_false by done. cbn [andb]. rewrite IH. f_equal.
        destruct (Z.eqb_spec (worst_of rank rs) rank); [done|]. rewrite (proj2 (Z.eqb_neq (write_rank o) _)) by lia.
        by rewrite andb_false_r.
      * rewrite (bool_decide_true (None = None)) by done. cbn [andb]. destruct (bool_decide_reflect (is_Some o)) as [[res ->]|Hn].
        -- rewrite IH. f_equal. rewrite E, (Z.eqb_sym rank). by destruct (worst_of rank rs =? rank).
        -- by rewrite IH.
    + rewrite IH. f_equal. rewrite (proj2 (Z.eqb_neq (write_rank o) _)) by lia. by rewrite andb_false_r.
Qed.

(** What a client of a write to all pools is owed: the first pool's concrete
    error, if one gave one; else the generic error, if a pool gave nothing; else
    the first negative answer; else the first success. *)
Definition strongest (rs : list (option Res)) : Reply * Z :=
  match first_of 3 rs with
  | Some res => (ReplyRes res, 3)
  | None =>
      if bool_decide (None ∈ rs) then (ReplyStr NO_BACKENDS, 3)
      else match first_of 2 rs, first_of 1 rs with
           | Some res, _ => (ReplyRes res, 2)
           | None, Some res => (ReplyRes res, 1)
           | None, None => (ReplyStr NO_BACKENDS, 3)
           end
  end.

Lemma write_rank_range o : 1 <= write_rank o <= 3.
Proof. destruct o as [res|]; cbn; [|lia]. destruct (res_ok res); cbn; [|lia]. destruct (_ || _); lia. Qed.

Lemma worst_of_elem rs b : worst_of b rs = b \/ exists o, o ∈ rs /\ write_rank o = worst_of b rs.
Proof.
  induction rs as [|o rs IH]; [by left|]. rewrite worst_of_cons.
  destruct (Z.max_spec (write_rank o) (worst_of b rs)) as [[? ->]|[? ->]].
  - destruct IH as [|(o' & ? & ?)]; [by left|]. right. exists o'. set_solver.
  - right. exists o. set_solver.
Qed.

Lemma worst_of_max rs b o : o ∈ rs -> write_rank o <= worst_of b rs.
Proof. induction rs as [|o' rs IH]; [set_solver|]. intros [->|Hin%IH]%elem_of_cons; rewrite worst_of_cons; lia. Qed.

Lemma first_of_spec rank rs :
  match first_of rank rs with
  | Some res => Some res ∈ rs /\ write_rank (Some res) = rank
  | None => forall res, Some res ∈ rs -> write_rank (Some res) <> rank
  end.
Proof.
  unfold first_of. destruct (List.find _ rs) as [o|] eqn:E.
  - apply List.find_some in E as [Hin [Hs Hr]%andb_prop]. apply bool_decide_eq_true in Hs as [res ->].
    apply list_elem_of_In in Hin. apply Z.eqb_eq in Hr. done.
  - intros res Hin%list_elem_of_In. apply (List.find_none _ _ E) in Hin. rewrite bool_decide_true in Hin by eauto.
    by apply Z.eqb_neq.
Qed.

Lemma reduce_strongest rctx n : reduce_write_all rctx n = strongest (res_any rctx <$> seq 0 n).
Proof.
  unfold reduce_write_all. generalize (res_any rctx <$> seq 0 n) as rs. intros rs. rewrite reduce_loop_spec. cbv zeta.
  replace (match (if worst_of (-1) rs =? -1 then None else None) with Some res => Some res | None => first_of (worst_of (-1) rs) rs end)
    with (first_of (worst_of (-1) rs) rs) by (by destruct (_ =? _)).
  assert (forall r, first_of r rs = None <-> forall res, Some res ∈ rs -> write_rank (Some res) <> r) as Hnone.
  { intros r. pose proof (first_of_spec r rs) as H. destruct (first_of r rs) as [res|]; [|done].
    split; [done|]. intros H'. destruct H as [Hin Hr]. by destruct (H' res Hin). }
  assert (forall r, worst_of (-1) rs < r -> first_of r rs = None) as Hbig.
  { intros r Hr. apply Hnone. intros res Hin E. pose proof (worst_of_max rs (-1) _ Hin). lia. }
  unfold strongest. destruct (worst_of_elem rs (-1)) as [E|(o & Hin & E)].
  - assert (rs = []) as ->; [|done]. destruct rs as [|o rs]; [done|]. 
    pose proof (worst_of_max (o :: rs) (-1) o ltac:(set_solver)). pose proof (write_rank_range o). lia.
  - pose proof (write_rank_range o). destruct (decide (worst_of (-1) rs = 3)) as [E3|E3].
    + rewrite E3. destruct (first_of 3 rs) as [res|] eqn:F; [done|]. rewrite bool_decide_true; [done|].
      destruct o as [res|]; [|done]. rewrite Hnone in F. destruct (F res Hin). lia.
    + rewrite (Hbig 3) by lia. rewrite bool_decide_false.
      2:{ intros Hn. pose proof (worst_of_max rs (-1) _ Hn) as Hm. cbn in Hm. lia. }
      destruct o as [res|]; [|cbn in *; lia].
      destruct (decide (worst_of (-1) rs = 2)) as [E2|E2].
      * rewrite E2. destruct (first_of 2 rs) eqn:F; [done|]. rewrite Hnone in F. destruct (F res Hin). lia.
      * rewrite (Hbig 2) by lia. assert (worst_of (-1) rs = 1) as -> by lia.
        by destruct (first_of 1 rs).
Qed.

(** What the three kinds of answer of a pool to a write are. *)
Definition succeeds (res : Res) : Prop :=
  res_ok res = true /\ res_code res ∈ [MCMC_CODE_STORED; MCMC_CODE_DELETED; MCMC_CODE_OK].
Definition negative (res : Res) : Prop :=
  res_ok res = true /\ ~ (res_code res ∈ [MCMC_CODE_STORED; MCMC_CODE_DELETED; MCMC_CODE_OK]).
Definition errs (res : Res) : Prop := res_ok res = false.

Lemma success_code (z : Z) :
  (z =? MCMC_CODE_STORED) || (z =? MCMC_CODE_DELETED) || (z =? MCMC_CODE_OK) =
  bool_decide (z ∈ [MCMC_CODE_STORED; MCMC_CODE_DELETED; MCMC_CODE_OK]).
Proof.
  apply eq_true_iff_eq. rewrite bool_decide_eq_true, !orb_true_iff, !Z.eqb_eq, !elem_of_cons, elem_of_nil. tauto.
Qed.

Lemma rank_kinds res :
  (write_rank (Some res) = 1 <-> succeeds res) /\ (write_rank (Some res) = 2 <-> negative res) /\
  (write_rank (Some res) = 3 <-> errs res).
Proof.
  unfold succeeds, negative, errs. cbn. rewrite success_code.
  destruct (res_ok res); cbn; [|naive_solver]. case_bool_decide; naive_solver.
Qed.

(** [first_in P rs res]: the first pool whose answer is [P] answered [res]. *)
Definition first_in (P : Res -> Prop) (rs : list (option Res)) (res : Res) : Prop :=
  exists j, rs !! j = Some (Some res) /\ P res /\ forall i res', (i < j)%nat -> rs !! i = Some (Some res') -> ~ P res'.

Lemma first_of_first (P : Res -> Prop) rank rs res :
  (forall res, write_rank (Some res) = rank <-> P res) -> first_of rank rs = Some res -> first_in P rs res.
Proof.
  intros HP. unfold first_of, first_in. induction rs as [|o rs IH]; [done|]. cbn [List.find].
  destruct (bool_decide _ && _) eqn:E.
  - cbn. intros ->. apply andb_prop in E as [_ E%Z.eqb_eq]. exists O. split; [done|]. split; [by apply HP|lia].
  - intros (j & Hj & Hp & Hf)%IH. exists (S j). split_and!; [done|done|]. intros [|i] res' Hi H; [|by eapply Hf; [|exact H]; lia].
    cbn in H. injection H as ->. intros Hr%HP. rewrite bool_decide_true in E by eauto. by rewrite Hr, Z.eqb_refl in E.
Qed.

(** The cases of the reduction, by what the pools answered. *)
Inductive reduced (rs : list (option Res)) : Reply -> Prop :=
| red_error res : first_in errs rs res -> reduced rs (ReplyRes res)
| red_silent : (forall res, Some res ∈ rs -> ~ errs res) -> None ∈ rs -> reduced rs (ReplyStr NO_BACKENDS)
| red_negative res : (forall res, Some res ∈ rs -> ~ errs res) -> ~ (None ∈ rs) -> Some res ∈ rs -> negative res ->
    reduced rs (ReplyRes res)
| red_success res : Forall (fun o => exists res, o = Some res /\ succeeds res) rs -> head rs = Some (Some res) ->
    succeeds res -> reduced rs (ReplyRes res)
| red_empty : rs = [] -> reduced rs (ReplyStr NO_BACKENDS).

Lemma strongest_cases rs : reduced rs (strongest rs).1.
Proof.
  unfold strongest. pose proof (first_of_spec 3 rs) as H3. destruct (first_of 3 rs) as [res|] eqn:E3.
  { apply red_error. eapply first_of_first; [|exact E3]. apply rank_kinds. }
  assert (forall res, Some res ∈ rs -> ~ errs res) as He by (intros res Hin He%rank_kinds; by destruct (H3 res Hin)).
  case_bool_decide as Hnone; [by apply red_silent|]. pose proof (first_of_spec 2 rs) as H2.
  destruct (first_of 2 rs) as [res|].
  { destruct H2 as [Hin Hr%rank_kinds]. by apply red_negative. }
  assert (forall o, o ∈ rs -> exists res, o = Some res /\ succeeds res) as Hall.
  { intros [res|] Hin; [|done]. exists res. split; [done|]. apply rank_kinds.
    pose proof (write_rank_range (Some res)). specialize (H3 res Hin). specialize (H2 res Hin). lia. }
  destruct rs as [|o rs]; [by apply red_empty|].
  destruct (Hall o ltac:(left)) as (res & -> & Hs).
  assert (first_of 1 (Some res :: rs) = Some res) as ->.
  { unfold first_of. cbn [List.find]. rewrite bool_decide_true by eauto.
    by rewrite (proj2 (Z.eqb_eq _ _) (proj2 (proj1 (rank_kinds res)) Hs)). }
  apply red_success; [by apply Forall_forall|done|done].
Qed.

Lemma kinds_exclusive res : (succeeds res -> ~ errs res /\ ~ negative res) /\ (negative res -> ~ errs res).
Proof. unfold succeeds, negative, errs. naive_solver congruence. Qed.

Lemma write_all_cases rs reply o :
  reduced rs reply -> head rs = Some o ->
  ((exists res, Some reply = Some (ReplyRes res) /\ succeeds res) <->
    Forall (fun o => exists res, o = Some res /\ succeeds res) rs) /\
  (Forall (fun o => exists res, o = Some res /\ succeeds res) rs -> Some reply = ReplyRes <$> o) /\
  (forall res, Some res ∈ rs -> errs res -> exists first, Some reply = Some (ReplyRes first) /\ first_in errs rs first) /\
  (forall res, Some res ∈ rs -> negative res -> Forall (fun o => exists res, o = Some res /\ ~ errs res) rs ->
    exists neg, Some reply = Some (ReplyRes neg) /\ Some neg ∈ rs /\ negative neg) /\
  (Forall (fun o => o = None) rs -> Some reply = Some (ReplyStr NO_BACKENDS)) /\
  match Some reply with
  | Some (ReplyRes res) => Some res ∈ rs
  | Some (ReplyStr bs) => bs = NO_BACKENDS /\ None ∈ rs
  | None => False
  end.
Proof.
  intros Hr Hh. assert (forall P, Forall P rs -> forall o, o ∈ rs -> P o) as Hf by (intros P; apply Forall_forall).
  assert (o ∈ rs) as Ho by (destruct rs; [done|injection Hh as ->; left]).
  destruct Hr as [res (j & Hj & He & Hfirst)|He Hn|res He Hn Hin Hneg|res Hall Hres Hs|Hnil].
  - pose proof (list_elem_of_lookup_2 _ _ _ Hj) as Hin. split_and!.
    + split; [intros (? & [= <-] & Hs%kinds_exclusive); tauto|].
      intros H. destruct (Hf _ H _ Hin) as (? & [= <-] & Hs%kinds_exclusive). tauto.
    + intros H. destruct (Hf _ H _ Hin) as (? & [= <-] & Hs%kinds_exclusive). tauto.
    + intros _ _ _. exists res. split; [done|]. by exists j.
    + intros _ _ _ H. by destruct (Hf _ H _ Hin) as (? & [= <-] & ?).
    + intros H. by specialize (Hf _ H _ Hin).
    + done.
  - split_and!; [..|done|done|done].
    + split; [by intros (? & ? & _)|]. intros H. by destruct (Hf _ H _ Hn) as (? & ? & _).
    + intros H. by destruct (Hf _ H _ Hn) as (? & ? & _).
    + intros res Hin Hb. by destruct (He res Hin).
    + intros res _ _ H. by destruct (Hf _ H _ Hn) as (? & ? & _).
  - split_and!.
    + split; [intros (? & [= <-] & Hs%kinds_exclusive); tauto|].
      intros H. destruct (Hf _ H _ Hin) as (? & [= <-] & Hs%kinds_exclusive). tauto.
    + intros H. destruct (Hf _ H _ Hin) as (? & [= <-] & Hs%kinds_exclusive). tauto.
    + intros res' Hin' Hb. by destruct (He res' Hin').
    + intros _ _ _ _. by exists res.
    + intros H. by specialize (Hf _ H _ Hin).
    + done.
  - rewrite Hh in Hres. injection Hres as ->. split_and!; [|done|..|done].
    + split; [done|]. intros _. by exists res.
    + intros res' Hin' Hb. destruct (Hf _ Hall _ Hin') as (? & [= <-] & Hs'%kinds_exclusive). tauto.
    + intros res' Hin' Hb. destruct (Hf _ Hall _ Hin') as (? & [= <-] & Hs'%kinds_exclusive). tauto.
    + intros H. by specialize (Hf _ H _ Ho).
  - by subst rs.
Qed.

(** C15: what the client of a write sees.  Under [first] it is the first listed
    pool's response.  Under [all] it is a success exactly when there is a pool and
    every pool returned a success, and then the first pool's response; a concrete
    error of some pool is never suppressed: the reply is the first such error;
    when every pool answered and none with an error, some negatively, the reply is
    one of those negative responses as it is; and the generic "no backends
    available" is the reply when no pool gave a response, and only when some pool
    gave none (or there is no pool). *)
Theorem write_policies rctx n prefix policy r (w : World PC) :
  (0 < n)%nat ->
  exists reply, h_reply (write_handler rctx n prefix policy r w) = Ok reply /\
  match policy with
  | First => reply = ReplyRes <$> wait_handle rctx 0
  | All =>
      let rs := res_any rctx <$> seq 0 n in
      ((exists res, reply = Some (ReplyRes res) /\ succeeds res) <->
        Forall (fun o => exists res, o = Some res /\ succeeds res) rs) /\
      (Forall (fun o => exists res, o = Some res /\ succeeds res) rs ->
        reply = ReplyRes <$> res_any rctx 0) /\
      (forall res, Some res ∈ rs -> errs res -> exists first, reply = Some (ReplyRes first) /\ first_in errs rs first) /\
      (forall res, Some res ∈ rs -> negative res -> Forall (fun o => exists res, o = Some res /\ ~ errs res) rs ->
        exists neg, reply = Some (ReplyRes neg) /\ Some neg ∈ rs /\ negative neg) /\
      (Forall (fun o => o = None) rs -> reply = Some (ReplyStr NO_BACKENDS)) /\
      match reply with
      | Some (ReplyRes res) => Some res ∈ rs
      | Some (ReplyStr bs) => bs = NO_BACKENDS /\ None ∈ rs
      | None => False
      end
  end.
Proof.
  intros Hn. unfold write_handler. destruct (now_nanos w) as [start w1]. destruct policy.
  2:{ destruct n as [|n]; [lia|]. eexists. split; [reflexivity|done]. }
  rewrite reduce_strongest. set (rs := res_any rctx <$> seq 0 n).
  assert (head rs = Some (res_any rctx 0)) as Hhead by (destruct n; [lia|done]).
  pose proof (strongest_cases rs) as Hc. destruct (strongest rs) as [reply rank]. exists (Some reply). split; [done|].
  by apply write_all_cases.
Qed.

(** How the client of a write takes a reply: a success, a negative answer, or an
    error. *)
Definition write_class (reply : option Reply) : bytes :=
  match reply with
  | Some (ReplyRes res) =>
      if res_ok res
      then if bool_decide (res_code res ∈ [MCMC_CODE_STORED; MCMC_CODE_DELETED; MCMC_CODE_OK]) then str "stored" else str "negative"
      else str "error"
  | _ => str "error"
  end.

Lemma write_class_label reply : outcome_label (from_utf8_lossy (write_class reply)) = write_class reply.
Proof. unfold write_class. by repeat case_match. Qed.

Lemma write_class_rank res : write_class (Some (ReplyRes res)) = write_outcome (write_rank (Some res)).
Proof. cbn. rewrite success_code. destruct (res_ok res); cbn; [|done]. by case_bool_decide. Qed.

Lemma strongest_class rs : write_outcome (strongest rs).2 = write_class (Some (strongest rs).1).
Proof.
  unfold strongest. pose proof (first_of_spec 3 rs) as H3.
  destruct (first_of 3 rs) as [res|]; [cbn [fst snd]; by rewrite write_class_rank, (proj2 H3)|].
  case_bool_decide; [done|]. pose proof (first_of_spec 2 rs) as H2. pose proof (first_of_spec 1 rs) as H1.
  destruct (first_of 2 rs) as [res|]; [cbn [fst snd]; by rewrite write_class_rank, (proj2 H2)|].
  destruct (first_of 1 rs) as [res|]; [cbn [fst snd]; by rewrite write_class_rank, (proj2 H1)|done].
Qed.

(** An observation adds one to its series and leaves every other alone. *)
Definition counted (l : RequestLabels) (w w' : World PC) : Prop :=
  forall l', count_at l' (requests (w_metrics w')) =
    if bool_decide (l' = l) then (count_at l' (requests (w_metrics w)) + 1) mod 2 ^ 64
    else count_at l' (requests (w_metrics w)).

Lemma observe_counted prefix op outcome start (w : World PC) :
  counted (mkRequestL (from_utf8_lossy prefix) (op_label (from_utf8_lossy op)) (outcome_label (from_utf8_lossy outcome)))
    w (lua_observe prefix op outcome start w).
Proof.
  intros l'. unfold lua_observe. pose proof (since_metrics start w) as Hm. destruct (since start w) as [d w1]. cbn in Hm.
  cbn [with_metrics w_metrics]. rewrite Hm. unfold observe_request. set (l := mkRequestL _ _ _).
  transitivity (count_at l' (at_labels l counter_inc (requests (w_metrics w)))); [by destruct d|].
  rewrite count_at_inc. by case_decide; [rewrite bool_decide_true|rewrite bool_decide_false].
Qed.

Lemma now_nanos_metrics (w : World PC) : w_metrics (now_nanos w).2 = w_metrics w.
Proof. unfold now_nanos, clock_origin. by destruct (w_origin w). Qed.

Lemma fanout_to (r : Request) n h :
  (h < n)%nat ->
  List.filter (fun x => bool_decide (h ∈ x.2)) (fanout_write r n) = [(mk_request (raw_line r ++ crlf) (raw_value r), [h])].
Proof.
  intros Hh. unfold fanout_write. set (copy := mk_request _ _).
  assert (forall a m, List.filter (fun x => bool_decide (h ∈ x.2)) ((fun k => (copy, [k])) <$> seq a m) =
    if decide (a <= h < a + m)%nat then [(copy, [h])] else []) as H.
  { intros a m. revert a. induction m as [|m IH]; intros a; cbn [seq fmap list_fmap List.filter].
    { rewrite decide_False by lia. done. }
    rewrite IH. cbn [snd]. destruct (decide (h = a)) as [->|Hne].
    - rewrite bool_decide_true by set_solver. rewrite decide_False, decide_True by lia. done.
    - rewrite bool_decide_false by set_solver. destruct (decide (S a <= h < S a + m)%nat);
        [rewrite decide_True by lia|rewrite decide_False by lia]; done. }
  rewrite H, decide_True by lia. done.
Qed.

(** C16: a write is counted once, in the series of its keyspace, under the outcome
    its client sees: [stored] for a response with the code of a stored, deleted or
    plain success, [negative] for any other response the protocol calls fine,
    [error] for an error response and for the gateway's own text.  Every configured
    pool is sent one request, of its own and to it alone, with the line and the
    value of the client's, whatever the policy waits for, and nothing else is
    sent. *)
Theorem write_outcome_mirrors_reply rctx n prefix policy r (w : World PC) :
  (0 < n)%nat ->
  exists reply sent w', write_handler rctx n prefix policy r w = mkHandled (Ok reply) sent w' /\
    counted (mkRequestL (from_utf8_lossy prefix) (str "write") (write_class reply)) w w' /\
    (forall h, (h < n)%nat -> exists copy,
       List.filter (fun x => bool_decide (h ∈ x.2)) sent = [(copy, [h])] /\
       raw_line copy = raw_line r /\ raw_value copy = raw_value r) /\
    length sent = n.
Proof.
  intros Hn. unfold write_handler. pose proof (now_nanos_metrics w) as Hw. destruct (now_nanos w) as [start w1]. cbn in Hw.
  assert (forall reply, counted (mkRequestL (from_utf8_lossy prefix) (str "write") (write_class reply)) w
    (lua_observe prefix (str "write") (write_class reply) (Some start) w1)) as Hc.
  { intros reply l'. rewrite <- Hw. pose proof (observe_counted prefix (str "write") (write_class reply) (Some start) w1 l') as H.
    by rewrite write_class_label in H. }
  assert ((forall h, (h < n)%nat -> exists copy,
       List.filter (fun x => bool_decide (h ∈ x.2)) (fanout_write r n) = [(copy, [h])] /\
       raw_line copy = raw_line r /\ raw_value copy = raw_value r) /\ length (fanout_write r n) = n) as [Hs Hl].
  { split; [|unfold fanout_write; by rewrite length_fmap, length_seq]. intros h Hh. eexists.
    split; [by apply fanout_to|]. by rewrite mk_request_line, mk_request_value. }
  destruct policy.
  - rewrite reduce_strongest. set (rs := res_any rctx <$> seq 0 n). pose proof (strongest_class rs) as E.
    destruct (strongest rs) as [reply rank]. cbn [fst snd] in E. rewrite E. eauto 10.
  - destruct n as [|n]; [lia|]. do 3 eexists. split_and!; [reflexivity| |done|done].
    replace (write_outcome (write_rank (wait_handle rctx 0))) with (write_class (ReplyRes <$> wait_handle rctx 0)); [apply Hc|].
    destruct (wait_handle rctx 0); [apply write_class_rank|done].
Qed.
End Writes.

(** ** Reads *)

(** What the proxy documents of prefix routing. *)
Class McpRouting (MP : McpPools) := {
  mcp_route : Router -> bytes -> Fgen;
  (** the key up to the first stop character selects *)
  route_prefix rt p rest : ~ (rt_stop rt ∈ p) -> mcp_route rt (p ++ rt_stop rt :: rest) = default (rt_default rt) (rt_map rt !! p);
}.

(** A response the native side can read: its [t], if any, fits 64 bits, and so
    does its time. *)
Definition usable (o : option Res) : Prop :=
  match o with
  | None => True
  | Some res => (forall f, parse_t (res_line res) <> VFloat f) /\ (forall z, res_elapsed res = Some z -> is_i64 z)
  end.

Lemma tonumber_int v z : tonumber v = VInt z -> is_i64 z.
Proof.
  unfold tonumber. set (n := match v with [] => 0 | _ => _ end). unfold is_i64.
  destruct (Z.leb_spec I64_MIN n), (Z.leb_spec n I64_MAX); cbn; try done. by intros [= <-].
Qed.

Lemma first_t_shape toks :
  match first_t toks with VNil => True | VInt z => is_i64 z | VFloat _ => True | _ => False end.
Proof.
  induction toks as [|tok toks IH]; [done|]. cbn. destruct (match_t tok) as [v|]; [|done].
  destruct (tonumber v) eqn:E; try done; try (by unfold tonumber in E; destruct (_ && _) in E).
  by eapply tonumber_int.
Qed.

Lemma make_projectable key pool o : text pool -> usable o -> projectable (make key pool o).
Proof.
  intros Hp Hu. unfold make. destruct o as [res|]; [|by constructor].
  destruct Hu as [Ht He]. destruct (classify_res (Some res)); (constructor; cbn; [done| |done]); [|done|done].
  unfold parse_t in *. destruct (res_line res) as [l|]; [|done]. pose proof (first_t_shape (words l)) as H.
  destruct (first_t (words l)) eqn:E; try done. by destruct (Ht f).
Qed.

(** The entries of a fan-out: one per pool name, from the response of its handle. *)
Definition fanout (key : bytes) (names : list bytes) (rs : nat -> option Res) : list LuaEntry :=
  imap (fun j p => make key p (rs j)) names.

Lemma build_fanout key names rs n :
  length names = n -> build key names (rs <$> seq 0 n) = fanout key names rs.
Proof.
  intros Hn. unfold build, fanout. apply imap_ext. intros j p Hj. f_equal.
  rewrite list_lookup_fmap, lookup_seq_lt by (apply lookup_lt_Some in Hj; lia). done.
Qed.

Lemma fanout_lookup key names rs j e :
  fanout key names rs !! j = Some e -> exists p, names !! j = Some p /\ e = make key p (rs j).
Proof. unfold fanout. rewrite list_lookup_imap. intros (p & Hp & He)%fmap_Some. eauto. Qed.

Lemma fanout_forall (P : LuaEntry -> Prop) key names rs :
  (forall j p, names !! j = Some p -> P (make key p (rs j))) -> Forall P (fanout key names rs).
Proof. intros H. apply Forall_lookup. intros j e (p & Hp & ->)%fanout_lookup. by apply H. Qed.

Lemma length_fanout key names rs : length (fanout key names rs) = length names.
Proof. apply length_imap. Qed.

(** Where a reply comes from: a response of some handle, or the gateway's own
    text. *)
Definition reply_origin (rs : nat -> option Res) (n : nat) (reply : Reply) : Prop :=
  match reply with
  | ReplyRes res => exists j, (j < n)%nat /\ rs j = Some res
  | ReplyStr bs => bs = MISS_REPLY \/ bs = ALL_READ_ERR \/ exists body, bs = va_reply body
  end.

Lemma no_winner_origin es : forall any ce,
  match no_winner_reply es any ce with
  | ReplyRes res => ce = Some res \/ exists e, e ∈ es /\ le_res e = Some res
  | ReplyStr bs => bs = MISS_REPLY \/ bs = ALL_READ_ERR
  end.
Proof.
  induction es as [|e es IH]; intros any ce; cbn [no_winner_reply].
  { destruct any; [by left|]. destruct ce; [by left|by right]. }
  case_bool_decide.
  - destruct (le_res e) as [res|] eqn:E; [right; exists e; set_solver|]. specialize (IH true ce).
    destruct (no_winner_reply es true ce); [|done]. set_solver.
  - match goal with |- context [no_winner_reply es any ?c] => specialize (IH any c) end.
    destruct (no_winner_reply es any _); [|done]. destruct IH as [IH|(e' & ? & ?)]; [|set_solver].
    destruct (le_status e), (le_res e) eqn:E, ce; try (by left); simplify_eq; right; exists e; set_solver.
Qed.

Lemma lua_reply_origin key names rs v : reply_origin rs (length names) (lua_reply v (fanout key names rs)).
Proof.
  assert (forall e res, e ∈ fanout key names rs -> le_res e = Some res -> exists j, (j < length names)%nat /\ rs j = Some res) as Hin.
  { intros e res [j Hj]%list_elem_of_lookup He. apply fanout_lookup in Hj as (p & Hp & ->). exists j.
    rewrite make_res in He. split; [by eapply lookup_lt_Some|done]. }
  assert (reply_origin rs (length names) (no_winner_reply (fanout key names rs) false None)) as Hn.
  { pose proof (no_winner_origin (fanout key names rs) false None) as H.
    destruct (no_winner_reply _ _ _); cbn; [destruct H as [|(e & ? & ?)]; [done|by eapply Hin]|tauto]. }
  destruct v as [i|bs|]; cbn [lua_reply]; [|cbn; eauto|done].
  destruct (if 1 <=? i then _ else None) as [e|] eqn:E; cbn [mbind option_bind]; [|done].
  destruct (le_res e) as [res|] eqn:Er; [|done]. eapply Hin; [|done]. destruct (1 <=? i); [|done].
  by eapply list_elem_of_lookup_2.
Qed.

(** *** Framing *)

(** A client reading a meta value response without flags: the length, then that
    many bytes and the end of line. *)
Definition va_client (bs : bytes) : option bytes :=
  body ← strip_prefix (str "VA ") bs;
  '(len, rest) ← take_line body;
  n ← parse_decimal len;
  if bool_decide (drop (Z.to_nat n) rest = crlf) then Some (take (Z.to_nat n) rest) else None.

(** C40: a client reads back from the reply to a synthesized result exactly the
    bytes the merge produced, whatever they are: line ends and framing inside them
    do no harm. *)
Theorem synthesized_roundtrip result bs entries :
  result = Synthesized bs ->
  exists reply, lua_reply (lua_value result) entries = ReplyStr reply /\ va_client reply = Some bs /\
    reply_class (ReplyStr reply) = str "hit".
Proof.
  intros ->. exists (va_reply bs). split; [done|]. unfold va_client, va_reply. rewrite strip_prefix_app. cbn [mbind option_bind].
  rewrite take_line_app by apply decimal_no_cr. cbn [mbind option_bind].
  rewrite parse_decimal_decimal by apply zlen_nonneg. cbn [mbind option_bind].
  rewrite zlen_to_nat, drop_app_length, take_app_length. by rewrite bool_decide_true.
Qed.

(** *** First hit *)

(** The first response of a class. *)
Definition first_class (s : Status) (rs : list (option Res)) : option Res :=
  mjoin (List.find (fun o => bool_decide (is_Some o) && bool_decide (classify_res o = s)) rs).

(** What a client of the default merge is owed: the first hit in pool order, else
    the first concrete miss, else the first concrete error, else the gateway's. *)
Definition first_hit_reply (rs : list (option Res)) : Reply :=
  match first_class Hit rs, first_class Miss rs, first_class Error rs with
  | Some res, _, _ | None, Some res, _ | None, None, Some res => ReplyRes res
  | None, None, None => ReplyStr ALL_READ_ERR
  end.

Lemma first_class_cons s o rs :
  first_class s (o :: rs) =
  match o with
  | Some res => if bool_decide (classify_res (Some res) = s) then Some res else first_class s rs
  | None => first_class s rs
  end.
Proof.
  unfold first_class. cbn [List.find]. destruct o as [res|].
  - rewrite bool_decide_true by eauto. cbn [andb]. by case_bool_decide.
  - by rewrite bool_decide_false by (by intros []).
Qed.

Lemma no_winner_first es : forall ce,
  Forall built es ->
  no_winner_reply es false ce =
  match first_class Miss (le_res <$> es), ce, first_class Error (le_res <$> es) with
  | Some res, _, _ | None, Some res, _ | None, None, Some res => ReplyRes res
  | None, None, None => ReplyStr ALL_READ_ERR
  end.
Proof.
  induction es as [|e es IH]; intros ce Hb; [by destruct ce|]. inversion Hb as [|? ? He Hes]; subst. unfold built in He.
  cbn [no_winner_reply fmap list_fmap]. rewrite !first_class_cons. rewrite He. destruct (le_res e) as [res|] eqn:Er.
  - destruct (classify_res (Some res)); [rewrite !bool_decide_false by done|rewrite bool_decide_true by done; done|].
    + rewrite IH by done. done.
    + rewrite (bool_decide_false (Error = Miss)), bool_decide_true by done. rewrite IH by done.
      by destruct (first_class Miss (le_res <$> es)), ce, (first_class Error (le_res <$> es)).
  - cbn [classify_res]. rewrite bool_decide_false by done. by rewrite IH.
Qed.

Lemma first_hit_loop_class es : forall i,
  Forall built es ->
  match FirstHit.loop i (as_views (owned_of <$> es)) with
  | Winner j => i <= j /\ exists e, es !! Z.to_nat (j - i) = Some e /\ le_res e = first_class Hit (le_res <$> es) /\ is_Some (le_res e)
  | MissResult => first_class Hit (le_res <$> es) = None
  | Synthesized _ => False
  end.
Proof.
  induction es as [|e es IH]; intros i Hb; [done|]. inversion Hb as [|? ? He Hes]; subst. unfold built in He.
  cbn [fmap list_fmap as_views FirstHit.loop]. rewrite first_class_cons. cbn [status owned_of o_status].
  change (list_fmap _ _ (fun o => mkEntry (o_key o) (o_pool o) (o_status o) (o_t o) (o_value o) (o_line o)) (list_fmap _ _ owned_of es))
    with (as_views (owned_of <$> es)).
  case_bool_decide as E.
  - split; [lia|]. rewrite Z.sub_diag. exists e. split; [done|]. rewrite E in He.
    destruct (le_res e) as [res|]; [|done]. rewrite bool_decide_true by done. eauto.
  - specialize (IH (i + 1) Hes).
    assert (match le_res e with
      | Some res => if bool_decide (classify_res (Some res) = Hit) then Some res else first_class Hit (le_res <$> es)
      | None => first_class Hit (le_res <$> es) end = first_class Hit (le_res <$> es)) as ->.
    { destruct (le_res e); [|done]. rewrite bool_decide_false; congruence. }
    destruct (FirstHit.loop _ _) as [j| |]; [|done|done]. destruct IH as (Hj & e' & He' & H'). split; [lia|].
    exists e'. split; [|done]. by replace (Z.to_nat (j - i)) with (S (Z.to_nat (j - (i + 1)))) by lia.
Qed.

Lemma first_hit_selects es :
  Forall built es ->
  lua_reply (lua_value (FirstHit.apply (as_views (owned_of <$> es)))) es = first_hit_reply (le_res <$> es).
Proof.
  intros Hb. pose proof (first_hit_loop_class es 0 Hb) as H. unfold FirstHit.apply, first_hit_reply.
  destruct (FirstHit.loop _ _) as [j| |]; [|done|].
  - destruct H as (Hj & e & He & Hr & [res Hres]). cbn [lua_value lua_reply].
    rewrite (proj2 (Z.leb_le 1 (j + 1))) by lia. replace (j + 1 - 1) with (j - 0) by lia. rewrite He. cbn [mbind option_bind].
    by rewrite Hres, <- Hr, Hres.
  - cbn [lua_value lua_reply]. by rewrite H, no_winner_first.
Qed.

Section Reads.
Context {ML : Mlua} {MB : MluaBuild ML} {WT : Wasmtime} {WL : WasmtimeLaws WT} {PC : PromClient} {PL : PromClientLaws PC}.
Context {LC : LogCrate} {MP : McpPools} {MR : McpRequests} {RL : McpRequestsLaws MR} {RT : McpRouting MP}.

(** *** Routing *)

Lemma new_handles_resolved (pools : gmap bytes Pool) names ps :
  resolved pools names ps -> length (new_handles ps) = length names.
Proof.
  induction 1 as [|n p names ps [[q ->] _] _ IH]; [done|]. cbn. by rewrite IH.
Qed.

(** What a router sends to a prefix. *)
Definition read_route (registries : Registries (World PC)) (kss : gmap bytes Keyspace) (p : bytes) : Fgen :=
  if bool_decide (p = str "__mcgw") then
    CountingFgen (str "__mcgw") (str "read") (str "hit") (names_reply (lua_names registries).*2)
  else if bool_decide (p = str "__udf") then CountingFgen (str "__udf") (str "read") (str "error") UDF_NOT_SUPPORTED
  else match kss !! p with
       | Some ks => read_fgen ks
       | None => CountingFgen (str "__unknown__") (str "read") (str "error") UNKNOWN_KEYSPACE
       end.

Definition write_route (kss : gmap bytes Keyspace) (p : bytes) : Fgen :=
  if bool_decide (p = str "__mcgw") then CountingFgen (str "__mcgw") (str "write") (str "error") UDF_NOT_SUPPORTED
  else if bool_decide (p = str "__udf") then CountingFgen (str "__udf") (str "write") (str "error") UDF_NOT_SUPPORTED
  else match kss !! p with
       | Some ks => write_fgen ks
       | None => CountingFgen (str "__unknown__") (str "write") (str "error") UNKNOWN_KEYSPACE
       end.

Lemma route_spec registries kss cmd p rest :
  ~ (colon ∈ p) ->
  mcp_route (attach registries kss cmd) (p ++ colon :: rest) =
  match cmd with CMD_MG => read_route registries kss p | CMD_MS | CMD_MD => write_route kss p end.
Proof.
  intros Hp. unfold attach, build_routers, read_route, write_route.
  destruct cmd; rewrite route_prefix by done; cbn [rt_map rt_default];
    (case_bool_decide; [subst; by rewrite lookup_insert_eq|rewrite lookup_insert_ne by done]);
    (case_bool_decide; [subst; by rewrite lookup_insert_eq|rewrite lookup_insert_ne by done]);
    rewrite lookup_fmap; by destruct (kss !! p).
Qed.

(** *** The merge call *)

Lemma reg_has_apply r name es (w : World PC) :
  reg_has r name = true -> exists result, (reg_apply r name es w).1 = Some result.
Proof.
  unfold reg_has, reg_apply, Registry.has, Registry.get, bt_contains. destruct (bt_get name (by_name (builtins r))) as [m|].
  - intros _. destruct (apply m es w). by eexists.
  - destruct (bt_get name (wasm r)) as [e|]; [|done]. intros _. destruct (apply (we_merge e) es w). by eexists.
Qed.

Lemma reg_missing r name es (w : World PC) : reg_has r name = false -> reg_apply r name es w = (None, w).
Proof.
  unfold reg_has, reg_apply, Registry.has, Registry.get, bt_contains. destruct (bt_get name (by_name (builtins r))); [done|].
  by destruct (bt_get name (wasm r)).
Qed.

Lemma lua_merge_entries r name es opts (w : World PC) :
  regs_ok r -> lua_has_merge r name = true -> Forall projectable es -> zlen es <= I64_MAX ->
  (forall bs, create_string bs = Ok bs) ->
  exists result w1 w2 seconds,
    reg_apply r name (as_views (owned_of <$> es)) w1 = (Some result, w2) /\ w_metrics w1 = w_metrics w /\
    valid_result (zlen es) result /\
    (lua_merge r name (new_seq (entry_table <$> es)) opts w).1 = Ok (lua_value result) /\
    exists w3, w_metrics w3 = w_metrics w2 /\
      (lua_merge r name (new_seq (entry_table <$> es)) opts w).2 =
      observe_read_dispatch name seconds (owned_of <$> es) result opts w3.
Proof.
  intros Hr Hh Hp Hlen Hc. unfold lua_merge. unfold lua_has_merge in Hh.
  assert (utf8_valid name = true) as Hu.
  { unfold from_utf8 in Hh. destruct (utf8_valid name); [done|]. cbn in Hh.
    rewrite reg_has_spec in Hh by done. apply bool_decide_eq_true in Hh as [m Hm].
    rewrite lookup_table_of in Hm by (by apply regs_ok_wf). exfalso. revert Hm.
    destruct Hr as [Hb _ Ht]. rewrite Hb. cbn. destruct (bt_get [] (wasm r)) eqn:E; [|done].
    intros _. by destruct (Ht _ _ E) as (? & _). }
  unfold name_str. rewrite from_utf8_valid in * by done. cbn [ok_or default] in *.
  rewrite project_entries by done. cbn [Instant_now]. set (w1 := mkWorld _ _ _ _ _ _ _).
  destruct (reg_has_apply r name (as_views (owned_of <$> es)) w1 Hh) as [result Hres].
  pose proof (reg_apply_good r name (as_views (owned_of <$> es)) w1 Hr) as Hg.
  destruct (reg_apply r name (as_views (owned_of <$> es)) w1) as [o w2] eqn:Ea. cbn in Hres. subst o. destruct Hg as [Hv _].
  assert (zlen (as_views (owned_of <$> es)) = zlen es) as Hz by (unfold as_views; by rewrite !zlen_fmap).
  rewrite Hz in Hv. exists result, w1, w2. eexists. split_and!; [done|done|done| |eexists; split; [|reflexivity]; reflexivity].
  cbn [fst]. destruct result as [i|bs|]; [|by rewrite Hc|done]. cbn in Hv. unfold try_i64.
  by rewrite (proj2 (Z.leb_le (i + 1) I64_MAX)) by lia.
Qed.

(** *** From the key to the reply *)

Lemma flags_added flags r f : f ∈ flags \/ has_flag r f = true -> has_flag (foldl flag_add r flags) f = true.
Proof.
  revert r. induction flags as [|g flags IH]; intros r H; cbn; [by destruct H; [set_solver|]|].
  apply IH. destruct H as [[->|H]%elem_of_cons|H]; [right; apply flag_add_has|by left|right; by apply flag_add_keeps].
Qed.

(** A keyspace of a configuration in service: its lists have no holes and name
    pools in UTF-8, and the pools were built. *)
Record in_service (c : Config) (pools : gmap bytes Pool) (k : KsCfg) : Prop := {
  is_config : config_ok c;
  is_pools : dom pools = list_to_set (p_name <$> c_pools c);
  is_keyspace : k ∈ c_keyspaces c;
  is_sized : sized (k_read k);
  is_text : Forall text (items (k_read k));
}.

Lemma read_routed c pools k registries rest :
  in_service c pools k ->
  exists handles, length handles = length (items (k_read k)) /\
    mcp_route (attach registries (keyspaces_build (c_keyspaces c) pools) CMD_MG) (k_prefix k ++ colon :: rest) =
    ReadFgen handles (k_prefix k) (k_read k) (k_merge k) (k_flags k).
Proof.
  intros [[_ _ Hks Hnd] Hd Hin _ _]. rewrite Forall_forall in Hks. destruct (Hks k Hin) as [(_ & Hc & Hres) Hr _].
  exists (new_handles ((fun n => pools !! n) <$> items (k_read k))).
  split; [eapply new_handles_resolved, keyspace_of_resolved; [exact Hr|exact Hd]|].
  rewrite route_spec by done. unfold read_route, RESERVED in *.
  rewrite !bool_decide_false by set_solver. by rewrite keyspaces_build_lookup, find_unique by done.
Qed.

(** The dispatch of a read: what the handler makes of the merge's result. *)
Lemma read_handler_dispatch registries rctx n prefix names merge flags r (w : World PC) :
  regs_ok registries -> lua_has_merge registries merge = true -> sized names -> length (items names) = n ->
  Forall text (items names) -> (forall j, usable (res_any rctx j)) -> Z.of_nat n <= I64_MAX ->
  ~ (hash_sign ∈ req_key r) -> (forall bs, create_string bs = Ok bs) ->
  let es := fanout (req_key r) (items names) (res_any rctx) in
  exists result w1 w2,
    reg_apply registries merge (as_views (owned_of <$> es)) w1 = (Some result, w2) /\
    valid_result (zlen es) result /\
    exists w', read_handler registries rctx n prefix names merge flags r w =
      mkHandled (Ok (Some (lua_reply (lua_value result) es))) [(foldl flag_add r flags, seq 0 n)] w' /\
      counted (mkRequestL (from_utf8_lossy prefix) (str "read") (read_outcome result (owned_of <$> es))) w w' /\
      (forall pool s, count_at (mkBackendL pool (status_str s)) (backend_requests (w_metrics w')) =
         (count_at (mkBackendL pool (status_str s)) (backend_requests (w_metrics w)) +
          entries_of pool s (owned_of <$> es)) mod 2 ^ 64).
Proof.
  intros Hr Hh Hs Hn Ht Hu Hlen Hk Hc es. unfold read_handler. pose proof (now_nanos_metrics w) as Hw.
  destruct (now_nanos w) as [start w0]. cbn in Hw. unfold has_byte. rewrite bool_decide_false by done. cbv zeta.
  unfold read_row. unfold sized in Hs. rewrite Hs. unfold zlen. rewrite Hn, Z.leb_refl, Nat2Z.id, build_fanout by done. fold es.
  assert (Forall projectable es) as Hp.
  { apply fanout_forall. intros j p Hj. apply make_projectable; [|done]. by eapply Forall_lookup_1 in Ht. }
  assert (zlen es <= I64_MAX) as Hz by (unfold zlen, es; by rewrite length_fanout, Hn).
  destruct (lua_merge_entries registries merge es (Some (read_opts prefix start)) w0 Hr Hh Hp Hz Hc)
    as (result & w1 & w2 & seconds & Ha & Hw1 & Hv & Hm1 & w3 & Hw3 & Hm2).
  exists result, w1, w2. split_and!; [done|done|].
  destruct (lua_merge registries merge _ _ w0) as [v w']. cbn [fst snd] in Hm1, Hm2. subst v. exists w'. split; [done|].
  pose proof (reg_apply_traffic registries merge (as_views (owned_of <$> es)) w1 Hr) as [Hq Hb]. rewrite Ha in Hq, Hb. cbn in Hq, Hb.
  destruct (dispatch_records merge seconds (owned_of <$> es) result (Some (read_opts prefix start)) w3) as (Db & _ & Dq).
  rewrite <- Hm2 in Db, Dq. rewrite Hw3, Hq, Hw1, Hw in Dq. rewrite Hw3, Hb, Hw1, Hw in Db. split;
    [|intros pool s; rewrite <- status_label_str; apply Db].
  intros l. rewrite Dq. unfold read_series, attributed. cbn [mbind option_bind].
  unfold read_opts. rewrite (get_opt_string_str _ _ prefix) by reflexivity. cbn [opt_field fmap option_fmap option_map].
  destruct (bool_decide_reflect (l = mkRequestL (from_utf8_lossy prefix) (str "read") (read_outcome result (owned_of <$> es)))) as [->|E].
  - by rewrite bool_decide_true.
  - rewrite bool_decide_false; [done|]. intros [= E']. congruence.
Qed.

(** The multi-key form is refused. *)
Lemma read_handler_multikey registries rctx n prefix names merge flags r (w : World PC) :
  hash_sign ∈ req_key r ->
  exists w', read_handler registries rctx n prefix names merge flags r w =
      mkHandled (Ok (Some (ReplyStr MULTIKEY_UNSUPPORTED))) [] w' /\
    counted (mkRequestL (from_utf8_lossy prefix) (str "read") (str "error")) w w'.
Proof.
  intros Hk. unfold read_handler. pose proof (now_nanos_metrics w) as Hw. destruct (now_nanos w) as [start w0]. cbn in Hw.
  unfold has_byte. rewrite bool_decide_true by done. eexists. split; [done|]. intros l'. rewrite <- Hw.
  apply (observe_counted prefix (str "read") (str "error") (Some start) w0 l').
Qed.

(** A merge that is not registered (any more). *)
Lemma read_handler_unknown registries rctx n prefix names merge flags r (w : World PC) :
  lua_has_merge registries merge = false -> sized names -> length (items names) = n ->
  Forall text (items names) -> (forall j, usable (res_any rctx j)) -> ~ (hash_sign ∈ req_key r) ->
  exists e w', read_handler registries rctx n prefix names merge flags r w =
      mkHandled (Err (NativeError e)) [(foldl flag_add r flags, seq 0 n)] w' /\
    (e = UnknownMerge merge \/ utf8_valid merge = false /\ e = NameNotUtf8) /\ w_metrics w' = w_metrics w.
Proof.
  intros Hh Hs Hn Ht Hu Hk. unfold read_handler. pose proof (now_nanos_metrics w) as Hw.
  destruct (now_nanos w) as [start w0]. cbn in Hw. unfold has_byte. rewrite bool_decide_false by done. cbv zeta.
  unfold read_row. unfold sized in Hs. rewrite Hs. unfold zlen. rewrite Hn, Z.leb_refl, Nat2Z.id, build_fanout by done.
  set (es := fanout _ _ _). assert (Forall projectable es) as Hp.
  { apply fanout_forall. intros j p Hj. apply make_projectable; [|done]. by eapply Forall_lookup_1 in Ht. }
  unfold lua_merge, name_str. unfold lua_has_merge in Hh. unfold from_utf8 in *.
  destruct (utf8_valid merge) eqn:Eu; cbn [ok_or]; [|by eexists _, _; split; [done|]; split; [right|]].
  cbn [default] in Hh. rewrite project_entries by done. cbn [Instant_now]. rewrite reg_missing by done.
  eexists _, _. split; [done|]. split; [by left|done].
Qed.


Lemma fanout_res key names rs : le_res <$> fanout key names rs = rs <$> seq 0 (length names).
Proof.
  apply list_eq. intros j. rewrite !list_lookup_fmap. unfold fanout. rewrite list_lookup_imap.
  destruct (names !! j) as [p|] eqn:E; cbn.
  - rewrite lookup_seq_lt by (by eapply lookup_lt_Some). cbn. by rewrite make_res.
  - rewrite lookup_seq_ge by (by apply lookup_ge_None). done.
Qed.

(** C5: the default merge, end to end.  For a keyspace that names no merge, in
    any reachable state and with no condition on the modules on disk, the client
    of a read gets the response of the first pool in the configured order that
    hit; if none did the first miss, so that an outage of some pools is not
    reported over a miss; if none missed either the first pool's own error, and
    the gateway's error only when no pool answered at all. *)
Theorem default_read_end_to_end g c pools k at_build rctx r rest :
  gw_reachable g -> in_service c pools k -> k_merge k = DEFAULT_MERGE ->
  req_key r = k_prefix k ++ colon :: rest -> ~ (hash_sign ∈ req_key r) ->
  (forall j, usable (res_any rctx j)) -> zlen (items (k_read k)) <= I64_MAX -> (forall bs, create_string bs = Ok bs) ->
  let f := mcp_route (attach at_build (keyspaces_build (c_keyspaces c) pools) CMD_MG) (req_key r) in
  h_reply (run_fgen (sh_registries (gw_shared g)) f rctx r (gw_world g)) =
  Ok (Some (first_hit_reply (res_any rctx <$> seq 0 (length (items (k_read k)))))).
Proof.
  intros [Hr _]%gw_reachable_ok Hs Hm Hk Hh Hu Hlen Hc f. set (regs := sh_registries (gw_shared g)) in *.
  destruct (read_routed c pools k at_build rest Hs) as (handles & Hl & Hf). rewrite <- Hk in Hf.
  destruct Hs as [_ _ _ Hsz Ht].
  assert (Registry.get DEFAULT_MERGE (builtins regs) = Some first_hit) as Hget by (by rewrite (ok_builtins _ Hr)).
  destruct (read_handler_dispatch regs rctx (length (items (k_read k))) (k_prefix k) (k_read k) (k_merge k) (k_flags k) r (gw_world g))
    as (result & w1 & w2 & Ha & Hv & w' & Hrun & _); try done.
  { rewrite Hm. unfold lua_has_merge, reg_has, Registry.has, bt_contains. rewrite from_utf8_valid by done.
    unfold Registry.get in Hget. change (default [] (Some DEFAULT_MERGE)) with DEFAULT_MERGE. by rewrite Hget. }
  unfold f. rewrite Hf. cbn [run_fgen]. rewrite Hl, Hrun. cbn [h_reply].
  unfold reg_apply in Ha. rewrite Hm, Hget in Ha. cbn [first_hit pure_merge apply] in Ha. injection Ha as <- _.
  rewrite first_hit_selects by (apply fanout_forall; intros; apply make_built). by rewrite fanout_res.
Qed.

(** C17: keys the configuration does not name reach no backend and mint no label:
    whatever prefix a client sends that is not a configured one, nothing is
    forwarded, a fixed text is returned, and one request is counted under one of
    three fixed keyspace names. *)
Theorem unknown_prefix_contained regs at_build c pools cmd p rest rctx r (w : World PC) :
  config_ok c -> ~ (colon ∈ p) -> ~ (p ∈ k_prefix <$> c_keyspaces c) ->
  let f := mcp_route (attach at_build (keyspaces_build (c_keyspaces c) pools) cmd) (p ++ colon :: rest) in
  exists msg w' sentinel outcome,
    run_fgen regs f rctx r w = mkHandled (Ok (Some (ReplyStr msg))) [] w' /\
    sentinel ∈ [str "__unknown__"; str "__udf"; str "__mcgw"] /\
    counted (mkRequestL sentinel (match cmd with CMD_MG => str "read" | _ => str "write" end) outcome) w w' /\
    (p ∉ RESERVED -> sentinel = str "__unknown__" /\ msg = UNKNOWN_KEYSPACE /\ outcome = str "error").
Proof.
  intros [_ _ _ Hnd] Hp Hno f. unfold f. rewrite route_spec by done. unfold read_route, write_route.
  assert (keyspaces_build (c_keyspaces c) pools !! p = None) as ->.
  { rewrite keyspaces_build_lookup by done. destruct (List.find _ _) as [k|] eqn:E; [|done]. exfalso.
    apply List.find_some in E as [Hin E]. apply bool_decide_eq_true in E. apply Hno. rewrite <- E.
    by apply list_elem_of_fmap_2, list_elem_of_In. }
  assert (forall s op oc msg, s ∈ [str "__unknown__"; str "__udf"; str "__mcgw"] -> op_label (from_utf8_lossy op) = op ->
    outcome_label (from_utf8_lossy oc) = oc -> from_utf8_lossy s = s ->
    exists w', run_fgen regs (CountingFgen s op oc msg) rctx r w = mkHandled (Ok (Some (ReplyStr msg))) [] w' /\
      counted (mkRequestL s op oc) w w') as Hf.
  { intros s op oc msg _ Eop Eoc Es. eexists. split; [done|]. pose proof (observe_counted s op oc None w) as H.
    by rewrite Eop, Eoc, Es in H. }
  unfold RESERVED.
  destruct cmd; (case_bool_decide as E1; [|case_bool_decide as E2]);
    match goal with |- context [CountingFgen ?s ?op ?oc ?msg] =>
      destruct (Hf s op oc msg) as (w' & Hrun & Hcnt); [set_solver|done|done|done|];
      exists msg, w', s, oc; split_and!; [done|set_solver|done|]; intros Hres; try (split_and!; done); set_solver
    end.
Qed.
End Reads.
