(* ===== verification/RefRoutes.v ===== *)
(** * RefRoutes: concrete instances for the proxy's interfaces

    Small instances of the interfaces of [Lua], [Reload] and [Routes], a
    configuration with two pools and two keyspaces, and the witnesses that the
    hypotheses of the theorems about the Lua layer can hold. *)

From Stdlib Require Import String.
From S2P Require Import Prelude Text BTree Core Builtins WasmHost Sdk Boundary Examples RefEngine HostSafety TokenBucket Metrics Registries Paths UdfLoader Watcher Exporter Serve Logging Clib Lua Entries Dispatch Config Reload Gateway RefGateway Routes.

(** ** Instances *)

Definition record_strs (fs : list (bytes * Val)) : list (bytes * bytes) :=
  omap (fun kv => match lookup_field kv.1 fs with VStr s => Some (kv.1, s) | _ => None end) fs.
Definition record_ints (fs : list (bytes * Val)) : list (bytes * Z) :=
  omap (fun kv => match lookup_field kv.1 fs with VInt z => Some (kv.1, z) | _ => None end) fs.

Lemma find_omap {A} (pick : bytes -> option A) k (fs : list (bytes * Val)) :
  find_field k (omap (fun kv => (fun a => (kv.1, a)) <$> pick kv.1) fs) =
  if bool_decide (k ∈ fs.*1) then pick k else None.
Proof.
  unfold find_field. induction fs as [|[k' v] fs IH]; [done|].
  assert (bool_decide (k ∈ ((k', v) :: fs).*1) = bool_decide (k' = k) || bool_decide (k ∈ fs.*1)) as ->.
  { destruct (bool_decide_reflect (k' = k)); [apply bool_decide_eq_true; cbn; set_solver|].
    cbn [orb]. apply bool_decide_ext. cbn. set_solver. }
  cbn [omap list_omap fst].
  destruct (decide (k' = k)) as [->|Ek]; [rewrite (bool_decide_true (k = k)) by done|rewrite (bool_decide_false (k' = k)) by done].
  - cbn [orb]. destruct (pick k) as [a|] eqn:E; cbn [fmap option_fmap option_map].
    + cbn [List.find fst]. by rewrite bool_decide_true by done.
    + change (list_omap _ _ ?f fs) with (omap f fs). etrans; [exact IH|]. by destruct (bool_decide _).
  - cbn [orb]. destruct (pick k') as [a|]; cbn [fmap option_fmap option_map]; [|exact IH].
    cbn [List.find fst]. rewrite bool_decide_false by done. exact IH.
Qed.

Lemma lookup_field_keys k fs : ~ (k ∈ fs.*1) -> lookup_field k fs = VNil.
Proof.
  induction fs as [|[k' v] fs IH]; [done|]. intros H. cbn. rewrite bool_decide_false by set_solver. apply IH. set_solver.
Qed.

Lemma find_strs k fs : find_field k (record_strs fs) = match lookup_field k fs with VStr s => Some s | _ => None end.
Proof.
  pose proof (find_omap (fun k => match lookup_field k fs with VStr s => Some s | _ => None end) k fs) as H.
  unfold record_strs. rewrite (list_omap_ext _ (fun kv => (fun a => (kv.1, a)) <$> match lookup_field kv.1 fs with VStr s => Some s | _ => None end) fs fs).
  - rewrite H. case_bool_decide; [done|]. by rewrite lookup_field_keys.
  - apply Forall_Forall2_diag, Forall_forall. intros kv _. by destruct (lookup_field kv.1 fs).
Qed.

Lemma find_ints k fs : find_field k (record_ints fs) = match lookup_field k fs with VInt z => Some z | _ => None end.
Proof.
  pose proof (find_omap (fun k => match lookup_field k fs with VInt s => Some s | _ => None end) k fs) as H.
  unfold record_ints. rewrite (list_omap_ext _ (fun kv => (fun a => (kv.1, a)) <$> match lookup_field kv.1 fs with VInt s => Some s | _ => None end) fs fs).
  - rewrite H. case_bool_decide; [done|]. by rewrite lookup_field_keys.
  - apply Forall_Forall2_diag, Forall_forall. intros kv _. by destruct (lookup_field kv.1 fs).
Qed.

#[export] Program Instance ref_build : MluaBuild ref_lua := {|
  new_record fs := RRow (mkRow (record_strs fs) (record_ints fs));
  new_seq ts := RList ts;
|}.
Next Obligation. done. Qed.
Next Obligation.
  intros ts i tb _ H. change (ok_or (ts !! Z.to_nat (i - 1)) (MluaError (str "not a table")) = Ok tb). by rewrite H.
Qed.
Next Obligation. intros fs k s H. change (ok_or (find_field k (record_strs fs)) (MluaError (str "not a string")) = Ok s). by rewrite find_strs, H. Qed.
Next Obligation. intros fs k s H. change (Ok (E := LuaError) (find_field k (record_strs fs)) = Ok (Some s)). by rewrite find_strs, H. Qed.
Next Obligation. intros fs k H. change (Ok (E := LuaError) (find_field k (record_strs fs)) = Ok None). by rewrite find_strs, H. Qed.
Next Obligation. intros fs k z H _. change (Ok (E := LuaError) (find_field k (record_ints fs)) = Ok (Some z)). by rewrite find_ints, H. Qed.
Next Obligation. intros fs k H. change (Ok (E := LuaError) (find_field k (record_ints fs)) = Ok None). by rewrite find_ints, H. Qed.

#[export] Existing Instance puc_len.

#[export] Instance ref_pools : McpPools := {|
  Backend := bytes;
  Pool := list bytes;
  mcp_backend label _ _ := Ok label;
  mcp_pool backends _ _ := Ok backends;
|}.

Record Req := mkReq { rq_key : bytes; rq_line : bytes; rq_value : option bytes; rq_flags : list byte }.
#[export] Instance ref_requests : McpRequests := {|
  Request := Req;
  req_key := rq_key;
  raw_line := rq_line;
  raw_value := rq_value;
  flag_add r f := mkReq (rq_key r) (rq_line r) (rq_value r) (rq_flags r ++ [f]);
  mk_request line value := mkReq [] (take (length line - 2) line) value [];
  MCMC_CODE_STORED := 8;
  MCMC_CODE_DELETED := 10;
  MCMC_CODE_OK := 15;
|}.
#[export] Program Instance ref_requests_laws : McpRequestsLaws ref_requests := {|
  has_flag r f := bool_decide (f ∈ rq_flags r);
|}.
Next Obligation. intros r f. cbn. apply bool_decide_eq_true. set_solver. Qed.
Next Obligation. intros r f g. cbn. rewrite !bool_decide_eq_true. set_solver. Qed.
Next Obligation. intros line value. cbn [mk_request raw_line ref_requests rq_line]. rewrite take_app_length'; [done|]. rewrite length_app. cbn. lia. Qed.
Next Obligation. done. Qed.

(** The key up to a character. *)
Fixpoint before (c : byte) (s : bytes) : option bytes :=
  match s with
  | [] => None
  | b :: s => if bool_decide (b = c) then Some [] else (fun p => b :: p) <$> before c s
  end.

Lemma before_app c p rest : ~ (c ∈ p) -> before c (p ++ c :: rest) = Some p.
Proof.
  induction p as [|b p IH]; intros H; cbn; [by rewrite bool_decide_true|].
  rewrite bool_decide_false by set_solver. rewrite IH by set_solver. done.
Qed.

#[export] Program Instance ref_routing : McpRouting ref_pools := {|
  mcp_route rt key := default (rt_default rt) (before (rt_stop rt) key ≫= fun p => rt_map rt !! p);
|}.
Next Obligation. intros rt p rest H. cbn. by rewrite before_app. Qed.

(** ** A configuration *)

Definition demo_pool (name : bytes) : PoolCfg := mkPool name [name ++ str ":11211"] None None.
Definition both : Seq := mkSeq [str "a"; str "b"] 2.
Definition demo_ks : KsCfg := mkKs (str "user") both both All (str "concat") [].
Definition plain_ks : KsCfg := mkKs (str "session") both both First DEFAULT_MERGE [].
Definition demo_config : Config := mkConfig [demo_pool (str "a"); demo_pool (str "b")] 2 [demo_ks; plain_ks] 2.

(** The registry the demo deployment starts with. *)
Definition demo_regs : Registries (World ref_prom) :=
  match demo_init with (Ok sh, _, _) => sh_registries sh | _ => demo_builtins end.

Lemma demo_config_ok : config_ok demo_config.
Proof.
  apply (validate_accepts (PC := ref_prom) (fun _ => demo_regs) (render demo_config)). vm_compute. reflexivity.
Qed.


Definition demo_pools : gmap bytes Pool :=
  {[ str "a" := [str "a/a:11211"]; str "b" := [str "b/b:11211"] ]}.

Definition serving : GwModule := mkGwModule (Some demo_config) (Some demo_config).

(** A good file replaces a good configuration: pools and routes are there. *)
Definition good_load : LoadInput ref_prom := mkLoadInput (fun _ => demo_regs) (Observer false) (Ok (Ok (render demo_config))).

Lemma reload_builds_witness :
  exists pools gw' log w', mcp_config_pools good_load (str "/conf/config.lua") serving demo_world = (Ok (pools, demo_config), gw', log, w') /\
  exists pool, pools !! str "a" = Some pool /\ pool_of (demo_pool (str "a")) pool.
Proof.
  destruct (reload_builds good_load (str "/conf/config.lua") serving demo_config demo_world eq_refl demo_config_ok)
    as (c & gw' & log & w' & E & _ & _ & H).
  assert (load (li_snapshots good_load) (str "/conf/config.lua") (li_loaded good_load) = Ok demo_config) as L
    by (vm_compute; reflexivity).
  assert (c = demo_config) as ->.
  { unfold load_config in E. rewrite L in E. injection E as <- _ _ _. reflexivity. }
  destruct (mcp_config_pools _ _ _ _) as [[[r gw''] log'] w''] eqn:Em. destruct r as [[pools c']|e].
  - destruct H as (-> & -> & -> & -> & _ & H & _). exists pools, gw', log, w'. split; [reflexivity|].
    apply (H (demo_pool (str "a"))). left.
  - unfold mcp_config_pools in Em. rewrite E in Em. unfold load_config in E. rewrite L in E. injection E as <- _ _.
    cbn [mbind result_bind build_pools gw_config] in Em.
    assert (exists pools, pools_build (c_pools demo_config) = Ok pools) as [pools Hp] by (eexists; reflexivity).
    rewrite Hp in Em. discriminate.
Defined.

(** A file that names an address without a port passes the validation, becomes the
    last good configuration, and raises when its pools are built. *)
Definition portless : Config := mkConfig [mkPool (str "a") [str "cache.internal"] None None] 1 [] 0.
Definition portless_load : LoadInput ref_prom := mkLoadInput (fun _ => demo_regs) (Observer false) (Ok (Ok (render portless))).

Lemma portless_reload_raises :
  exists log w', mcp_config_pools portless_load (str "/conf/config.lua") serving demo_world =
    (Err (InvalidAddr (str "cache.internal")), mkGwModule (Some portless) (Some portless), log, w').
Proof.
  assert (load (li_snapshots portless_load) (str "/conf/config.lua") (li_loaded portless_load) = Ok portless) as L
    by (vm_compute; reflexivity).
  unfold mcp_config_pools, load_config. rewrite L. do 2 eexists. reflexivity.
Qed.

(** ** Requests *)

Definition demo_hit (v : bytes) : Res := va_response [str "t30"] v (Some 90).
Definition demo_miss : Res := mkRes true false 1 None None None (Some 80).
Definition demo_rctx : Rctx :=
  mkRctx (fun j => match j with O => Some demo_miss | S O => Some (demo_hit (str "v")) | _ => None end) (fun _ => None).
Definition demo_req (key : bytes) : Request := mkReq key (str "mg " ++ key) None [].

Lemma demo_usable j : usable (res_any demo_rctx j).
Proof.
  destruct j as [|[|j]]; cbn; [| |done]; (split; [by intros f; vm_compute|]); intros z [= <-]; split; vm_compute; discriminate.
Qed.

Lemma demo_in_service k : k ∈ c_keyspaces demo_config -> in_service demo_config demo_pools k.
Proof.
  intros H. split; [exact demo_config_ok|unfold demo_pools; rewrite dom_insert_L, dom_singleton_L; set_solver|exact H| |];
    (apply elem_of_cons in H as [->|H]; [|apply list_elem_of_singleton in H as ->]); first [done|repeat constructor].
Qed.


Lemma default_read_end_to_end_witness :
  exists g, gw_reachable g /\
  h_reply (run_fgen (sh_registries (gw_shared g))
    (mcp_route (attach demo_regs (keyspaces_build (c_keyspaces demo_config) demo_pools) CMD_MG) (str "session:1"))
    demo_rctx (demo_req (str "session:1")) (gw_world g)) = Ok (Some (ReplyRes (demo_hit (str "v")))).
Proof.
  destruct demo_serving as (g & Hr & _). exists g. split; [exact Hr|].
  apply (default_read_end_to_end (MP := ref_pools) g demo_config demo_pools plain_ks demo_regs demo_rctx (demo_req (str "session:1")) (str "1")).
  - exact Hr.
  - apply demo_in_service. vm_compute. right. left.
  - reflexivity.
  - reflexivity.
  - cbn. set_solver.
  - exact demo_usable.
  - vm_compute. discriminate.
  - reflexivity.
Defined.

Lemma unknown_prefix_contained_witness :
  exists msg w' sentinel outcome,
    run_fgen demo_regs
      (mcp_route (attach demo_regs (keyspaces_build (c_keyspaces demo_config) demo_pools) CMD_MG) (str "nope:1"))
      demo_rctx (demo_req (str "nope:1")) demo_world = mkHandled (Ok (Some (ReplyStr msg))) [] w' /\
    sentinel ∈ [str "__unknown__"; str "__udf"; str "__mcgw"] /\
    counted (mkRequestL sentinel (str "read") outcome) demo_world w'.
Proof.
  destruct (unknown_prefix_contained (MP := ref_pools) demo_regs demo_regs demo_config demo_pools CMD_MG (str "nope") (str "1") demo_rctx
    (demo_req (str "nope:1")) demo_world demo_config_ok ltac:(set_solver) ltac:(cbn; set_solver))
    as (msg & w' & s & oc & H1 & H2 & H3 & _).
  exists msg, w', s, oc. split; [exact H1|]. split; [exact H2|exact H3].
Defined.

Lemma write_outcome_mirrors_reply_witness :
  exists sent w', write_handler demo_rctx 2 (str "user") All (demo_req (str "user:1")) demo_world =
    mkHandled (Ok (Some (ReplyRes demo_miss))) sent w' /\
  counted (mkRequestL (str "user") (str "write") (str "negative")) demo_world w' /\ length sent = 2%nat.
Proof.
  destruct (write_outcome_mirrors_reply demo_rctx 2 (str "user") All (demo_req (str "user:1")) demo_world ltac:(lia))
    as (reply & sent & w' & H1 & H2 & _ & H3).
  assert (h_reply (write_handler demo_rctx 2 (str "user") All (demo_req (str "user:1")) demo_world) =
    Ok (Some (ReplyRes demo_miss))) as E by (vm_compute; reflexivity).
  rewrite H1 in E. injection E as ->. exists sent, w'. split; [exact H1|]. split; [exact H2|exact H3].
Defined.

Lemma synthesized_roundtrip_witness :
  exists reply, lua_reply (lua_value (Synthesized (str "x|y"))) [] = ReplyStr reply /\ va_client reply = Some (str "x|y").
Proof.
  destruct (synthesized_roundtrip (Synthesized (str "x|y")) (str "x|y") [] eq_refl) as (reply & H1 & H2 & _).
  exists reply. split; [exact H1|exact H2].
Defined.

(** A good file, then one that does not parse: the first stays in service. *)
Definition broken_load : LoadInput ref_prom := mkLoadInput (fun _ => demo_regs) (Observer false) (Err (str "unexpected symbol")).
Definition two_loads : list (LoadInput ref_prom * bytes) := [(good_load, str "config.lua"); (broken_load, str "config.lua")].

Lemma config_in_service_witness :
  (run_loads two_loads demo_world).1.2 = mkGwModule (Some demo_config) (Some demo_config) /\
  gauges_show demo_config (run_loads two_loads demo_world).2.
Proof.
  pose proof (config_in_service (PL := ref_prom_laws) two_loads demo_world) as H.
  assert (latest two_loads = Some demo_config) as L by (vm_compute; reflexivity).
  destruct (run_loads two_loads demo_world) as [[rs gw] w']. rewrite L in H. destruct H as (Hg & _ & _ & Hs).
  split; [exact Hg|]. exact (Hs (broken_load, str "config.lua") demo_config eq_refl eq_refl eq_refl).
Defined.

(** The first pool misses, the second errs: the client gets the error. *)
Definition broken_res : Res := mkRes false false 3 None None None None.
Definition split_rctx : Rctx :=
  mkRctx (fun j => match j with O => Some demo_miss | _ => Some broken_res end) (fun _ => Some demo_miss).

Lemma write_policies_witness :
  exists first, h_reply (write_handler split_rctx 2 (str "user") All (demo_req (str "user:1")) demo_world) =
    Ok (Some (ReplyRes first)) /\ first_in errs [Some demo_miss; Some broken_res] first.
Proof.
  destruct (write_policies split_rctx 2 (str "user") All (demo_req (str "user:1")) demo_world ltac:(lia))
    as (reply & H & _ & _ & He & _).
  destruct (He broken_res ltac:(cbn; set_solver) eq_refl) as (first & -> & Hf). exists first. split; [exact H|exact Hf].
Defined.

(** A pool that gave no response hides another pool's negative answer. *)
Lemma silent_pool_hides_negative :
  h_reply (write_handler (mkRctx (fun j => match j with O => Some demo_miss | _ => None end) (fun _ => None)) 2
    (str "user") All (demo_req (str "user:1")) demo_world) = Ok (Some (ReplyStr NO_BACKENDS)).
Proof. vm_compute. reflexivity. Qed.

(** The first negative answer in pool order is returned, whatever its code. *)
Lemma first_negative_returned code code' (H : ~ (code ∈ [MCMC_CODE_STORED; MCMC_CODE_DELETED; MCMC_CODE_OK])) :
  let res := mkRes true false code None None None None in
  let res' := mkRes true false code' None None None None in
  (reduce_write_all (mkRctx (fun j => match j with O => Some res | _ => Some res' end) (fun _ => None)) 2).1 = ReplyRes res.
Proof.
  cbv zeta. rewrite reduce_strongest.
  unfold strongest, first_of. cbn [seq fmap list_fmap res_any List.find]. rewrite !bool_decide_true by eauto.
  assert (write_rank (Some (mkRes true false code None None None None)) = 2) as -> by (apply rank_kinds; by split).
  assert (write_rank (Some (mkRes true false code' None None None None)) <> 3) as H3 by (intros E%rank_kinds; done).
  rewrite (proj2 (Z.eqb_neq _ _) H3). cbn. rewrite bool_decide_false by set_solver. done.
Qed.
